(** * hw5code: Gini split search and recursive decision-tree fitting

    A shallow embedding of [homework 05/hw5code.py]: the vectorised split
    search [find_best_split] and the class [DecisionTree] with its methods
    [_fit_node], [_predict_node], [fit] and [predict].

    Numbers.  The program is embedded twice.  First in exact arithmetic:
    numpy's float64 values are rationals ([Q], compared with [Qeq]);
    integer arrays (labels, counts, ranks) are [Z] or [nat] and are
    injected into [Q] where numpy's true division turns them into floats.
    Rounding, overflow, infinities and NaN are outside this first
    embedding.  Then, in the module [Over], over any arithmetic
    [Num.arith]: with [exact] it is the first embedding again, with
    [binary64] it computes operation by operation in IEEE double
    precision, as numpy does.  What depends on rounding (the gini values,
    the midpoints, the threshold masks of [_fit_node]) is stated over
    [Over].

    Exceptions.  Python exceptions are values of [exn]; a computation
    returns a [result].  The recursion of [_fit_node] is driven by a fuel
    argument, and [None] is the outcome of a run that needs more.

    Sorting.  [np.argsort] does not say in which order it leaves equal
    values; the statements about [find_best_split] are made for every
    index order that sorts the vector, [np.argsort] here being one. *)

From Stdlib Require Import String.
From Stdlib Require Import List ZArith QArith Qminmax Bool Lia Lqa Arith.
From Stdlib Require Import Permutation Sorted Morphisms SetoidList SetoidPermutation.
From Stdlib Require Floats Uint63.
Import ListNotations.

Local Open Scope Q_scope.

(* ===================================================================== *)
(** ** Exceptions and the result monad *)

Inductive exn : Type :=
| IndexError
| ValueError
| KeyError.

Inductive result (A : Type) : Type :=
| Ok (a : A)
| Raise (e : exn).

Arguments Ok {A} a.
Arguments Raise {A} e.

Definition bind {A B : Type} (m : result A) (k : A -> result B) : result B :=
  match m with
  | Ok a => k a
  | Raise e => Raise e
  end.

Declare Scope result_scope.
Delimit Scope result_scope with result.
Notation "x <- m ;; k" := (bind m (fun x => k))
  (at level 61, m at next level, right associativity) : result_scope.
Notation "' p <- m ;; k" := (bind m (fun x => match x with p => k end))
  (at level 61, p pattern, m at next level, right associativity) : result_scope.
Local Open Scope result_scope.

Definition of_option {A : Type} (e : exn) (o : option A) : result A :=
  match o with
  | Some a => Ok a
  | None => Raise e
  end.

Fixpoint mapM {A B : Type} (f : A -> result B) (l : list A) : result (list B) :=
  match l with
  | [] => Ok []
  | a :: l' => b <- f a ;; bs <- mapM f l' ;; Ok (b :: bs)
  end.

(* ===================================================================== *)
(** ** Comparisons on rationals *)

Definition Qlt_bool (a b : Q) : bool := negb (Qle_bool b a).

(* ===================================================================== *)
(** ** The numpy operations the program uses, on lists *)

Module np.

(** Elementwise binary operation.  Every use below has operands of one
    length, so numpy's shape-mismatch error cannot occur. *)
Fixpoint zip_with {A B C : Type} (f : A -> B -> C) (u : list A) (v : list B)
  : list C :=
  match u, v with
  | a :: u', b :: v' => f a b :: zip_with f u' v'
  | _, _ => []
  end.

(** Insertion into a list sorted by [key]; the new element goes before
    the first element whose key is not smaller. *)
Fixpoint insert_by {A : Type} (key : A -> Q) (x : A) (l : list A) : list A :=
  match l with
  | [] => [x]
  | y :: l' => if Qle_bool (key x) (key y) then x :: y :: l'
               else y :: insert_by key x l'
  end.

(** A stable sort by [key] (Python's [sorted(..., key=...)]). *)
Fixpoint sort_by {A : Type} (key : A -> Q) (l : list A) : list A :=
  match l with
  | [] => []
  | x :: l' => insert_by key x (sort_by key l')
  end.

(** [np.argsort v]: the indices of [v] in an order that sorts it.  numpy
    leaves the order of equal values open; here it is the stable one. *)
Definition argsort (v : list Q) : list nat :=
  map snd (sort_by fst (combine v (seq 0 (length v)))).

(** [v[ind]] with an index array. *)
Definition take {A : Type} (v : list A) (ind : list nat) : result (list A) :=
  mapM (fun i => of_option IndexError (nth_error v i)) ind.

(** The elements of [v] at which [mask] is true. *)
Fixpoint compress {A : Type} (v : list A) (mask : list bool) : list A :=
  match v, mask with
  | a :: v', b :: mask' => if b then a :: compress v' mask' else compress v' mask'
  | _, _ => []
  end.

(** [v[mask]] with a boolean array, which must be as long as [v]. *)
Definition bool_index {A : Type} (v : list A) (mask : list bool)
  : result (list A) :=
  if Nat.eqb (length v) (length mask) then Ok (compress v mask)
  else Raise IndexError.

(** [np.arange(a, b)] *)
Definition arange (a b : Z) : list Z :=
  map (fun k => (a + Z.of_nat k)%Z) (seq 0 (Z.to_nat (b - a))).

Fixpoint cumsum_from (acc : Z) (v : list Z) : list Z :=
  match v with
  | [] => []
  | x :: v' => (acc + x)%Z :: cumsum_from (acc + x)%Z v'
  end.

(** [np.cumsum v] *)
Definition cumsum (v : list Z) : list Z := cumsum_from 0%Z v.

(** [v[-1]] *)
Definition last_item {A : Type} (v : list A) : result A :=
  match v with
  | [] => Raise IndexError
  | a :: v' => Ok (last v' a)
  end.

(** [v[i]] for a non-negative index *)
Definition item {A : Type} (v : list A) (i : nat) : result A :=
  of_option IndexError (nth_error v i).

(** Index of the first maximum of [x :: v], where [best] at index [ib]
    is the first maximum of what was seen before index [i]. *)
Fixpoint argmax_from (best : Q) (ib : nat) (i : nat) (v : list Q) : nat :=
  match v with
  | [] => ib
  | x :: v' => if Qlt_bool best x then argmax_from x i (S i) v'
               else argmax_from best ib (S i) v'
  end.

(** [np.argmax v]: the first index of the maximum. *)
Definition argmax (v : list Q) : result nat :=
  match v with
  | [] => Raise ValueError
  | x :: v' => Ok (argmax_from x 0%nat 1%nat v')
  end.

(** int / int true division, in exact arithmetic: the quotient is not
    rounded.  [Over.truediv] is the division in any arithmetic. *)
Definition truediv (a b : Z) : Q := inject_Z a / inject_Z b.

End np.

(* ===================================================================== *)
(** ** find_best_split *)

Definition split_result : Type := (list Q * list Q * Q * Q)%type.

(** Lines 30-53: the search, given the index order [sorted_ind] of line
    29.  The midpoints of line 33 and the gini values of lines 38-46 are
    exact here; [Over.find_best_split_from] computes them in any
    arithmetic, float64 included. *)
Definition find_best_split_from (sorted_ind : list nat) (feature_vector : list Q)
    (target_vector : list Z) : result split_result :=
  feat_sort <- np.take feature_vector sorted_ind ;;
  target_sort <- np.take target_vector sorted_ind ;;
  let mask := np.zip_with (fun a b => negb (Qeq_bool a b))
                (tl feat_sort) (removelast feat_sort) in
  threshold_vec <- np.bool_index
                     (np.zip_with (fun a b => (a + b) / 2)
                        (tl feat_sort) (removelast feat_sort)) mask ;;
  let R := Z.of_nat (length target_sort) in
  let R_l_size := np.arange 1 R in
  let R_l_1 := np.cumsum target_sort in
  let R_l_p1 := np.zip_with np.truediv (removelast R_l_1) R_l_size in
  let R_l_p0 := map (fun p => 1 - p) R_l_p1 in
  R_l_1_last <- np.last_item R_l_1 ;;
  let R_r_1 := map (fun c => (R_l_1_last - c)%Z) (removelast R_l_1) in
  let R_r_p1 := np.zip_with np.truediv R_r_1
                  (map (fun l => (R - l)%Z) R_l_size) in
  let R_r_p0 := map (fun p => 1 - p) R_r_p1 in
  let gini_vec :=
    np.zip_with Qplus
      (np.zip_with Qmult
         (map (fun l => np.truediv l R) R_l_size)
         (np.zip_with (fun p0 p1 => p0 ^ 2 + p1 ^ 2 - 1) R_l_p0 R_l_p1))
      (np.zip_with Qmult
         (map (fun l => np.truediv (R - l) R) R_l_size)
         (np.zip_with (fun p0 p1 => p0 ^ 2 + p1 ^ 2 - 1) R_r_p0 R_r_p1)) in
  gini_vec <- np.bool_index gini_vec mask ;;
  ind_best <- np.argmax gini_vec ;;
  threshold_best <- np.item threshold_vec ind_best ;;
  gini_best <- np.item gini_vec ind_best ;;
  Ok (threshold_vec, gini_vec, threshold_best, gini_best).

Definition find_best_split (feature_vector : list Q) (target_vector : list Z)
  : result split_result :=
  let sorted_ind := np.argsort feature_vector in
  find_best_split_from sorted_ind feature_vector target_vector.

(* ===================================================================== *)
(** ** collections.Counter and dict, as association lists in insertion order *)

Definition dict (K V : Type) : Type := list (K * V).

(** [d[k]] / [k in d]: the value of the first entry whose key equals [k]. *)
Fixpoint dict_get {K V : Type} (eqb : K -> K -> bool) (d : dict K V) (k : K)
  : option V :=
  match d with
  | [] => None
  | (k', v) :: d' => if eqb k' k then Some v else dict_get eqb d' k
  end.

(** [c[k] += 1]: an existing key keeps its place, a new key goes last. *)
Fixpoint counter_incr {K : Type} (eqb : K -> K -> bool) (k : K) (c : dict K nat)
  : dict K nat :=
  match c with
  | [] => [(k, 1%nat)]
  | (k', n) :: c' => if eqb k' k then (k', S n) :: c'
                     else (k', n) :: counter_incr eqb k c'
  end.

(** [Counter(xs)] *)
Definition Counter {K : Type} (eqb : K -> K -> bool) (xs : list K) : dict K nat :=
  fold_left (fun c x => counter_incr eqb x c) xs [].

(** How many elements of [xs] equal [k]. *)
Definition occurrences {K : Type} (eqb : K -> K -> bool) (k : K) (xs : list K) : nat :=
  length (filter (eqb k) xs).

(** The elements of [xs] different from [y]. *)
Definition without {K : Type} (eqb : K -> K -> bool) (y : K) (xs : list K) : list K :=
  filter (fun x => negb (eqb y x)) xs.

(** Some occurrence of [k] in [xs] has no [k'] before it. *)
Definition occurs_before {K : Type} (eqb : K -> K -> bool) (k k' : K) (xs : list K)
  : Prop :=
  exists p s, xs = p ++ k :: s /\ forall x, In x p -> eqb k' x = false.

(** The first entry with the greatest count among [e :: c], [best] being
    the first greatest of what was seen before. *)
Fixpoint max_count_from {K : Type} (best : K * nat) (c : dict K nat) : K * nat :=
  match c with
  | [] => best
  | e :: c' => if Nat.ltb (snd best) (snd e) then max_count_from e c'
               else max_count_from best c'
  end.

(** [Counter(xs).most_common(1)[0][0]] *)
Definition most_common1 {K : Type} (eqb : K -> K -> bool) (xs : list K) : result K :=
  match Counter eqb xs with
  | [] => Raise IndexError
  | e :: c => Ok (fst (max_count_from e c))
  end.

(* ===================================================================== *)
(** ** The tree and the model *)

(** A two-dimensional array: [shape1] columns, one list per row, each of
    [shape1] entries (see [rectangular]). *)
Record ndarray2 : Type := {
  shape1 : nat;
  rows : list (list Q)
}.

(** [X[:, j]] *)
Definition column (X : ndarray2) (j : nat) : list Q :=
  map (fun x => nth j x 0) (rows X).

(** [X[mask]]: the rows at which [mask] is true. *)
Definition row_index (X : ndarray2) (mask : list bool) : result ndarray2 :=
  rs <- np.bool_index (rows X) mask ;;
  Ok {| shape1 := shape1 X; rows := rs |}.

(** What a nonterminal node stores besides the feature: ["threshold"] for
    a real feature, ["categories_split"] for a categorical one. *)
Inductive split_payload : Type :=
| Threshold (threshold : Q)
| CategoriesSplit (categories_split : list Q).

(** The node dictionaries.  [Empty] is [{}]. *)
Inductive node : Type :=
| Empty
| Terminal (class : Z)
| Nonterminal (feature_split : nat) (payload : split_payload)
              (left_child right_child : node).

Record DecisionTree : Type := {
  tree : node;
  feature_types : list string;
  max_depth : option Z;
  min_samples_split : Z;
  min_samples_leaf : option Z;
  depth : Z
}.

Definition is_real (t : string) : bool := String.eqb t "real".
Definition is_categorical (t : string) : bool := String.eqb t "categorical".

(** [DecisionTree.__init__] *)
Definition __init__ (feature_types : list string) (max_depth : option Z)
    (min_samples_split : Z) (min_samples_leaf : option Z) : result DecisionTree :=
  if existsb (fun x => negb (is_real x) && negb (is_categorical x)) feature_types
  then Raise ValueError
  else Ok {| tree := Empty;
             feature_types := feature_types;
             max_depth := max_depth;
             min_samples_split := min_samples_split;
             min_samples_leaf := min_samples_leaf;
             depth := 0 |}.

(* ===================================================================== *)
(** ** The fitting monad: exceptions over a state that outlives them

    The state is [self.depth] together with a ghost log of the calls of
    [find_best_split], each with its two arguments. *)

Definition call : Type := (list Q * list Z)%type.

Record fit_state : Type := {
  depth_counter : Z;
  calls : list call
}.

Definition M (A : Type) : Type := fit_state -> option (result A * fit_state).

Definition ret {A : Type} (a : A) : M A := fun st => Some (Ok a, st).

Definition lift {A : Type} (r : result A) : M A := fun st => Some (r, st).

Definition out_of_fuel {A : Type} : M A := fun _ => None.

Definition mbind {A B : Type} (m : M A) (k : A -> M B) : M B :=
  fun st =>
    match m st with
    | Some (Ok a, st') => k a st'
    | Some (Raise e, st') => Some (Raise e, st')
    | None => None
    end.

Declare Scope fit_scope.
Delimit Scope fit_scope with fit.
Notation "x <- m ;; k" := (mbind m (fun x => k))
  (at level 61, m at next level, right associativity) : fit_scope.
Notation "' p <- m ;; k" := (mbind m (fun x => match x with p => k end))
  (at level 61, p pattern, m at next level, right associativity) : fit_scope.
Notation "m ;;; k" := (mbind m (fun _ => k))
  (at level 61, right associativity) : fit_scope.

(** [self.depth += 1] *)
Definition incr_depth : M unit :=
  fun st => Some (Ok tt, {| depth_counter := depth_counter st + 1;
                            calls := calls st |}).

(** A call of [find_best_split], entered in the log before it runs. *)
Definition call_find_best_split (feature_vector : list Q) (target_vector : list Z)
  : M split_result :=
  fun st => Some (find_best_split feature_vector target_vector,
                  {| depth_counter := depth_counter st;
                     calls := calls st ++ [(feature_vector, target_vector)] |}).

(* ===================================================================== *)
(** ** DecisionTree._fit_node *)

Definition rank_value (r : nat) : Q := inject_Z (Z.of_nat r).

(** Lines 87-102: the encoding of a categorical column by the rank of each
    category in the order of its share of positive labels.  Returns
    [ratio], [categories_map] and the encoded [feature_vector].  Sorting
    the keys of [ratio] by [ratio[k]] is sorting its items by their value
    and keeping the keys. *)
Definition encode_categorical (sub_X : ndarray2) (sub_y : list Z) (feature : nat)
  : result (dict Q Q * dict Q nat * list Q) :=
  let counts := Counter Qeq_bool (column sub_X feature) in
  pos <- row_index sub_X (map (fun y => Z.eqb y 1) sub_y) ;;
  let clicks := Counter Qeq_bool (column pos feature) in
  let ratio :=
    map (fun '(key, current_count) =>
           let current_click :=
             match dict_get Qeq_bool clicks key with
             | Some c => c
             | None => 0%nat
             end in
           (key, np.truediv (Z.of_nat current_click) (Z.of_nat current_count)))
        counts in
  let sorted_categories := map fst (np.sort_by snd ratio) in
  let categories_map :=
    combine sorted_categories (seq 0 (length sorted_categories)) in
  feature_vector <-
    mapM (fun x => of_option KeyError (dict_get Qeq_bool categories_map x))
         (column sub_X feature) ;;
  Ok (ratio, categories_map, map rank_value feature_vector).

(** The four variables [feature_best], [threshold_best], [gini_best] and
    [split], which are [None] together and set together. *)
Record best : Type := {
  feature_best : nat;
  threshold_best : split_payload;
  gini_best : Q;
  split : list bool
}.

(** The retained categories of line 118: those mapped below [threshold]. *)
Definition categories_below (categories_map : dict Q nat) (threshold : Q) : list Q :=
  map fst (filter (fun x => Qlt_bool (rank_value (snd x)) threshold) categories_map).

(** Lines 84-104: the vector handed to the split search, with the
    [categories_map] of the iteration (empty for a real feature). *)
Definition feature_vector_of (feature_type : string) (sub_X : ndarray2)
    (sub_y : list Z) (feature : nat) : result (dict Q nat * list Q) :=
  if is_real feature_type then Ok ([], column sub_X feature)
  else if is_categorical feature_type then
    '(_, categories_map, feature_vector) <-
       encode_categorical sub_X sub_y feature ;;
    Ok (categories_map, feature_vector)
  else Raise ValueError.

(** Lines 115-121: what is kept as [threshold_best]. *)
Definition payload_of (feature_type : string) (categories_map : dict Q nat)
    (threshold : Q) : result split_payload :=
  if is_real feature_type then Ok (Threshold threshold)
  else if is_categorical feature_type then
    Ok (CategoriesSplit (categories_below categories_map threshold))
  else Raise ValueError.

(** [gini_best is None or gini > gini_best] *)
Definition improves (cur : option best) (gini : Q) : bool :=
  match cur with
  | None => true
  | Some b => Qlt_bool (gini_best b) gini
  end.

(** [np.all(v == v[0])] *)
Definition all_equal_first (v : list Q) : result bool :=
  v0 <- np.item v 0 ;;
  Ok (forallb (fun x => Qeq_bool x v0) v).

(** One iteration of the loop over the features (lines 81-121). *)
Definition scan_feature (self : DecisionTree) (sub_X : ndarray2) (sub_y : list Z)
    (cur : option best) (feature : nat) : M (option best) :=
  (feature_type <- lift (np.item (feature_types self) feature) ;;
   '(categories_map, feature_vector) <-
      lift (feature_vector_of feature_type sub_X sub_y feature) ;;
   constant <- lift (all_equal_first feature_vector) ;;
   if constant then ret cur
   else
     '(_, _, threshold, gini) <- call_find_best_split feature_vector sub_y ;;
     if improves cur gini then
       let split := map (fun v => Qlt_bool v threshold) feature_vector in
       threshold_best <- lift (payload_of feature_type categories_map threshold) ;;
       ret (Some {| feature_best := feature;
                    threshold_best := threshold_best;
                    gini_best := gini;
                    split := split |})
     else ret cur)%fit.

(** The loop [for feature in range(sub_X.shape[1])]. *)
Fixpoint scan (self : DecisionTree) (sub_X : ndarray2) (sub_y : list Z)
    (features : list nat) (cur : option best) : M (option best) :=
  match features with
  | [] => ret cur
  | feature :: features' =>
      (cur' <- scan_feature self sub_X sub_y cur feature ;;
       scan self sub_X sub_y features' cur')%fit
  end.

(** Lines 131-136: the key under which [threshold_best] is stored exists
    for the two known feature types only. *)
Definition check_feature_type (feature_type : string) : result unit :=
  if is_real feature_type then Ok tt
  else if is_categorical feature_type then Ok tt
  else Raise ValueError.

(** [_fit_node].  The node dictionary passed in is filled in place; the
    keys read back by [_predict_node] are exactly those written by the
    call, so the node is returned as a value. *)
Fixpoint _fit_node (fuel : nat) (self : DecisionTree) (sub_X : ndarray2)
    (sub_y : list Z) : M node :=
  match fuel with
  | O => out_of_fuel
  | S fuel' =>
    (y0 <- lift (np.item sub_y 0) ;;
     if forallb (fun y => Z.eqb y y0) sub_y then ret (Terminal y0)
     else if (Z.of_nat (length sub_y) <=? min_samples_split self)%Z then
       c <- lift (most_common1 Z.eqb sub_y) ;;
       ret (Terminal c)
     else
       found <- scan self sub_X sub_y (seq 0 (shape1 sub_X)) None ;;
       match found with
       | None =>
           c <- lift (most_common1 Z.eqb sub_y) ;;
           ret (Terminal c)
       | Some b =>
           feature_type <- lift (np.item (feature_types self) (feature_best b)) ;;
           lift (check_feature_type feature_type) ;;;
           incr_depth ;;;
           left_X <- lift (row_index sub_X (split b)) ;;
           left_y <- lift (np.bool_index sub_y (split b)) ;;
           left_child <- _fit_node fuel' self left_X left_y ;;
           right_X <- lift (row_index sub_X (map negb (split b))) ;;
           right_y <- lift (np.bool_index sub_y (map negb (split b))) ;;
           right_child <- _fit_node fuel' self right_X right_y ;;
           ret (Nonterminal (feature_best b) (threshold_best b)
                            left_child right_child)
       end)%fit
  end.

(** [_predict_node] *)
Fixpoint _predict_node (self : DecisionTree) (x : list Q) (nd : node) : result Z :=
  match nd with
  | Empty => Raise KeyError
  | Terminal class => Ok class
  | Nonterminal feature_split payload left_child right_child =>
      feature_type <- np.item (feature_types self) feature_split ;;
      v <- np.item x feature_split ;;
      if is_real feature_type then
        match payload with
        | Threshold threshold =>
            if Qlt_bool v threshold then _predict_node self x left_child
            else _predict_node self x right_child
        | CategoriesSplit _ => Raise KeyError
        end
      else
        match payload with
        | CategoriesSplit categories_split =>
            if existsb (fun c => Qeq_bool v c) categories_split
            then _predict_node self x left_child
            else _predict_node self x right_child
        | Threshold _ => Raise KeyError
        end
  end.

Definition set_fitted (self : DecisionTree) (nd : node) (d : Z) : DecisionTree :=
  {| tree := nd;
     feature_types := feature_types self;
     max_depth := max_depth self;
     min_samples_split := min_samples_split self;
     min_samples_leaf := min_samples_leaf self;
     depth := d |}.

(** [fit], with its log of [find_best_split] calls.  The recursion gets
    one unit of fuel more than there are labels.  What is left in
    [self.tree] when an exception is raised is not modelled. *)
Definition fit_traced (self : DecisionTree) (X : ndarray2) (y : list Z)
  : option (result DecisionTree * list call) :=
  match _fit_node (S (length y)) self X y
          {| depth_counter := depth self; calls := [] |} with
  | Some (r, st) =>
      Some (nd <- r ;; Ok (set_fitted self nd (depth_counter st)), calls st)
  | None => None
  end.

Definition fit (self : DecisionTree) (X : ndarray2) (y : list Z)
  : option (result DecisionTree) :=
  option_map fst (fit_traced self X y).

(** [predict] *)
Definition predict (self : DecisionTree) (X : ndarray2) : result (list Z) :=
  mapM (fun x => _predict_node self x (tree self)) (rows X).

(* ===================================================================== *)
(** ** Vocabulary of the statements about [find_best_split] *)

(** The order of the keys. *)
Definition key_le {A : Type} (key : A -> Q) (a b : A) : Prop := key a <= key b.

(** [v[ind]] with indices in range. *)
Definition gather {A : Type} (d : A) (v : list A) (ind : list nat) : list A :=
  map (fun i => nth i v d) ind.

(** [feat_sort] and [target_sort] of lines 30-31 for the index order
    [ind]. *)
Definition feat_sort (ind : list nat) (fv : list Q) : list Q := gather 0 fv ind.

Definition target_sort (ind : list nat) (tv : list Z) : list Z := gather 0%Z tv ind.

(** The samples in the order [ind], each feature value with its label. *)
Definition sorted_samples (ind : list nat) (fv : list Q) (tv : list Z)
  : list (Q * Z) :=
  combine (feat_sort ind fv) (target_sort ind tv).

(** What [np.argsort] promises of its result [ind]: it lists every index
    once, in an order that sorts the vector.  Which of these orders it is
    when values are equal is left open by numpy. *)
Definition sorts (ind : list nat) (fv : list Q) : Prop :=
  Permutation ind (seq 0 (length fv)) /\ StronglySorted Qle (feat_sort ind fv).

(** Lines 32-53, on the sorted vectors, in exact arithmetic
    ([Over.split_sorted] in any). *)
Definition split_sorted (feat_sort : list Q) (target_sort : list Z)
  : result split_result :=
  let mask := np.zip_with (fun a b => negb (Qeq_bool a b))
                (tl feat_sort) (removelast feat_sort) in
  threshold_vec <- np.bool_index
                     (np.zip_with (fun a b => (a + b) / 2)
                        (tl feat_sort) (removelast feat_sort)) mask ;;
  let R := Z.of_nat (length target_sort) in
  let R_l_size := np.arange 1 R in
  let R_l_1 := np.cumsum target_sort in
  let R_l_p1 := np.zip_with np.truediv (removelast R_l_1) R_l_size in
  let R_l_p0 := map (fun p => 1 - p) R_l_p1 in
  R_l_1_last <- np.last_item R_l_1 ;;
  let R_r_1 := map (fun c => (R_l_1_last - c)%Z) (removelast R_l_1) in
  let R_r_p1 := np.zip_with np.truediv R_r_1
                  (map (fun l => (R - l)%Z) R_l_size) in
  let R_r_p0 := map (fun p => 1 - p) R_r_p1 in
  let gini_vec :=
    np.zip_with Qplus
      (np.zip_with Qmult
         (map (fun l => np.truediv l R) R_l_size)
         (np.zip_with (fun p0 p1 => p0 ^ 2 + p1 ^ 2 - 1) R_l_p0 R_l_p1))
      (np.zip_with Qmult
         (map (fun l => np.truediv (R - l) R) R_l_size)
         (np.zip_with (fun p0 p1 => p0 ^ 2 + p1 ^ 2 - 1) R_r_p0 R_r_p1)) in
  gini_vec <- np.bool_index gini_vec mask ;;
  ind_best <- np.argmax gini_vec ;;
  threshold_best <- np.item threshold_vec ind_best ;;
  gini_best <- np.item gini_vec ind_best ;;
  Ok (threshold_vec, gini_vec, threshold_best, gini_best).

Fixpoint sumZ (v : list Z) : Z :=
  match v with
  | [] => 0%Z
  | x :: v' => (x + sumZ v')%Z
  end.

(** The value of [gini_vec] (line 45) at index [k], that is for the split
    after the first [S k] sorted samples. *)
Definition gini_at (ts : list Z) (k : nat) : Q :=
  let R := Z.of_nat (length ts) in
  let l := Z.of_nat (S k) in
  let c := sumZ (firstn (S k) ts) in
  let total := sumZ ts in
  np.truediv l R *
    ((1 - np.truediv c l) ^ 2 + np.truediv c l ^ 2 - 1) +
  np.truediv (R - l) R *
    ((1 - np.truediv (total - c) (R - l)) ^ 2
     + np.truediv (total - c) (R - l) ^ 2 - 1).

(** The value of the midpoint vector (line 33) at index [k]. *)
Definition midpoint_at (fs : list Q) (k : nat) : Q :=
  (nth (S k) fs 0 + nth k fs 0) / 2.

(** The value of [mask] (line 32) at index [k]. *)
Definition boundary_at (fs : list Q) (k : nat) : bool :=
  negb (Qeq_bool (nth (S k) fs 0) (nth k fs 0)).

(** The indices kept by [mask]. *)
Definition kept (fs : list Q) : list nat :=
  filter (boundary_at fs) (seq 0 (length fs - 1)).

(** [m] at index [k] is the first greatest element of [w]. *)
Definition first_max (w : list Q) (k : nat) (m : Q) : Prop :=
  nth_error w k = Some m /\
  (forall j x, nth_error w j = Some x -> x <= m) /\
  (forall j x, (j < k)%nat -> nth_error w j = Some x -> x < m).

(** The feature vector takes two different values. *)
Definition non_constant (v : list Q) : Prop :=
  exists a b, In a v /\ In b v /\ ~ a == b.

(** The pairs of neighbours of a list. *)
Definition adjacent_pairs (fs : list Q) : list (Q * Q) := combine fs (tl fs).

(** The neighbours with different values. *)
Definition boundaries (fs : list Q) : list (Q * Q) :=
  filter (fun p => negb (Qeq_bool (snd p) (fst p))) (adjacent_pairs fs).

(** The midpoints of the neighbours with different values. *)
Definition midpoints (fs : list Q) : list Q :=
  map (fun p => (snd p + fst p) / 2) (boundaries fs).

Definition binary (y : Z) : Prop := y = 0%Z \/ y = 1%Z.

(** The share of the label [c] in [ys]. *)
Definition fraction (c : Z) (ys : list Z) : Q :=
  inject_Z (Z.of_nat (count_occ Z.eq_dec ys c)) / inject_Z (Z.of_nat (length ys)).

(** [H(R) = 1 - p1^2 - p0^2] *)
Definition H (ys : list Z) : Q := 1 - fraction 1 ys ^ 2 - fraction 0 ys ^ 2.

(** [Q(R) = -|R_l|/|R| H(R_l) - |R_r|/|R| H(R_r)] *)
Definition Q_criterion (left right : list Z) : Q :=
  let R := inject_Z (Z.of_nat (length left + length right)) in
  - (inject_Z (Z.of_nat (length left)) / R) * H left
  - (inject_Z (Z.of_nat (length right)) / R) * H right.

(** The candidate split positions [i] (the left part has [i] samples):
    those between two different neighbours. *)
Definition split_positions (fs : list Q) : list nat :=
  filter (fun i => negb (Qeq_bool (nth i fs 0) (nth (i - 1) fs 0)))
         (seq 1 (length fs - 1)).


(** [c] is a most frequent label of [ys], and among the most frequent
    ones it is the one met first. *)
Definition majority_first (ys : list Z) (c : Z) : Prop :=
  In c ys /\
  forall c', In c' ys ->
    (count_occ Z.eq_dec ys c' <= count_occ Z.eq_dec ys c)%nat /\
    (count_occ Z.eq_dec ys c' = count_occ Z.eq_dec ys c ->
     exists p s, ys = p ++ c :: s /\ ~ In c' p).

(** A run of [m] from [st] returns, and [post] holds of its outcome. *)
Definition returns {A : Type} (m : M A) (st : fit_state)
    (post : result A -> fit_state -> Prop) : Prop :=
  exists r st', m st = Some (r, st') /\ post r st'.

(** The log of [st'] is that of [st] followed by calls that satisfy [P]. *)
Definition log_grows (P : call -> Prop) (st st' : fit_state) : Prop :=
  exists new, calls st' = calls st ++ new /\ Forall P new.

(** A split mask over [n] samples that sends some sample to the left and
    some sample to the right. *)
Definition proper_mask (n : nat) (mask : list bool) : Prop :=
  length mask = n /\ In true mask /\ In false mask.

(** A training subset the fitting code is meant for: as many rows as
    labels, at least one of them, and a known feature type for every
    column. *)
Definition well_formed (self : DecisionTree) (X : ndarray2) (y : list Z) : Prop :=
  length (rows X) = length y /\
  y <> [] /\
  forall f, (f < shape1 X)%nat ->
    exists ft, nth_error (feature_types self) f = Some ft /\
               (is_real ft = true \/ is_categorical ft = true).

(** A call of [find_best_split] on a non-constant feature vector. *)
Definition non_constant_call (c : call) : Prop := non_constant (fst c).

(** The four variables of a recorded split belong together: the mask and
    the stored payload come from one feature vector and one threshold. *)
Definition consistent (self : DecisionTree) (sub_X : ndarray2) (sub_y : list Z)
    (b : best) : Prop :=
  exists ft cm fv thr,
    np.item (feature_types self) (feature_best b) = Ok ft /\
    feature_vector_of ft sub_X sub_y (feature_best b) = Ok (cm, fv) /\
    split b = map (fun v => Qlt_bool v thr) fv /\
    payload_of ft cm thr = Ok (threshold_best b).

(** What the loop keeps true of the split recorded so far. *)
Definition good_best (self : DecisionTree) (sub_X : ndarray2) (sub_y : list Z)
    (b : best) : Prop :=
  proper_mask (length (rows sub_X)) (split b) /\
  (feature_best b < shape1 sub_X)%nat /\
  consistent self sub_X sub_y b.

(** What holds after one iteration of the loop. *)
Definition scan_post (self : DecisionTree) (sub_X : ndarray2) (sub_y : list Z)
    (st : fit_state) (r : result (option best)) (st' : fit_state) : Prop :=
  log_grows non_constant_call st st' /\
  depth_counter st' = depth_counter st /\
  (forall cur', r = Ok cur' ->
     forall b, cur' = Some b -> good_best self sub_X sub_y b) /\
  (well_formed self sub_X sub_y -> exists cur', r = Ok cur').

(** What holds after a run of [_fit_node]. *)
Definition fit_post (self : DecisionTree) (sub_X : ndarray2) (sub_y : list Z)
    (st : fit_state) (r : result node) (st' : fit_state) : Prop :=
  log_grows non_constant_call st st' /\
  (well_formed self sub_X sub_y -> exists nd, r = Ok nd).

(** The outcome of a computation seen through [f]. *)
Definition result_map {A B : Type} (f : A -> B) (r : result A) : result B :=
  match r with
  | Ok a => Ok (f a)
  | Raise e => Raise e
  end.

(** The tree [fit] builds, or the exception it raises. *)
Definition fitted_tree (self : DecisionTree) (X : ndarray2) (y : list Z)
  : option (result node) :=
  option_map (result_map tree) (fit self X y).

(** A computation whose outcome does not depend on the state it starts
    from: the state is only written. *)
Definition oblivious {A : Type} (m : M A) : Prop :=
  forall st1 st2, option_map fst (m st1) = option_map fst (m st2).

(** The test of [_predict_node] at a nonterminal node: does the sample go
    to the left child? *)
Definition goes_left (self : DecisionTree) (feature_split : nat)
    (payload : split_payload) (x : list Q) : result bool :=
  feature_type <- np.item (feature_types self) feature_split ;;
  v <- np.item x feature_split ;;
  if is_real feature_type then
    match payload with
    | Threshold threshold => Ok (Qlt_bool v threshold)
    | CategoriesSplit _ => Raise KeyError
    end
  else
    match payload with
    | CategoriesSplit categories_split =>
        Ok (existsb (fun c => Qeq_bool v c) categories_split)
    | Threshold _ => Raise KeyError
    end.

(** The leaf [_predict_node] reaches from [nd], named by the turns taken
    ([true] for left). *)
Fixpoint leaf_path (self : DecisionTree) (x : list Q) (nd : node)
  : result (list bool) :=
  match nd with
  | Empty => Raise KeyError
  | Terminal _ => Ok []
  | Nonterminal feature_split payload left_child right_child =>
      b <- goes_left self feature_split payload x ;;
      p <- leaf_path self x (if b then left_child else right_child) ;;
      Ok (b :: p)
  end.

(** Every leaf of [nd] is pure: two samples routed to one leaf have one
    label. *)
Definition leaves_pure (self : DecisionTree) (nd : node)
    (samples : list (list Q * Z)) : Prop :=
  forall s s' p,
    In s samples -> In s' samples ->
    leaf_path self (fst s) nd = Ok p -> leaf_path self (fst s') nd = Ok p ->
    snd s = snd s'.

(** Every row has [shape1] entries. *)
Definition rectangular (X : ndarray2) : Prop :=
  Forall (fun x => length x = shape1 X) (rows X).

(** The empirical positive-label rate of the category [k]: among the
    samples of that category, the share of those with label 1. *)
Definition positive_rate (col : list Q) (sub_y : list Z) (k : Q) : Q :=
  np.truediv
    (Z.of_nat (occurrences Qeq_bool k
                 (np.compress col (map (fun y => Z.eqb y 1) sub_y))))
    (Z.of_nat (occurrences Qeq_bool k col)).

(** The left mask of the encoded column at the rank threshold [thr]. *)
Definition rank_mask (fv : list Q) (thr : Q) : list bool :=
  map (fun v => Qlt_bool v thr) fv.

(** The mask that cuts the positive rate of each sample's category at
    [cutoff]. *)
Definition rate_mask (col : list Q) (sub_y : list Z) (cutoff : Q) : list bool :=
  map (fun x => Qlt_bool (positive_rate col sub_y x) cutoff) col.

(** The rank threshold [thr] on the feature splits the samples, and keeps
    the categories, as some cutoff on the positive rate does. *)
Definition rate_cut (sub_X : ndarray2) (sub_y : list Z) (feature : nat) (thr : Q)
  : Prop :=
  exists ratio cm fv cutoff,
    encode_categorical sub_X sub_y feature = Ok (ratio, cm, fv) /\
    rank_mask fv thr = rate_mask (column sub_X feature) sub_y cutoff /\
    forall k, In k (column sub_X feature) ->
      existsb (fun c => Qeq_bool k c) (categories_below cm thr)
      = Qlt_bool (positive_rate (column sub_X feature) sub_y k) cutoff.

(** At the rank threshold [thr] no category that is kept has the positive
    rate of a category that is not. *)
Definition no_tie_across (sub_X : ndarray2) (sub_y : list Z) (feature : nat)
    (thr : Q) : Prop :=
  forall ratio cm fv k k',
    encode_categorical sub_X sub_y feature = Ok (ratio, cm, fv) ->
    In k (column sub_X feature) -> In k' (column sub_X feature) ->
    existsb (fun c => Qeq_bool k c) (categories_below cm thr) = true ->
    existsb (fun c => Qeq_bool k' c) (categories_below cm thr) = false ->
    ~ positive_rate (column sub_X feature) sub_y k
      == positive_rate (column sub_X feature) sub_y k'.

(** Two entries of a dictionary with one key, up to [==]. *)
Definition same_key (e e' : Q * Q) : Prop := fst e == fst e'.

(* ===================================================================== *)
(** ** Sample models and data *)

Definition mk (n : nat) (rs : list (list Q)) : ndarray2 :=
  {| shape1 := n; rows := rs |}.

(** The model of [DecisionTree(feature_types)], with the default values. *)
Definition dt0 (ft : list string) : DecisionTree :=
  {| tree := Empty;
     feature_types := ft;
     max_depth := None;
     min_samples_split := 2;
     min_samples_leaf := None;
     depth := 0 |}.

(* ===================================================================== *)
(** ** Vocabulary of the further properties *)

(** The exception [find_best_split] raises when it does not return:
    labels shorter than the features or no sample at all make an index
    fail, a constant vector leaves [np.argmax] with nothing. *)
Definition split_failure (fv : list Q) (tv : list Z) : exn :=
  if Nat.ltb (length tv) (length fv) then IndexError
  else match fv with
       | [] => IndexError
       | _ :: _ => ValueError
       end.

(** [t] lies strictly between two values of [fv]. *)
Definition separates (fv : list Q) (t : Q) : Prop :=
  exists a b, In a fv /\ In b fv /\ a < t /\ t < b.

(** The labels of the samples whose feature value is below [t], and of
    the others: the two sides of the mask [feature_vector < threshold]
    of line 113. *)
Definition labels_left (fv : list Q) (tv : list Z) (t : Q) : list Z :=
  np.compress tv (map (fun v => Qlt_bool v t) fv).

Definition labels_right (fv : list Q) (tv : list Z) (t : Q) : list Z :=
  np.compress tv (map negb (map (fun v => Qlt_bool v t) fv)).

(** All the labels of [ys] are one label. *)
Definition pure (ys : list Z) : Prop := forall a b, In a ys -> In b ys -> a = b.

(** The number of nonterminal nodes of a tree. *)
Fixpoint splits (nd : node) : nat :=
  match nd with
  | Nonterminal _ _ left_child right_child =>
      S (splits left_child + splits right_child)
  | _ => 0
  end.

(** The classes stored in the terminal nodes, from left to right. *)
Fixpoint leaf_classes (nd : node) : list Z :=
  match nd with
  | Empty => []
  | Terminal class => [class]
  | Nonterminal _ _ left_child right_child =>
      leaf_classes left_child ++ leaf_classes right_child
  end.

(** The subset of the rows of [X] and of the labels [y] under [mask]. *)
Definition rows_under (X : ndarray2) (mask : list bool) : ndarray2 :=
  {| shape1 := shape1 X; rows := np.compress (rows X) mask |}.

(** A small data set with one real feature, and the model [fit] makes of
    it from [dt0]. *)
Definition X4 : ndarray2 := mk 1 [[1]; [2]; [2]; [3]].

Definition y4 : list Z := [0; 1; 1; 1]%Z.

Definition fitted4 : DecisionTree :=
  {| tree := Nonterminal 0 (Threshold (3 # 2)) (Terminal 0) (Terminal 1);
     feature_types := ["real"%string];
     max_depth := None;
     min_samples_split := 2;
     min_samples_leaf := None;
     depth := 1 |}.

(** What [_predict_node] needs of a node to answer for a sample with at
    least [n] entries: no dictionary left empty, every split on a feature
    below [n], and under the key its feature type makes the code read. *)
Fixpoint answers (self : DecisionTree) (n : nat) (nd : node) : Prop :=
  match nd with
  | Empty => False
  | Terminal _ => True
  | Nonterminal feature_split payload left_child right_child =>
      (feature_split < n)%nat /\
      (exists feature_type,
          np.item (feature_types self) feature_split = Ok feature_type /\
          match payload with
          | Threshold _ => is_real feature_type = true
          | CategoriesSplit _ => is_real feature_type = false
          end) /\
      answers self n left_child /\ answers self n right_child
  end.

(** Lines 81-109 for one feature: the gini of the best split of its
    vector, or [None] when the loop skips the feature as constant. *)
Definition feature_gini (self : DecisionTree) (sub_X : ndarray2) (sub_y : list Z)
    (feature : nat) : result (option Q) :=
  feature_type <- np.item (feature_types self) feature ;;
  '(_, feature_vector) <- feature_vector_of feature_type sub_X sub_y feature ;;
  constant <- all_equal_first feature_vector ;;
  if (constant : bool) then Ok None
  else
    '(_, _, _, gini) <- find_best_split feature_vector sub_y ;;
    Ok (Some gini).

(** What the loop over the features has established after the features
    below [k]: [cur] holds the first feature of greatest gini among them,
    or nothing when all of them are constant. *)
Definition first_best (self : DecisionTree) (sub_X : ndarray2) (sub_y : list Z)
    (k : nat) (cur : option best) : Prop :=
  match cur with
  | None => forall f, (f < k)%nat -> feature_gini self sub_X sub_y f = Ok None
  | Some b =>
      (feature_best b < k)%nat /\
      feature_gini self sub_X sub_y (feature_best b) = Ok (Some (gini_best b)) /\
      forall f g, (f < k)%nat ->
        feature_gini self sub_X sub_y f = Ok (Some g) ->
        g <= gini_best b /\ ((f < feature_best b)%nat -> g < gini_best b)
  end.

(** Two real features that separate the labels equally well. *)
Definition X3 : ndarray2 := mk 2 [[1; 1]; [2; 2]; [3; 3]].

Definition y3 : list Z := [0; 1; 1]%Z.

(** The labels are a function of the samples: two samples with the same
    entries have the same label. *)
Definition labels_determined (xs : list (list Q)) (ys : list Z) : Prop :=
  forall s s', In s (combine xs ys) -> In s' (combine xs ys) ->
    Forall2 Qeq (fst s) (fst s') -> snd s = snd s'.

(** The model of [DecisionTree(feature_types, min_samples_split=1)]. *)
Definition dt1 (ft : list string) : DecisionTree :=
  {| tree := Empty;
     feature_types := ft;
     max_depth := None;
     min_samples_split := 1;
     min_samples_leaf := None;
     depth := 0 |}.

(** Three samples that take two splits to tell apart. *)
Definition X5 : ndarray2 := mk 1 [[1]; [2]; [3]].

Definition y5 : list Z := [0; 1; 0]%Z.

Definition fitted5 : DecisionTree :=
  {| tree := Nonterminal 0 (Threshold (3 # 2)) (Terminal 0)
               (Nonterminal 0 (Threshold (5 # 2)) (Terminal 1) (Terminal 0));
     feature_types := ["real"%string];
     max_depth := None;
     min_samples_split := 1;
     min_samples_leaf := None;
     depth := 2 |}.

(** A feature type the code knows. *)
Definition known_type (t : string) : Prop :=
  t = "real"%string \/ t = "categorical"%string.

(** One categorical feature with three categories, of positive rates 0, 1
    and 1/2. *)
Definition X6 : ndarray2 := mk 1 [[0]; [0]; [1]; [1]; [2]; [2]].

Definition y6 : list Z := [0; 0; 1; 1; 0; 1]%Z.

(* ===================================================================== *)
(** ** The arithmetic of the program

    The program computes with numpy's float64.  [Num.arith] names the
    operations it applies to such numbers, and [Over] embeds the program a
    second time over any such arithmetic.  Two arithmetics are given:
    [exact], the rationals without rounding, which is the arithmetic of
    the definitions above, and [binary64], the IEEE 754 doubles of the
    kernel, where every operation rounds to nearest, ties to even. *)

Module Num.

Record arith : Type := {
  num : Type;
  add : num -> num -> num;
  sub : num -> num -> num;
  mul : num -> num -> num;
  div : num -> num -> num;
  (** the conversion of an integer (of a count, a label, a rank) *)
  of_int : Z -> num;
  lt : num -> num -> bool;
  le : num -> num -> bool;
  eq : num -> num -> bool
}.

End Num.

Definition exact : Num.arith :=
  {| Num.num := Q;
     Num.add := Qplus;
     Num.sub := Qminus;
     Num.mul := Qmult;
     Num.div := Qdiv;
     Num.of_int := inject_Z;
     Num.lt := Qlt_bool;
     Num.le := Qle_bool;
     Num.eq := Qeq_bool |}.

(** The double of an integer below [2^63] in absolute value; it is the
    integer itself up to [2^53]. *)
Definition binary64_of_int (z : Z) : PrimFloat.float :=
  if (z <? 0)%Z then PrimFloat.opp (PrimFloat.of_uint63 (Uint63.of_Z (- z)))
  else PrimFloat.of_uint63 (Uint63.of_Z z).

(** The comparisons are those of IEEE 754; they are numpy's on every
    value but NaN, which numpy's sort and [np.argmax] treat as the
    greatest value. *)
Definition binary64 : Num.arith :=
  {| Num.num := PrimFloat.float;
     Num.add := PrimFloat.add;
     Num.sub := PrimFloat.sub;
     Num.mul := PrimFloat.mul;
     Num.div := PrimFloat.div;
     Num.of_int := binary64_of_int;
     Num.lt := PrimFloat.ltb;
     Num.le := PrimFloat.leb;
     Num.eq := PrimFloat.eqb |}.

(** Some doubles by name. *)
Module Doubles.

Import PrimFloat.

(** [1.0000000000000002], [1.0000000000000004] and [1.0000000000000007]:
    the three doubles that follow [1.0]. *)
Definition above1 : float := 0x1.0000000000001p+0%float.

Definition above2 : float := 0x1.0000000000002p+0%float.

Definition above3 : float := 0x1.0000000000003p+0%float.

(** [2^1023], half of which is still finite and whose double is not. *)
Definition huge : float := 0x1p+1023%float.

End Doubles.

(* ===================================================================== *)
(** ** The program over an arithmetic *)

Declare Scope over_scope.
Delimit Scope over_scope with over.

Module Over.

(** The fitting monad: exceptions over [self.depth], which outlives them.
    [None] is the outcome of a run that needs more fuel. *)
Definition M (A : Type) : Type := Z -> option (result A * Z).

Definition ret {A : Type} (a : A) : M A := fun d => Some (Ok a, d).

Definition lift {A : Type} (r : result A) : M A := fun d => Some (r, d).

Definition out_of_fuel {A : Type} : M A := fun _ => None.

Definition mbind {A B : Type} (m : M A) (k : A -> M B) : M B :=
  fun d =>
    match m d with
    | Some (Ok a, d') => k a d'
    | Some (Raise e, d') => Some (Raise e, d')
    | None => None
    end.

Notation "x <- m ;; k" := (mbind m (fun x => k))
  (at level 61, m at next level, right associativity) : over_scope.
Notation "' p <- m ;; k" := (mbind m (fun x => match x with p => k end))
  (at level 61, p pattern, m at next level, right associativity) : over_scope.
Notation "m ;;; k" := (mbind m (fun _ => k))
  (at level 61, right associativity) : over_scope.

(** [self.depth += 1] *)
Definition incr_depth : M unit := fun d => Some (Ok tt, (d + 1)%Z).

Section Program.

Variable ar : Num.arith.

Local Abbreviation num := (Num.num ar).
Local Abbreviation of_int := (Num.of_int ar).
Local Notation "a [+] b" := (Num.add ar a b) (at level 50, left associativity).
Local Notation "a [-] b" := (Num.sub ar a b) (at level 50, left associativity).
Local Notation "a [*] b" := (Num.mul ar a b) (at level 40, left associativity).
Local Notation "a [/] b" := (Num.div ar a b) (at level 40, left associativity).

(** Python's [sorted(..., key=...)] and numpy's sort, as in [np]. *)
Fixpoint insert_by {A : Type} (key : A -> num) (x : A) (l : list A) : list A :=
  match l with
  | [] => [x]
  | y :: l' => if Num.le ar (key x) (key y) then x :: y :: l'
               else y :: insert_by key x l'
  end.

Fixpoint sort_by {A : Type} (key : A -> num) (l : list A) : list A :=
  match l with
  | [] => []
  | x :: l' => insert_by key x (sort_by key l')
  end.

Definition argsort (v : list num) : list nat :=
  map snd (sort_by fst (combine v (seq 0 (length v)))).

Fixpoint argmax_from (best : num) (ib : nat) (i : nat) (v : list num) : nat :=
  match v with
  | [] => ib
  | x :: v' => if Num.lt ar best x then argmax_from x i (S i) v'
               else argmax_from best ib (S i) v'
  end.

Definition argmax (v : list num) : result nat :=
  match v with
  | [] => Raise ValueError
  | x :: v' => Ok (argmax_from x 0%nat 1%nat v')
  end.

(** int / int true division: both integers are converted, then divided. *)
Definition truediv (a b : Z) : num := of_int a [/] of_int b.

(** [p0 ** 2 + p1 ** 2 - 1]; numpy squares by one multiplication. *)
Definition impurity_term (p0 p1 : num) : num := p0 [*] p0 [+] p1 [*] p1 [-] of_int 1.

Definition split_result : Type := (list num * list num * num * num)%type.

(** Lines 32-53, on the sorted vectors. *)
Definition split_sorted (feat_sort : list num) (target_sort : list Z)
  : result split_result :=
  let mask := np.zip_with (fun a b => negb (Num.eq ar a b))
                (tl feat_sort) (removelast feat_sort) in
  threshold_vec <- np.bool_index
                     (np.zip_with (fun a b => (a [+] b) [/] of_int 2)
                        (tl feat_sort) (removelast feat_sort)) mask ;;
  let R := Z.of_nat (length target_sort) in
  let R_l_size := np.arange 1 R in
  let R_l_1 := np.cumsum target_sort in
  let R_l_p1 := np.zip_with truediv (removelast R_l_1) R_l_size in
  let R_l_p0 := map (fun p => of_int 1 [-] p) R_l_p1 in
  R_l_1_last <- np.last_item R_l_1 ;;
  let R_r_1 := map (fun c => (R_l_1_last - c)%Z) (removelast R_l_1) in
  let R_r_p1 := np.zip_with truediv R_r_1
                  (map (fun l => (R - l)%Z) R_l_size) in
  let R_r_p0 := map (fun p => of_int 1 [-] p) R_r_p1 in
  let gini_vec :=
    np.zip_with (Num.add ar)
      (np.zip_with (Num.mul ar)
         (map (fun l => truediv l R) R_l_size)
         (np.zip_with impurity_term R_l_p0 R_l_p1))
      (np.zip_with (Num.mul ar)
         (map (fun l => truediv (R - l) R) R_l_size)
         (np.zip_with impurity_term R_r_p0 R_r_p1)) in
  gini_vec <- np.bool_index gini_vec mask ;;
  ind_best <- argmax gini_vec ;;
  threshold_best <- np.item threshold_vec ind_best ;;
  gini_best <- np.item gini_vec ind_best ;;
  Ok (threshold_vec, gini_vec, threshold_best, gini_best).

(** Lines 30-53, given the index order [sorted_ind] of line 29. *)
Definition find_best_split_from (sorted_ind : list nat) (feature_vector : list num)
    (target_vector : list Z) : result split_result :=
  feat_sort <- np.take feature_vector sorted_ind ;;
  target_sort <- np.take target_vector sorted_ind ;;
  split_sorted feat_sort target_sort.

Definition find_best_split (feature_vector : list num) (target_vector : list Z)
  : result split_result :=
  let sorted_ind := argsort feature_vector in
  find_best_split_from sorted_ind feature_vector target_vector.

(** *** The tree and the model *)

Record ndarray2 : Type := {
  shape1 : nat;
  rows : list (list num)
}.

(** [X[:, j]] *)
Definition column (X : ndarray2) (j : nat) : list num :=
  map (fun x => nth j x (of_int 0)) (rows X).

(** [X[mask]] *)
Definition row_index (X : ndarray2) (mask : list bool) : result ndarray2 :=
  rs <- np.bool_index (rows X) mask ;;
  Ok {| shape1 := shape1 X; rows := rs |}.

Inductive split_payload : Type :=
| Threshold (threshold : num)
| CategoriesSplit (categories_split : list num).

Inductive node : Type :=
| Empty
| Terminal (class : Z)
| Nonterminal (feature_split : nat) (payload : split_payload)
              (left_child right_child : node).

Record DecisionTree : Type := {
  tree : node;
  feature_types : list string;
  max_depth : option Z;
  min_samples_split : Z;
  min_samples_leaf : option Z;
  depth : Z
}.

(** [DecisionTree.__init__] *)
Definition __init__ (feature_types : list string) (max_depth : option Z)
    (min_samples_split : Z) (min_samples_leaf : option Z) : result DecisionTree :=
  if existsb (fun x => negb (is_real x) && negb (is_categorical x)) feature_types
  then Raise ValueError
  else Ok {| tree := Empty;
             feature_types := feature_types;
             max_depth := max_depth;
             min_samples_split := min_samples_split;
             min_samples_leaf := min_samples_leaf;
             depth := 0 |}.

(** *** DecisionTree._fit_node *)

(** The ranks are Python integers; numpy compares them with the float
    thresholds as floats. *)
Definition rank_value (r : nat) : num := of_int (Z.of_nat r).

(** Lines 87-102. *)
Definition encode_categorical (sub_X : ndarray2) (sub_y : list Z) (feature : nat)
  : result (dict num num * dict num nat * list num) :=
  let counts := Counter (Num.eq ar) (column sub_X feature) in
  pos <- row_index sub_X (map (fun y => Z.eqb y 1) sub_y) ;;
  let clicks := Counter (Num.eq ar) (column pos feature) in
  let ratio :=
    map (fun '(key, current_count) =>
           let current_click :=
             match dict_get (Num.eq ar) clicks key with
             | Some c => c
             | None => 0%nat
             end in
           (key, truediv (Z.of_nat current_click) (Z.of_nat current_count)))
        counts in
  let sorted_categories := map fst (sort_by snd ratio) in
  let categories_map :=
    combine sorted_categories (seq 0 (length sorted_categories)) in
  feature_vector <-
    mapM (fun x => of_option KeyError (dict_get (Num.eq ar) categories_map x))
         (column sub_X feature) ;;
  Ok (ratio, categories_map, map rank_value feature_vector).

Record best : Type := {
  feature_best : nat;
  threshold_best : split_payload;
  gini_best : num;
  split : list bool
}.

(** Line 118. *)
Definition categories_below (categories_map : dict num nat) (threshold : num)
  : list num :=
  map fst (filter (fun x => Num.lt ar (rank_value (snd x)) threshold)
                  categories_map).

(** Lines 84-104. *)
Definition feature_vector_of (feature_type : string) (sub_X : ndarray2)
    (sub_y : list Z) (feature : nat) : result (dict num nat * list num) :=
  if is_real feature_type then Ok ([], column sub_X feature)
  else if is_categorical feature_type then
    '(_, categories_map, feature_vector) <-
       encode_categorical sub_X sub_y feature ;;
    Ok (categories_map, feature_vector)
  else Raise ValueError.

(** Lines 115-121. *)
Definition payload_of (feature_type : string) (categories_map : dict num nat)
    (threshold : num) : result split_payload :=
  if is_real feature_type then Ok (Threshold threshold)
  else if is_categorical feature_type then
    Ok (CategoriesSplit (categories_below categories_map threshold))
  else Raise ValueError.

(** [gini_best is None or gini > gini_best] *)
Definition improves (cur : option best) (gini : num) : bool :=
  match cur with
  | None => true
  | Some b => Num.lt ar (gini_best b) gini
  end.

(** [np.all(v == v[0])] *)
Definition all_equal_first (v : list num) : result bool :=
  v0 <- np.item v 0 ;;
  Ok (forallb (fun x => Num.eq ar x v0) v).

(** One iteration of the loop over the features (lines 81-121). *)
Definition scan_feature (self : DecisionTree) (sub_X : ndarray2) (sub_y : list Z)
    (cur : option best) (feature : nat) : M (option best) :=
  (feature_type <- lift (np.item (feature_types self) feature) ;;
   '(categories_map, feature_vector) <-
      lift (feature_vector_of feature_type sub_X sub_y feature) ;;
   constant <- lift (all_equal_first feature_vector) ;;
   if (constant : bool) then ret cur
   else
     '(_, _, threshold, gini) <- lift (find_best_split feature_vector sub_y) ;;
     if improves cur gini then
       let split := map (fun v => Num.lt ar v threshold) feature_vector in
       threshold_best <- lift (payload_of feature_type categories_map threshold) ;;
       ret (Some {| feature_best := feature;
                    threshold_best := threshold_best;
                    gini_best := gini;
                    split := split |})
     else ret cur)%over.

Fixpoint scan (self : DecisionTree) (sub_X : ndarray2) (sub_y : list Z)
    (features : list nat) (cur : option best) : M (option best) :=
  match features with
  | [] => ret cur
  | feature :: features' =>
      (cur' <- scan_feature self sub_X sub_y cur feature ;;
       scan self sub_X sub_y features' cur')%over
  end.

Fixpoint _fit_node (fuel : nat) (self : DecisionTree) (sub_X : ndarray2)
    (sub_y : list Z) : M node :=
  match fuel with
  | O => out_of_fuel
  | S fuel' =>
    (y0 <- lift (np.item sub_y 0) ;;
     if forallb (fun y => Z.eqb y y0) sub_y then ret (Terminal y0)
     else if (Z.of_nat (length sub_y) <=? min_samples_split self)%Z then
       c <- lift (most_common1 Z.eqb sub_y) ;;
       ret (Terminal c)
     else
       found <- scan self sub_X sub_y (seq 0 (shape1 sub_X)) None ;;
       match found with
       | None =>
           c <- lift (most_common1 Z.eqb sub_y) ;;
           ret (Terminal c)
       | Some b =>
           feature_type <- lift (np.item (feature_types self) (feature_best b)) ;;
           lift (check_feature_type feature_type) ;;;
           incr_depth ;;;
           left_X <- lift (row_index sub_X (split b)) ;;
           left_y <- lift (np.bool_index sub_y (split b)) ;;
           left_child <- _fit_node fuel' self left_X left_y ;;
           right_X <- lift (row_index sub_X (map negb (split b))) ;;
           right_y <- lift (np.bool_index sub_y (map negb (split b))) ;;
           right_child <- _fit_node fuel' self right_X right_y ;;
           ret (Nonterminal (feature_best b) (threshold_best b)
                            left_child right_child)
       end)%over
  end.

(** [_predict_node] *)
Fixpoint _predict_node (self : DecisionTree) (x : list num) (nd : node) : result Z :=
  match nd with
  | Empty => Raise KeyError
  | Terminal class => Ok class
  | Nonterminal feature_split payload left_child right_child =>
      feature_type <- np.item (feature_types self) feature_split ;;
      v <- np.item x feature_split ;;
      if is_real feature_type then
        match payload with
        | Threshold threshold =>
            if Num.lt ar v threshold then _predict_node self x left_child
            else _predict_node self x right_child
        | CategoriesSplit _ => Raise KeyError
        end
      else
        match payload with
        | CategoriesSplit categories_split =>
            if existsb (fun c => Num.eq ar v c) categories_split
            then _predict_node self x left_child
            else _predict_node self x right_child
        | Threshold _ => Raise KeyError
        end
  end.

Definition set_fitted (self : DecisionTree) (nd : node) (d : Z) : DecisionTree :=
  {| tree := nd;
     feature_types := feature_types self;
     max_depth := max_depth self;
     min_samples_split := min_samples_split self;
     min_samples_leaf := min_samples_leaf self;
     depth := d |}.

(** [fit].  The recursion gets one unit of fuel more than there are
    labels; it needs more only when a split leaves every sample on one
    side, and then the program recurses on the same samples until Python
    stops it. *)
Definition fit (self : DecisionTree) (X : ndarray2) (y : list Z)
  : option (result DecisionTree) :=
  match _fit_node (S (length y)) self X y (depth self) with
  | Some (r, d) => Some (nd <- r ;; Ok (set_fitted self nd d))
  | None => None
  end.

(** [predict] *)
Definition predict (self : DecisionTree) (X : ndarray2) : result (list Z) :=
  mapM (fun x => _predict_node self x (tree self)) (rows X).

(** The model of [DecisionTree(ft)], with the default values. *)
Definition dt0 (ft : list string) : DecisionTree :=
  {| tree := Empty;
     feature_types := ft;
     max_depth := None;
     min_samples_split := 2;
     min_samples_leaf := None;
     depth := 0 |}.

(** *** Vocabulary of the statements over an arithmetic *)

(** The value of [gini_vec] (line 45) at index [k], for the split after
    the first [S k] sorted samples. *)
Definition gini_at (ts : list Z) (k : nat) : num :=
  let R := Z.of_nat (length ts) in
  let l := Z.of_nat (S k) in
  let c := sumZ (firstn (S k) ts) in
  let total := sumZ ts in
  truediv l R [*] impurity_term (of_int 1 [-] truediv c l) (truediv c l)
  [+] truediv (R - l) R
      [*] impurity_term (of_int 1 [-] truediv (total - c) (R - l))
                        (truediv (total - c) (R - l)).

(** The expression of lines 38-46 for the labels [left] below a split and
    the labels [right] above it: with [p1] and [q1] the sums of the labels
    over the sizes, [(|left|/R) (p0^2 + p1^2 - 1) + (|right|/R) (q0^2 +
    q1^2 - 1)], operation by operation in the arithmetic. *)
Definition criterion (left right : list Z) : num :=
  let l := Z.of_nat (length left) in
  let r := Z.of_nat (length right) in
  let R := (l + r)%Z in
  truediv l R
    [*] impurity_term (of_int 1 [-] truediv (sumZ left) l) (truediv (sumZ left) l)
  [+] truediv r R
      [*] impurity_term (of_int 1 [-] truediv (sumZ right) r)
                        (truediv (sumZ right) r).

Definition midpoint_at (fs : list num) (k : nat) : num :=
  (nth (S k) fs (of_int 0) [+] nth k fs (of_int 0)) [/] of_int 2.

Definition boundary_at (fs : list num) (k : nat) : bool :=
  negb (Num.eq ar (nth (S k) fs (of_int 0)) (nth k fs (of_int 0))).

Definition kept (fs : list num) : list nat :=
  filter (boundary_at fs) (seq 0 (length fs - 1)).

(** The neighbours of a list, those with different values, and the
    midpoints of these as line 33 computes them. *)
Definition adjacent_pairs (fs : list num) : list (num * num) := combine fs (tl fs).

Definition boundaries (fs : list num) : list (num * num) :=
  filter (fun p => negb (Num.eq ar (snd p) (fst p))) (adjacent_pairs fs).

Definition midpoints (fs : list num) : list num :=
  map (fun p => (snd p [+] fst p) [/] of_int 2) (boundaries fs).

(** The candidate split positions [i] (the left part has [i] samples). *)
Definition split_positions (fs : list num) : list nat :=
  filter (fun i => negb (Num.eq ar (nth i fs (of_int 0)) (nth (i - 1) fs (of_int 0))))
         (seq 1 (length fs - 1)).

(** [ind] lists every index once, in an order that sorts the vector. *)
Definition sorts (ind : list nat) (fv : list num) : Prop :=
  Permutation ind (seq 0 (length fv)) /\
  StronglySorted (fun a b => Num.le ar a b = true) (gather (of_int 0) fv ind).

(** [<] is a strict weak order on the entries of [w]: asymmetric, and
    whatever is above [a] is above [b] or [b] is above [a].  In binary64
    this is so of every list without NaN. *)
Definition ordered (w : list num) : bool :=
  forallb (fun a =>
    forallb (fun b =>
      (negb (Num.lt ar a b) || negb (Num.lt ar b a)) &&
      forallb (fun c =>
        negb (Num.lt ar a c) || Num.lt ar a b || Num.lt ar b c) w) w) w.

(** No entry of [w] is below an earlier one, or below itself. *)
Fixpoint ascending (w : list num) : bool :=
  match w with
  | [] => true
  | a :: w' => forallb (fun b => negb (Num.lt ar b a)) w && ascending w'
  end.

(** Every midpoint computed for [fs] is at least the smaller and at most
    the larger of its two values.  In binary64 a midpoint can leave this
    range by overflow of the sum. *)
Definition between (fs : list num) : bool :=
  forallb (fun p =>
             Num.le ar (fst p) ((snd p [+] fst p) [/] of_int 2) &&
             Num.le ar ((snd p [+] fst p) [/] of_int 2) (snd p))
          (boundaries fs).

(** [<=] and [<] agree on the entries of [w]: nothing is below itself,
    nothing is below what it is at most, and [<=] is transitive. *)
Definition chained (w : list num) : bool :=
  forallb (fun a =>
    negb (Num.lt ar a a) &&
    forallb (fun b =>
      (negb (Num.le ar a b) || negb (Num.lt ar b a)) &&
      forallb (fun c =>
        negb (Num.le ar a b) || negb (Num.le ar b c) || Num.le ar a c) w) w) w.

End Program.

End Over.

Notation "x <- m ;; k" := (Over.mbind m (fun x => k))
  (at level 61, m at next level, right associativity) : over_scope.
Notation "' p <- m ;; k" := (Over.mbind m (fun x => match x with p => k end))
  (at level 61, p pattern, m at next level, right associativity) : over_scope.
Notation "m ;;; k" := (Over.mbind m (fun _ => k))
  (at level 61, right associativity) : over_scope.

(** Eight samples with the feature values 1 to 8, in float64. *)
Definition fv8 : list PrimFloat.float :=
  map binary64_of_int [1; 2; 3; 4; 5; 6; 7; 8]%Z.

(** Labels for which the splits after two and after six samples have the
    same criterion, -1/3, the greatest of the seven. *)
Definition tv8 : list Z := [0; 0; 1; 0; 0; 0; 1; 0]%Z.

(** Three doubles in a row. *)
Definition fv3 : list PrimFloat.float :=
  [Doubles.above1; Doubles.above2; Doubles.above3].

(** Three samples with one real feature: [1.0] and, twice, the double
    that follows it. *)
Definition X_adjacent : Over.ndarray2 binary64 :=
  Over.Build_ndarray2 binary64 1
    [[binary64_of_int 1]; [Doubles.above1]; [Doubles.above1]].

(** Three samples with one real feature: [2^1023] and, twice, one and a
    half times as much. *)
Definition X_huge : Over.ndarray2 binary64 :=
  Over.Build_ndarray2 binary64 1
    [[Doubles.huge];
     [PrimFloat.add Doubles.huge (PrimFloat.div Doubles.huge (binary64_of_int 2))];
     [PrimFloat.add Doubles.huge (PrimFloat.div Doubles.huge (binary64_of_int 2))]].
(* ===================================================================== *)
(** * Properties *)

(** ** The result monad *)

Lemma bind_Ok_inv {A B : Type} (m : result A) (k : A -> result B) (b : B) :
  bind m k = Ok b -> exists a, m = Ok a /\ k a = Ok b.
Proof.
  destruct m as [a | e]; simpl; intros H; try discriminate.
  exists a. split; [reflexivity | exact H].
Qed.

Lemma bind_Ok {A B : Type} (a : A) (k : A -> result B) : bind (Ok a) k = k a.
Proof. reflexivity. Qed.

Lemma mapM_Ok_map {A B : Type} (f : A -> result B) (g : A -> B) (l : list A) :
  (forall a, In a l -> f a = Ok (g a)) -> mapM f l = Ok (map g l).
Proof.
  induction l as [| a l IH]; intros H; simpl.
  - reflexivity.
  - rewrite (H a (or_introl eq_refl)). simpl.
    rewrite IH by (intros; apply H; right; assumption).
    reflexivity.
Qed.

Lemma mapM_Ok_length {A B : Type} (f : A -> result B) (l : list A) (bs : list B) :
  mapM f l = Ok bs -> length bs = length l.
Proof.
  revert bs. induction l as [| a l IH]; simpl; intros bs H.
  - injection H as <-. reflexivity.
  - destruct (f a) as [b |]; simpl in H; try discriminate.
    destruct (mapM f l) as [bs' |]; simpl in H; try discriminate.
    injection H as <-. simpl. f_equal. apply IH. reflexivity.
Qed.

(** ** Rational comparisons *)

Lemma Qlt_bool_iff (a b : Q) : Qlt_bool a b = true <-> a < b.
Proof.
  unfold Qlt_bool. rewrite negb_true_iff.
  split; intros H.
  - apply Qnot_le_lt. intros Hle. apply Qle_bool_iff in Hle. congruence.
  - destruct (Qle_bool b a) eqn:E; [| reflexivity].
    apply Qle_bool_iff in E. apply Qle_not_lt in E. contradiction.
Qed.

Lemma Qlt_bool_false_iff (a b : Q) : Qlt_bool a b = false <-> b <= a.
Proof.
  unfold Qlt_bool. rewrite negb_false_iff. apply Qle_bool_iff.
Qed.

Lemma Qle_bool_false_lt (a b : Q) : Qle_bool a b = false -> b < a.
Proof.
  intros H. apply Qnot_le_lt. intros Hle. apply Qle_bool_iff in Hle. congruence.
Qed.

Lemma Qeq_bool_false_neq (a b : Q) : Qeq_bool a b = false -> ~ a == b.
Proof.
  intros H E. apply Qeq_bool_iff in E. congruence.
Qed.

Lemma Qeq_bool_refl (a : Q) : Qeq_bool a a = true.
Proof. apply Qeq_bool_iff. reflexivity. Qed.

Lemma Qeq_bool_sym (a b : Q) : Qeq_bool a b = Qeq_bool b a.
Proof.
  destruct (Qeq_bool a b) eqn:E1, (Qeq_bool b a) eqn:E2; try reflexivity.
  - apply Qeq_bool_iff in E1. symmetry in E1. apply Qeq_bool_iff in E1. congruence.
  - apply Qeq_bool_iff in E2. symmetry in E2. apply Qeq_bool_iff in E2. congruence.
Qed.

#[global] Instance Qlt_bool_comp : Proper (Qeq ==> Qeq ==> eq) Qlt_bool.
Proof.
  intros a a' Ha b b' Hb. unfold Qlt_bool. rewrite Ha, Hb. reflexivity.
Qed.

(** ** Sorting by a key *)

Section SortBy.
Context {A : Type} (key : A -> Q).

Lemma insert_by_perm (x : A) (l : list A) :
  Permutation (np.insert_by key x l) (x :: l).
Proof.
  induction l as [| y l IH]; simpl.
  - apply Permutation_refl.
  - destruct (Qle_bool (key x) (key y)).
    + apply Permutation_refl.
    + eapply perm_trans; [apply perm_skip, IH | apply perm_swap].
Qed.

Lemma sort_by_perm (l : list A) : Permutation (np.sort_by key l) l.
Proof.
  induction l as [| x l IH]; simpl.
  - apply perm_nil.
  - eapply perm_trans; [apply insert_by_perm | apply perm_skip, IH].
Qed.

Lemma insert_by_sorted (x : A) (l : list A) :
  StronglySorted (key_le key) l -> StronglySorted (key_le key) (np.insert_by key x l).
Proof.
  induction 1 as [| y l Hs IH Hall]; simpl.
  - constructor; constructor.
  - destruct (Qle_bool (key x) (key y)) eqn:E.
    + apply Qle_bool_iff in E.
      constructor.
      * constructor; assumption.
      * constructor; [exact E |].
        eapply Forall_impl; [| exact Hall].
        intros z Hz. unfold key_le in *. eapply Qle_trans; eassumption.
    + apply Qle_bool_false_lt in E.
      constructor; [exact IH |].
      eapply Permutation_Forall; [apply Permutation_sym, insert_by_perm |].
      constructor; [| exact Hall].
      unfold key_le. apply Qlt_le_weak. exact E.
Qed.

Lemma sort_by_sorted (l : list A) : StronglySorted (key_le key) (np.sort_by key l).
Proof.
  induction l as [| x l IH]; simpl.
  - constructor.
  - apply insert_by_sorted. exact IH.
Qed.

Lemma sort_by_length (l : list A) : length (np.sort_by key l) = length l.
Proof. apply Permutation_length, sort_by_perm. Qed.

End SortBy.

(** ** The sorted samples of [find_best_split] *)

Lemma find_best_split_from_eq (ind : list nat) (fv : list Q) (tv : list Z) :
  find_best_split_from ind fv tv =
  (fs <- np.take fv ind ;;
   ts <- np.take tv ind ;;
   split_sorted fs ts).
Proof. reflexivity. Qed.

Lemma find_best_split_argsort (fv : list Q) (tv : list Z) :
  find_best_split fv tv = find_best_split_from (np.argsort fv) fv tv.
Proof. reflexivity. Qed.

Lemma sorts_lt (ind : list nat) (fv : list Q) (i : nat) :
  sorts ind fv -> In i ind -> (i < length fv)%nat.
Proof.
  intros [Hp _] Hi. apply (Permutation_in _ Hp) in Hi. apply in_seq in Hi. lia.
Qed.

Lemma sorts_length (ind : list nat) (fv : list Q) :
  sorts ind fv -> length ind = length fv.
Proof.
  intros [Hp _]. apply Permutation_length in Hp. rewrite length_seq in Hp. exact Hp.
Qed.

Lemma take_gather {A : Type} (d : A) (v : list A) (ind : list nat) :
  (forall i, In i ind -> (i < length v)%nat) ->
  np.take v ind = Ok (gather d v ind).
Proof.
  intros Hlt. unfold np.take, gather. apply mapM_Ok_map.
  intros i Hi. rewrite (nth_error_nth' v d) by (apply Hlt; exact Hi). reflexivity.
Qed.

Lemma find_best_split_from_sorted (ind : list nat) (fv : list Q) (tv : list Z) :
  sorts ind fv -> (length fv <= length tv)%nat ->
  find_best_split_from ind fv tv =
  split_sorted (feat_sort ind fv) (target_sort ind tv).
Proof.
  intros Hs Hlen. rewrite find_best_split_from_eq.
  rewrite (take_gather 0 fv ind) by (intros i Hi; eapply sorts_lt; eassumption).
  rewrite bind_Ok.
  rewrite (take_gather 0%Z tv ind)
    by (intros i Hi; pose proof (sorts_lt _ _ _ Hs Hi); lia).
  reflexivity.
Qed.

Lemma feat_sort_length (ind : list nat) (fv : list Q) :
  sorts ind fv -> length (feat_sort ind fv) = length fv.
Proof.
  intros Hs. unfold feat_sort, gather. rewrite length_map.
  apply sorts_length. exact Hs.
Qed.

Lemma target_sort_length (ind : list nat) (fv : list Q) (tv : list Z) :
  sorts ind fv -> length (target_sort ind tv) = length fv.
Proof.
  intros Hs. unfold target_sort, gather. rewrite length_map.
  apply sorts_length. exact Hs.
Qed.

Lemma feat_sort_sorted (ind : list nat) (fv : list Q) :
  sorts ind fv -> StronglySorted Qle (feat_sort ind fv).
Proof. intros [_ Hs]. exact Hs. Qed.

Lemma map_nth_seq {A : Type} (l : list A) (d : A) :
  map (fun i => nth i l d) (seq 0 (length l)) = l.
Proof.
  induction l as [| a l IH]; simpl.
  - reflexivity.
  - f_equal. rewrite <- seq_shift, map_map. exact IH.
Qed.

Lemma feat_sort_perm (ind : list nat) (fv : list Q) :
  sorts ind fv -> Permutation (feat_sort ind fv) fv.
Proof.
  intros [Hp _]. unfold feat_sort, gather.
  eapply perm_trans; [apply Permutation_map; exact Hp |].
  rewrite map_nth_seq. apply Permutation_refl.
Qed.

Lemma combine_nth_seq {A B : Type} (u : list A) (v : list B) (da : A) (db : B) :
  length u = length v ->
  map (fun i => (nth i u da, nth i v db)) (seq 0 (length u)) = combine u v.
Proof.
  revert v. induction u as [| a u IH]; intros [| b v] Hl; simpl in *;
    try discriminate; [reflexivity |].
  f_equal. rewrite <- seq_shift, map_map. apply IH. lia.
Qed.

Lemma sorted_samples_perm (ind : list nat) (fv : list Q) (tv : list Z) :
  sorts ind fv -> length fv = length tv ->
  Permutation (sorted_samples ind fv tv) (combine fv tv).
Proof.
  intros [Hp _] Hlen. unfold sorted_samples, feat_sort, target_sort, gather.
  assert (E : forall l : list nat,
             combine (map (fun i => nth i fv 0) l) (map (fun i => nth i tv 0%Z) l) =
             map (fun i => (nth i fv 0, nth i tv 0%Z)) l).
  { induction l as [| i l IH]; simpl; [reflexivity | f_equal; exact IH]. }
  rewrite E.
  eapply perm_trans; [apply Permutation_map; exact Hp |].
  rewrite combine_nth_seq by exact Hlen. apply Permutation_refl.
Qed.

(** The order returned by [np.argsort] in this model is one of them. *)

Lemma combine_seq_nth_error {A : Type} (l : list A) (s : nat) (x : A) (i : nat) :
  In (x, i) (combine l (seq s (length l))) ->
  (s <= i)%nat /\ nth_error l (i - s) = Some x.
Proof.
  revert s. induction l as [| a l IH]; simpl; intros s Hin.
  - contradiction.
  - destruct Hin as [Hin | Hin].
    + injection Hin as -> ->. rewrite Nat.sub_diag. split; [lia | reflexivity].
    + apply IH in Hin. destruct Hin as [Hle Hn]. split; [lia |].
      replace (i - s)%nat with (S (i - S s)) by lia. exact Hn.
Qed.

Lemma sorted_pairs_nth_error (fv : list Q) (x : Q) (i : nat) :
  In (x, i) (np.sort_by fst (combine fv (seq 0 (length fv)))) ->
  nth_error fv i = Some x.
Proof.
  intros Hin.
  apply (Permutation_in _ (sort_by_perm fst _)) in Hin.
  apply combine_seq_nth_error in Hin. destruct Hin as [_ Hin].
  rewrite Nat.sub_0_r in Hin. exact Hin.
Qed.

Lemma map_snd_combine_seq {A : Type} (l : list A) (s : nat) :
  map snd (combine l (seq s (length l))) = seq s (length l).
Proof.
  revert s. induction l as [| a l IH]; intros s; simpl.
  - reflexivity.
  - f_equal. apply IH.
Qed.

Lemma feat_sort_argsort (fv : list Q) :
  feat_sort (np.argsort fv) fv =
  map fst (np.sort_by fst (combine fv (seq 0 (length fv)))).
Proof.
  unfold feat_sort, gather, np.argsort. rewrite map_map.
  apply map_ext_in. intros [x i] Hin. simpl.
  apply sorted_pairs_nth_error in Hin. apply nth_error_nth. exact Hin.
Qed.

Lemma argsort_sorts (fv : list Q) : sorts (np.argsort fv) fv.
Proof.
  split.
  - unfold np.argsort.
    eapply perm_trans; [apply Permutation_map, sort_by_perm |].
    rewrite map_snd_combine_seq. apply Permutation_refl.
  - rewrite feat_sort_argsort.
    pose proof (sort_by_sorted (@fst Q nat) (combine fv (seq 0 (length fv)))) as Hs.
    induction Hs as [| p l Hs IH Hall]; simpl.
    + constructor.
    + constructor; [exact IH |]. apply Forall_map. exact Hall.
Qed.

(** ** The vectors of [find_best_split], position by position *)

Lemma zip_with_adjacent {A C : Type} (f : A -> A -> C) (l : list A) (d : A) :
  np.zip_with f (tl l) (removelast l) =
  map (fun k => f (nth (S k) l d) (nth k l d)) (seq 0 (length l - 1)).
Proof.
  induction l as [| a l IH]; [reflexivity |].
  destruct l as [| b r]; [reflexivity |].
  change (tl (a :: b :: r)) with (b :: tl (b :: r)).
  change (removelast (a :: b :: r)) with (a :: removelast (b :: r)).
  change (np.zip_with f (b :: tl (b :: r)) (a :: removelast (b :: r)))
    with (f b a :: np.zip_with f (tl (b :: r)) (removelast (b :: r))).
  rewrite IH.
  replace (length (a :: b :: r) - 1)%nat with (S (length (b :: r) - 1))
    by (simpl; lia).
  rewrite <- cons_seq, <- seq_shift, map_cons, map_map. reflexivity.
Qed.

Lemma zip_with_map {A B C D : Type} (f : B -> C -> D) (g : A -> B) (h : A -> C)
    (l : list A) :
  np.zip_with f (map g l) (map h l) = map (fun x => f (g x) (h x)) l.
Proof.
  induction l as [| a l IH]; simpl; [reflexivity | f_equal; exact IH].
Qed.

Lemma compress_map {A B : Type} (g : A -> B) (m : A -> bool) (l : list A) :
  np.compress (map g l) (map m l) = map g (filter m l).
Proof.
  induction l as [| a l IH]; simpl; [reflexivity |].
  destruct (m a); simpl; [f_equal |]; exact IH.
Qed.

Lemma bool_index_map {A B : Type} (g : A -> B) (m : A -> bool) (l : list A) :
  np.bool_index (map g l) (map m l) = Ok (map g (filter m l)).
Proof.
  unfold np.bool_index. rewrite !length_map, Nat.eqb_refl, compress_map.
  reflexivity.
Qed.

Lemma removelast_cumsum_from (acc : Z) (v : list Z) :
  removelast (np.cumsum_from acc v) =
  map (fun k => (acc + sumZ (firstn (S k) v))%Z) (seq 0 (length v - 1)).
Proof.
  revert acc. induction v as [| x v IH]; intros acc; [reflexivity |].
  destruct v as [| y r]; [reflexivity |].
  change (np.cumsum_from acc (x :: y :: r))
    with ((acc + x)%Z :: np.cumsum_from (acc + x) (y :: r)).
  change (removelast ((acc + x)%Z :: np.cumsum_from (acc + x) (y :: r)))
    with ((acc + x)%Z :: removelast (np.cumsum_from (acc + x) (y :: r))).
  rewrite IH.
  replace (length (x :: y :: r) - 1)%nat with (S (length (y :: r) - 1))
    by (simpl; lia).
  rewrite <- cons_seq, <- seq_shift, map_cons, map_map.
  f_equal.
  - simpl. lia.
  - apply map_ext. intros k.
    change (firstn (S (S k)) (x :: y :: r)) with (x :: firstn (S k) (y :: r)).
    change (sumZ (x :: firstn (S k) (y :: r)))
      with (x + sumZ (firstn (S k) (y :: r)))%Z.
    lia.
Qed.

Lemma last_cumsum_from (acc : Z) (v : list Z) (d : Z) :
  v <> [] -> last (np.cumsum_from acc v) d = (acc + sumZ v)%Z.
Proof.
  revert acc. induction v as [| x v IH]; intros acc Hne; [congruence |].
  destruct v as [| y r].
  - simpl. lia.
  - specialize (IH (acc + x)%Z ltac:(discriminate)).
    simpl in *. rewrite IH. lia.
Qed.

Lemma last_item_cumsum_from (acc : Z) (v : list Z) :
  v <> [] -> np.last_item (np.cumsum_from acc v) = Ok (acc + sumZ v)%Z.
Proof.
  intros Hne. destruct v as [| x v]; [congruence |].
  simpl. f_equal. destruct v as [| y r].
  - simpl. lia.
  - rewrite last_cumsum_from by discriminate. simpl. lia.
Qed.

Lemma arange_1 (n : nat) :
  np.arange 1 (Z.of_nat n) = map (fun k => Z.of_nat (S k)) (seq 0 (n - 1)).
Proof.
  unfold np.arange.
  replace (Z.to_nat (Z.of_nat n - 1)) with (n - 1)%nat by lia.
  apply map_ext. intros k. lia.
Qed.

Lemma split_sorted_closed (fs : list Q) (ts : list Z) :
  length fs = length ts -> ts <> [] ->
  split_sorted fs ts =
  (ind_best <- np.argmax (map (gini_at ts) (kept fs)) ;;
   threshold_best <- np.item (map (midpoint_at fs) (kept fs)) ind_best ;;
   gini_best <- np.item (map (gini_at ts) (kept fs)) ind_best ;;
   Ok (map (midpoint_at fs) (kept fs), map (gini_at ts) (kept fs),
       threshold_best, gini_best)).
Proof.
  intros Hlen Hne. unfold split_sorted. cbv zeta.
  rewrite (zip_with_adjacent (fun a b => negb (Qeq_bool a b)) fs 0).
  rewrite (zip_with_adjacent (fun a b => (a + b) / 2) fs 0).
  rewrite bool_index_map, bind_Ok.
  unfold np.cumsum.
  rewrite last_item_cumsum_from by exact Hne.
  rewrite bind_Ok.
  rewrite removelast_cumsum_from, arange_1.
  rewrite <- Hlen.
  rewrite !map_map, !zip_with_map, !map_map, !zip_with_map.
  rewrite bool_index_map, bind_Ok.
  fold (boundary_at fs). fold (kept fs). fold (midpoint_at fs).
  match goal with
  | |- context [np.argmax (map ?F _)] =>
      assert (E : forall k, F k = gini_at ts k)
  end.
  { intros k. unfold gini_at. rewrite <- Hlen. cbv zeta.
    rewrite !Z.add_0_l. reflexivity. }
  rewrite (map_ext _ _ E). reflexivity.
Qed.

(** ** np.argmax *)

Lemma nth_error_snoc {A : Type} (pre : list A) (x : A) (j : nat) (y : A) :
  nth_error (pre ++ [x]) j = Some y ->
  ((j < length pre)%nat /\ nth_error pre j = Some y) \/ (j = length pre /\ y = x).
Proof.
  intros H. destruct (Nat.lt_ge_cases j (length pre)) as [Hlt | Hge].
  - left. split; [exact Hlt |]. rewrite nth_error_app1 in H by exact Hlt. exact H.
  - right. rewrite nth_error_app2 in H by exact Hge.
    destruct (j - length pre)%nat as [| d] eqn:E.
    + simpl in H. injection H as <-. split; [lia | reflexivity].
    + simpl in H. destruct d; discriminate.
Qed.

Lemma argmax_from_first_max (v pre : list Q) (best : Q) (ib : nat) :
  first_max pre ib best ->
  exists m, first_max (pre ++ v) (np.argmax_from best ib (length pre) v) m.
Proof.
  revert pre best ib. induction v as [| x v IH]; intros pre best ib Hfm.
  - exists best. rewrite app_nil_r. exact Hfm.
  - destruct Hfm as (Hk & Hmax & Hfirst).
    assert (Hib : (ib < length pre)%nat).
    { apply nth_error_Some. congruence. }
    simpl. replace (pre ++ x :: v) with ((pre ++ [x]) ++ v)
      by (rewrite <- app_assoc; reflexivity).
    replace (S (length pre)) with (length (pre ++ [x]))
      by (rewrite length_app; simpl; lia).
    destruct (Qlt_bool best x) eqn:E.
    + apply Qlt_bool_iff in E. apply IH. repeat split.
      * rewrite nth_error_app2 by lia. rewrite Nat.sub_diag. reflexivity.
      * intros j y Hj. apply nth_error_snoc in Hj.
        destruct Hj as [[_ Hj] | [_ ->]].
        -- apply Qlt_le_weak. eapply Qle_lt_trans; [eapply Hmax; exact Hj | exact E].
        -- apply Qle_refl.
      * intros j y Hlt Hj. apply nth_error_snoc in Hj.
        destruct Hj as [[_ Hj] | [-> _]]; [| lia].
        eapply Qle_lt_trans; [eapply Hmax; exact Hj | exact E].
    + apply Qlt_bool_false_iff in E. apply IH. repeat split.
      * rewrite nth_error_app1 by exact Hib. exact Hk.
      * intros j y Hj. apply nth_error_snoc in Hj.
        destruct Hj as [[_ Hj] | [_ ->]]; [eapply Hmax; exact Hj | exact E].
      * intros j y Hlt Hj. apply nth_error_snoc in Hj.
        destruct Hj as [[_ Hj] | [-> _]]; [| lia].
        eapply Hfirst; eassumption.
Qed.

Lemma argmax_first_max (v : list Q) :
  v <> [] -> exists k m, np.argmax v = Ok k /\ first_max v k m.
Proof.
  destruct v as [| x v]; [congruence | intros _].
  destruct (argmax_from_first_max v [x] x 0) as [m Hm].
  - repeat split.
    + intros [| j] y Hj; simpl in Hj.
      * injection Hj as <-. apply Qle_refl.
      * destruct j; discriminate.
    + intros j y Hlt. lia.
  - exists (np.argmax_from x 0 1 v), m. split; [reflexivity | exact Hm].
Qed.

(** ** Thresholds of a sorted vector *)

Lemma adjacent_pairs_seq (fs : list Q) :
  adjacent_pairs fs =
  map (fun k => (nth k fs 0, nth (S k) fs 0)) (seq 0 (length fs - 1)).
Proof.
  unfold adjacent_pairs.
  induction fs as [| a fs IH]; [reflexivity |].
  destruct fs as [| b r]; [reflexivity |].
  change (combine (a :: b :: r) (tl (a :: b :: r)))
    with ((a, b) :: combine (b :: r) (tl (b :: r))).
  rewrite IH.
  replace (length (a :: b :: r) - 1)%nat with (S (length (b :: r) - 1))
    by (simpl; lia).
  rewrite <- cons_seq, <- seq_shift, map_cons, map_map. reflexivity.
Qed.

Lemma filter_map_comm {A B : Type} (g : A -> B) (p : B -> bool) (l : list A) :
  filter p (map g l) = map g (filter (fun x => p (g x)) l).
Proof.
  induction l as [| a l IH]; simpl; [reflexivity |].
  destruct (p (g a)); simpl; [f_equal |]; exact IH.
Qed.

Lemma midpoints_kept (fs : list Q) :
  map (midpoint_at fs) (kept fs) = midpoints fs.
Proof.
  unfold midpoints, boundaries, kept. rewrite adjacent_pairs_seq.
  rewrite filter_map_comm, map_map. reflexivity.
Qed.

Lemma boundaries_kept_length (fs : list Q) :
  length (boundaries fs) = length (kept fs).
Proof.
  unfold boundaries, kept. rewrite adjacent_pairs_seq.
  rewrite filter_map_comm, length_map. reflexivity.
Qed.

Lemma midpoints_cons2 (a b : Q) (r : list Q) :
  midpoints (a :: b :: r) =
  if Qeq_bool b a then midpoints (b :: r) else (b + a) / 2 :: midpoints (b :: r).
Proof.
  unfold midpoints, boundaries, adjacent_pairs.
  change (combine (a :: b :: r) (tl (a :: b :: r)))
    with ((a, b) :: combine (b :: r) (tl (b :: r))).
  simpl filter. destruct (Qeq_bool b a); reflexivity.
Qed.

Lemma midpoints_above_head (a : Q) (r : list Q) :
  StronglySorted Qle (a :: r) -> Forall (fun t => a < t) (midpoints (a :: r)).
Proof.
  revert a. induction r as [| b r IH]; intros a Hs.
  - constructor.
  - rewrite midpoints_cons2.
    inversion Hs as [| ? ? Hs' Hall]; subst.
    inversion Hall as [| ? ? Hab _]; subst.
    assert (Htail : Forall (fun t => a < t) (midpoints (b :: r))).
    { eapply Forall_impl; [| apply IH; exact Hs'].
      intros t Ht. eapply Qle_lt_trans; eassumption. }
    destruct (Qeq_bool b a) eqn:E; [exact Htail |].
    constructor; [| exact Htail].
    apply Qeq_bool_false_neq in E.
    assert (a < b) by (apply Qle_lt_or_eq in Hab; destruct Hab as [H | H];
                       [exact H | exfalso; apply E; symmetry; exact H]).
    apply Qlt_shift_div_l; lra.
Qed.

Lemma midpoints_ascending (fs : list Q) :
  StronglySorted Qle fs -> StronglySorted Qlt (midpoints fs).
Proof.
  induction fs as [| a fs IH]; intros Hs.
  - constructor.
  - destruct fs as [| b r]; [constructor |].
    rewrite midpoints_cons2.
    inversion Hs as [| ? ? Hs' Hall]; subst.
    inversion Hall as [| ? ? Hab _]; subst.
    destruct (Qeq_bool b a) eqn:E; [apply IH; exact Hs' |].
    constructor; [apply IH; exact Hs' |].
    eapply Forall_impl; [| apply midpoints_above_head; exact Hs'].
    intros t Ht. eapply Qle_lt_trans; [| exact Ht].
    apply Qle_shift_div_r; lra.
Qed.

Lemma midpoints_nil_constant (a : Q) (r : list Q) :
  midpoints (a :: r) = [] -> Forall (fun x => x == a) (a :: r).
Proof.
  revert a. induction r as [| b r IH]; intros a H.
  - constructor; [reflexivity | constructor].
  - rewrite midpoints_cons2 in H.
    destruct (Qeq_bool b a) eqn:E; [| discriminate].
    apply Qeq_bool_iff in E.
    constructor; [reflexivity |].
    eapply Forall_impl; [| apply IH; exact H].
    intros x Hx. rewrite Hx. exact E.
Qed.

Lemma non_constant_perm (u v : list Q) :
  Permutation u v -> non_constant u -> non_constant v.
Proof.
  intros Hp (a & b & Ha & Hb & Hab).
  exists a, b. repeat split; try assumption; eapply Permutation_in; eassumption.
Qed.

Lemma kept_nonempty (ind : list nat) (fv : list Q) :
  sorts ind fv -> non_constant fv -> kept (feat_sort ind fv) <> [].
Proof.
  intros Hs Hnc Hk.
  apply (non_constant_perm _ _ (Permutation_sym (feat_sort_perm ind fv Hs))) in Hnc.
  assert (Hm : midpoints (feat_sort ind fv) = []).
  { rewrite <- midpoints_kept, Hk. reflexivity. }
  destruct (feat_sort ind fv) as [| a r].
  - destruct Hnc as (x & _ & [] & _).
  - apply midpoints_nil_constant in Hm.
    destruct Hnc as (x & y & Hx & Hy & Hxy).
    rewrite Forall_forall in Hm.
    apply Hxy. rewrite (Hm x Hx), (Hm y Hy). reflexivity.
Qed.

(** ** What [find_best_split] returns on a non-constant vector *)

Lemma non_constant_nonempty (v : list Q) : non_constant v -> v <> [].
Proof. intros (a & _ & Ha & _) ->. exact Ha. Qed.

Lemma find_best_split_from_ok (ind : list nat) (fv : list Q) (tv : list Z) :
  sorts ind fv -> length fv = length tv -> non_constant fv ->
  exists k tb gb,
    find_best_split_from ind fv tv =
      Ok (midpoints (feat_sort ind fv),
          map (gini_at (target_sort ind tv)) (kept (feat_sort ind fv)), tb, gb) /\
    first_max (map (gini_at (target_sort ind tv)) (kept (feat_sort ind fv))) k gb /\
    nth_error (midpoints (feat_sort ind fv)) k = Some tb.
Proof.
  intros Hs Hlen Hnc.
  rewrite find_best_split_from_sorted by (auto; lia).
  rewrite split_sorted_closed.
  2: rewrite (feat_sort_length _ _ Hs), (target_sort_length _ _ tv Hs); reflexivity.
  2: { intros E. apply (f_equal (@length Z)) in E.
       rewrite (target_sort_length _ _ tv Hs) in E.
       apply non_constant_nonempty in Hnc.
       destruct fv; [congruence | discriminate]. }
  set (ginis := map (gini_at (target_sort ind tv)) (kept (feat_sort ind fv))).
  destruct (argmax_first_max ginis) as (k & gb & Ha & Hfm).
  { unfold ginis. intros E. apply map_eq_nil in E.
    revert E. apply kept_nonempty; assumption. }
  assert (Hk : (k < length (midpoints (feat_sort ind fv)))%nat).
  { rewrite <- midpoints_kept, length_map.
    destruct Hfm as (Hn & _).
    assert (Hlt : (k < length ginis)%nat) by (apply nth_error_Some; congruence).
    unfold ginis in Hlt. rewrite length_map in Hlt. exact Hlt. }
  destruct (nth_error (midpoints (feat_sort ind fv)) k) as [tb |] eqn:Et.
  2: { apply nth_error_None in Et. lia. }
  exists k, tb, gb. split; [| split; [exact Hfm | exact Et]].
  rewrite Ha, bind_Ok. rewrite midpoints_kept.
  unfold np.item. rewrite Et. simpl.
  destruct Hfm as (Hn & _). rewrite Hn. reflexivity.
Qed.

Lemma find_best_split_ok (fv : list Q) (tv : list Z) :
  length fv = length tv -> non_constant fv ->
  exists r, find_best_split fv tv = Ok r.
Proof.
  intros Hlen Hnc.
  destruct (find_best_split_from_ok (np.argsort fv) fv tv (argsort_sorts fv) Hlen Hnc)
    as (k & tb & gb & Hf & _).
  eexists. rewrite find_best_split_argsort. exact Hf.
Qed.

(** ** The Gini criterion, as the docstring of [find_best_split] has it *)

Lemma split_positions_kept (fs : list Q) : split_positions fs = map S (kept fs).
Proof.
  unfold split_positions, kept. rewrite <- seq_shift, filter_map_comm.
  f_equal. apply filter_ext. intros k. unfold boundary_at.
  simpl. rewrite Nat.sub_0_r. reflexivity.
Qed.

Lemma sumZ_app (u v : list Z) : sumZ (u ++ v) = (sumZ u + sumZ v)%Z.
Proof. induction u as [| x u IH]; simpl; lia. Qed.

Lemma sumZ_binary (ys : list Z) :
  Forall binary ys -> sumZ ys = Z.of_nat (count_occ Z.eq_dec ys 1%Z).
Proof.
  induction 1 as [| y ys Hy _ IH]; [reflexivity |].
  change (sumZ (y :: ys)) with (y + sumZ ys)%Z.
  destruct Hy as [-> | ->].
  - rewrite count_occ_cons_neq by discriminate. lia.
  - rewrite count_occ_cons_eq by reflexivity. lia.
Qed.

Lemma count_binary (ys : list Z) :
  Forall binary ys ->
  (count_occ Z.eq_dec ys 0%Z + count_occ Z.eq_dec ys 1%Z = length ys)%nat.
Proof.
  induction 1 as [| y ys Hy _ IH]; [reflexivity |].
  change (length (y :: ys)) with (S (length ys)).
  destruct Hy as [-> | ->].
  - rewrite count_occ_cons_eq by reflexivity.
    rewrite count_occ_cons_neq by discriminate. lia.
  - rewrite count_occ_cons_neq by discriminate.
    rewrite count_occ_cons_eq by reflexivity. lia.
Qed.

Lemma criterion_algebra (l r c1 c2 z1 z2 : Q) :
  ~ l == 0 -> ~ r == 0 -> ~ l + r == 0 ->
  z1 + c1 == l -> z2 + c2 == r ->
  l / (l + r) * ((1 - c1 / l) ^ 2 + (c1 / l) ^ 2 - 1) +
  r / (l + r) * ((1 - c2 / r) ^ 2 + (c2 / r) ^ 2 - 1) ==
  - (l / (l + r)) * (1 - (c1 / l) ^ 2 - (z1 / l) ^ 2)
  - (r / (l + r)) * (1 - (c2 / r) ^ 2 - (z2 / r) ^ 2).
Proof.
  intros Hl Hr Hlr H1 H2.
  assert (E1 : z1 == l - c1) by lra.
  assert (E2 : z2 == r - c2) by lra.
  rewrite E1, E2. field. auto.
Qed.

Lemma inject_Z_nat_nonzero (n : nat) : (0 < n)%nat -> ~ inject_Z (Z.of_nat n) == 0.
Proof.
  intros Hn E. unfold Qeq in E. simpl in E. lia.
Qed.

Lemma gini_at_criterion (ts : list Z) (k : nat) :
  Forall binary ts -> (S k < length ts)%nat ->
  gini_at ts k == Q_criterion (firstn (S k) ts) (skipn (S k) ts).
Proof.
  intros Hb Hk.
  assert (Hbl : Forall binary (firstn (S k) ts)).
  { rewrite <- (firstn_skipn (S k) ts) in Hb. apply Forall_app in Hb. apply Hb. }
  assert (Hbr : Forall binary (skipn (S k) ts)).
  { rewrite <- (firstn_skipn (S k) ts) in Hb. apply Forall_app in Hb. apply Hb. }
  assert (Hll : length (firstn (S k) ts) = S k) by (rewrite length_firstn; lia).
  assert (Hlr : length (skipn (S k) ts) = (length ts - S k)%nat)
    by (rewrite length_skipn; lia).
  unfold gini_at, Q_criterion, H, fraction, np.truediv. cbv zeta.
  assert (Etot : sumZ ts = (sumZ (firstn (S k) ts) + sumZ (skipn (S k) ts))%Z).
  { rewrite <- sumZ_app, firstn_skipn. reflexivity. }
  rewrite Etot.
  replace (sumZ (firstn (S k) ts) + sumZ (skipn (S k) ts) - sumZ (firstn (S k) ts))%Z
    with (sumZ (skipn (S k) ts)) by lia.
  rewrite (sumZ_binary _ Hbl), (sumZ_binary _ Hbr).
  pose proof (count_binary _ Hbl) as Cl. pose proof (count_binary _ Hbr) as Cr.
  rewrite Hll, Hlr in *.
  replace (Z.of_nat (length ts) - Z.of_nat (S k))%Z
    with (Z.of_nat (length ts - S k)) by lia.
  replace (Z.of_nat (length ts)) with (Z.of_nat (S k) + Z.of_nat (length ts - S k))%Z
    by lia.
  replace (Z.of_nat (S k + (length ts - S k)))
    with (Z.of_nat (S k) + Z.of_nat (length ts - S k))%Z by lia.
  rewrite inject_Z_plus.
  apply criterion_algebra.
  - apply inject_Z_nat_nonzero. lia.
  - apply inject_Z_nat_nonzero. lia.
  - rewrite <- inject_Z_plus, <- Nat2Z.inj_add. apply inject_Z_nat_nonzero. lia.
  - rewrite <- inject_Z_plus, <- Nat2Z.inj_add, Cl. reflexivity.
  - rewrite <- inject_Z_plus, <- Nat2Z.inj_add, Cr. reflexivity.
Qed.

Lemma map_snd_combine {A B : Type} (u : list A) (v : list B) :
  length u = length v -> map snd (combine u v) = v.
Proof.
  revert v. induction u as [| a u IH]; intros [| b v] Hl; simpl in *;
    try discriminate; [reflexivity |].
  f_equal. apply IH. lia.
Qed.

Lemma map_fst_combine {A B : Type} (u : list A) (v : list B) :
  length u = length v -> map fst (combine u v) = u.
Proof.
  revert v. induction u as [| a u IH]; intros [| b v] Hl; simpl in *;
    try discriminate; [reflexivity |].
  f_equal. apply IH. lia.
Qed.

Lemma sorted_samples_fst (ind : list nat) (fv : list Q) (tv : list Z) :
  map fst (sorted_samples ind fv tv) = feat_sort ind fv.
Proof.
  apply map_fst_combine. unfold feat_sort, target_sort, gather.
  rewrite !length_map. reflexivity.
Qed.

Lemma sorted_samples_snd (ind : list nat) (fv : list Q) (tv : list Z) :
  map snd (sorted_samples ind fv tv) = target_sort ind tv.
Proof.
  apply map_snd_combine. unfold feat_sort, target_sort, gather.
  rewrite !length_map. reflexivity.
Qed.

Lemma sorted_samples_sorted (ind : list nat) (fv : list Q) (tv : list Z) :
  sorts ind fv -> StronglySorted (key_le fst) (sorted_samples ind fv tv).
Proof.
  intros [_ Hs].
  rewrite <- (sorted_samples_fst ind fv tv) in Hs.
  induction (sorted_samples ind fv tv) as [| p l IH]; [constructor |].
  simpl in Hs. inversion Hs as [| ? ? Hs' Hall]; subst.
  constructor; [apply IH; exact Hs' |].
  rewrite Forall_map in Hall. exact Hall.
Qed.

Lemma target_sort_binary (ind : list nat) (fv : list Q) (tv : list Z) :
  sorts ind fv -> length fv = length tv -> Forall binary tv ->
  Forall binary (target_sort ind tv).
Proof.
  intros Hs Hlen Hb. unfold target_sort, gather. apply Forall_map.
  apply Forall_forall. intros i Hi. apply (sorts_lt _ _ _ Hs) in Hi.
  rewrite Forall_forall in Hb. apply Hb. apply nth_In. lia.
Qed.

Lemma kept_lt (fs : list Q) (k : nat) : In k (kept fs) -> (S k < length fs)%nat.
Proof.
  unfold kept. intros Hk. apply filter_In in Hk. destruct Hk as [Hk _].
  apply in_seq in Hk. lia.
Qed.

Lemma Forall2_map_ext {A : Type} (f g : A -> Q) (l : list A) :
  (forall a, In a l -> f a == g a) -> Forall2 Qeq (map f l) (map g l).
Proof.
  induction l as [| a l IH]; intros Hfg; simpl; constructor.
  - apply Hfg. left. reflexivity.
  - apply IH. intros b Hb. apply Hfg. right. exact Hb.
Qed.

(** In exact arithmetic: take a non-constant feature vector with binary
    labels of the same
    length, and any index order [ind] that [np.argsort] may return (the
    one of this model among them).  The search succeeds, and its gini
    values are, one per candidate split position [i] of the samples
    sorted by [ind], the criterion [Q] of the docstring for the first [i]
    samples against the rest. *)
Lemma exact_gini_criterion (ind : list nat) (fv : list Q) (tv : list Z) :
  sorts ind fv ->
  length fv = length tv -> Forall binary tv -> non_constant fv ->
  sorts (np.argsort fv) fv /\
  find_best_split fv tv = find_best_split_from (np.argsort fv) fv tv /\
  exists thresholds ginis threshold_best gini_best,
    find_best_split_from ind fv tv
      = Ok (thresholds, ginis, threshold_best, gini_best) /\
    Permutation (sorted_samples ind fv tv) (combine fv tv) /\
    StronglySorted (key_le fst) (sorted_samples ind fv tv) /\
    Forall2 Qeq ginis
      (map (fun i => Q_criterion (map snd (firstn i (sorted_samples ind fv tv)))
                                 (map snd (skipn i (sorted_samples ind fv tv))))
           (split_positions (map fst (sorted_samples ind fv tv)))).
Proof.
  intros Hs Hlen Hb Hnc.
  split; [apply argsort_sorts |]. split; [reflexivity |].
  destruct (find_best_split_from_ok ind fv tv Hs Hlen Hnc)
    as (k & tb & gb & Hf & _ & _).
  eexists _, _, tb, gb. split; [exact Hf |].
  split; [apply sorted_samples_perm; assumption |].
  split; [apply sorted_samples_sorted; exact Hs |].
  rewrite sorted_samples_fst, split_positions_kept, map_map.
  apply Forall2_map_ext. intros j Hj.
  rewrite <- firstn_map, <- skipn_map, sorted_samples_snd.
  apply gini_at_criterion.
  - eapply target_sort_binary; eassumption.
  - apply kept_lt in Hj. rewrite (feat_sort_length _ _ Hs) in Hj.
    rewrite (target_sort_length _ _ tv Hs). exact Hj.
Qed.

(** In exact arithmetic: on a non-constant feature vector, for any index
    order [ind] that
    [np.argsort] may return, the thresholds returned are the midpoints of
    the neighbours with different values in the sorted vector; they are
    strictly ascending, there is one per such pair of neighbours, and
    there are as many gini values as thresholds. *)
Lemma exact_thresholds (ind : list nat) (fv : list Q) (tv : list Z) :
  sorts ind fv -> length fv = length tv -> non_constant fv ->
  sorts (np.argsort fv) fv /\
  find_best_split fv tv = find_best_split_from (np.argsort fv) fv tv /\
  exists fs thresholds ginis threshold_best gini_best,
    find_best_split_from ind fv tv
      = Ok (thresholds, ginis, threshold_best, gini_best) /\
    Permutation fs fv /\ StronglySorted Qle fs /\
    thresholds = midpoints fs /\
    StronglySorted Qlt thresholds /\
    length thresholds = length (boundaries fs) /\
    length ginis = length thresholds.
Proof.
  intros Hs Hlen Hnc.
  split; [apply argsort_sorts |]. split; [reflexivity |].
  destruct (find_best_split_from_ok ind fv tv Hs Hlen Hnc)
    as (k & tb & gb & Hf & _ & _).
  exists (feat_sort ind fv). eexists _, _, tb, gb.
  split; [exact Hf |].
  split; [apply feat_sort_perm; exact Hs |].
  split; [apply feat_sort_sorted; exact Hs |].
  split; [reflexivity |].
  split; [apply midpoints_ascending, feat_sort_sorted; exact Hs |].
  split.
  - unfold midpoints. apply length_map.
  - rewrite length_map. unfold midpoints. rewrite length_map.
    symmetry. apply boundaries_kept_length.
Qed.

Lemma ascending_nth_error (l : list Q) (i j : nat) (a b : Q) :
  StronglySorted Qlt l ->
  nth_error l i = Some a -> nth_error l j = Some b -> (i < j)%nat -> a < b.
Proof.
  intros Hs. revert i j. induction Hs as [| x l Hs IH Hall]; intros i j Hi Hj Hlt.
  - destruct i; discriminate.
  - destruct j as [| j]; [lia |]. simpl in Hj.
    destruct i as [| i].
    + simpl in Hi. injection Hi as <-.
      rewrite Forall_forall in Hall. apply Hall.
      eapply nth_error_In. exact Hj.
    + simpl in Hi. apply (IH i j); [assumption | assumption | lia].
Qed.

(** In exact arithmetic: on a non-constant feature vector, for any index
    order [ind] that
    [np.argsort] may return, the best threshold and the best gini stand
    at one index [k] of the two lists returned; no gini value is greater
    than the best one, and every index whose gini value equals the best
    one is at or after [k] and has a threshold at least the best
    threshold. *)
Lemma exact_first_argmax (ind : list nat) (fv : list Q) (tv : list Z) :
  sorts ind fv -> length fv = length tv -> non_constant fv ->
  sorts (np.argsort fv) fv /\
  find_best_split fv tv = find_best_split_from (np.argsort fv) fv tv /\
  exists thresholds ginis threshold_best gini_best k,
    find_best_split_from ind fv tv
      = Ok (thresholds, ginis, threshold_best, gini_best) /\
    nth_error thresholds k = Some threshold_best /\
    nth_error ginis k = Some gini_best /\
    (forall j g, nth_error ginis j = Some g -> g <= gini_best) /\
    (forall j g t,
        nth_error ginis j = Some g -> nth_error thresholds j = Some t ->
        g == gini_best -> (k <= j)%nat /\ threshold_best <= t).
Proof.
  intros Hs Hlen Hnc.
  split; [apply argsort_sorts |]. split; [reflexivity |].
  destruct (find_best_split_from_ok ind fv tv Hs Hlen Hnc)
    as (k & tb & gb & Hf & (Hk & Hmax & Hfirst) & Ht).
  eexists _, _, tb, gb, k.
  split; [exact Hf |].
  split; [exact Ht |].
  split; [exact Hk |].
  split; [exact Hmax |].
  intros j g t Hg Hth Heq.
  assert (Hkj : (k <= j)%nat).
  { destruct (Nat.le_gt_cases k j) as [Hle | Hgt]; [exact Hle |].
    specialize (Hfirst j g Hgt Hg). rewrite Heq in Hfirst.
    exfalso. eapply Qlt_irrefl. exact Hfirst. }
  split; [exact Hkj |].
  destruct (Nat.eq_dec k j) as [-> | Hne].
  - rewrite Ht in Hth. injection Hth as ->. apply Qle_refl.
  - apply Qlt_le_weak.
    apply (ascending_nth_error (midpoints (feat_sort ind fv)) k j);
      [apply midpoints_ascending, feat_sort_sorted; exact Hs
      | exact Ht | exact Hth | lia].
Qed.

(** ** collections.Counter *)

Section CounterFacts.
Context {K : Type} (eqb : K -> K -> bool).

Lemma fold_counter_head (r : list K) (y : K) (n : nat) (c : dict K nat) :
  fold_left (fun c x => counter_incr eqb x c) r ((y, n) :: c) =
  (y, (n + occurrences eqb y r)%nat)
    :: fold_left (fun c x => counter_incr eqb x c) (without eqb y r) c.
Proof.
  revert n c. induction r as [| x r IH]; intros n c.
  - simpl. rewrite Nat.add_0_r. reflexivity.
  - unfold occurrences, without in *. simpl.
    destruct (eqb y x) eqn:E; simpl.
    + rewrite IH. f_equal. f_equal. lia.
    + rewrite IH. reflexivity.
Qed.

Lemma Counter_cons (y : K) (r : list K) :
  Counter eqb (y :: r) =
  (y, S (occurrences eqb y r)) :: Counter eqb (without eqb y r).
Proof.
  unfold Counter. simpl. rewrite fold_counter_head. reflexivity.
Qed.

Lemma without_length (y : K) (r : list K) :
  (length (without eqb y r) <= length r)%nat.
Proof. apply filter_length_le. Qed.

(** Induction along the way a counter is built. *)
Lemma Counter_ind (P : list K -> dict K nat -> Prop) :
  P [] [] ->
  (forall y r,
      P (without eqb y r) (Counter eqb (without eqb y r)) ->
      P (y :: r) ((y, S (occurrences eqb y r)) :: Counter eqb (without eqb y r))) ->
  forall xs, P xs (Counter eqb xs).
Proof.
  intros Hnil Hcons xs.
  remember (length xs) as n eqn:Hn.
  revert xs Hn. induction n as [n IH] using lt_wf_ind. intros xs Hn.
  destruct xs as [| y r].
  - exact Hnil.
  - rewrite Counter_cons. apply Hcons.
    apply (IH (length (without eqb y r))); [| reflexivity].
    subst n. simpl. pose proof (without_length y r). lia.
Qed.

Lemma Counter_keys_in (xs : list K) :
  forall k n, In (k, n) (Counter eqb xs) -> In k xs.
Proof.
  apply (Counter_ind (fun xs c => forall k n, In (k, n) c -> In k xs)).
  - intros k n [].
  - intros y r IH k n [E | Hin].
    + injection E as -> _. left. reflexivity.
    + right. apply IH in Hin. unfold without in Hin.
      apply filter_In in Hin. apply Hin.
Qed.

Lemma Counter_keys_distinct (xs : list K) :
  ForallOrdPairs (fun e e' => eqb (fst e) (fst e') = false) (Counter eqb xs).
Proof.
  apply (Counter_ind (fun _ c =>
           ForallOrdPairs (fun e e' => eqb (fst e) (fst e') = false) c)).
  - constructor.
  - intros y r IH. constructor; [| exact IH].
    apply Forall_forall. intros [k n] Hin. simpl.
    apply Counter_keys_in in Hin. unfold without in Hin.
    apply filter_In in Hin. destruct Hin as [_ Hin].
    apply negb_true_iff in Hin. exact Hin.
Qed.

Hypothesis eqb_refl : forall a, eqb a a = true.
Hypothesis eqb_sym : forall a b, eqb a b = eqb b a.
Hypothesis eqb_trans : forall a b c, eqb a b = true -> eqb b c = true -> eqb a c = true.

Lemma occurrences_equiv (a b : K) (xs : list K) :
  eqb a b = true -> occurrences eqb a xs = occurrences eqb b xs.
Proof.
  intros Hab. unfold occurrences. f_equal. apply filter_ext. intros x.
  destruct (eqb a x) eqn:Ea, (eqb b x) eqn:Eb; try reflexivity.
  - rewrite eqb_sym in Hab. rewrite (eqb_trans b a x Hab Ea) in Eb. discriminate.
  - rewrite (eqb_trans a b x Hab Eb) in Ea. discriminate.
Qed.

Lemma occurrences_without (y k : K) (r : list K) :
  eqb y k = false -> occurrences eqb k (without eqb y r) = occurrences eqb k r.
Proof.
  intros Hyk. unfold occurrences, without.
  induction r as [| x r IH]; simpl; [reflexivity |].
  destruct (eqb y x) eqn:Ey; simpl.
  - destruct (eqb k x) eqn:Ek; [| exact IH].
    rewrite (eqb_sym k x) in Ek.
    rewrite (eqb_trans y x k Ey Ek) in Hyk. discriminate.
  - destruct (eqb k x); simpl; [f_equal |]; exact IH.
Qed.

Lemma dict_get_Counter (xs : list K) :
  forall k,
    dict_get eqb (Counter eqb xs) k =
    if Nat.eqb (occurrences eqb k xs) 0 then None
    else Some (occurrences eqb k xs).
Proof.
  apply (Counter_ind (fun xs c => forall k,
           dict_get eqb c k =
           if Nat.eqb (occurrences eqb k xs) 0 then None
           else Some (occurrences eqb k xs))).
  - intros k. reflexivity.
  - intros y r IH k. simpl dict_get.
    destruct (eqb y k) eqn:E.
    + unfold occurrences at 2 3. simpl filter.
      rewrite (eqb_sym k y), E. simpl.
      f_equal. f_equal. apply occurrences_equiv. exact E.
    + rewrite IH. rewrite (occurrences_without y k r E).
      unfold occurrences at 3 4. simpl filter.
      rewrite (eqb_sym k y), E. reflexivity.
Qed.

Lemma occurrences_pos (k : K) (xs : list K) :
  In k xs -> (0 < occurrences eqb k xs)%nat.
Proof.
  intros Hin. unfold occurrences.
  assert (H : In k (filter (eqb k) xs)).
  { apply filter_In. split; [exact Hin | apply eqb_refl]. }
  destruct (filter (eqb k) xs); [contradiction | simpl; lia].
Qed.

Lemma Counter_counts (xs : list K) (k : K) (n : nat) :
  In (k, n) (Counter eqb xs) -> n = occurrences eqb k xs /\ (0 < n)%nat.
Proof.
  revert k n.
  apply (Counter_ind (fun xs c => forall k n,
           In (k, n) c -> n = occurrences eqb k xs /\ (0 < n)%nat)).
  - intros k n [].
  - intros y r IH k n [E | Hin].
    + injection E as <- <-. split; [| lia].
      unfold occurrences at 2. simpl filter. rewrite eqb_refl. reflexivity.
    + pose proof (Counter_keys_in _ _ _ Hin) as Hk.
      unfold without in Hk. apply filter_In in Hk. destruct Hk as [_ Hk].
      apply negb_true_iff in Hk.
      apply IH in Hin. destruct Hin as [-> Hpos]. split; [| exact Hpos].
      rewrite (occurrences_without y k r Hk).
      unfold occurrences at 2. simpl filter.
      rewrite (eqb_sym k y), Hk. reflexivity.
Qed.

Lemma filter_split (f : K -> bool) (r p' s' : list K) (k : K) :
  filter f r = p' ++ k :: s' ->
  exists p s, r = p ++ k :: s /\ filter f p = p' /\ filter f s = s'.
Proof.
  revert p'. induction r as [| x r IH]; intros p' H; simpl in H.
  - destruct p'; discriminate.
  - destruct (f x) eqn:E.
    + destruct p' as [| a p'']; simpl in H.
      * injection H as -> Hs. exists [], r. simpl. auto.
      * injection H as -> Hr. apply IH in Hr.
        destruct Hr as (p & s & -> & Hp & Hs).
        exists (a :: p), s. simpl. rewrite E, Hp. auto.
    + apply IH in H. destruct H as (p & s & -> & Hp & Hs).
      exists (x :: p), s. simpl. rewrite E. auto.
Qed.

Lemma occurs_before_cons (y k k' : K) (r : list K) :
  eqb y k' = false ->
  occurs_before eqb k k' (without eqb y r) ->
  occurs_before eqb k k' (y :: r).
Proof.
  intros Hy (p' & s' & Hsplit & Hp').
  unfold without in Hsplit. apply filter_split in Hsplit.
  destruct Hsplit as (p & s & -> & Hp & Hs).
  exists (y :: p), s. split; [reflexivity |].
  intros x [<- | Hx].
  - rewrite eqb_sym. exact Hy.
  - destruct (eqb y x) eqn:E.
    + destruct (eqb k' x) eqn:E'; [| reflexivity].
      rewrite (eqb_sym k' x) in E'.
      rewrite (eqb_trans y x k' E E') in Hy. discriminate.
    + apply Hp'. rewrite <- Hp. apply filter_In. split; [exact Hx |].
      rewrite E. reflexivity.
Qed.

Lemma Counter_order (xs : list K) :
  forall pre k n post e,
    Counter eqb xs = pre ++ (k, n) :: post -> In e post ->
    occurs_before eqb k (fst e) xs.
Proof.
  apply (Counter_ind (fun xs c => forall pre k n post e,
           c = pre ++ (k, n) :: post -> In e post ->
           occurs_before eqb k (fst e) xs)).
  - intros pre k n post e H. destruct pre; discriminate.
  - intros y r IH pre k n post e H Hin.
    destruct pre as [| a pre']; simpl in H.
    + injection H as -> _ <-. exists [], r. split; [reflexivity |].
      intros x [].
    + injection H as _ Hc.
      apply occurs_before_cons; [| eapply IH; eassumption].
      assert (He : In e (Counter eqb (without eqb y r))).
      { rewrite Hc. apply in_or_app. right. right. exact Hin. }
      destruct e as [k' n']. simpl.
      apply Counter_keys_in in He. unfold without in He.
      apply filter_In in He. destruct He as [_ He].
      apply negb_true_iff in He. exact He.
Qed.

Lemma dict_get_Some_In {V : Type} (d : dict K V) (k : K) (v : V) :
  dict_get eqb d k = Some v -> exists k', In (k', v) d /\ eqb k' k = true.
Proof.
  induction d as [| [k0 v0] d IH]; simpl; intros H; [discriminate |].
  destruct (eqb k0 k) eqn:E.
  - injection H as ->. exists k0. auto.
  - apply IH in H. destruct H as (k' & Hin & Hk). exists k'. auto.
Qed.

Lemma Counter_has_key (xs : list K) (x : K) :
  In x xs ->
  exists k, In (k, occurrences eqb x xs) (Counter eqb xs) /\ eqb k x = true.
Proof.
  intros Hin. pose proof (dict_get_Counter xs x) as Hg.
  pose proof (occurrences_pos x xs Hin) as Hpos.
  destruct (Nat.eqb_spec (occurrences eqb x xs) 0) as [E | _]; [lia |].
  apply dict_get_Some_In in Hg. exact Hg.
Qed.

End CounterFacts.

(** ** The most common label *)

Lemma max_count_from_first {K : Type} (c : dict K nat) (best : K * nat) :
  exists pre post,
    best :: c = pre ++ max_count_from best c :: post /\
    (forall e, In e pre -> (snd e < snd (max_count_from best c))%nat) /\
    (forall e, In e post -> (snd e <= snd (max_count_from best c))%nat).
Proof.
  revert best. induction c as [| e c IH]; intros best.
  - exists [], []. simpl. repeat split; intros e [].
  - simpl. destruct (Nat.ltb_spec (snd best) (snd e)) as [Hlt | Hge].
    + destruct (IH e) as (pre & post & Heq & Hpre & Hpost).
      exists (best :: pre), post. split; [simpl; f_equal; exact Heq |].
      split; [| exact Hpost].
      intros x [<- | Hx]; [| apply Hpre; exact Hx].
      destruct pre as [| a pre'].
      * simpl in Heq. injection Heq as Heq _. rewrite <- Heq. exact Hlt.
      * simpl in Heq. injection Heq as <- _.
        specialize (Hpre e (or_introl eq_refl)). lia.
    + destruct (IH best) as (pre & post & Heq & Hpre & Hpost).
      destruct pre as [| a pre'].
      * simpl in Heq. injection Heq as Hb Hc.
        exists [], (e :: post).
        split; [simpl; f_equal; [exact Hb | f_equal; exact Hc] |].
        split; [intros x [] |].
        intros x [<- | Hx]; [rewrite <- Hb; exact Hge | apply Hpost; exact Hx].
      * simpl in Heq. injection Heq as <- Hc.
        exists (best :: e :: pre'), post.
        split; [simpl; do 2 f_equal; exact Hc |].
        split; [| exact Hpost].
        intros x [<- | [<- | Hx]].
        -- apply Hpre. left. reflexivity.
        -- specialize (Hpre best (or_introl eq_refl)). lia.
        -- apply Hpre. right. exact Hx.
Qed.

Lemma occurrences_count_occ (c : Z) (ys : list Z) :
  occurrences Z.eqb c ys = count_occ Z.eq_dec ys c.
Proof.
  unfold occurrences. induction ys as [| y ys IH]; [reflexivity |].
  simpl filter. destruct (Z.eqb_spec c y) as [<- | Hne].
  - rewrite count_occ_cons_eq by reflexivity. simpl. f_equal. exact IH.
  - rewrite count_occ_cons_neq by congruence. exact IH.
Qed.

Lemma Zeqb_trans (a b c : Z) : Z.eqb a b = true -> Z.eqb b c = true -> Z.eqb a c = true.
Proof. rewrite !Z.eqb_eq. congruence. Qed.

Lemma first_occurrence (c : Z) (ys : list Z) :
  In c ys -> exists p s, ys = p ++ c :: s /\ ~ In c p.
Proof.
  induction ys as [| y ys IH]; intros Hin; [contradiction |].
  destruct (Z.eq_dec y c) as [-> | Hne].
  - exists [], ys. split; [reflexivity | intros []].
  - destruct Hin as [E | Hin]; [congruence |].
    destruct (IH Hin) as (p & s & -> & Hp).
    exists (y :: p), s. split; [reflexivity |].
    intros [E | H']; [congruence | contradiction].
Qed.

Lemma most_common1_majority (ys : list Z) :
  ys <> [] ->
  exists c, most_common1 Z.eqb ys = Ok c /\ majority_first ys c.
Proof.
  intros Hne. unfold most_common1.
  destruct (Counter Z.eqb ys) as [| e cs] eqn:EC.
  { destruct ys as [| y r]; [congruence |]. rewrite Counter_cons in EC. discriminate. }
  destruct (max_count_from_first cs e) as (pre & post & Heq & Hpre & Hpost).
  set (m := max_count_from e cs) in *.
  exists (fst m). split; [reflexivity |].
  assert (Hm : In m (Counter Z.eqb ys)).
  { rewrite EC, Heq. apply in_or_app. right. left. reflexivity. }
  destruct m as [c n] eqn:Em. simpl in *.
  pose proof (Counter_keys_in Z.eqb ys c n Hm) as Hc.
  destruct (Counter_counts Z.eqb Z.eqb_refl Z.eqb_sym Zeqb_trans ys c n Hm)
    as [Hn _].
  rewrite occurrences_count_occ in Hn.
  split; [exact Hc |].
  intros c' Hc'.
  destruct (Counter_has_key Z.eqb Z.eqb_refl Z.eqb_sym Zeqb_trans ys c' Hc')
    as (k & Hk & Hkc).
  apply Z.eqb_eq in Hkc. subst k. rewrite occurrences_count_occ in Hk.
  rewrite EC, Heq in Hk. apply in_app_or in Hk.
  destruct Hk as [Hk | [Hk | Hk]].
  - specialize (Hpre _ Hk). simpl in Hpre. split; [lia | intros; lia].
  - injection Hk as -> _. split; [lia |]. intros _.
    apply first_occurrence. exact Hc.
  - pose proof (Hpost _ Hk) as Hle. simpl in Hle. split; [lia |]. intros _.
    assert (Hob : occurs_before Z.eqb c c' ys).
    { apply (Counter_order Z.eqb Z.eqb_sym Zeqb_trans ys pre c n post
               (c', count_occ Z.eq_dec ys c')); [| exact Hk].
      rewrite EC. exact Heq. }
    destruct Hob as (p & s & -> & Hp). exists p, s. split; [reflexivity |].
    intros Hin. apply Hp in Hin. rewrite Z.eqb_refl in Hin. discriminate.
Qed.

(** ** The stopping rules of [_fit_node] *)

Lemma forallb_eqb_all (c : Z) (ys : list Z) :
  forallb (fun y => Z.eqb y c) ys = true <-> Forall (fun y => y = c) ys.
Proof.
  rewrite forallb_forall, Forall_forall. split; intros H y Hy.
  - apply Z.eqb_eq. apply H. exact Hy.
  - apply Z.eqb_eq. apply H. exact Hy.
Qed.

(** C6: when all the labels of a subset are one label [c], [_fit_node]
    returns the single node [Terminal c] and leaves the state as it was:
    nothing is added to the log of [find_best_split] calls.  So [fit] on
    such a training set gives the tree [Terminal c] with an empty log. *)
Theorem pure_labels_terminal (self : DecisionTree) (X : ndarray2) (c : Z)
    (ys : list Z) :
  Forall (fun y => y = c) ys ->
  (forall fuel st,
      _fit_node (S fuel) self X (c :: ys) st = Some (Ok (Terminal c), st)) /\
  fit_traced self X (c :: ys)
    = Some (Ok (set_fitted self (Terminal c) (depth self)), []).
Proof.
  intros Hall.
  assert (Hnode : forall fuel st,
             _fit_node (S fuel) self X (c :: ys) st = Some (Ok (Terminal c), st)).
  { intros fuel st. simpl. unfold mbind, lift. simpl.
    rewrite Z.eqb_refl. simpl.
    apply forallb_eqb_all in Hall. rewrite Hall. reflexivity. }
  split; [exact Hnode |].
  unfold fit_traced. rewrite Hnode. reflexivity.
Qed.

Lemma pure_labels_terminal_witness :
  (forall fuel st,
      _fit_node (S fuel) (dt0 ["real"%string]) (mk 1 [[1]; [2]; [3]])
                (1 :: [1; 1])%Z st
      = Some (Ok (Terminal 1), st)) /\
  fit_traced (dt0 ["real"%string]) (mk 1 [[1]; [2]; [3]]) (1 :: [1; 1])%Z
    = Some (Ok (set_fitted (dt0 ["real"%string]) (Terminal 1)
                   (depth (dt0 ["real"%string]))), []).
Proof.
  apply (pure_labels_terminal (dt0 ["real"%string]) (mk 1 [[1]; [2]; [3]])
           1%Z [1; 1]%Z).
  repeat constructor.
Defined.

(** C5: when the labels of a subset are not all the same and there are at
    most [min_samples_split] of them, [_fit_node] returns a terminal node
    whose label is a most frequent label of the subset, the first met
    among the most frequent ones; the state is left as it was, so no
    call of [find_best_split] is made, whatever the features are. *)
Theorem size_stop_majority (self : DecisionTree) (sub_X : ndarray2)
    (sub_y : list Z) (fuel : nat) (st : fit_state) :
  (exists a b, In a sub_y /\ In b sub_y /\ a <> b) ->
  (Z.of_nat (length sub_y) <= min_samples_split self)%Z ->
  exists c,
    _fit_node (S fuel) self sub_X sub_y st = Some (Ok (Terminal c), st) /\
    majority_first sub_y c.
Proof.
  intros (a & b & Ha & Hb & Hab) Hsize.
  destruct sub_y as [| y0 ys]; [contradiction |].
  destruct (most_common1_majority (y0 :: ys)) as (c & Hc & Hmaj); [discriminate |].
  exists c. split; [| exact Hmaj].
  simpl. unfold mbind, lift. simpl.
  rewrite Z.eqb_refl. simpl.
  destruct (forallb (fun y => Z.eqb y y0) ys) eqn:Eall.
  - exfalso. apply forallb_eqb_all in Eall. rewrite Forall_forall in Eall.
    apply Hab.
    destruct Ha as [<- | Ha], Hb as [<- | Hb].
    + reflexivity.
    + symmetry. apply Eall. exact Hb.
    + apply Eall. exact Ha.
    + rewrite (Eall a Ha), (Eall b Hb). reflexivity.
  - apply Z.leb_le in Hsize.
    change (Z.of_nat (length (y0 :: ys))) with (Z.of_nat (S (length ys))) in Hsize.
    unfold ret.
    match goal with
    | |- context [Z.leb ?n ?m] => replace (Z.leb n m) with true
    end.
    rewrite Hc. reflexivity.
Qed.

Lemma size_stop_majority_witness :
  exists c,
    _fit_node 1 (dt0 ["real"%string]) (mk 1 [[1]; [2]]) [0; 1]%Z
              {| depth_counter := 0; calls := [] |}
    = Some (Ok (Terminal c), {| depth_counter := 0; calls := [] |}) /\
    majority_first [0; 1]%Z c.
Proof.
  apply (size_stop_majority (dt0 ["real"%string]) (mk 1 [[1]; [2]]) [0; 1]%Z 0).
  - exists 0%Z, 1%Z. simpl. repeat split; try tauto. discriminate.
  - simpl. lia.
Defined.

(** ** Reasoning about runs in the fitting monad *)

Lemma returns_ret {A : Type} (a : A) (st : fit_state)
    (post : result A -> fit_state -> Prop) :
  post (Ok a) st -> returns (ret a) st post.
Proof. intros H. exists (Ok a), st. split; [reflexivity | exact H]. Qed.

Lemma returns_lift {A : Type} (r : result A) (st : fit_state)
    (post : result A -> fit_state -> Prop) :
  post r st -> returns (lift r) st post.
Proof. intros H. exists r, st. split; [reflexivity | exact H]. Qed.

Lemma returns_bind {A B : Type} (m : M A) (k : A -> M B) (st : fit_state)
    (post : result B -> fit_state -> Prop) :
  returns m st (fun r st1 =>
                  match r with
                  | Ok a => returns (k a) st1 post
                  | Raise e => post (Raise e) st1
                  end) ->
  returns (mbind m k) st post.
Proof.
  intros (r & st1 & Hm & Hr). unfold returns, mbind. rewrite Hm.
  destruct r as [a | e].
  - exact Hr.
  - exists (Raise e), st1. split; [reflexivity | exact Hr].
Qed.

Lemma returns_weaken {A : Type} (m : M A) (st : fit_state)
    (post post' : result A -> fit_state -> Prop) :
  returns m st post -> (forall r st', post r st' -> post' r st') ->
  returns m st post'.
Proof.
  intros (r & st' & Hm & Hr) Himp. exists r, st'. split; [exact Hm | auto].
Qed.

Lemma returns_incr_depth (st : fit_state)
    (post : result unit -> fit_state -> Prop) :
  post (Ok tt) {| depth_counter := depth_counter st + 1; calls := calls st |} ->
  returns incr_depth st post.
Proof. intros H. eexists _, _. split; [reflexivity | exact H]. Qed.

Lemma returns_call (fv : list Q) (tv : list Z) (st : fit_state)
    (post : result split_result -> fit_state -> Prop) :
  post (find_best_split fv tv)
       {| depth_counter := depth_counter st; calls := calls st ++ [(fv, tv)] |} ->
  returns (call_find_best_split fv tv) st post.
Proof. intros H. eexists _, _. split; [reflexivity | exact H]. Qed.

Lemma log_grows_refl (P : call -> Prop) (st : fit_state) : log_grows P st st.
Proof. exists []. rewrite app_nil_r. split; [reflexivity | constructor]. Qed.

Lemma log_grows_trans (P : call -> Prop) (st1 st2 st3 : fit_state) :
  log_grows P st1 st2 -> log_grows P st2 st3 -> log_grows P st1 st3.
Proof.
  intros (n1 & E1 & H1) (n2 & E2 & H2). exists (n1 ++ n2).
  split; [rewrite E2, E1, app_assoc; reflexivity | apply Forall_app; auto].
Qed.

(** ** The split mask of a threshold returned by [find_best_split] *)

Lemma midpoints_between (fs : list Q) (t : Q) :
  StronglySorted Qle fs -> In t (midpoints fs) ->
  exists a b, In a fs /\ In b fs /\ a < t /\ t < b.
Proof.
  induction fs as [| a fs IH]; intros Hs Hin.
  - contradiction.
  - destruct fs as [| b r]; [contradiction |].
    rewrite midpoints_cons2 in Hin.
    inversion Hs as [| ? ? Hs' Hall]; subst.
    inversion Hall as [| ? ? Hab _]; subst.
    assert (Hrec : In t (midpoints (b :: r)) ->
                   exists a0 b0, In a0 (a :: b :: r) /\ In b0 (a :: b :: r)
                                 /\ a0 < t /\ t < b0).
    { intros H'. destruct (IH Hs' H') as (a0 & b0 & Ha0 & Hb0 & H1 & H2).
      exists a0, b0. repeat split; try assumption; right; assumption. }
    destruct (Qeq_bool b a) eqn:E; [apply Hrec; exact Hin |].
    destruct Hin as [<- | Hin]; [| apply Hrec; exact Hin].
    apply Qeq_bool_false_neq in E.
    assert (a < b) by (apply Qle_lt_or_eq in Hab; destruct Hab as [H | H];
                       [exact H | exfalso; apply E; symmetry; exact H]).
    exists a, b. repeat split.
    + left. reflexivity.
    + right. left. reflexivity.
    + apply Qlt_shift_div_l; lra.
    + apply Qlt_shift_div_r; lra.
Qed.

Lemma take_Ok_length {A : Type} (v : list A) (ind : list nat) (w : list A) :
  np.take v ind = Ok w -> length w = length ind.
Proof. apply mapM_Ok_length. Qed.

(** Whenever [find_best_split] returns, its best threshold lies strictly
    between two values of the feature vector. *)
Lemma find_best_split_threshold_between (fv : list Q) (tv : list Z)
    (ths gs : list Q) (tb gb : Q) :
  find_best_split fv tv = Ok (ths, gs, tb, gb) ->
  exists a b, In a fv /\ In b fv /\ a < tb /\ tb < b.
Proof.
  pose proof (argsort_sorts fv) as Hs.
  rewrite find_best_split_argsort, find_best_split_from_eq.
  rewrite (take_gather 0 fv) by (intros i Hi; eapply sorts_lt; eassumption).
  rewrite bind_Ok. fold (feat_sort (np.argsort fv) fv). intros Hrun.
  apply bind_Ok_inv in Hrun. destruct Hrun as (ts & Hts & Hrun).
  apply take_Ok_length in Hts. rewrite (sorts_length _ _ Hs) in Hts.
  assert (Hne : ts <> []).
  { intros ->. unfold split_sorted in Hrun. cbv zeta in Hrun.
    apply bind_Ok_inv in Hrun. destruct Hrun as (th & _ & Hrun).
    simpl in Hrun. discriminate. }
  rewrite split_sorted_closed in Hrun
    by (rewrite ?(feat_sort_length _ _ Hs); auto).
  apply bind_Ok_inv in Hrun. destruct Hrun as (k & _ & Hrun).
  apply bind_Ok_inv in Hrun. destruct Hrun as (tb' & Htb & Hrun).
  apply bind_Ok_inv in Hrun. destruct Hrun as (gb' & _ & Hrun).
  injection Hrun as _ _ -> _.
  unfold np.item in Htb.
  destruct (nth_error (map (midpoint_at (feat_sort (np.argsort fv) fv))
                           (kept (feat_sort (np.argsort fv) fv))) k)
    as [t |] eqn:Et; [| discriminate].
  injection Htb as ->. apply nth_error_In in Et. rewrite midpoints_kept in Et.
  destruct (midpoints_between _ _ (feat_sort_sorted _ _ Hs) Et)
    as (a & b & Ha & Hb & H1 & H2).
  exists a, b. repeat split; try assumption;
    eapply Permutation_in; try eassumption; apply feat_sort_perm; exact Hs.
Qed.

Lemma threshold_mask_proper (fv : list Q) (thr : Q) :
  (exists a b, In a fv /\ In b fv /\ a < thr /\ thr < b) ->
  proper_mask (length fv) (map (fun v => Qlt_bool v thr) fv).
Proof.
  intros (a & b & Ha & Hb & H1 & H2). unfold proper_mask.
  split; [apply length_map |]. split.
  - apply in_map_iff. exists a. split; [apply Qlt_bool_iff; exact H1 | exact Ha].
  - apply in_map_iff. exists b. split; [| exact Hb].
    apply Qlt_bool_false_iff. apply Qlt_le_weak. exact H2.
Qed.

(** ** Boolean masks *)

Lemma bool_index_Ok {A : Type} (v : list A) (mask : list bool) (w : list A) :
  np.bool_index v mask = Ok w -> length v = length mask /\ w = np.compress v mask.
Proof.
  unfold np.bool_index. destruct (Nat.eqb_spec (length v) (length mask)) as [E | _].
  - intros H. injection H as <-. auto.
  - discriminate.
Qed.

Lemma bool_index_same_length {A : Type} (v : list A) (mask : list bool) :
  length v = length mask -> np.bool_index v mask = Ok (np.compress v mask).
Proof.
  intros E. unfold np.bool_index. rewrite E, Nat.eqb_refl. reflexivity.
Qed.

Lemma compress_length_le {A : Type} (v : list A) (mask : list bool) :
  (length (np.compress v mask) <= length v)%nat.
Proof.
  revert mask. induction v as [| a v IH]; intros [| b mask]; simpl; try lia.
  specialize (IH mask). destruct b; simpl; lia.
Qed.

Lemma compress_length_lt {A : Type} (v : list A) (mask : list bool) :
  length v = length mask -> In false mask ->
  (length (np.compress v mask) < length v)%nat.
Proof.
  revert mask. induction v as [| a v IH]; intros [| b mask] Hl Hin;
    simpl in *; try contradiction; try discriminate.
  destruct b.
  - destruct Hin as [E | Hin]; [discriminate |].
    simpl. specialize (IH mask ltac:(lia) Hin). lia.
  - pose proof (compress_length_le v mask). lia.
Qed.

Lemma compress_length_pos {A : Type} (v : list A) (mask : list bool) :
  length v = length mask -> In true mask ->
  (0 < length (np.compress v mask))%nat.
Proof.
  revert mask. induction v as [| a v IH]; intros [| b mask] Hl Hin;
    simpl in *; try contradiction; try discriminate.
  destruct b.
  - simpl. lia.
  - destruct Hin as [E | Hin]; [discriminate |].
    apply IH; [lia | exact Hin].
Qed.

Lemma in_map_negb (b : bool) (mask : list bool) :
  In b (map negb mask) <-> In (negb b) mask.
Proof.
  rewrite in_map_iff. split.
  - intros (x & <- & Hx). rewrite negb_involutive. exact Hx.
  - intros H. exists (negb b). split; [apply negb_involutive | exact H].
Qed.

(** ** The loop over the features *)

Lemma encode_categorical_length (sub_X : ndarray2) (sub_y : list Z) (feature : nat)
    (ratio : dict Q Q) (cm : dict Q nat) (fv : list Q) :
  encode_categorical sub_X sub_y feature = Ok (ratio, cm, fv) ->
  length fv = length (rows sub_X).
Proof.
  unfold encode_categorical. intros H.
  apply bind_Ok_inv in H. destruct H as (pos & _ & H).
  apply bind_Ok_inv in H. destruct H as (ranks & Hr & H).
  injection H as _ _ <-. apply mapM_Ok_length in Hr.
  rewrite length_map, Hr. unfold column. apply length_map.
Qed.

Lemma feature_vector_of_length (ft : string) (sub_X : ndarray2) (sub_y : list Z)
    (feature : nat) (cm : dict Q nat) (fv : list Q) :
  feature_vector_of ft sub_X sub_y feature = Ok (cm, fv) ->
  length fv = length (rows sub_X).
Proof.
  unfold feature_vector_of. intros H.
  destruct (is_real ft).
  - injection H as _ <-. unfold column. apply length_map.
  - destruct (is_categorical ft); [| discriminate].
    apply bind_Ok_inv in H. destruct H as ([[ratio cm'] fv'] & He & H).
    injection H as _ <-. eapply encode_categorical_length. exact He.
Qed.

Lemma all_equal_first_false (v : list Q) :
  all_equal_first v = Ok false -> non_constant v.
Proof.
  unfold all_equal_first, np.item.
  destruct v as [| v0 r]; [intros H; simpl in H; discriminate |].
  simpl nth_error. simpl of_option. rewrite bind_Ok. intros H. injection H as H.
  assert (Hex : exists x, In x (v0 :: r) /\ Qeq_bool x v0 = false).
  { change (forallb (fun x => Qeq_bool x v0) (v0 :: r) = false) in H.
    revert H. generalize (v0 :: r) as l.
    induction l as [| x l IH]; intros H; [simpl in H; discriminate |].
    simpl in H. destruct (Qeq_bool x v0) eqn:E.
    - destruct (IH H) as (x' & Hin & Hx'). exists x'. split; [right |]; assumption.
    - exists x. split; [left; reflexivity | exact E]. }
  destruct Hex as (x & Hin & Hx). exists x, v0.
  split; [exact Hin |]. split; [left; reflexivity |].
  apply Qeq_bool_false_neq. exact Hx.
Qed.

Lemma dict_get_combine_seq (l : list Q) (s : nat) (k x : Q) :
  In k l -> Qeq_bool k x = true ->
  exists r, dict_get Qeq_bool (combine l (seq s (length l))) x = Some r.
Proof.
  revert s. induction l as [| a l IH]; intros s Hin Hk; [contradiction |].
  simpl. destruct (Qeq_bool a x) eqn:E; [eexists; reflexivity |].
  destruct Hin as [-> | Hin]; [congruence |].
  apply IH; assumption.
Qed.

Lemma Qeq_bool_trans (a b c : Q) :
  Qeq_bool a b = true -> Qeq_bool b c = true -> Qeq_bool a c = true.
Proof.
  rewrite !Qeq_bool_iff. intros H1 H2. rewrite H1. exact H2.
Qed.

(** The keys of the ratio dictionary are those of the counter. *)
Lemma map_fst_ratio {V W : Type} (g : Q -> V -> W) (counts : dict Q V) :
  map fst (map (fun '(key, v) => (key, g key v)) counts) = map fst counts.
Proof.
  induction counts as [| [k v] c IH]; simpl; [reflexivity | f_equal; exact IH].
Qed.

Lemma mapM_all_Ok {A B : Type} (f : A -> result B) (l : list A) :
  (forall x, In x l -> exists r, f x = Ok r) -> exists rs, mapM f l = Ok rs.
Proof.
  induction l as [| x l IH]; intros Hall; simpl.
  - eexists. reflexivity.
  - destruct (Hall x (or_introl eq_refl)) as (r & ->).
    destruct IH as (rs & ->); [intros x' Hx'; apply Hall; right; exact Hx' |].
    eexists. reflexivity.
Qed.

Lemma encode_categorical_Ok (sub_X : ndarray2) (sub_y : list Z) (feature : nat) :
  length (rows sub_X) = length sub_y ->
  exists ratio cm fv, encode_categorical sub_X sub_y feature = Ok (ratio, cm, fv).
Proof.
  intros Hlen. unfold encode_categorical, row_index.
  rewrite bool_index_same_length by (rewrite length_map; exact Hlen).
  rewrite !bind_Ok.
  match goal with
  | |- context [mapM ?f ?l] => destruct (mapM_all_Ok f l) as (ranks & Hr)
  end.
  - intros x Hx.
    destruct (Counter_has_key Qeq_bool Qeq_bool_refl Qeq_bool_sym Qeq_bool_trans
                _ x Hx) as (k & Hk & Hkx).
    match goal with
    | |- context [combine ?l (seq 0 (length ?l))] =>
        destruct (dict_get_combine_seq l 0 k x) as (r & Hr)
    end.
    + eapply Permutation_in.
      * apply Permutation_map, Permutation_sym, sort_by_perm.
      * rewrite map_fst_ratio. apply in_map_iff.
        eexists (_, _). split; [| exact Hk]. reflexivity.
    + exact Hkx.
    + exists r. rewrite Hr. reflexivity.
  - rewrite Hr, bind_Ok. eexists _, _, _. reflexivity.
Qed.

Lemma scan_feature_returns (self : DecisionTree) (sub_X : ndarray2)
    (sub_y : list Z) (cur : option best) (feature : nat) (st : fit_state) :
  (feature < shape1 sub_X)%nat ->
  (forall b, cur = Some b -> good_best self sub_X sub_y b) ->
  returns (scan_feature self sub_X sub_y cur feature) st
          (scan_post self sub_X sub_y st).
Proof.
  intros Hf Hcur. unfold scan_feature.
  assert (Hraise : forall e st0, log_grows non_constant_call st st0 ->
                     depth_counter st0 = depth_counter st ->
                     ~ well_formed self sub_X sub_y ->
                     scan_post self sub_X sub_y st (Raise e) st0).
  { intros e st0 Hl Hd Hwf. split; [exact Hl |]. split; [exact Hd |].
    split; [intros cur' E; discriminate | intros W; contradiction]. }
  assert (Hkeep : forall st0, log_grows non_constant_call st st0 ->
                    depth_counter st0 = depth_counter st ->
                    scan_post self sub_X sub_y st (Ok cur) st0).
  { intros st0 Hl Hd. split; [exact Hl |]. split; [exact Hd |].
    split; [| intros _; eexists; reflexivity].
    intros cur' E. injection E as <-. exact Hcur. }
  apply returns_bind, returns_lift.
  destruct (np.item (feature_types self) feature) as [ft | e] eqn:Eft.
  2: { apply Hraise; [apply log_grows_refl | reflexivity |].
       intros (_ & _ & Hty). destruct (Hty feature Hf) as (ft & Hft & _).
       unfold np.item in Eft. rewrite Hft in Eft. discriminate. }
  assert (Hvalid : well_formed self sub_X sub_y ->
                   is_real ft = true \/ is_categorical ft = true).
  { intros (_ & _ & Hty). destruct (Hty feature Hf) as (ft' & Hft & Hv).
    unfold np.item in Eft. rewrite Hft in Eft. injection Eft as <-. exact Hv. }
  apply returns_bind, returns_lift.
  destruct (feature_vector_of ft sub_X sub_y feature) as [[cm fv] | e] eqn:Efv.
  2: { apply Hraise; [apply log_grows_refl | reflexivity |].
       intros W. pose proof (Hvalid W) as Hv. destruct W as (Hlen & _ & _).
       unfold feature_vector_of in Efv.
       destruct (is_real ft); [discriminate |].
       destruct Hv as [Hv | Hv]; [discriminate |]. rewrite Hv in Efv.
       destruct (encode_categorical_Ok sub_X sub_y feature Hlen)
         as (ratio & cm & fv & He).
       rewrite He in Efv. discriminate. }
  pose proof (feature_vector_of_length _ _ _ _ _ _ Efv) as Elen.
  apply returns_bind, returns_lift.
  destruct (all_equal_first fv) as [[|] | e] eqn:Eall.
  { apply returns_ret, Hkeep; [apply log_grows_refl | reflexivity]. }
  2: { apply Hraise; [apply log_grows_refl | reflexivity |].
       intros (Hlen & Hne & _). unfold all_equal_first, np.item in Eall.
       destruct fv as [| v0 fv']; [| discriminate].
       simpl in Elen. destruct sub_y; [congruence |]. rewrite Hlen in Elen.
       discriminate. }
  apply all_equal_first_false in Eall.
  apply returns_bind, returns_call.
  set (st1 := {| depth_counter := depth_counter st;
                 calls := calls st ++ [(fv, sub_y)] |}).
  assert (Hl1 : log_grows non_constant_call st st1).
  { exists [(fv, sub_y)]. split; [reflexivity |].
    constructor; [exact Eall | constructor]. }
  destruct (find_best_split fv sub_y) as [[[[ths gs] thr] gini] | e] eqn:Ef.
  2: { apply Hraise; [exact Hl1 | reflexivity |].
       intros (Hlen & _ & _).
       destruct (find_best_split_ok fv sub_y) as (r & Hok);
         [congruence | exact Eall |].
       rewrite Hok in Ef. discriminate. }
  destruct (improves cur gini).
  - apply returns_bind, returns_lift.
    destruct (payload_of ft cm thr) as [pl | e] eqn:Epl.
    2: { apply Hraise; [exact Hl1 | reflexivity |].
         intros W. unfold payload_of in Epl.
         destruct (Hvalid W) as [Hv | Hv].
         - rewrite Hv in Epl. discriminate.
         - destruct (is_real ft); [discriminate |]. rewrite Hv in Epl.
           discriminate. }
    apply returns_ret. split; [exact Hl1 |]. split; [reflexivity |].
    split; [| intros _; eexists; reflexivity].
    intros cur' E b Eb. injection E as <-. injection Eb as <-.
    split; [| split; [exact Hf |]].
    + simpl. rewrite <- Elen. apply threshold_mask_proper.
      eapply find_best_split_threshold_between. exact Ef.
    + exists ft, cm, fv, thr. simpl. auto.
  - apply returns_ret. apply Hkeep; [exact Hl1 | reflexivity].
Qed.

Lemma scan_returns (self : DecisionTree) (sub_X : ndarray2) (sub_y : list Z)
    (features : list nat) (cur : option best) (st : fit_state) :
  (forall f, In f features -> (f < shape1 sub_X)%nat) ->
  (forall b, cur = Some b -> good_best self sub_X sub_y b) ->
  returns (scan self sub_X sub_y features cur) st
          (scan_post self sub_X sub_y st).
Proof.
  revert cur st. induction features as [| f fs IH]; intros cur st Hfs Hcur; simpl.
  - apply returns_ret. split; [apply log_grows_refl |]. split; [reflexivity |].
    split; [| intros _; eexists; reflexivity].
    intros cur' E. injection E as <-. exact Hcur.
  - apply returns_bind.
    eapply returns_weaken;
      [apply scan_feature_returns; [apply Hfs; left; reflexivity | exact Hcur] |].
    intros r st1 (Hl & Hd & Hp & Hok). destruct r as [cur1 | e].
    + eapply returns_weaken.
      * apply IH; [intros f' Hf'; apply Hfs; right; exact Hf' |].
        apply Hp. reflexivity.
      * intros r2 st2 (Hl2 & Hd2 & Hp2 & Hok2).
        split; [eapply log_grows_trans; eassumption |].
        split; [congruence |]. split; [exact Hp2 | exact Hok2].
    + split; [exact Hl |]. split; [exact Hd |].
      split; [intros cur' E; discriminate | exact Hok].
Qed.

(** ** Termination of [_fit_node] *)

Lemma _fit_node_S (fuel : nat) (self : DecisionTree) (sub_X : ndarray2)
    (sub_y : list Z) :
  _fit_node (S fuel) self sub_X sub_y =
    (y0 <- lift (np.item sub_y 0) ;;
     if forallb (fun y => Z.eqb y y0) sub_y then ret (Terminal y0)
     else if (Z.of_nat (length sub_y) <=? min_samples_split self)%Z then
       c <- lift (most_common1 Z.eqb sub_y) ;;
       ret (Terminal c)
     else
       found <- scan self sub_X sub_y (seq 0 (shape1 sub_X)) None ;;
       match found with
       | None =>
           c <- lift (most_common1 Z.eqb sub_y) ;;
           ret (Terminal c)
       | Some b =>
           feature_type <- lift (np.item (feature_types self) (feature_best b)) ;;
           lift (check_feature_type feature_type) ;;;
           incr_depth ;;;
           left_X <- lift (row_index sub_X (split b)) ;;
           left_y <- lift (np.bool_index sub_y (split b)) ;;
           left_child <- _fit_node fuel self left_X left_y ;;
           right_X <- lift (row_index sub_X (map negb (split b))) ;;
           right_y <- lift (np.bool_index sub_y (map negb (split b))) ;;
           right_child <- _fit_node fuel self right_X right_y ;;
           ret (Nonterminal (feature_best b) (threshold_best b)
                            left_child right_child)
       end)%fit.
Proof. reflexivity. Qed.

Lemma compress_length_eq {A B : Type} (u : list A) (v : list B) (mask : list bool) :
  length u = length mask -> length v = length mask ->
  length (np.compress u mask) = length (np.compress v mask).
Proof.
  revert v mask. induction u as [| a u IH]; intros [| b v] [| m mask] Hu Hv;
    simpl in *; try discriminate; try reflexivity.
  destruct m; simpl; [f_equal |]; apply IH; lia.
Qed.

Lemma well_formed_compress (self : DecisionTree) (X : ndarray2) (y : list Z)
    (mask : list bool) :
  well_formed self X y -> length mask = length (rows X) -> In true mask ->
  well_formed self {| shape1 := shape1 X; rows := np.compress (rows X) mask |}
              (np.compress y mask).
Proof.
  intros (Hlen & Hne & Hty) Hm Hin. split; [| split].
  - simpl. apply compress_length_eq; congruence.
  - intros E. pose proof (compress_length_pos y mask ltac:(congruence) Hin) as Hp.
    rewrite E in Hp. simpl in Hp. lia.
  - exact Hty.
Qed.

Lemma most_common1_Ok (ys : list Z) :
  ys <> [] -> exists c, most_common1 Z.eqb ys = Ok c.
Proof.
  intros Hne. destruct (most_common1_majority ys Hne) as (c & Hc & _).
  exists c. exact Hc.
Qed.

Lemma fit_node_returns (fuel : nat) :
  forall (self : DecisionTree) (sub_X : ndarray2) (sub_y : list Z) (st : fit_state),
    (length sub_y < fuel)%nat ->
    returns (_fit_node fuel self sub_X sub_y) st (fit_post self sub_X sub_y st).
Proof.
  induction fuel as [| fuel IH]; intros self sub_X sub_y st Hfuel; [lia |].
  rewrite _fit_node_S.
  assert (Hraise : forall e st0, log_grows non_constant_call st st0 ->
                     ~ well_formed self sub_X sub_y ->
                     fit_post self sub_X sub_y st (Raise e) st0).
  { intros e st0 Hl Hwf. split; [exact Hl | intros W; contradiction]. }
  assert (Hdone : forall nd st0, log_grows non_constant_call st st0 ->
                    fit_post self sub_X sub_y st (Ok nd) st0).
  { intros nd st0 Hl. split; [exact Hl | intros _; eexists; reflexivity]. }
  assert (Hcommon : forall st0, log_grows non_constant_call st st0 ->
            returns (c <- lift (most_common1 Z.eqb sub_y) ;; ret (Terminal c))%fit
                    st0 (fit_post self sub_X sub_y st)).
  { intros st0 Hl. apply returns_bind, returns_lift.
    destruct (most_common1 Z.eqb sub_y) as [c | e] eqn:Ec;
      [apply returns_ret, Hdone; exact Hl |].
    apply Hraise; [exact Hl |]. intros (_ & Hne & _).
    destruct (most_common1_Ok sub_y Hne) as (c & Hc). congruence. }
  apply returns_bind, returns_lift.
  destruct (np.item sub_y 0) as [y0 | e] eqn:Ey0.
  2: { apply Hraise; [apply log_grows_refl |]. intros (_ & Hne & _).
       destruct sub_y; [congruence | discriminate]. }
  destruct (forallb (fun y => Z.eqb y y0) sub_y);
    [apply returns_ret, Hdone, log_grows_refl |].
  destruct (Z.of_nat (length sub_y) <=? min_samples_split self)%Z;
    [apply Hcommon, log_grows_refl |].
  apply returns_bind.
  eapply returns_weaken.
  { apply scan_returns; [intros f Hf; apply in_seq in Hf; lia |].
    intros b E. discriminate. }
  intros r st1 (Hl1 & _ & Hp & Hok). destruct r as [found | e].
  2: { apply Hraise; [exact Hl1 |]. intros W. destruct (Hok W). discriminate. }
  specialize (Hp found eq_refl).
  destruct found as [b |]; [| apply Hcommon; exact Hl1].
  destruct (Hp b eq_refl) as ((Hmlen & Htrue & Hfalse) & Hfb & _).
  apply returns_bind, returns_lift.
  destruct (np.item (feature_types self) (feature_best b)) as [ft | e] eqn:Eft.
  2: { apply Hraise; [exact Hl1 |]. intros (_ & _ & Hty).
       destruct (Hty _ Hfb) as (ft & Hft & _).
       unfold np.item in Eft. rewrite Hft in Eft. discriminate. }
  apply returns_bind, returns_lift.
  destruct (check_feature_type ft) as [[] | e] eqn:Echk.
  2: { apply Hraise; [exact Hl1 |]. intros (_ & _ & Hty).
       destruct (Hty _ Hfb) as (ft' & Hft & Hv).
       unfold np.item in Eft. rewrite Hft in Eft. injection Eft as ->.
       unfold check_feature_type in Echk.
       destruct Hv as [Hv | Hv].
       - rewrite Hv in Echk. discriminate.
       - destruct (is_real ft); [discriminate |]. rewrite Hv in Echk. discriminate. }
  apply returns_bind, returns_incr_depth.
  set (st2 := {| depth_counter := depth_counter st1 + 1; calls := calls st1 |}).
  assert (Hl2 : log_grows non_constant_call st st2).
  { destruct Hl1 as (new & E & Hn). exists new. split; [exact E | exact Hn]. }
  apply returns_bind, returns_lift. unfold row_index.
  rewrite (bool_index_same_length (rows sub_X) (split b)) by congruence.
  rewrite bind_Ok.
  apply returns_bind, returns_lift.
  destruct (np.bool_index sub_y (split b)) as [left_y | e] eqn:Ely.
  2: { apply Hraise; [exact Hl2 |]. intros (Hlen & _ & _).
       rewrite bool_index_same_length in Ely by congruence. discriminate. }
  apply bool_index_Ok in Ely. destruct Ely as [Elen ->].
  apply returns_bind.
  eapply returns_weaken.
  { apply IH. pose proof (compress_length_lt sub_y (split b) Elen Hfalse). lia. }
  intros r3 st3 (Hl3 & Hok3).
  assert (Hl3' : log_grows non_constant_call st st3)
    by (eapply log_grows_trans; eassumption).
  destruct r3 as [left_child | e].
  2: { apply Hraise; [exact Hl3' |]. intros W.
       destruct Hok3 as (nd & Hnd); [| discriminate].
       apply well_formed_compress; assumption. }
  assert (Hneg : In false (map negb (split b)))
    by (apply in_map_negb; exact Htrue).
  assert (Hneg' : In true (map negb (split b)))
    by (apply in_map_negb; exact Hfalse).
  apply returns_bind, returns_lift.
  rewrite (bool_index_same_length (rows sub_X) (map negb (split b)))
    by (rewrite length_map; congruence).
  rewrite bind_Ok.
  apply returns_bind, returns_lift.
  destruct (np.bool_index sub_y (map negb (split b))) as [right_y | e] eqn:Ery.
  2: { apply Hraise; [exact Hl3' |]. intros (Hlen & _ & _).
       rewrite bool_index_same_length in Ery
         by (rewrite length_map; congruence).
       discriminate. }
  apply bool_index_Ok in Ery. destruct Ery as [Elen' ->].
  apply returns_bind.
  eapply returns_weaken.
  { apply IH.
    pose proof (compress_length_lt sub_y (map negb (split b)) Elen' Hneg). lia. }
  intros r4 st4 (Hl4 & Hok4).
  assert (Hl4' : log_grows non_constant_call st st4)
    by (eapply log_grows_trans; eassumption).
  destruct r4 as [right_child | e].
  2: { apply Hraise; [exact Hl4' |]. intros W.
       destruct Hok4 as (nd & Hnd); [| discriminate].
       apply well_formed_compress; [exact W | | exact Hneg'].
       rewrite length_map. exact Hmlen. }
  apply returns_ret, Hdone. exact Hl4'.
Qed.


(** In exact arithmetic, where a threshold lies strictly between two
    feature values: a split chosen by the loop over the features sends at
    least one
    sample to the left and at least one to the right; the two subsets
    passed to the recursive calls are then non-empty and strictly smaller
    than the subset split; with more fuel than labels [_fit_node] returns
    on every input, and on a well-formed subset it returns a node, not an
    exception; [fit] supplies that fuel, so it returns as well. *)
Lemma exact_fit_node_terminates (self : DecisionTree) (X : ndarray2) (y : list Z) :
  (forall st b st',
      scan self X y (seq 0 (shape1 X)) None st = Some (Ok (Some b), st') ->
      proper_mask (length (rows X)) (split b)) /\
  (forall st b st' left_y right_y,
      scan self X y (seq 0 (shape1 X)) None st = Some (Ok (Some b), st') ->
      np.bool_index y (split b) = Ok left_y ->
      np.bool_index y (map negb (split b)) = Ok right_y ->
      (0 < length left_y < length y)%nat /\
      (0 < length right_y < length y)%nat) /\
  (forall fuel st,
      (length y < fuel)%nat ->
      exists r st', _fit_node fuel self X y st = Some (r, st')) /\
  (forall fuel st,
      (length y < fuel)%nat -> well_formed self X y ->
      exists nd st', _fit_node fuel self X y st = Some (Ok nd, st')) /\
  exists r log, fit_traced self X y = Some (r, log).
Proof.
  assert (Hscan : forall st b st',
             scan self X y (seq 0 (shape1 X)) None st = Some (Ok (Some b), st') ->
             proper_mask (length (rows X)) (split b)).
  { intros st b st' Hrun.
    destruct (scan_returns self X y (seq 0 (shape1 X)) None st)
      as (r & st1 & Hrun' & _ & _ & Hp & _).
    - intros f Hf. apply in_seq in Hf. lia.
    - intros b' E. discriminate.
    - rewrite Hrun in Hrun'. injection Hrun' as <- <-.
      apply (Hp (Some b) eq_refl b eq_refl). }
  split; [exact Hscan |].
  split.
  { intros st b st' left_y right_y Hrun Hl Hr.
    destruct (Hscan st b st' Hrun) as (_ & Htrue & Hfalse).
    apply bool_index_Ok in Hl. destruct Hl as [El ->].
    apply bool_index_Ok in Hr. destruct Hr as [Er ->].
    pose proof (compress_length_lt y (split b) El Hfalse).
    pose proof (compress_length_pos y (split b) El Htrue).
    assert (In false (map negb (split b))) by (apply in_map_negb; exact Htrue).
    assert (In true (map negb (split b))) by (apply in_map_negb; exact Hfalse).
    pose proof (compress_length_lt y (map negb (split b)) Er ltac:(assumption)).
    pose proof (compress_length_pos y (map negb (split b)) Er ltac:(assumption)).
    lia. }
  split.
  { intros fuel st Hfuel.
    destruct (fit_node_returns fuel self X y st Hfuel) as (r & st' & Hrun & _).
    exists r, st'. exact Hrun. }
  split.
  { intros fuel st Hfuel Hwf.
    destruct (fit_node_returns fuel self X y st Hfuel)
      as (r & st' & Hrun & _ & Hok).
    destruct (Hok Hwf) as (nd & ->). exists nd, st'. exact Hrun. }
  destruct (fit_node_returns (S (length y)) self X y
              {| depth_counter := depth self; calls := [] |} ltac:(lia))
    as (r & st' & Hrun & _).
  unfold fit_traced. rewrite Hrun. eexists _, _. reflexivity.
Qed.

(** ** The hyperparameters that are stored and never read *)

Lemma mbind_ext {A B : Type} (m1 m2 : M A) (k1 k2 : A -> M B) (st : fit_state) :
  (forall st0, m1 st0 = m2 st0) ->
  (forall a st', k1 a st' = k2 a st') -> mbind m1 k1 st = mbind m2 k2 st.
Proof.
  intros Hm Hk. unfold mbind. rewrite Hm.
  destruct (m2 st) as [[[a | e] st'] |]; auto.
Qed.

Section Inert.
Variables self1 self2 : DecisionTree.
Hypothesis same_types : feature_types self1 = feature_types self2.
Hypothesis same_split : min_samples_split self1 = min_samples_split self2.

Lemma scan_feature_inert (sub_X : ndarray2) (sub_y : list Z) (cur : option best)
    (feature : nat) :
  scan_feature self1 sub_X sub_y cur feature =
  scan_feature self2 sub_X sub_y cur feature.
Proof. unfold scan_feature. rewrite same_types. reflexivity. Qed.

Lemma scan_inert (sub_X : ndarray2) (sub_y : list Z) (features : list nat) :
  forall cur st,
    scan self1 sub_X sub_y features cur st = scan self2 sub_X sub_y features cur st.
Proof.
  induction features as [| f fs IH]; intros cur st; simpl.
  - reflexivity.
  - rewrite scan_feature_inert. apply mbind_ext; [reflexivity | exact IH].
Qed.

Lemma fit_node_inert (fuel : nat) :
  forall sub_X sub_y st,
    _fit_node fuel self1 sub_X sub_y st = _fit_node fuel self2 sub_X sub_y st.
Proof.
  induction fuel as [| fuel IH]; intros sub_X sub_y st; [reflexivity |].
  rewrite !_fit_node_S. rewrite same_types, same_split.
  apply mbind_ext; [reflexivity |]. intros y0 st0.
  destruct (forallb (fun y => Z.eqb y y0) sub_y); [reflexivity |].
  destruct (Z.of_nat (length sub_y) <=? min_samples_split self2)%Z;
    [reflexivity |].
  apply mbind_ext; [intros; apply scan_inert |].
  intros [b |] st1; [| reflexivity].
  repeat (apply mbind_ext; [intros; try apply IH; reflexivity | intros]).
  reflexivity.
Qed.

Lemma predict_node_inert (x : list Q) (nd : node) :
  _predict_node self1 x nd = _predict_node self2 x nd.
Proof.
  induction nd as [| c | f pl l IHl r IHr]; simpl; try reflexivity.
  rewrite same_types, IHl, IHr. reflexivity.
Qed.

End Inert.

Lemma mapM_ext {A B : Type} (f g : A -> result B) (l : list A) :
  (forall a, f a = g a) -> mapM f l = mapM g l.
Proof.
  intros Hfg. induction l as [| a l IH]; simpl; [reflexivity |].
  rewrite Hfg, IH. reflexivity.
Qed.

Lemma oblivious_bind {A B : Type} (m : M A) (k : A -> M B) :
  oblivious m -> (forall a, oblivious (k a)) -> oblivious (mbind m k).
Proof.
  intros Hm Hk st1 st2. specialize (Hm st1 st2). unfold mbind.
  destruct (m st1) as [[[a1 | e1] s1] |], (m st2) as [[[a2 | e2] s2] |];
    simpl in Hm; try discriminate; try reflexivity.
  - injection Hm as <-. apply Hk.
  - injection Hm as <-. reflexivity.
Qed.

Lemma oblivious_lift {A : Type} (r : result A) : oblivious (lift r).
Proof. intros st1 st2. reflexivity. Qed.

Lemma oblivious_ret {A : Type} (a : A) : oblivious (ret a).
Proof. intros st1 st2. reflexivity. Qed.

Lemma scan_feature_oblivious (self : DecisionTree) (sub_X : ndarray2)
    (sub_y : list Z) (cur : option best) (feature : nat) :
  oblivious (scan_feature self sub_X sub_y cur feature).
Proof.
  unfold scan_feature.
  apply oblivious_bind; [apply oblivious_lift | intros ft].
  apply oblivious_bind; [apply oblivious_lift | intros [cm fv]].
  apply oblivious_bind; [apply oblivious_lift | intros [|]];
    [apply oblivious_ret |].
  apply oblivious_bind; [intros st1 st2; reflexivity |].
  intros [[[ths gs] thr] gini].
  destruct (improves cur gini); [| apply oblivious_ret].
  apply oblivious_bind; [apply oblivious_lift | intros pl]. apply oblivious_ret.
Qed.

Lemma scan_oblivious (self : DecisionTree) (sub_X : ndarray2) (sub_y : list Z)
    (features : list nat) :
  forall cur, oblivious (scan self sub_X sub_y features cur).
Proof.
  induction features as [| f fs IH]; intros cur; simpl.
  - apply oblivious_ret.
  - apply oblivious_bind; [apply scan_feature_oblivious | exact IH].
Qed.

Lemma fit_node_oblivious (fuel : nat) :
  forall self sub_X sub_y, oblivious (_fit_node fuel self sub_X sub_y).
Proof.
  induction fuel as [| fuel IH]; intros self sub_X sub_y.
  - intros st1 st2. reflexivity.
  - rewrite _fit_node_S.
    apply oblivious_bind; [apply oblivious_lift | intros y0].
    destruct (forallb (fun y => Z.eqb y y0) sub_y); [apply oblivious_ret |].
    destruct (Z.of_nat (length sub_y) <=? min_samples_split self)%Z.
    { apply oblivious_bind; [apply oblivious_lift | intros c]. apply oblivious_ret. }
    apply oblivious_bind; [apply scan_oblivious | intros [b |]].
    2: { apply oblivious_bind; [apply oblivious_lift | intros c].
         apply oblivious_ret. }
    apply oblivious_bind; [apply oblivious_lift | intros ft].
    apply oblivious_bind; [apply oblivious_lift | intros []].
    apply oblivious_bind; [intros st1 st2; reflexivity | intros []].
    apply oblivious_bind; [apply oblivious_lift | intros left_X].
    apply oblivious_bind; [apply oblivious_lift | intros left_y].
    apply oblivious_bind; [apply IH | intros left_child].
    apply oblivious_bind; [apply oblivious_lift | intros right_X].
    apply oblivious_bind; [apply oblivious_lift | intros right_y].
    apply oblivious_bind; [apply IH | intros right_child].
    apply oblivious_ret.
Qed.

Lemma fitted_tree_eq (self : DecisionTree) (X : ndarray2) (y : list Z)
    (st : fit_state) :
  fitted_tree self X y = option_map fst (_fit_node (S (length y)) self X y st).
Proof.
  unfold fitted_tree, fit, fit_traced.
  pose proof (fit_node_oblivious (S (length y)) self X y
                {| depth_counter := depth self; calls := [] |} st) as Hob.
  destruct (_fit_node (S (length y)) self X y
              {| depth_counter := depth self; calls := [] |})
    as [[[nd | e] st1] |];
    destruct (_fit_node (S (length y)) self X y st) as [[r2 st2] |];
    simpl in *; try discriminate; try reflexivity; injection Hob as <-; reflexivity.
Qed.

Lemma fit_Ok_tree (self fitted : DecisionTree) (X : ndarray2) (y : list Z) :
  fit self X y = Some (Ok fitted) ->
  fitted_tree self X y = Some (Ok (tree fitted)) /\
  feature_types fitted = feature_types self.
Proof.
  unfold fitted_tree. intros Hfit. rewrite Hfit. simpl.
  split; [reflexivity |].
  unfold fit, fit_traced in Hfit.
  destruct (_fit_node (S (length y)) self X y _) as [[[nd | e] st1] |];
    simpl in Hfit; try discriminate.
  injection Hfit as <-. reflexivity.
Qed.

Lemma predict_same_tree (m1 m2 : DecisionTree) (X : ndarray2) :
  feature_types m1 = feature_types m2 -> tree m1 = tree m2 ->
  predict m1 X = predict m2 X.
Proof.
  intros Hty Htr. unfold predict. rewrite Htr. apply mapM_ext.
  intros x. apply predict_node_inert. exact Hty.
Qed.

(** C9: two models with the same feature types and the same
    [min_samples_split], whatever their [max_depth] and
    [min_samples_leaf], run [_fit_node] alike, so [fit] gives the same
    tree (or the same exception) for both, and the two fitted models
    predict the same labels on every input. *)
Theorem max_depth_min_samples_leaf_inert (self1 self2 : DecisionTree)
    (X : ndarray2) (y : list Z) :
  feature_types self1 = feature_types self2 ->
  min_samples_split self1 = min_samples_split self2 ->
  (forall fuel st, _fit_node fuel self1 X y st = _fit_node fuel self2 X y st) /\
  fitted_tree self1 X y = fitted_tree self2 X y /\
  (forall fitted1 fitted2 X',
      fit self1 X y = Some (Ok fitted1) -> fit self2 X y = Some (Ok fitted2) ->
      predict fitted1 X' = predict fitted2 X').
Proof.
  intros Hty Hsp.
  assert (Hnode : forall fuel st,
             _fit_node fuel self1 X y st = _fit_node fuel self2 X y st).
  { intros fuel st. apply fit_node_inert; assumption. }
  assert (Htree : fitted_tree self1 X y = fitted_tree self2 X y).
  { rewrite (fitted_tree_eq self1 X y {| depth_counter := 0; calls := [] |}).
    rewrite (fitted_tree_eq self2 X y {| depth_counter := 0; calls := [] |}).
    rewrite Hnode. reflexivity. }
  split; [exact Hnode |]. split; [exact Htree |].
  intros fitted1 fitted2 X' H1 H2.
  apply fit_Ok_tree in H1. destruct H1 as [T1 F1].
  apply fit_Ok_tree in H2. destruct H2 as [T2 F2].
  apply predict_same_tree; [congruence |].
  rewrite T1, T2 in Htree. congruence.
Qed.

Lemma max_depth_min_samples_leaf_inert_witness :
  let self1 := {| tree := Empty; feature_types := ["real"%string];
                  max_depth := Some 1%Z; min_samples_split := 2;
                  min_samples_leaf := Some 5%Z; depth := 0 |} in
  let self2 := {| tree := Empty; feature_types := ["real"%string];
                  max_depth := None; min_samples_split := 2;
                  min_samples_leaf := None; depth := 0 |} in
  let X := mk 1 [[1]; [2]; [3]; [4]] in
  let y := [0; 1; 0; 1]%Z in
  (forall fuel st, _fit_node fuel self1 X y st = _fit_node fuel self2 X y st) /\
  fitted_tree self1 X y = fitted_tree self2 X y /\
  (forall fitted1 fitted2 X',
      fit self1 X y = Some (Ok fitted1) -> fit self2 X y = Some (Ok fitted2) ->
      predict fitted1 X' = predict fitted2 X').
Proof.
  intros self1 self2 X y.
  apply (max_depth_min_samples_leaf_inert self1 self2 X y); reflexivity.
Defined.

(** ** Prediction on the training set *)

Lemma predict_node_goes_left (self : DecisionTree) (x : list Q) (f : nat)
    (pl : split_payload) (l r : node) :
  _predict_node self x (Nonterminal f pl l r) =
  (b <- goes_left self f pl x ;;
   if b then _predict_node self x l else _predict_node self x r).
Proof.
  simpl. unfold goes_left.
  destruct (np.item (feature_types self) f) as [ft | e]; [| reflexivity].
  rewrite !bind_Ok.
  destruct (np.item x f) as [v | e]; [| reflexivity].
  rewrite !bind_Ok.
  destruct (is_real ft), pl; reflexivity.
Qed.

Lemma mbind_Ok_inv {A B : Type} (m : M A) (k : A -> M B) (st st' : fit_state)
    (b : B) :
  mbind m k st = Some (Ok b, st') ->
  exists a st1, m st = Some (Ok a, st1) /\ k a st1 = Some (Ok b, st').
Proof.
  unfold mbind. destruct (m st) as [[[a | e] st1] |]; intros Hk; try discriminate.
  exists a, st1. auto.
Qed.

Lemma lift_Ok_inv {A : Type} (r : result A) (st st' : fit_state) (a : A) :
  lift r st = Some (Ok a, st') -> r = Ok a /\ st' = st.
Proof. unfold lift. intros E. injection E as -> ->. auto. Qed.

Lemma compress_combine {A B : Type} (u : list A) (v : list B) (mask : list bool) :
  length u = length v ->
  np.compress (combine u v) mask = combine (np.compress u mask) (np.compress v mask).
Proof.
  revert v mask. induction u as [| a u IH]; intros [| b v] [| m mask] Hl;
    simpl in *; try discriminate; try reflexivity.
  destruct m; simpl; [f_equal |]; apply IH; lia.
Qed.

Lemma in_compress {A : Type} (v : list A) (mask : list bool) (a : A) :
  In a (np.compress v mask) ->
  exists k, nth_error v k = Some a /\ nth_error mask k = Some true.
Proof.
  revert mask. induction v as [| x v IH]; intros [| b mask] Hin; simpl in Hin;
    try contradiction.
  destruct b.
  - destruct Hin as [<- | Hin]; [exists 0%nat; auto |].
    destruct (IH mask Hin) as (k & H1 & H2). exists (S k). auto.
  - destruct (IH mask Hin) as (k & H1 & H2). exists (S k). auto.
Qed.

Lemma Forall_compress {A : Type} (P : A -> Prop) (v : list A) (mask : list bool) :
  Forall P v -> Forall P (np.compress v mask).
Proof.
  intros Hall. revert mask. induction Hall as [| x v Hx _ IH]; intros [| b mask];
    simpl; try constructor.
  destruct b; [constructor; [exact Hx |] |]; apply IH.
Qed.

(** Predictions of a node from those of its children, along a mask that
    agrees with the routing test. *)
Lemma mapM_merge {A B : Type} (P fL fR : A -> result B) (xs : list A)
    (mask : list bool) :
  Forall2 (fun x (b : bool) => P x = if b then fL x else fR x) xs mask ->
  forall ys,
    length ys = length mask ->
    mapM fL (np.compress xs mask) = Ok (np.compress ys mask) ->
    mapM fR (np.compress xs (map negb mask)) = Ok (np.compress ys (map negb mask)) ->
    mapM P xs = Ok ys.
Proof.
  induction 1 as [| x b xs mask Hx _ IH]; intros ys Hlen HL HR.
  - destruct ys; [reflexivity | discriminate].
  - destruct ys as [| y ys]; [discriminate |].
    simpl in Hlen. injection Hlen as Hlen.
    destruct b; simpl in HL, HR.
    + apply bind_Ok_inv in HL. destruct HL as (y' & Hy' & HL).
      apply bind_Ok_inv in HL. destruct HL as (ys' & Hys' & HL).
      injection HL as -> ->.
      simpl. rewrite Hx, Hy'. simpl. rewrite (IH ys Hlen Hys' HR). reflexivity.
    + apply bind_Ok_inv in HR. destruct HR as (y' & Hy' & HR).
      apply bind_Ok_inv in HR. destruct HR as (ys' & Hys' & HR).
      injection HR as -> ->.
      simpl. rewrite Hx, Hy'. simpl. rewrite (IH ys Hlen HL Hys'). reflexivity.
Qed.

Lemma mapM_Forall2 {A B : Type} (f : A -> result B) (l : list A) (bs : list B) :
  mapM f l = Ok bs -> Forall2 (fun a b => f a = Ok b) l bs.
Proof.
  revert bs. induction l as [| a l IH]; intros bs Hm; simpl in Hm.
  - injection Hm as <-. constructor.
  - apply bind_Ok_inv in Hm. destruct Hm as (b & Hb & Hm).
    apply bind_Ok_inv in Hm. destruct Hm as (bs' & Hbs & Hm).
    injection Hm as <-. constructor; [exact Hb | apply IH; exact Hbs].
Qed.

(** Ranks grow along a [categories_map]. *)
Lemma categories_below_none (l : list Q) (s : nat) (thr : Q) :
  Qlt_bool (rank_value s) thr = false ->
  categories_below (combine l (seq s (length l))) thr = [].
Proof.
  revert s. induction l as [| a l IH]; intros s Hs; [reflexivity |].
  unfold categories_below in *. simpl. rewrite Hs.
  apply IH. apply Qlt_bool_false_iff in Hs. apply Qlt_bool_false_iff.
  eapply Qle_trans; [exact Hs |]. unfold rank_value.
  rewrite <- Zle_Qle. lia.
Qed.

(** A category is retained exactly when its rank is below the threshold. *)
Lemma rank_below_iff_retained (l : list Q) (s : nat) (thr v : Q) (r : nat) :
  dict_get Qeq_bool (combine l (seq s (length l))) v = Some r ->
  existsb (fun c => Qeq_bool v c)
          (categories_below (combine l (seq s (length l))) thr)
  = Qlt_bool (rank_value r) thr.
Proof.
  revert s. induction l as [| a l IH]; intros s Hg; [discriminate |].
  simpl in Hg. unfold categories_below. simpl filter.
  destruct (Qeq_bool a v) eqn:Ea.
  - injection Hg as <-.
    destruct (Qlt_bool (rank_value s) thr) eqn:Es.
    + simpl. rewrite Qeq_bool_sym, Ea. reflexivity.
    + fold (categories_below (combine l (seq (S s) (length l))) thr).
      rewrite categories_below_none; [reflexivity |].
      apply Qlt_bool_false_iff in Es. apply Qlt_bool_false_iff.
      eapply Qle_trans; [exact Es |]. unfold rank_value.
      rewrite <- Zle_Qle. lia.
  - specialize (IH (S s) Hg). unfold categories_below in IH.
    destruct (Qlt_bool (rank_value s) thr).
    + simpl. rewrite Qeq_bool_sym, Ea. simpl. exact IH.
    + exact IH.
Qed.

Lemma encode_categorical_inv (sub_X : ndarray2) (sub_y : list Z) (feature : nat)
    (ratio : dict Q Q) (cm : dict Q nat) (fv : list Q) :
  encode_categorical sub_X sub_y feature = Ok (ratio, cm, fv) ->
  exists ranks,
    cm = combine (map fst (np.sort_by snd ratio))
                 (seq 0 (length (map fst (np.sort_by snd ratio)))) /\
    mapM (fun x => of_option KeyError (dict_get Qeq_bool cm x))
         (column sub_X feature) = Ok ranks /\
    fv = map rank_value ranks.
Proof.
  unfold encode_categorical. intros Hen.
  apply bind_Ok_inv in Hen. destruct Hen as (pos & _ & Hen).
  apply bind_Ok_inv in Hen. destruct Hen as (ranks & Hr & Hen).
  injection Hen as <- <- <-. exists ranks. auto.
Qed.

(** The mask of a recorded split is the routing test of [_predict_node]
    on the rows of the subset. *)
Lemma split_is_routing (self : DecisionTree) (sub_X : ndarray2) (sub_y : list Z)
    (b : best) :
  rectangular sub_X -> (feature_best b < shape1 sub_X)%nat ->
  consistent self sub_X sub_y b ->
  Forall2 (fun x m => goes_left self (feature_best b) (threshold_best b) x = Ok m)
          (rows sub_X) (split b).
Proof.
  intros Hrect Hf (ft & cm & fv & thr & Hft & Hfv & Hsplit & Hpl).
  rewrite Hsplit. clear Hsplit.
  assert (Hitem : forall x, In x (rows sub_X) ->
                    np.item x (feature_best b) = Ok (nth (feature_best b) x 0)).
  { intros x Hx. unfold rectangular in Hrect. rewrite Forall_forall in Hrect.
    unfold np.item. rewrite (nth_error_nth' x 0); [reflexivity |].
    rewrite (Hrect x Hx). exact Hf. }
  unfold feature_vector_of in Hfv. unfold payload_of in Hpl.
  destruct (is_real ft) eqn:Ereal.
  - injection Hfv as _ <-. injection Hpl as Hpl.
    unfold column. rewrite map_map.
    assert (Hall : forall x, In x (rows sub_X) ->
              goes_left self (feature_best b) (threshold_best b) x =
              Ok (Qlt_bool (nth (feature_best b) x 0) thr)).
    { intros x Hx. unfold goes_left. rewrite Hft, bind_Ok, (Hitem x Hx), bind_Ok.
      rewrite Ereal, <- Hpl. reflexivity. }
    induction (rows sub_X) as [| x xs IH]; simpl; constructor.
    + apply Hall. left. reflexivity.
    + apply IH; intros; [apply Hitem | apply Hall]; right; assumption.
  - destruct (is_categorical ft); [| discriminate].
    apply bind_Ok_inv in Hfv. destruct Hfv as ([[ratio cm'] fv'] & Hen & Hfv).
    injection Hfv as -> ->. injection Hpl as Hpl.
    apply encode_categorical_inv in Hen.
    destruct Hen as (ranks & Hcm & Hranks & ->).
    apply mapM_Forall2 in Hranks. unfold column in Hranks.
    rewrite map_map.
    assert (Hall : forall x r, In x (rows sub_X) ->
              of_option KeyError (dict_get Qeq_bool cm (nth (feature_best b) x 0))
                = Ok r ->
              goes_left self (feature_best b) (threshold_best b) x =
              Ok (Qlt_bool (rank_value r) thr)).
    { intros x r Hx Hr. unfold goes_left.
      rewrite Hft, bind_Ok, (Hitem x Hx), bind_Ok, Ereal, <- Hpl.
      f_equal.
      destruct (dict_get Qeq_bool cm (nth (feature_best b) x 0)) as [r' |] eqn:Eg;
        [| discriminate].
      injection Hr as ->. rewrite Hcm in Eg |- *.
      apply rank_below_iff_retained. exact Eg. }
    clear Hitem.
    revert ranks Hranks. induction (rows sub_X) as [| x xs IH]; intros ranks Hranks.
    + inversion Hranks. constructor.
    + simpl in Hranks. inversion Hranks as [| ? r ? ranks' Hr Hrest]; subst.
      simpl. constructor.
      * apply Hall; [left; reflexivity | exact Hr].
      * apply IH; [| exact Hrest].
        intros x' r' Hx'. apply Hall. right. exact Hx'.
Qed.

Lemma Forall2_nth_error {A B : Type} (R : A -> B -> Prop) (u : list A) (v : list B)
    (k : nat) (a : A) (b : B) :
  Forall2 R u v -> nth_error u k = Some a -> nth_error v k = Some b -> R a b.
Proof.
  intros HF. revert k. induction HF as [| x y u v Hxy _ IH]; intros k Ha Hb.
  - destruct k; discriminate.
  - destruct k as [| k]; simpl in Ha, Hb.
    + injection Ha as <-. injection Hb as <-. exact Hxy.
    + eapply IH; eassumption.
Qed.

Lemma nth_error_combine {A B : Type} (u : list A) (v : list B) (k : nat)
    (s : A * B) :
  nth_error (combine u v) k = Some s ->
  nth_error u k = Some (fst s) /\ nth_error v k = Some (snd s).
Proof.
  revert v k. induction u as [| a u IH]; intros [| b v] k Hk; simpl in Hk;
    try (destruct k; discriminate).
  destruct k as [| k]; simpl in Hk |- *.
  - injection Hk as <-. auto.
  - apply IH. exact Hk.
Qed.

Lemma nth_error_map_negb (mask : list bool) (k : nat) (b : bool) :
  nth_error (map negb mask) k = Some b -> nth_error mask k = Some (negb b).
Proof.
  rewrite nth_error_map. destruct (nth_error mask k) as [m |]; simpl; [| discriminate].
  intros E. injection E as <-. rewrite negb_involutive. reflexivity.
Qed.

Lemma leaves_pure_children (self : DecisionTree) (f : nat) (pl : split_payload)
    (L R : node) (xs : list (list Q)) (ys : list Z) (mask : list bool) :
  Forall2 (fun x m => goes_left self f pl x = Ok m) xs mask ->
  length xs = length ys ->
  leaves_pure self (Nonterminal f pl L R) (combine xs ys) ->
  leaves_pure self L (combine (np.compress xs mask) (np.compress ys mask)) /\
  leaves_pure self R (combine (np.compress xs (map negb mask))
                              (np.compress ys (map negb mask))).
Proof.
  intros Hroute Hlen Hpure.
  rewrite <- !compress_combine by exact Hlen.
  assert (Hside : forall (side : bool) s k,
             nth_error (combine xs ys) k = Some s ->
             nth_error mask k = Some side ->
             In s (combine xs ys) /\ goes_left self f pl (fst s) = Ok side).
  { intros side s k Hs Hm. split; [eapply nth_error_In; exact Hs |].
    apply nth_error_combine in Hs. destruct Hs as [Hx _].
    exact (Forall2_nth_error _ _ _ _ _ _ Hroute Hx Hm). }
  split.
  - intros s s' p Hs Hs' Hp Hp'.
    apply in_compress in Hs. destruct Hs as (k & Hk & Hm).
    apply in_compress in Hs'. destruct Hs' as (k' & Hk' & Hm').
    destruct (Hside true s k Hk Hm) as [Hin Hgo].
    destruct (Hside true s' k' Hk' Hm') as [Hin' Hgo'].
    apply (Hpure s s' (true :: p) Hin Hin'); simpl.
    + rewrite Hgo, bind_Ok, Hp. reflexivity.
    + rewrite Hgo', bind_Ok, Hp'. reflexivity.
  - intros s s' p Hs Hs' Hp Hp'.
    apply in_compress in Hs. destruct Hs as (k & Hk & Hm).
    apply in_compress in Hs'. destruct Hs' as (k' & Hk' & Hm').
    apply nth_error_map_negb in Hm, Hm'. simpl in Hm, Hm'.
    destruct (Hside false s k Hk Hm) as [Hin Hgo].
    destruct (Hside false s' k' Hk' Hm') as [Hin' Hgo'].
    apply (Hpure s s' (false :: p) Hin Hin'); simpl.
    + rewrite Hgo, bind_Ok, Hp. reflexivity.
    + rewrite Hgo', bind_Ok, Hp'. reflexivity.
Qed.

Lemma mapM_const {A : Type} (c : Z) (xs : list A) (ys : list Z) :
  length xs = length ys -> Forall (fun y => y = c) ys ->
  mapM (fun _ => Ok c) xs = Ok ys.
Proof.
  revert ys. induction xs as [| x xs IH]; intros [| y ys] Hlen Hall;
    simpl in *; try discriminate; [reflexivity |].
  inversion Hall as [| ? ? Hy Hrest]; subst.
  rewrite (IH ys) by (auto; lia). reflexivity.
Qed.

(** A terminal node with a label of the subset is right on the whole
    subset when its one leaf is pure. *)
Lemma terminal_round_trip (self : DecisionTree) (c : Z) (xs : list (list Q))
    (ys : list Z) :
  length xs = length ys -> In c ys ->
  leaves_pure self (Terminal c) (combine xs ys) ->
  mapM (fun x => _predict_node self x (Terminal c)) xs = Ok ys.
Proof.
  intros Hlen Hc Hpure. simpl. apply mapM_const; [exact Hlen |].
  assert (Hsnd : forall y, In y ys -> exists s, In s (combine xs ys) /\ snd s = y).
  { intros y Hy. rewrite <- (map_snd_combine xs ys Hlen) in Hy.
    apply in_map_iff in Hy. destruct Hy as (s & <- & Hs). exists s. auto. }
  apply Forall_forall. intros y Hy.
  destruct (Hsnd y Hy) as (s & Hs & <-).
  destruct (Hsnd c Hc) as (s' & Hs' & <-).
  apply (Hpure s s' []); auto.
Qed.

Lemma scan_good_best (self : DecisionTree) (sub_X : ndarray2) (sub_y : list Z)
    (st st' : fit_state) (b : best) :
  scan self sub_X sub_y (seq 0 (shape1 sub_X)) None st = Some (Ok (Some b), st') ->
  good_best self sub_X sub_y b.
Proof.
  intros Hrun.
  destruct (scan_returns self sub_X sub_y (seq 0 (shape1 sub_X)) None st)
    as (r & st1 & Hrun' & _ & _ & Hp & _).
  - intros f Hf. apply in_seq in Hf. lia.
  - intros b' E. discriminate.
  - rewrite Hrun in Hrun'. injection Hrun' as <- <-.
    apply (Hp (Some b) eq_refl b eq_refl).
Qed.

Lemma most_common1_In (ys : list Z) (c : Z) :
  most_common1 Z.eqb ys = Ok c -> In c ys.
Proof.
  intros Hc. destruct ys as [| y ys]; [discriminate |].
  destruct (most_common1_majority (y :: ys)) as (c' & Hc' & Hin & _);
    [discriminate |].
  rewrite Hc in Hc'. injection Hc' as <-. exact Hin.
Qed.

Lemma fit_node_round_trip (fuel : nat) :
  forall self sub_X sub_y st nd st',
    _fit_node fuel self sub_X sub_y st = Some (Ok nd, st') ->
    length (rows sub_X) = length sub_y -> rectangular sub_X ->
    leaves_pure self nd (combine (rows sub_X) sub_y) ->
    mapM (fun x => _predict_node self x nd) (rows sub_X) = Ok sub_y.
Proof.
  induction fuel as [| fuel IH]; intros self sub_X sub_y st nd st' Hrun Hlen Hrect Hpure;
    [discriminate |].
  rewrite _fit_node_S in Hrun.
  apply mbind_Ok_inv in Hrun. destruct Hrun as (y0 & st0 & Hy0 & Hrun).
  apply lift_Ok_inv in Hy0. destruct Hy0 as [Hy0 ->].
  assert (Hmajor : forall st1,
            (c <- lift (most_common1 Z.eqb sub_y) ;; ret (Terminal c))%fit st1
              = Some (Ok nd, st') ->
            mapM (fun x => _predict_node self x nd) (rows sub_X) = Ok sub_y).
  { intros st1 Hm. apply mbind_Ok_inv in Hm. destruct Hm as (c & st2 & Hc & Hm).
    apply lift_Ok_inv in Hc. destruct Hc as [Hc ->].
    injection Hm as <- _. apply terminal_round_trip; [exact Hlen | | exact Hpure].
    apply most_common1_In. exact Hc. }
  destruct (forallb (fun y => Z.eqb y y0) sub_y) eqn:Eall.
  { injection Hrun as <- _. simpl. apply mapM_const; [exact Hlen |].
    apply forallb_eqb_all. exact Eall. }
  destruct (Z.of_nat (length sub_y) <=? min_samples_split self)%Z;
    [eapply Hmajor; exact Hrun |].
  apply mbind_Ok_inv in Hrun. destruct Hrun as (found & st1 & Hscan & Hrun).
  destruct found as [b |]; [| eapply Hmajor; exact Hrun].
  destruct (scan_good_best _ _ _ _ _ _ Hscan) as ((Hmlen & _ & _) & Hfb & Hcons).
  apply mbind_Ok_inv in Hrun. destruct Hrun as (ft & st2 & _ & Hrun).
  apply mbind_Ok_inv in Hrun. destruct Hrun as ([] & st3 & _ & Hrun).
  apply mbind_Ok_inv in Hrun. destruct Hrun as ([] & st4 & _ & Hrun).
  apply mbind_Ok_inv in Hrun. destruct Hrun as (left_X & st5 & HlX & Hrun).
  apply lift_Ok_inv in HlX. destruct HlX as [HlX ->].
  apply mbind_Ok_inv in Hrun. destruct Hrun as (left_y & st6 & Hly & Hrun).
  apply lift_Ok_inv in Hly. destruct Hly as [Hly ->].
  apply mbind_Ok_inv in Hrun. destruct Hrun as (L & st7 & HL & Hrun).
  apply mbind_Ok_inv in Hrun. destruct Hrun as (right_X & st8 & HrX & Hrun).
  apply lift_Ok_inv in HrX. destruct HrX as [HrX ->].
  apply mbind_Ok_inv in Hrun. destruct Hrun as (right_y & st9 & Hry & Hrun).
  apply lift_Ok_inv in Hry. destruct Hry as [Hry ->].
  apply mbind_Ok_inv in Hrun. destruct Hrun as (R & st10 & HR & Hrun).
  injection Hrun as <- _.
  unfold row_index in HlX, HrX.
  apply bind_Ok_inv in HlX. destruct HlX as (lrows & Hlrows & HlX).
  injection HlX as <-.
  apply bind_Ok_inv in HrX. destruct HrX as (rrows & Hrrows & HrX).
  injection HrX as <-.
  apply bool_index_Ok in Hlrows, Hrrows, Hly, Hry.
  destruct Hlrows as [_ ->]. destruct Hrrows as [_ ->].
  destruct Hly as [_ ->]. destruct Hry as [_ ->].
  pose proof (split_is_routing self sub_X sub_y b Hrect Hfb Hcons) as Hroute.
  destruct (leaves_pure_children self _ _ L R _ _ _ Hroute Hlen Hpure)
    as [HpL HpR].
  apply (mapM_merge _ (fun x => _predict_node self x L)
                      (fun x => _predict_node self x R) _ (split b)).
  - eapply Forall2_impl; [| exact Hroute].
    intros x m Hgo. rewrite predict_node_goes_left, Hgo. reflexivity.
  - congruence.
  - apply (IH self _ _ _ _ _ HL); simpl.
    + apply compress_length_eq; congruence.
    + apply Forall_compress. exact Hrect.
    + exact HpL.
  - apply (IH self _ _ _ _ _ HR); simpl.
    + apply compress_length_eq; rewrite length_map; congruence.
    + apply Forall_compress. exact Hrect.
    + exact HpR.
Qed.

Lemma goes_left_inert (self1 self2 : DecisionTree) (f : nat) (pl : split_payload)
    (x : list Q) :
  feature_types self1 = feature_types self2 ->
  goes_left self1 f pl x = goes_left self2 f pl x.
Proof. intros E. unfold goes_left. rewrite E. reflexivity. Qed.

Lemma leaf_path_inert (self1 self2 : DecisionTree) (x : list Q) (nd : node) :
  feature_types self1 = feature_types self2 ->
  leaf_path self1 x nd = leaf_path self2 x nd.
Proof.
  intros E. induction nd as [| c | f pl l IHl r IHr]; simpl; try reflexivity.
  rewrite (goes_left_inert self1 self2 f pl x E).
  destruct (goes_left self2 f pl x) as [[|] | e]; simpl; congruence.
Qed.

(** C8: if [fit] succeeds on a training set with as many rows as labels
    and every leaf of the fitted tree is pure (training samples that
    reach one leaf have one label), then [predict] on the same rows
    returns the labels of the training set, in order. *)
Theorem predict_reproduces_pure_training (self fitted : DecisionTree)
    (X : ndarray2) (y : list Z) :
  fit self X y = Some (Ok fitted) ->
  length (rows X) = length y -> rectangular X ->
  leaves_pure fitted (tree fitted) (combine (rows X) y) ->
  predict fitted X = Ok y.
Proof.
  intros Hfit Hlen Hrect Hpure.
  unfold fit, fit_traced in Hfit.
  destruct (_fit_node (S (length y)) self X y
              {| depth_counter := depth self; calls := [] |})
    as [[[nd | e] st'] |] eqn:Hrun; simpl in Hfit; try discriminate.
  injection Hfit as <-. unfold predict. simpl tree in *.
  assert (Hty : feature_types (set_fitted self nd (depth_counter st'))
                = feature_types self) by reflexivity.
  rewrite (mapM_ext _ (fun x => _predict_node self x nd))
    by (intros x; apply predict_node_inert; exact Hty).
  apply (fit_node_round_trip _ _ _ _ _ _ _ Hrun Hlen Hrect).
  intros s s' p Hs Hs' Hp Hp'.
  apply (Hpure s s' p Hs Hs');
    rewrite (leaf_path_inert _ self _ _ Hty); assumption.
Qed.

Lemma predict_reproduces_pure_training_witness :
  predict {| tree := Nonterminal 0 (Threshold (3 # 2)) (Terminal 0) (Terminal 1);
             feature_types := ["real"%string];
             max_depth := None;
             min_samples_split := 2;
             min_samples_leaf := None;
             depth := 1 |}
          (mk 1 [[1]; [2]; [2]; [3]])
  = Ok [0; 1; 1; 1]%Z.
Proof.
  apply (predict_reproduces_pure_training (dt0 ["real"%string])).
  - reflexivity.
  - reflexivity.
  - repeat constructor.
  - intros s s' p Hs Hs' Hp Hp'. simpl in Hs, Hs'.
    repeat match goal with
           | H : _ \/ _ |- _ => destruct H
           | H : False |- _ => contradiction
           end; subst; vm_compute in Hp, Hp'; simpl; congruence.
Defined.

(** ** The encoding of a categorical feature *)

Lemma column_compress (X : ndarray2) (mask : list bool) (f : nat) :
  column {| shape1 := shape1 X; rows := np.compress (rows X) mask |} f =
  np.compress (column X f) mask.
Proof.
  unfold column. simpl. generalize (rows X) as rs. intros rs. revert mask.
  induction rs as [| x rs IH]; intros [| b mask]; simpl; try reflexivity.
  destruct b; simpl; [f_equal |]; apply IH.
Qed.

Lemma encode_categorical_ratio (sub_X : ndarray2) (sub_y : list Z) (feature : nat)
    (ratio : dict Q Q) (cm : dict Q nat) (fv : list Q) :
  encode_categorical sub_X sub_y feature = Ok (ratio, cm, fv) ->
  ratio = map (fun e => (fst e, positive_rate (column sub_X feature) sub_y (fst e)))
              (Counter Qeq_bool (column sub_X feature)).
Proof.
  unfold encode_categorical, row_index. intros Hen.
  apply bind_Ok_inv in Hen. destruct Hen as (pos & Hpos & Hen).
  apply bind_Ok_inv in Hpos. destruct Hpos as (prow & Hprow & Hpos).
  injection Hpos as <-. apply bool_index_Ok in Hprow. destruct Hprow as [_ ->].
  apply bind_Ok_inv in Hen. destruct Hen as (ranks & _ & Hen).
  injection Hen as <- _ _.
  rewrite column_compress.
  set (col := column sub_X feature).
  set (pos := np.compress col (map (fun y => Z.eqb y 1) sub_y)).
  apply map_ext_in. intros [key n] Hin. simpl.
  destruct (Counter_counts Qeq_bool Qeq_bool_refl Qeq_bool_sym Qeq_bool_trans
              col key n Hin) as [-> _].
  f_equal. unfold positive_rate. fold col. fold pos. f_equal. f_equal.
  rewrite (dict_get_Counter Qeq_bool Qeq_bool_sym Qeq_bool_trans pos key).
  destruct (Nat.eqb_spec (occurrences Qeq_bool key pos) 0) as [E | _];
    [symmetry; exact E | reflexivity].
Qed.

#[global] Instance same_key_equiv : Equivalence same_key.
Proof.
  unfold same_key. split.
  - intros e. reflexivity.
  - intros e e' E. symmetry. exact E.
  - intros e1 e2 e3 E1 E2. rewrite E1. exact E2.
Qed.

Lemma distinct_keys_NoDupA (c : dict Q nat) (g : Q * nat -> Q * Q) :
  (forall e, fst (g e) = fst e) ->
  ForallOrdPairs (fun e e' => Qeq_bool (fst e) (fst e') = false) c ->
  NoDupA same_key (map g c).
Proof.
  intros Hg. induction 1 as [| e c Hall _ IH]; simpl; constructor; [| exact IH].
  intros Hin. apply InA_alt in Hin. destruct Hin as (e' & Hk & Hin).
  apply in_map_iff in Hin. destruct Hin as (e0 & <- & Hin).
  unfold same_key in Hk. rewrite !Hg in Hk.
  rewrite Forall_forall in Hall. specialize (Hall e0 Hin).
  apply Qeq_bool_iff in Hk. congruence.
Qed.

(** With distinct rates, sorting the categories by rate puts them in
    strictly ascending order of rate. *)
Lemma sorted_ratio_NoDupA (col : list Q) (sub_y : list Z) :
  NoDupA same_key
    (np.sort_by snd
       (map (fun e : Q * nat => (fst e, positive_rate col sub_y (fst e)))
            (Counter Qeq_bool col))).
Proof.
  set (ratio := map (fun e : Q * nat => (fst e, positive_rate col sub_y (fst e)))
                    (Counter Qeq_bool col)).
  assert (Hr : NoDupA same_key ratio).
  { apply (distinct_keys_NoDupA (Counter Qeq_bool col)
             (fun e => (fst e, positive_rate col sub_y (fst e))));
      [reflexivity | apply Counter_keys_distinct]. }
  assert (Hp : PermutationA same_key ratio (np.sort_by snd ratio)).
  { apply Permutation_PermutationA; [exact same_key_equiv |].
    apply Permutation_sym, sort_by_perm. }
  exact (PermutationA_preserves_NoDupA same_key_equiv Hp Hr).
Qed.

(** In a dictionary of distinct keys numbered in order, a key has the
    number of its place. *)
Lemma dict_get_distinct_nth (l : list (Q * Q)) :
  NoDupA same_key l ->
  forall s i e, nth_error l i = Some e ->
    dict_get Qeq_bool (combine (map fst l) (seq s (length (map fst l)))) (fst e)
    = Some (s + i)%nat.
Proof.
  induction 1 as [| a l Hnot _ IH]; intros s i e Hi.
  - destruct i; discriminate.
  - destruct i as [| i]; simpl in Hi |- *.
    + injection Hi as <-. rewrite Qeq_bool_refl, Nat.add_0_r. reflexivity.
    + destruct (Qeq_bool (fst a) (fst e)) eqn:E.
      * exfalso. apply Hnot. apply InA_alt. exists e.
        split; [apply Qeq_bool_iff; exact E | eapply nth_error_In; exact Hi].
      * rewrite (IH (S s) i e Hi). f_equal. lia.
Qed.

Lemma rank_not_below_mono (a b : nat) (thr : Q) :
  (a <= b)%nat ->
  Qlt_bool (rank_value a) thr = false -> Qlt_bool (rank_value b) thr = false.
Proof.
  intros Hab Ha. apply Qlt_bool_false_iff in Ha. apply Qlt_bool_false_iff.
  eapply Qle_trans; [exact Ha |]. unfold rank_value. rewrite <- Zle_Qle. lia.
Qed.

(** Along a list in ascending order of rate, "rank below [thr]" is "rate
    below some cutoff" when no entry of rank below [thr] has the rate of
    an entry that is not. *)
Lemma cut_exists (thr : Q) (l : list (Q * Q)) :
  StronglySorted (key_le snd) l ->
  forall s,
    (forall i j e e',
        nth_error l i = Some e -> nth_error l j = Some e' ->
        Qlt_bool (rank_value (s + i)) thr = true ->
        Qlt_bool (rank_value (s + j)) thr = false ->
        ~ snd e == snd e') ->
    exists c, forall j e,
      nth_error l j = Some e ->
      Qlt_bool (rank_value (s + j)) thr = Qlt_bool (snd e) c.
Proof.
  induction 1 as [| e0 l Hs IH Hall]; intros s Htie.
  - exists 0. intros j e Hj. destruct j; discriminate.
  - rewrite Forall_forall in Hall. unfold key_le in Hall.
    assert (Hnone : Qlt_bool (rank_value s) thr = false ->
              forall j e, nth_error (e0 :: l) j = Some e ->
                Qlt_bool (rank_value (s + j)) thr = Qlt_bool (snd e) (snd e0)).
    { intros Hs0 j e Hj.
      rewrite (rank_not_below_mono s (s + j) thr) by (auto; lia).
      symmetry. apply Qlt_bool_false_iff.
      destruct j as [| j]; simpl in Hj.
      - injection Hj as <-. apply Qle_refl.
      - apply Hall. eapply nth_error_In. exact Hj. }
    destruct (Qlt_bool (rank_value s) thr) eqn:Es0;
      [| exists (snd e0); apply Hnone; reflexivity].
    destruct l as [| e1 l'].
    + exists (snd e0 + 1). intros j e Hj.
      destruct j as [| j]; simpl in Hj; [| destruct j; discriminate].
      injection Hj as <-. rewrite Nat.add_0_r, Es0. symmetry.
      apply Qlt_bool_iff. lra.
    + assert (Htie' : forall i j e e',
                nth_error (e1 :: l') i = Some e -> nth_error (e1 :: l') j = Some e' ->
                Qlt_bool (rank_value (S s + i)) thr = true ->
                Qlt_bool (rank_value (S s + j)) thr = false ->
                ~ snd e == snd e').
      { intros i j e e' Hi Hj Bi Bj.
        apply (Htie (S i) (S j) e e'); try assumption.
        - replace (s + S i)%nat with (S s + i)%nat by lia. exact Bi.
        - replace (s + S j)%nat with (S s + j)%nat by lia. exact Bj. }
      destruct (Qlt_bool (rank_value (S s)) thr) eqn:Es1.
      * destruct (IH (S s) Htie') as (c & Hc). exists c. intros j e Hj.
        destruct j as [| j]; simpl in Hj.
        -- injection Hj as <-. rewrite Nat.add_0_r, Es0. symmetry.
           apply Qlt_bool_iff.
           specialize (Hc 0%nat e1 eq_refl). rewrite Nat.add_0_r, Es1 in Hc.
           symmetry in Hc. apply Qlt_bool_iff in Hc.
           eapply Qle_lt_trans; [| exact Hc]. apply Hall. left. reflexivity.
        -- replace (s + S j)%nat with (S s + j)%nat by lia. apply Hc. exact Hj.
      * exists (snd e1). intros j e Hj.
        destruct j as [| j]; simpl in Hj.
        -- injection Hj as <-. rewrite Nat.add_0_r, Es0. symmetry.
           apply Qlt_bool_iff.
           assert (Hle : snd e0 <= snd e1) by (apply Hall; left; reflexivity).
           assert (Hne : ~ snd e0 == snd e1).
           { apply (Htie 0%nat 1%nat e0 e1); try reflexivity.
             - rewrite Nat.add_0_r. exact Es0.
             - replace (s + 1)%nat with (S s) by lia. exact Es1. }
           apply Qle_lt_or_eq in Hle. destruct Hle as [Hlt | Heq];
             [exact Hlt | contradiction].
        -- rewrite (rank_not_below_mono (S s) (s + S j) thr) by (auto; lia).
           symmetry. apply Qlt_bool_false_iff.
           inversion Hs as [| ? ? _ Hall1]; subst.
           destruct j as [| j]; simpl in Hj.
           ++ injection Hj as <-. apply Qle_refl.
           ++ rewrite Forall_forall in Hall1.
              apply Hall1. eapply nth_error_In. exact Hj.
Qed.

Lemma dict_get_combine_nth (l : list Q) (s : nat) (x : Q) (r : nat) :
  dict_get Qeq_bool (combine l (seq s (length l))) x = Some r ->
  exists k j, r = (s + j)%nat /\ nth_error l j = Some k /\ Qeq_bool k x = true.
Proof.
  revert s. induction l as [| a l IH]; intros s Hg; [discriminate |].
  simpl in Hg. destruct (Qeq_bool a x) eqn:E.
  - injection Hg as <-. exists a, 0%nat. rewrite Nat.add_0_r. auto.
  - destruct (IH (S s) Hg) as (k & j & -> & Hj & Hk).
    exists k, (S j). split; [lia | auto].
Qed.

Lemma positive_rate_equiv (col : list Q) (sub_y : list Z) (k x : Q) :
  Qeq_bool k x = true -> positive_rate col sub_y k = positive_rate col sub_y x.
Proof.
  intros E. unfold positive_rate.
  rewrite (occurrences_equiv Qeq_bool Qeq_bool_sym Qeq_bool_trans k x _ E).
  rewrite (occurrences_equiv Qeq_bool Qeq_bool_sym Qeq_bool_trans k x col E).
  reflexivity.
Qed.

Lemma ranks_map_eq (cm : dict Q nat) (F : nat -> bool) (G : Q -> bool)
    (xs : list Q) (rs : list nat) :
  Forall2 (fun x r => of_option KeyError (dict_get Qeq_bool cm x) = Ok r) xs rs ->
  (forall x r, dict_get Qeq_bool cm x = Some r -> F r = G x) ->
  map F rs = map G xs.
Proof.
  intros HF Hpoint. induction HF as [| x r xs rs Hx _ IH]; simpl.
  - reflexivity.
  - f_equal; [| exact IH].
    destruct (dict_get Qeq_bool cm x) as [r' |] eqn:Eg; [| discriminate].
    injection Hx as <-. apply Hpoint. exact Eg.
Qed.

Lemma ranks_defined (cm : dict Q nat) (xs : list Q) (rs : list nat) (k : Q) :
  Forall2 (fun x r => of_option KeyError (dict_get Qeq_bool cm x) = Ok r) xs rs ->
  In k xs -> exists r, dict_get Qeq_bool cm k = Some r.
Proof.
  intros HF Hk. induction HF as [| x r xs rs Hx _ IH]; [contradiction |].
  destruct Hk as [<- | Hk]; [| apply IH; exact Hk].
  destruct (dict_get Qeq_bool cm x) as [r' |]; [eexists; reflexivity | discriminate].
Qed.

(** C7, amended: on a subset with as many rows as labels, a rank threshold
    splits the samples, and keeps the categories, exactly as some cutoff
    on the positive rate does, if and only if no category it keeps has
    the positive rate of a category it does not keep. *)
Theorem categorical_split_is_rate_cut (sub_X : ndarray2) (sub_y : list Z)
    (feature : nat) (thr : Q) :
  length (rows sub_X) = length sub_y ->
  (rate_cut sub_X sub_y feature thr <-> no_tie_across sub_X sub_y feature thr).
Proof.
  intros Hlen. split.
  { intros (ratio & cm & fv & c & Hen & _ & Hkeep) ratio' cm' fv' k k' Hen'
           Hk Hk' Hin Hout Hrate.
    rewrite Hen in Hen'. injection Hen' as _ <- _.
    rewrite (Hkeep k Hk) in Hin. rewrite (Hkeep k' Hk') in Hout.
    rewrite Hrate in Hin. congruence. }
  intros Htie.
  destruct (encode_categorical_Ok sub_X sub_y feature Hlen) as (ratio & cm & fv & Hen).
  pose proof (encode_categorical_ratio _ _ _ _ _ _ Hen) as Hratio.
  destruct (encode_categorical_inv _ _ _ _ _ _ Hen) as (ranks & Hcm & Hranks & Hfv).
  set (col := column sub_X feature) in *.
  pose proof (sorted_ratio_NoDupA col sub_y) as Hnd.
  rewrite <- Hratio in Hnd.
  assert (Hrate : forall e, In e (np.sort_by snd ratio) ->
                    In (fst e) col /\ snd e = positive_rate col sub_y (fst e)).
  { intros e He. apply (Permutation_in _ (sort_by_perm snd ratio)) in He.
    rewrite Hratio in He. apply in_map_iff in He.
    destruct He as ([k n] & <- & He). simpl.
    split; [eapply Counter_keys_in; exact He | reflexivity]. }
  assert (Hplace : forall i e, nth_error (np.sort_by snd ratio) i = Some e ->
            existsb (fun c => Qeq_bool (fst e) c) (categories_below cm thr)
            = Qlt_bool (rank_value i) thr).
  { intros i e Hi. rewrite Hcm. apply rank_below_iff_retained.
    exact (dict_get_distinct_nth _ Hnd 0%nat i e Hi). }
  destruct (cut_exists thr _ (sort_by_sorted snd ratio) 0%nat) as (c & Hc).
  { intros i j e e' Hi Hj Bi Bj Heq. simpl in Bi, Bj.
    destruct (Hrate e (nth_error_In _ _ Hi)) as [Hk Er].
    destruct (Hrate e' (nth_error_In _ _ Hj)) as [Hk' Er'].
    apply (Htie ratio cm fv (fst e) (fst e') Hen Hk Hk').
    - rewrite (Hplace i e Hi). exact Bi.
    - rewrite (Hplace j e' Hj). exact Bj.
    - fold col. rewrite <- Er, <- Er'. exact Heq. }
  assert (Hpoint : forall x r,
            dict_get Qeq_bool cm x = Some r ->
            Qlt_bool (rank_value r) thr = Qlt_bool (positive_rate col sub_y x) c).
  { intros x r Hg. rewrite Hcm in Hg.
    apply dict_get_combine_nth in Hg. destruct Hg as (k & j & -> & Hj & Hk).
    rewrite nth_error_map in Hj.
    destruct (nth_error (np.sort_by snd ratio) j) as [e |] eqn:Ej; [| discriminate].
    injection Hj as <-.
    rewrite (Hc j e Ej). rewrite (proj2 (Hrate e (nth_error_In _ _ Ej))).
    rewrite (positive_rate_equiv col sub_y (fst e) x Hk). reflexivity. }
  apply mapM_Forall2 in Hranks.
  exists ratio, cm, fv, c. split; [exact Hen |]. split.
  - unfold rank_mask, rate_mask. rewrite Hfv, map_map. fold col.
    apply (ranks_map_eq cm _ _ _ _ Hranks). exact Hpoint.
  - intros k Hk. fold col in Hk.
    destruct (ranks_defined cm _ _ k Hranks Hk) as (r & Hr).
    fold col. rewrite <- (Hpoint k r Hr).
    rewrite Hcm in Hr |- *. apply rank_below_iff_retained. exact Hr.
Qed.

(** Two categories of rate 0 and one of rate 1: the threshold between the
    ranks 1 and 2 keeps the first two, as the cutoff 1/2 on the rate
    does. *)
Lemma categorical_split_is_rate_cut_witness :
  rate_cut (mk 1 [[0]; [1]; [2]; [2]]) [0; 0; 1; 1]%Z 0 (3 # 2).
Proof.
  apply (proj2 (categorical_split_is_rate_cut (mk 1 [[0]; [1]; [2]; [2]])
                  [0; 0; 1; 1]%Z 0 (3 # 2) eq_refl)).
  intros ratio cm fv k k' Hen Hk Hk' Hin Hout Hrate.
  vm_compute in Hen. injection Hen as _ <- _.
  simpl in Hk, Hk'.
  destruct Hk as [<- | [<- | [<- | [<- | []]]]];
    destruct Hk' as [<- | [<- | [<- | [<- | []]]]];
    vm_compute in Hin, Hout, Hrate; discriminate.
Defined.

(** C7, as stated, fails: two categories with the same positive rate get
    different ranks, and the fitted split separates them, which no
    cutoff on the rate can do. *)
Lemma categorical_split_not_rate_cut :
  encode_categorical (mk 1 [[0]; [0]; [1]; [1]]) [0; 1; 0; 1]%Z 0
    = Ok ([(0, 1 # 2); (1, 1 # 2)], [(0, 0%nat); (1, 1%nat)], [0; 0; 1; 1]) /\
  (exists ths gs g,
      find_best_split [0; 0; 1; 1] [0; 1; 0; 1]%Z = Ok (ths, gs, 1 # 2, g)) /\
  fitted_tree (dt0 ["categorical"%string]) (mk 1 [[0]; [0]; [1]; [1]]) [0; 1; 0; 1]%Z
    = Some (Ok (Nonterminal 0 (CategoriesSplit [0]) (Terminal 0) (Terminal 0))) /\
  (forall cutoff,
      rank_mask [0; 0; 1; 1] (1 # 2)
      <> rate_mask (column (mk 1 [[0]; [0]; [1]; [1]]) 0) [0; 1; 0; 1]%Z cutoff) /\
  ~ rate_cut (mk 1 [[0]; [0]; [1]; [1]]) [0; 1; 0; 1]%Z 0 (1 # 2).
Proof.
  assert (Hno : forall cutoff,
             rank_mask [0; 0; 1; 1] (1 # 2)
             <> rate_mask (column (mk 1 [[0]; [0]; [1]; [1]]) 0)
                          [0; 1; 0; 1]%Z cutoff).
  { intros c Hmask.
    assert (Em : rank_mask [0; 0; 1; 1] (1 # 2) = [true; true; false; false])
      by reflexivity.
    rewrite Em in Hmask. clear Em.
    assert (E0 : positive_rate (column (mk 1 [[0]; [0]; [1]; [1]]) 0)
                   [0; 1; 0; 1]%Z 0 = 1 # 2) by reflexivity.
    assert (E1 : positive_rate (column (mk 1 [[0]; [0]; [1]; [1]]) 0)
                   [0; 1; 0; 1]%Z 1 = 1 # 2) by reflexivity.
    unfold rate_mask in Hmask.
    change (column (mk 1 [[0]; [0]; [1]; [1]]) 0) with [0; 0; 1; 1] in Hmask at 2.
    cbv [map] in Hmask. rewrite E0, E1 in Hmask.
    injection Hmask as Ht _ Hf _. congruence. }
  split; [reflexivity |]. split; [eexists _, _, _; reflexivity |].
  split; [reflexivity |]. split; [exact Hno |].
  intros (ratio & cm & fv & c & Hen & Hmask & _).
  vm_compute in Hen. injection Hen as _ _ <-.
  exact (Hno c Hmask).
Qed.

(** ** The examples of the specification *)

(** [feature_vector = [1,2,2,3]], [target = [0,1,1,1]]: the candidate
    thresholds are 1.5 and 2.5, with criterion 0 and -1/3; the first is
    the best. *)
Example find_best_split_example :
  exists g1 g2,
    find_best_split [1; 2; 2; 3] [0; 1; 1; 1]%Z
      = Ok ([3 # 2; 5 # 2], [g1; g2], 3 # 2, g1) /\
    g1 == 0 /\ g2 == - (1 # 3).
Proof. eexists _, _. split; [reflexivity |]. split; reflexivity. Qed.

(** Equal criterion values: the smaller threshold is returned. *)
Example find_best_split_tie_example :
  exists g1 g2 g3,
    find_best_split [1; 2; 3; 4] [0; 1; 0; 1]%Z
      = Ok ([3 # 2; 5 # 2; 7 # 2], [g1; g2; g3], 3 # 2, g1) /\
    g1 == g3 /\ g2 < g1.
Proof. eexists _, _, _. split; [reflexivity |]. split; reflexivity. Qed.

(** A single categorical feature with a category of rate 0 and one of
    rate 1 splits into two pure leaves, and the tree predicts the
    training labels. *)
Example categorical_perfect_split_example :
  fit_traced (dt0 ["categorical"%string]) (mk 1 [[5]; [5]; [7]; [7]]) [0; 0; 1; 1]%Z
    = Some (Ok {| tree := Nonterminal 0 (CategoriesSplit [5]) (Terminal 0) (Terminal 1);
                  feature_types := ["categorical"%string];
                  max_depth := None;
                  min_samples_split := 2;
                  min_samples_leaf := None;
                  depth := 1 |},
            [([0; 0; 1; 1], [0; 0; 1; 1]%Z)]) /\
  predict {| tree := Nonterminal 0 (CategoriesSplit [5]) (Terminal 0) (Terminal 1);
             feature_types := ["categorical"%string];
             max_depth := None;
             min_samples_split := 2;
             min_samples_leaf := None;
             depth := 1 |}
          (mk 1 [[5]; [5]; [7]; [7]])
    = Ok [0; 0; 1; 1]%Z.
Proof. split; reflexivity. Qed.

(** A constant column is passed over: the only call of the split search
    is on the second column. *)
Example constant_feature_skipped_example :
  option_map snd
    (fit_traced (dt0 ["real"%string; "real"%string])
       (mk 2 [[4; 1]; [4; 2]; [4; 3]]) [0; 1; 1]%Z)
  = Some [([1; 2; 3], [0; 1; 1]%Z)].
Proof. reflexivity. Qed.

(** The constructor refuses an unknown feature type. *)
Example init_unknown_type_example :
  __init__ ["real"%string; "ordinal"%string] None 2 None = Raise ValueError.
Proof. reflexivity. Qed.

(** The empty training set: reading the first label fails. *)
Example fit_empty_example :
  fit (dt0 ["real"%string]) (mk 1 []) [] = Some (Raise IndexError).
Proof. reflexivity. Qed.

(* ===================================================================== *)
(** * Further properties of the code *)

(** ** When [find_best_split] returns *)

Lemma non_constant_dec (v : list Q) :
  non_constant v \/ forall a b, In a v -> In b v -> a == b.
Proof.
  destruct v as [| v0 r]; [right; intros a b [] |].
  destruct (forallb (fun x => Qeq_bool x v0) (v0 :: r)) eqn:E.
  - right. rewrite forallb_forall in E. intros a b Ha Hb.
    apply E in Ha, Hb. apply Qeq_bool_iff in Ha, Hb. rewrite Ha, Hb. reflexivity.
  - left. apply all_equal_first_false. unfold all_equal_first, np.item.
    simpl nth_error. simpl of_option. rewrite bind_Ok. rewrite E. reflexivity.
Qed.

Lemma kept_nil_constant (fs : list Q) :
  (forall a b, In a fs -> In b fs -> a == b) -> kept fs = [].
Proof.
  intros Hc. unfold kept.
  assert (Hall : forall k, In k (seq 0 (length fs - 1)) -> boundary_at fs k = false).
  { intros k Hk. apply in_seq in Hk. unfold boundary_at.
    apply negb_false_iff, Qeq_bool_iff. apply Hc; apply nth_In; lia. }
  induction (seq 0 (length fs - 1)) as [| k l IH]; [reflexivity |].
  simpl. rewrite (Hall k (or_introl eq_refl)).
  apply IH. intros k' Hk'. apply Hall. right. exact Hk'.
Qed.

Lemma take_short (fv : list Q) (tv : list Z) (ind : list nat) :
  sorts ind fv -> (length tv < length fv)%nat -> np.take tv ind = Raise IndexError.
Proof.
  intros [Hp _] Hlt. unfold np.take.
  assert (Hbad : In (length tv) ind).
  { apply (Permutation_in _ (Permutation_sym Hp)). apply in_seq. lia. }
  clear Hp. induction ind as [| i ind IH]; [contradiction |].
  simpl. destruct (nth_error tv i) as [t |] eqn:Ei; simpl; [| reflexivity].
  destruct Hbad as [-> | Hbad].
  - assert (Hn : nth_error tv (length tv) = None) by (apply nth_error_None; lia).
    congruence.
  - rewrite (IH Hbad). reflexivity.
Qed.

Lemma find_best_split_from_ok_le (ind : list nat) (fv : list Q) (tv : list Z) :
  sorts ind fv -> (length fv <= length tv)%nat -> non_constant fv ->
  exists k tb gb,
    find_best_split_from ind fv tv =
      Ok (midpoints (feat_sort ind fv),
          map (gini_at (target_sort ind tv)) (kept (feat_sort ind fv)), tb, gb) /\
    first_max (map (gini_at (target_sort ind tv)) (kept (feat_sort ind fv))) k gb /\
    nth_error (midpoints (feat_sort ind fv)) k = Some tb.
Proof.
  intros Hs Hlen Hnc.
  rewrite find_best_split_from_sorted by assumption.
  rewrite split_sorted_closed.
  2: rewrite (feat_sort_length _ _ Hs), (target_sort_length _ _ tv Hs); reflexivity.
  2: { intros E. apply (f_equal (@length Z)) in E.
       rewrite (target_sort_length _ _ tv Hs) in E.
       apply non_constant_nonempty in Hnc.
       destruct fv; [congruence | discriminate]. }
  set (ginis := map (gini_at (target_sort ind tv)) (kept (feat_sort ind fv))).
  destruct (argmax_first_max ginis) as (k & gb & Ha & Hfm).
  { unfold ginis. intros E. apply map_eq_nil in E.
    revert E. apply kept_nonempty; assumption. }
  assert (Hk : (k < length (midpoints (feat_sort ind fv)))%nat).
  { rewrite <- midpoints_kept, length_map.
    destruct Hfm as (Hn & _).
    assert (Hlt : (k < length ginis)%nat) by (apply nth_error_Some; congruence).
    unfold ginis in Hlt. rewrite length_map in Hlt. exact Hlt. }
  destruct (nth_error (midpoints (feat_sort ind fv)) k) as [tb |] eqn:Et.
  2: { apply nth_error_None in Et. lia. }
  exists k, tb, gb. split; [| split; [exact Hfm | exact Et]].
  rewrite Ha, bind_Ok. rewrite midpoints_kept.
  unfold np.item. rewrite Et. simpl.
  destruct Hfm as (Hn & _). rewrite Hn. reflexivity.
Qed.

Lemma find_best_split_from_constant (ind : list nat) (fv : list Q) (tv : list Z) :
  sorts ind fv -> (length fv <= length tv)%nat -> fv <> [] ->
  (forall a b, In a fv -> In b fv -> a == b) ->
  find_best_split_from ind fv tv = Raise ValueError.
Proof.
  intros Hs Hlen Hne Hc.
  rewrite find_best_split_from_sorted by assumption.
  rewrite split_sorted_closed.
  2: rewrite (feat_sort_length _ _ Hs), (target_sort_length _ _ tv Hs); reflexivity.
  2: { intros E. apply (f_equal (@length Z)) in E.
       rewrite (target_sort_length _ _ tv Hs) in E.
       destruct fv; [congruence | discriminate]. }
  rewrite kept_nil_constant; [reflexivity |].
  intros a b Ha Hb.
  apply Hc; eapply Permutation_in; try eassumption; apply feat_sort_perm; exact Hs.
Qed.

Lemma find_best_split_failure (fv : list Q) (tv : list Z) :
  ~ ((length fv <= length tv)%nat /\ non_constant fv) ->
  find_best_split fv tv = Raise (split_failure fv tv).
Proof.
  pose proof (argsort_sorts fv) as Hs.
  intros Hnot. unfold split_failure.
  destruct (Nat.ltb_spec (length tv) (length fv)) as [Hlt | Hle].
  - rewrite find_best_split_argsort, find_best_split_from_eq.
    rewrite (take_gather 0 fv) by (intros i Hi; eapply sorts_lt; eassumption).
    rewrite bind_Ok, (take_short fv tv _ Hs Hlt). reflexivity.
  - destruct fv as [| v0 r]; [reflexivity |].
    destruct (non_constant_dec (v0 :: r)) as [Hnc | Hc]; [tauto |].
    rewrite find_best_split_argsort.
    apply find_best_split_from_constant; [exact Hs | exact Hle | discriminate | exact Hc].
Qed.

Lemma find_best_split_Ok_cond (fv : list Q) (tv : list Z) (r : split_result) :
  find_best_split fv tv = Ok r ->
  (length fv <= length tv)%nat /\ non_constant fv.
Proof.
  intros Hr.
  destruct (Nat.le_gt_cases (length fv) (length tv)) as [Hle | Hlt].
  - destruct (non_constant_dec fv) as [Hnc | Hc]; [auto |].
    rewrite find_best_split_failure in Hr; [discriminate |]. intros [_ Hnc].
    destruct Hnc as (a & b & Ha & Hb & Hab). apply Hab, Hc; assumption.
  - rewrite find_best_split_failure in Hr; [discriminate |]. intros [Hle _]. lia.
Qed.

(** What a successful run returns, in closed form. *)
Lemma find_best_split_Ok_inv (fv : list Q) (tv : list Z) (ths gs : list Q)
    (tb gb : Q) :
  find_best_split fv tv = Ok (ths, gs, tb, gb) ->
  (length fv <= length tv)%nat /\ non_constant fv /\
  ths = midpoints (feat_sort (np.argsort fv) fv) /\
  gs = map (gini_at (target_sort (np.argsort fv) tv))
           (kept (feat_sort (np.argsort fv) fv)) /\
  exists k, first_max gs k gb /\ nth_error ths k = Some tb.
Proof.
  intros Hr. destruct (find_best_split_Ok_cond _ _ _ Hr) as [Hle Hnc].
  destruct (find_best_split_from_ok_le _ fv tv (argsort_sorts fv) Hle Hnc)
    as (k & tb' & gb' & Hf & Hfm & Ht).
  rewrite find_best_split_argsort, Hf in Hr. injection Hr as <- <- <- <-.
  repeat split; try assumption. exists k. auto.
Qed.

(** X1: [find_best_split] returns exactly when there are at least as many
    labels as feature values and the feature vector takes two different
    values.  Otherwise it raises: [IndexError] when the labels are fewer
    than the feature values or there is no sample, [ValueError] (from
    [np.argmax] of an empty array) when the vector is constant. *)
Theorem find_best_split_returns_iff (fv : list Q) (tv : list Z) :
  ((exists r, find_best_split fv tv = Ok r) <->
   (length fv <= length tv)%nat /\ non_constant fv) /\
  ((forall r, find_best_split fv tv <> Ok r) ->
   find_best_split fv tv = Raise (split_failure fv tv)).
Proof.
  assert (Hiff : (exists r, find_best_split fv tv = Ok r) <->
                 (length fv <= length tv)%nat /\ non_constant fv).
  { split.
    - intros (r & Hr). eapply find_best_split_Ok_cond. exact Hr.
    - intros [Hle Hnc].
      destruct (find_best_split_from_ok_le _ fv tv (argsort_sorts fv) Hle Hnc)
        as (k & tb & gb & Hf & _).
      eexists. rewrite find_best_split_argsort. exact Hf. }
  split; [exact Hiff |].
  intros Hnone. apply find_best_split_failure. intros Hok. apply Hiff in Hok.
  destruct Hok as (r & Hr). exact (Hnone r Hr).
Qed.

(** ** The candidates of [find_best_split] *)

Lemma midpoints_separate (fs : list Q) :
  StronglySorted Qle fs -> Forall (separates fs) (midpoints fs).
Proof.
  intros Hs. apply Forall_forall. intros t Ht.
  apply midpoints_between; assumption.
Qed.

Lemma kept_length (fs : list Q) : (length (kept fs) <= length fs - 1)%nat.
Proof.
  unfold kept. eapply Nat.le_trans; [apply filter_length_le |].
  rewrite length_seq. lia.
Qed.

(** ** The range of the criterion *)

Lemma H_pq (p q : Q) :
  p + q == 1 -> 0 <= p -> 0 <= q ->
  0 <= 1 - p ^ 2 - q ^ 2 /\ 1 - p ^ 2 - q ^ 2 <= 1 # 2.
Proof.
  intros Hpq Hp Hq. assert (Eq : q == 1 - p) by lra.
  assert (Hp1 : p <= 1) by lra.
  assert (Hprod : 0 <= p * (1 - p)) by (apply Qmult_le_0_compat; lra).
  assert (Hsq : 0 <= (p - (1 # 2)) * (p - (1 # 2))).
  { destruct (Qlt_le_dec p (1 # 2)) as [Hlt | Hge].
    - setoid_replace ((p - (1 # 2)) * (p - (1 # 2)))
        with (((1 # 2) - p) * ((1 # 2) - p)) by ring.
      apply Qmult_le_0_compat; lra.
    - apply Qmult_le_0_compat; lra. }
  rewrite Eq. split.
  - setoid_replace (1 - p ^ 2 - (1 - p) ^ 2) with (2 * (p * (1 - p))) by ring. lra.
  - setoid_replace (1 - p ^ 2 - (1 - p) ^ 2)
      with ((1 # 2) - 2 * ((p - (1 # 2)) * (p - (1 # 2)))) by ring.
    lra.
Qed.

Lemma H_range (ys : list Z) :
  Forall binary ys -> ys <> [] -> 0 <= H ys /\ H ys <= 1 # 2.
Proof.
  intros Hb Hne. unfold H, fraction.
  pose proof (count_binary ys Hb) as Hc.
  assert (Hl : (0 < length ys)%nat) by (destruct ys; [congruence | simpl; lia]).
  set (c1 := count_occ Z.eq_dec ys 1%Z) in *.
  set (c0 := count_occ Z.eq_dec ys 0%Z) in *.
  assert (Hnz : ~ inject_Z (Z.of_nat (length ys)) == 0)
    by (apply inject_Z_nat_nonzero; exact Hl).
  assert (Hpos : 0 < inject_Z (Z.of_nat (length ys))).
  { change 0 with (inject_Z 0). rewrite <- Zlt_Qlt. lia. }
  apply H_pq.
  - assert (El : inject_Z (Z.of_nat (length ys))
                 == inject_Z (Z.of_nat c0) + inject_Z (Z.of_nat c1)).
    { rewrite <- inject_Z_plus, <- Nat2Z.inj_add, Hc. reflexivity. }
    rewrite El in Hnz |- *. field. exact Hnz.
  - apply Qle_shift_div_l; [exact Hpos |]. rewrite Qmult_0_l.
    change 0 with (inject_Z 0). rewrite <- Zle_Qle. lia.
  - apply Qle_shift_div_l; [exact Hpos |]. rewrite Qmult_0_l.
    change 0 with (inject_Z 0). rewrite <- Zle_Qle. lia.
Qed.

Lemma Q_criterion_range (left right : list Z) :
  Forall binary left -> Forall binary right -> left <> [] -> right <> [] ->
  - (1 # 2) <= Q_criterion left right /\ Q_criterion left right <= 0.
Proof.
  intros Hbl Hbr Hnl Hnr.
  destruct (H_range left Hbl Hnl) as [Hl0 Hl1].
  destruct (H_range right Hbr Hnr) as [Hr0 Hr1].
  unfold Q_criterion. cbv zeta.
  set (l := inject_Z (Z.of_nat (length left))).
  set (r := inject_Z (Z.of_nat (length right))).
  assert (Hlpos : 0 < l).
  { unfold l. change 0 with (inject_Z 0). rewrite <- Zlt_Qlt.
    destruct left; [congruence | simpl; lia]. }
  assert (Hrpos : 0 < r).
  { unfold r. change 0 with (inject_Z 0). rewrite <- Zlt_Qlt.
    destruct right; [congruence | simpl; lia]. }
  rewrite Nat2Z.inj_add, inject_Z_plus. fold l. fold r.
  set (wl := l / (l + r)). set (wr := r / (l + r)).
  assert (Hwl : 0 <= wl) by (apply Qle_shift_div_l; lra).
  assert (Hwr : 0 <= wr) by (apply Qle_shift_div_l; lra).
  assert (Hsum : wl + wr == 1) by (unfold wl, wr; field; lra).
  assert (A1 : 0 <= wl * H left) by (apply Qmult_le_0_compat; assumption).
  assert (A2 : 0 <= wr * H right) by (apply Qmult_le_0_compat; assumption).
  assert (B1 : 0 <= wl * ((1 # 2) - H left)) by (apply Qmult_le_0_compat; lra).
  assert (B2 : 0 <= wr * ((1 # 2) - H right)) by (apply Qmult_le_0_compat; lra).
  split; lra.
Qed.

(** ** The criterion of a threshold and the mask it defines *)

Lemma Permutation_filter' {A : Type} (p : A -> bool) (l l' : list A) :
  Permutation l l' -> Permutation (filter p l) (filter p l').
Proof.
  induction 1 as [| x l l' _ IH | x y l | l1 l2 l3 _ IH1 _ IH2]; simpl.
  - constructor.
  - destruct (p x); [apply perm_skip |]; exact IH.
  - destruct (p x), (p y); try apply Permutation_refl. apply perm_swap.
  - eapply perm_trans; eassumption.
Qed.

Lemma filter_none {A : Type} (p : A -> bool) (l : list A) :
  (forall a, In a l -> p a = false) -> filter p l = [].
Proof.
  induction l as [| a l IH]; intros Hall; simpl; [reflexivity |].
  rewrite (Hall a (or_introl eq_refl)). apply IH.
  intros b Hb. apply Hall. right. exact Hb.
Qed.

Lemma filter_all {A : Type} (p : A -> bool) (l : list A) :
  (forall a, In a l -> p a = true) -> filter p l = l.
Proof.
  induction l as [| a l IH]; intros Hall; simpl; [reflexivity |].
  rewrite (Hall a (or_introl eq_refl)). f_equal. apply IH.
  intros b Hb. apply Hall. right. exact Hb.
Qed.

Lemma sorted_nth_error_le (l : list Q) (i j : nat) (a b : Q) :
  StronglySorted Qle l ->
  nth_error l i = Some a -> nth_error l j = Some b -> (i <= j)%nat -> a <= b.
Proof.
  intros Hs. revert i j. induction Hs as [| x l Hs IH Hall]; intros i j Hi Hj Hle.
  - destruct i; discriminate.
  - destruct i as [| i], j as [| j]; simpl in Hi, Hj; try lia.
    + injection Hi as <-. injection Hj as <-. apply Qle_refl.
    + injection Hi as <-. rewrite Forall_forall in Hall. apply Hall.
      eapply nth_error_In. exact Hj.
    + apply (IH i j); [assumption | assumption | lia].
Qed.

Lemma compress_filter_snd (p : Q -> bool) (fv : list Q) (tv : list Z) :
  length fv = length tv ->
  map snd (filter (fun s => p (fst s)) (combine fv tv)) = np.compress tv (map p fv).
Proof.
  revert tv. induction fv as [| x fv IH]; intros [| t tv] Hl; simpl in *;
    try discriminate; [reflexivity |].
  destruct (p x); simpl; [f_equal |]; apply IH; lia.
Qed.

(** At a boundary of the sorted samples, the samples before it are those
    with a feature value below the midpoint. *)
Lemma boundary_prefix (ss : list (Q * Z)) (k : nat) :
  StronglySorted Qle (map fst ss) -> In k (kept (map fst ss)) ->
  filter (fun s => Qlt_bool (fst s) (midpoint_at (map fst ss) k)) ss
    = firstn (S k) ss /\
  filter (fun s => negb (Qlt_bool (fst s) (midpoint_at (map fst ss) k))) ss
    = skipn (S k) ss.
Proof.
  intros Hs Hk.
  pose proof (kept_lt _ _ Hk) as Hlt. rewrite length_map in Hlt.
  unfold kept in Hk. apply filter_In in Hk. destruct Hk as [_ Hb].
  unfold boundary_at in Hb. apply negb_true_iff, Qeq_bool_false_neq in Hb.
  set (fs := map fst ss) in *.
  assert (Ek : nth_error fs k = Some (nth k fs 0))
    by (apply nth_error_nth'; unfold fs; rewrite length_map; lia).
  assert (Ek1 : nth_error fs (S k) = Some (nth (S k) fs 0))
    by (apply nth_error_nth'; unfold fs; rewrite length_map; lia).
  assert (Hle : nth k fs 0 <= nth (S k) fs 0)
    by (apply (sorted_nth_error_le fs k (S k)); auto).
  assert (Hstrict : nth k fs 0 < nth (S k) fs 0).
  { apply Qle_lt_or_eq in Hle. destruct Hle as [Hl | He]; [exact Hl |].
    exfalso. apply Hb. symmetry. exact He. }
  assert (Hm1 : nth k fs 0 < midpoint_at fs k)
    by (unfold midpoint_at; apply Qlt_shift_div_l; lra).
  assert (Hm2 : midpoint_at fs k < nth (S k) fs 0)
    by (unfold midpoint_at; apply Qlt_shift_div_r; lra).
  assert (Hfirst : forall s, In s (firstn (S k) ss) ->
                     Qlt_bool (fst s) (midpoint_at fs k) = true).
  { intros s Hin. apply In_nth_error in Hin. destruct Hin as (i & Hi).
    assert (Hik : (i < S k)%nat).
    { assert (Hl : (i < length (firstn (S k) ss))%nat)
        by (apply nth_error_Some; congruence).
      rewrite length_firstn in Hl. lia. }
    rewrite nth_error_firstn in Hi.
    destruct (Nat.ltb_spec i (S k)) as [_ | Hge]; [| lia].
    assert (Hfi : nth_error fs i = Some (fst s))
      by (unfold fs; rewrite nth_error_map, Hi; reflexivity).
    apply Qlt_bool_iff. eapply Qle_lt_trans; [| exact Hm1].
    apply (sorted_nth_error_le fs i k); auto. lia. }
  assert (Hrest : forall s, In s (skipn (S k) ss) ->
                    Qlt_bool (fst s) (midpoint_at fs k) = false).
  { intros s Hin. apply In_nth_error in Hin. destruct Hin as (i & Hi).
    rewrite nth_error_skipn in Hi.
    assert (Hfi : nth_error fs (S k + i) = Some (fst s))
      by (unfold fs; rewrite nth_error_map, Hi; reflexivity).
    apply Qlt_bool_false_iff. apply Qlt_le_weak.
    eapply Qlt_le_trans; [exact Hm2 |].
    apply (sorted_nth_error_le fs (S k) (S k + i)); auto. lia. }
  rewrite <- (firstn_skipn (S k) ss) at 1 3.
  rewrite !filter_app. split.
  - rewrite (filter_all _ _ Hfirst), (filter_none _ _ Hrest). apply app_nil_r.
  - rewrite filter_none, filter_all; [reflexivity | |].
    + intros s Hin. rewrite (Hrest s Hin). reflexivity.
    + intros s Hin. rewrite (Hfirst s Hin). reflexivity.
Qed.

Lemma Q_criterion_perm (l1 l2 r1 r2 : list Z) :
  Permutation l1 l2 -> Permutation r1 r2 ->
  Q_criterion l1 r1 = Q_criterion l2 r2.
Proof.
  intros Hl Hr. unfold Q_criterion, H, fraction.
  rewrite (Permutation_length Hl), (Permutation_length Hr).
  rewrite Permutation_count_occ in Hl, Hr.
  rewrite !(Hl 1%Z), !(Hl 0%Z), !(Hr 1%Z), !(Hr 0%Z).
  reflexivity.
Qed.

(** The two sides at a boundary, as the mask of the midpoint cuts the
    unsorted samples. *)
Lemma boundary_sides (fv : list Q) (tv : list Z) (k : nat) :
  length fv = length tv ->
  In k (kept (feat_sort (np.argsort fv) fv)) ->
  Permutation (firstn (S k) (target_sort (np.argsort fv) tv))
              (labels_left fv tv (midpoint_at (feat_sort (np.argsort fv) fv) k)) /\
  Permutation (skipn (S k) (target_sort (np.argsort fv) tv))
              (labels_right fv tv (midpoint_at (feat_sort (np.argsort fv) fv) k)).
Proof.
  intros Hlen Hk.
  pose proof (argsort_sorts fv) as Hs.
  set (ind := np.argsort fv) in *.
  pose proof (sorted_samples_perm ind fv tv Hs Hlen) as Hperm.
  pose proof (sorted_samples_fst ind fv tv) as Hfst.
  pose proof (sorted_samples_snd ind fv tv) as Hsnd.
  destruct (boundary_prefix (sorted_samples ind fv tv) k) as [Hl Hr].
  { rewrite Hfst. apply feat_sort_sorted. exact Hs. }
  { rewrite Hfst. exact Hk. }
  rewrite Hfst in Hl, Hr.
  set (t := midpoint_at (feat_sort ind fv) k) in *.
  unfold labels_left, labels_right. rewrite map_map.
  rewrite <- (compress_filter_snd (fun v => Qlt_bool v t)) by exact Hlen.
  rewrite <- (compress_filter_snd (fun v => negb (Qlt_bool v t))) by exact Hlen.
  rewrite <- Hsnd, firstn_map, skipn_map, <- Hl, <- Hr.
  split; apply Permutation_map, Permutation_filter'; exact Hperm.
Qed.

Lemma target_sort_binary_le (ind : list nat) (fv : list Q) (tv : list Z) :
  sorts ind fv -> (length fv <= length tv)%nat -> Forall binary tv ->
  Forall binary (target_sort ind tv).
Proof.
  intros Hs Hlen Hb. unfold target_sort, gather. apply Forall_map.
  apply Forall_forall. intros i Hi. apply (sorts_lt _ _ _ Hs) in Hi.
  rewrite Forall_forall in Hb. apply Hb. apply nth_In. lia.
Qed.

(** The gini value of every listed threshold is the criterion of the two
    sides of its mask. *)
Lemma ginis_of_masks (fv : list Q) (tv : list Z) :
  length fv = length tv -> Forall binary tv ->
  Forall2 (fun t g => g == Q_criterion (labels_left fv tv t) (labels_right fv tv t))
    (map (midpoint_at (feat_sort (np.argsort fv) fv))
         (kept (feat_sort (np.argsort fv) fv)))
    (map (gini_at (target_sort (np.argsort fv) tv))
         (kept (feat_sort (np.argsort fv) fv))).
Proof.
  intros Hlen Hb.
  pose proof (argsort_sorts fv) as Hs.
  assert (Hall : forall k, In k (kept (feat_sort (np.argsort fv) fv)) ->
            gini_at (target_sort (np.argsort fv) tv) k ==
            Q_criterion
              (labels_left fv tv (midpoint_at (feat_sort (np.argsort fv) fv) k))
              (labels_right fv tv (midpoint_at (feat_sort (np.argsort fv) fv) k))).
  { intros k Hk.
    destruct (boundary_sides fv tv k Hlen Hk) as [Pl Pr].
    rewrite <- (Q_criterion_perm _ _ _ _ Pl Pr).
    apply gini_at_criterion.
    - apply (target_sort_binary_le _ fv); [exact Hs | lia | exact Hb].
    - apply kept_lt in Hk. rewrite (feat_sort_length _ _ Hs) in Hk.
      rewrite (target_sort_length _ _ tv Hs). exact Hk. }
  induction (kept (feat_sort (np.argsort fv) fv)) as [| k ks IH]; simpl; constructor.
  - apply Hall. left. reflexivity.
  - apply IH. intros k' Hk'. apply Hall. right. exact Hk'.
Qed.

Lemma mask_sides_nonempty (fv : list Q) (tv : list Z) (t : Q) :
  length fv = length tv -> separates fv t ->
  labels_left fv tv t <> [] /\ labels_right fv tv t <> [].
Proof.
  intros Hlen Hsep. destruct (threshold_mask_proper fv t Hsep) as (Hm & Ht & Hf).
  unfold labels_left, labels_right. split; intros E.
  - assert (Hl : length tv = length (map (fun v => Qlt_bool v t) fv))
      by (rewrite length_map; symmetry; exact Hlen).
    pose proof (compress_length_pos tv _ Hl Ht) as Hp.
    rewrite E in Hp. simpl in Hp. lia.
  - assert (Ht' : In true (map negb (map (fun v => Qlt_bool v t) fv)))
      by (apply in_map_negb; exact Hf).
    assert (Hl : length tv = length (map negb (map (fun v => Qlt_bool v t) fv)))
      by (rewrite !length_map; symmetry; exact Hlen).
    pose proof (compress_length_pos tv _ Hl Ht') as Hp.
    rewrite E in Hp. simpl in Hp. lia.
Qed.

Lemma compress_binary (tv : list Z) (mask : list bool) :
  Forall binary tv -> Forall binary (np.compress tv mask).
Proof. apply Forall_compress. Qed.

(** X4: on binary labels as many as the feature values, every gini value
    [find_best_split] returns lies between -1/2 and 0. *)
Theorem find_best_split_gini_range (fv : list Q) (tv : list Z)
    (ths gs : list Q) (tb gb : Q) :
  find_best_split fv tv = Ok (ths, gs, tb, gb) ->
  length fv = length tv -> Forall binary tv ->
  Forall (fun g => - (1 # 2) <= g /\ g <= 0) gs /\
  - (1 # 2) <= gb /\ gb <= 0.
Proof.
  intros Hr Hlen Hb.
  destruct (find_best_split_Ok_inv _ _ _ _ _ _ Hr)
    as (_ & Hnc & Eths & Egs & k & (Hk & _) & Ht).
  pose proof (argsort_sorts fv) as Hs.
  assert (Hsep : Forall (separates fv) ths).
  { rewrite Eths.
    eapply Forall_impl; [| apply midpoints_separate, feat_sort_sorted; exact Hs].
    intros t (a & b & Ha & Hb' & H1 & H2). exists a, b.
    repeat split; try assumption;
      eapply Permutation_in; try eassumption; apply feat_sort_perm; exact Hs. }
  pose proof (ginis_of_masks fv tv Hlen Hb) as HF.
  rewrite midpoints_kept, <- Eths, <- Egs in HF.
  assert (Hall : Forall (fun g => - (1 # 2) <= g /\ g <= 0) gs).
  { clear Hk Ht Hr Eths Egs. induction HF as [| t g ths gs Hg _ IH]; constructor.
    - inversion Hsep as [| ? ? Hsept _]; subst.
      destruct (mask_sides_nonempty fv tv t Hlen Hsept) as [Hl Hr].
      destruct (Q_criterion_range (labels_left fv tv t) (labels_right fv tv t))
        as [H1 H2]; try assumption; try (apply compress_binary; exact Hb).
      rewrite Hg. split; assumption.
    - apply IH. inversion Hsep; assumption. }
  split; [exact Hall |].
  rewrite Forall_forall in Hall. apply Hall. eapply nth_error_In. exact Hk.
Qed.

Lemma find_best_split_gini_range_witness :
  Forall (fun g => - (1 # 2) <= g /\ g <= 0) [0 # 1296; -432 # 1296] /\
  - (1 # 2) <= 0 # 1296 /\ 0 # 1296 <= 0.
Proof.
  apply (find_best_split_gini_range [3; 1; 2; 2] [1; 0; 1; 1]%Z
           [3 # 2; 5 # 2] _ (3 # 2)).
  - reflexivity.
  - reflexivity.
  - repeat constructor; unfold binary; lia.
Defined.

Lemma pure_binary_counts (ys : list Z) :
  Forall binary ys ->
  (pure ys <-> count_occ Z.eq_dec ys 1%Z = 0%nat \/ count_occ Z.eq_dec ys 0%Z = 0%nat).
Proof.
  intros Hb. rewrite Forall_forall in Hb. split.
  - intros Hp.
    destruct ys as [| y ys]; [left; reflexivity |].
    destruct (Hb y (or_introl eq_refl)) as [-> | ->].
    + left. apply count_occ_not_In. intros Hin.
      specialize (Hp 0%Z 1%Z (or_introl eq_refl) Hin). discriminate.
    + right. apply count_occ_not_In. intros Hin.
      specialize (Hp 1%Z 0%Z (or_introl eq_refl) Hin). discriminate.
  - intros [E | E] a b Ha Hb'.
    + rewrite <- count_occ_not_In in E.
      destruct (Hb a Ha) as [-> | ->], (Hb b Hb') as [-> | ->];
        try reflexivity; contradiction.
    + rewrite <- count_occ_not_In in E.
      destruct (Hb a Ha) as [-> | ->], (Hb b Hb') as [-> | ->];
        try reflexivity; contradiction.
Qed.

Lemma H_zero_iff_pure (ys : list Z) :
  Forall binary ys -> ys <> [] -> (H ys == 0 <-> pure ys).
Proof.
  intros Hb Hne. rewrite (pure_binary_counts ys Hb).
  pose proof (count_binary ys Hb) as Hc.
  assert (Hl : (0 < length ys)%nat) by (destruct ys; [congruence | simpl; lia]).
  unfold H, fraction.
  set (c1 := count_occ Z.eq_dec ys 1%Z) in *.
  set (c0 := count_occ Z.eq_dec ys 0%Z) in *.
  assert (El : inject_Z (Z.of_nat (length ys))
               == inject_Z (Z.of_nat c0) + inject_Z (Z.of_nat c1)).
  { rewrite <- inject_Z_plus, <- Nat2Z.inj_add, Hc. reflexivity. }
  assert (Hnz : ~ inject_Z (Z.of_nat c0) + inject_Z (Z.of_nat c1) == 0).
  { rewrite <- El. apply inject_Z_nat_nonzero. exact Hl. }
  assert (E : 1 - (inject_Z (Z.of_nat c1) / inject_Z (Z.of_nat (length ys))) ^ 2
                - (inject_Z (Z.of_nat c0) / inject_Z (Z.of_nat (length ys))) ^ 2
              == 2 * inject_Z (Z.of_nat (c1 * c0))
                 / ((inject_Z (Z.of_nat c0) + inject_Z (Z.of_nat c1)) ^ 2)).
  { rewrite El, Nat2Z.inj_mul, inject_Z_mult. field. exact Hnz. }
  rewrite E. clear E.
  assert (Hden : 0 < (inject_Z (Z.of_nat c0) + inject_Z (Z.of_nat c1)) ^ 2).
  { assert (Hp : 0 < inject_Z (Z.of_nat c0) + inject_Z (Z.of_nat c1)).
    { rewrite <- El. change 0 with (inject_Z 0). rewrite <- Zlt_Qlt. lia. }
    simpl. apply Qmult_lt_0_compat; exact Hp. }
  split.
  - intros Hz.
    assert (Hnum : inject_Z (Z.of_nat (c1 * c0)) == 0).
    { apply Qmult_integral_l with (x := / ((inject_Z (Z.of_nat c0)
                                            + inject_Z (Z.of_nat c1)) ^ 2)).
      - intros Hinv. apply Qinv_lt_0_compat in Hden. lra.
      - unfold Qdiv in Hz. lra. }
    unfold Qeq in Hnum. simpl in Hnum.
    assert (Hm : (c1 * c0 = 0)%nat) by lia.
    apply Nat.eq_mul_0 in Hm. exact Hm.
  - intros [E | E]; rewrite E; [rewrite Nat.mul_0_l | rewrite Nat.mul_0_r];
      simpl; unfold Qdiv; rewrite Qmult_0_l; reflexivity.
Qed.

Lemma Q_criterion_zero_iff (left right : list Z) :
  Forall binary left -> Forall binary right -> left <> [] -> right <> [] ->
  (Q_criterion left right == 0 <-> pure left /\ pure right).
Proof.
  intros Hbl Hbr Hnl Hnr.
  rewrite <- (H_zero_iff_pure left Hbl Hnl), <- (H_zero_iff_pure right Hbr Hnr).
  destruct (H_range left Hbl Hnl) as [Hl0 _].
  destruct (H_range right Hbr Hnr) as [Hr0 _].
  unfold Q_criterion. cbv zeta.
  set (l := inject_Z (Z.of_nat (length left))).
  set (r := inject_Z (Z.of_nat (length right))).
  assert (Hlpos : 0 < l).
  { unfold l. change 0 with (inject_Z 0). rewrite <- Zlt_Qlt.
    destruct left; [congruence | simpl; lia]. }
  assert (Hrpos : 0 < r).
  { unfold r. change 0 with (inject_Z 0). rewrite <- Zlt_Qlt.
    destruct right; [congruence | simpl; lia]. }
  rewrite Nat2Z.inj_add, inject_Z_plus. fold l. fold r.
  set (wl := l / (l + r)). set (wr := r / (l + r)).
  assert (Hwl : 0 < wl) by (apply Qlt_shift_div_l; lra).
  assert (Hwr : 0 < wr) by (apply Qlt_shift_div_l; lra).
  assert (A1 : 0 <= wl * H left) by (apply Qmult_le_0_compat; lra).
  assert (A2 : 0 <= wr * H right) by (apply Qmult_le_0_compat; lra).
  split.
  - intros Hz.
    assert (Z1 : wl * H left == 0) by lra.
    assert (Z2 : wr * H right == 0) by lra.
    split.
    + apply Qmult_integral in Z1. destruct Z1 as [Z1 | Z1]; [lra | exact Z1].
    + apply Qmult_integral in Z2. destruct Z2 as [Z2 | Z2]; [lra | exact Z2].
  - intros [Z1 Z2]. rewrite Z1, Z2. ring.
Qed.

(** In a sorted list, the entries below a value [t] that lies above the
    entry at [k] and not above the next one are the first [S k]. *)
Lemma prefix_below (ss : list (Q * Z)) (k : nat) (t : Q) :
  StronglySorted Qle (map fst ss) -> (S k < length ss)%nat ->
  nth k (map fst ss) 0 < t -> t <= nth (S k) (map fst ss) 0 ->
  filter (fun s => Qlt_bool (fst s) t) ss = firstn (S k) ss /\
  filter (fun s => negb (Qlt_bool (fst s) t)) ss = skipn (S k) ss.
Proof.
  intros Hs Hlt Hm1 Hm2.
  set (fs := map fst ss) in *.
  assert (Ek : nth_error fs k = Some (nth k fs 0))
    by (apply nth_error_nth'; unfold fs; rewrite length_map; lia).
  assert (Ek1 : nth_error fs (S k) = Some (nth (S k) fs 0))
    by (apply nth_error_nth'; unfold fs; rewrite length_map; lia).
  assert (Hfirst : forall s, In s (firstn (S k) ss) -> Qlt_bool (fst s) t = true).
  { intros s Hin. apply In_nth_error in Hin. destruct Hin as (i & Hi).
    assert (Hik : (i < S k)%nat).
    { assert (Hl : (i < length (firstn (S k) ss))%nat)
        by (apply nth_error_Some; congruence).
      rewrite length_firstn in Hl. lia. }
    rewrite nth_error_firstn in Hi.
    destruct (Nat.ltb_spec i (S k)) as [_ | Hge]; [| lia].
    assert (Hfi : nth_error fs i = Some (fst s))
      by (unfold fs; rewrite nth_error_map, Hi; reflexivity).
    apply Qlt_bool_iff. eapply Qle_lt_trans; [| exact Hm1].
    apply (sorted_nth_error_le fs i k); auto. lia. }
  assert (Hrest : forall s, In s (skipn (S k) ss) -> Qlt_bool (fst s) t = false).
  { intros s Hin. apply In_nth_error in Hin. destruct Hin as (i & Hi).
    rewrite nth_error_skipn in Hi.
    assert (Hfi : nth_error fs (S k + i) = Some (fst s))
      by (unfold fs; rewrite nth_error_map, Hi; reflexivity).
    apply Qlt_bool_false_iff.
    eapply Qle_trans; [exact Hm2 |].
    apply (sorted_nth_error_le fs (S k) (S k + i)); auto. lia. }
  rewrite <- (firstn_skipn (S k) ss) at 1 3.
  rewrite !filter_app. split.
  - rewrite (filter_all _ _ Hfirst), (filter_none _ _ Hrest). apply app_nil_r.
  - rewrite filter_none, filter_all; [reflexivity | |].
    + intros s Hin. rewrite (Hrest s Hin). reflexivity.
    + intros s Hin. rewrite (Hfirst s Hin). reflexivity.
Qed.

Lemma sides_below (fv : list Q) (tv : list Z) (k : nat) (t : Q) :
  length fv = length tv ->
  (S k < length fv)%nat ->
  nth k (feat_sort (np.argsort fv) fv) 0 < t ->
  t <= nth (S k) (feat_sort (np.argsort fv) fv) 0 ->
  Permutation (firstn (S k) (target_sort (np.argsort fv) tv))
              (labels_left fv tv t) /\
  Permutation (skipn (S k) (target_sort (np.argsort fv) tv))
              (labels_right fv tv t).
Proof.
  intros Hlen Hk H1 H2.
  pose proof (argsort_sorts fv) as Hs.
  set (ind := np.argsort fv) in *.
  pose proof (sorted_samples_perm ind fv tv Hs Hlen) as Hperm.
  pose proof (sorted_samples_fst ind fv tv) as Hfst.
  pose proof (sorted_samples_snd ind fv tv) as Hsnd.
  destruct (prefix_below (sorted_samples ind fv tv) k t) as [Hl Hr].
  { rewrite Hfst. apply feat_sort_sorted. exact Hs. }
  { rewrite (Permutation_length Hperm), length_combine, <- Hlen. lia. }
  { rewrite Hfst. exact H1. }
  { rewrite Hfst. exact H2. }
  unfold labels_left, labels_right. rewrite map_map.
  rewrite <- (compress_filter_snd (fun v => Qlt_bool v t)) by exact Hlen.
  rewrite <- (compress_filter_snd (fun v => negb (Qlt_bool v t))) by exact Hlen.
  rewrite <- Hsnd, firstn_map, skipn_map, <- Hl, <- Hr.
  split; apply Permutation_map, Permutation_filter'; exact Hperm.
Qed.

(** In a sorted list, a value of the list that is not its least value
    begins at some place, after a smaller entry. *)
Lemma sorted_cut_position (fs : list Q) (c : Q) :
  StronglySorted Qle fs -> In c fs -> (exists a, In a fs /\ a < c) ->
  exists k, (S k < length fs)%nat /\ nth k fs 0 < c /\ c <= nth (S k) fs 0.
Proof.
  induction 1 as [| x r Hs IH Hall]; intros Hc (a & Ha & Hac); [destruct Hc |].
  rewrite Forall_forall in Hall.
  assert (Hxc : x < c).
  { destruct Ha as [<- | Ha]; [exact Hac |].
    eapply Qle_lt_trans; [apply Hall; exact Ha | exact Hac]. }
  assert (Hcr : In c r).
  { destruct Hc as [<- | Hc]; [| exact Hc]. exfalso. eapply Qlt_irrefl. exact Hxc. }
  destruct r as [| y r']; [destruct Hcr |].
  destruct (Qlt_le_dec y c) as [Hyc | Hcy].
  - destruct (IH Hcr) as (k & Hk & H1 & H2).
    { exists y. split; [left; reflexivity | exact Hyc]. }
    exists (S k). simpl in *. repeat split; try assumption. lia.
  - exists 0%nat. simpl. repeat split; try assumption. lia.
Qed.

Lemma pure_perm (u v : list Z) : Permutation u v -> pure u -> pure v.
Proof.
  intros Hp Hu a b Ha Hb.
  apply Hu; eapply Permutation_in; try eassumption; apply Permutation_sym, Hp.
Qed.

(** X5: on binary labels as many as the feature values, the best gini is
    0 exactly when some value of the feature vector separates the
    classes: there are samples below it, they have one label, and the
    samples not below it have one label. *)
Theorem find_best_split_perfect_iff (fv : list Q) (tv : list Z)
    (ths gs : list Q) (tb gb : Q) :
  find_best_split fv tv = Ok (ths, gs, tb, gb) ->
  length fv = length tv -> Forall binary tv ->
  (gb == 0 <->
   exists c, In c fv /\ (exists a, In a fv /\ a < c) /\
             pure (labels_left fv tv c) /\ pure (labels_right fv tv c)).
Proof.
  intros Hr Hlen Hb.
  destruct (find_best_split_Ok_inv _ _ _ _ _ _ Hr)
    as (_ & _ & Eths & Egs & kb & (Hkb & Hmax & _) & Ht).
  pose proof (argsort_sorts fv) as Hs.
  set (fs := feat_sort (np.argsort fv) fv) in *.
  set (ts := target_sort (np.argsort fv) tv) in *.
  assert (Lfs : length fs = length fv) by (apply feat_sort_length; exact Hs).
  assert (Lts : length ts = length fv) by (apply target_sort_length; exact Hs).
  assert (Hbts : Forall binary ts)
    by (apply (target_sort_binary_le _ fv); [exact Hs | lia | exact Hb]).
  assert (Hcrit : forall k, (S k < length fv)%nat ->
            gini_at ts k == Q_criterion (firstn (S k) ts) (skipn (S k) ts)).
  { intros k Hk. apply gini_at_criterion; [exact Hbts | lia]. }
  assert (Hparts : forall k, (S k < length fv)%nat ->
            Forall binary (firstn (S k) ts) /\ Forall binary (skipn (S k) ts) /\
            firstn (S k) ts <> [] /\ skipn (S k) ts <> []).
  { intros k Hk. repeat split.
    - rewrite Forall_forall in *. intros z Hz. apply Hbts.
      rewrite <- (firstn_skipn (S k) ts). apply in_or_app. left. exact Hz.
    - rewrite Forall_forall in *. intros z Hz. apply Hbts.
      rewrite <- (firstn_skipn (S k) ts). apply in_or_app. right. exact Hz.
    - intros E. assert (L : length (firstn (S k) ts) = 0%nat)
        by (rewrite E; reflexivity).
      rewrite length_firstn in L. lia.
    - intros E. assert (L : length (skipn (S k) ts) = 0%nat)
        by (rewrite E; reflexivity).
      rewrite length_skipn in L. lia. }
  assert (Hkept : forall k, In k (kept fs) -> (S k < length fv)%nat).
  { intros k Hk. apply kept_lt in Hk. lia. }
  assert (Hbest : exists k, In k (kept fs) /\ gb = gini_at ts k).
  { rewrite Egs in Hkb. rewrite nth_error_map in Hkb.
    destruct (nth_error (kept fs) kb) as [k |] eqn:Ek; [| discriminate].
    injection Hkb as <-. exists k. split; [eapply nth_error_In; exact Ek |].
    reflexivity. }
  destruct Hbest as (k & Hk & Egb).
  split.
  - intros Hz.
    pose proof (Hkept k Hk) as Hlt.
    destruct (Hparts k Hlt) as (B1 & B2 & N1 & N2).
    rewrite Egb, (Hcrit k Hlt) in Hz.
    apply (Q_criterion_zero_iff _ _ B1 B2 N1 N2) in Hz. destruct Hz as [P1 P2].
    unfold kept in Hk. apply filter_In in Hk. destruct Hk as [_ Hbd].
    unfold boundary_at in Hbd. apply negb_true_iff, Qeq_bool_false_neq in Hbd.
    assert (Ek : nth_error fs k = Some (nth k fs 0))
      by (apply nth_error_nth'; lia).
    assert (Ek1 : nth_error fs (S k) = Some (nth (S k) fs 0))
      by (apply nth_error_nth'; lia).
    assert (Hle : nth k fs 0 <= nth (S k) fs 0).
    { apply (sorted_nth_error_le fs k (S k)); auto.
      apply feat_sort_sorted. exact Hs. }
    assert (Hstrict : nth k fs 0 < nth (S k) fs 0).
    { apply Qle_lt_or_eq in Hle. destruct Hle as [Hl | He]; [exact Hl |].
      exfalso. apply Hbd. symmetry. exact He. }
    destruct (sides_below fv tv k (nth (S k) fs 0) Hlen Hlt Hstrict
                (Qle_refl _)) as [Pl Pr].
    exists (nth (S k) fs 0). split.
    { eapply Permutation_in; [apply feat_sort_perm; exact Hs |].
      eapply nth_error_In. exact Ek1. }
    split.
    { exists (nth k fs 0). split; [| exact Hstrict].
      eapply Permutation_in; [apply feat_sort_perm; exact Hs |].
      eapply nth_error_In. exact Ek. }
    split; [exact (pure_perm _ _ Pl P1) | exact (pure_perm _ _ Pr P2)].
  - intros (c & Hc & (a & Ha & Hac) & P1 & P2).
    assert (Hfs : forall x, In x fv -> In x fs).
    { intros x Hx. eapply Permutation_in; [| exact Hx].
      apply Permutation_sym, feat_sort_perm. exact Hs. }
    destruct (sorted_cut_position fs c (feat_sort_sorted _ _ Hs) (Hfs c Hc))
      as (j & Hj & H1 & H2).
    { exists a. split; [apply Hfs; exact Ha | exact Hac]. }
    assert (Hjlt : (S j < length fv)%nat) by lia.
    destruct (sides_below fv tv j c Hlen Hjlt H1 H2) as [Pl Pr].
    destruct (Hparts j Hjlt) as (B1 & B2 & N1 & N2).
    assert (Hzero : gini_at ts j == 0).
    { rewrite (Hcrit j Hjlt).
      apply (Q_criterion_zero_iff _ _ B1 B2 N1 N2). split.
      - exact (pure_perm _ _ (Permutation_sym Pl) P1).
      - exact (pure_perm _ _ (Permutation_sym Pr) P2). }
    assert (Hjk : In j (kept fs)).
    { unfold kept. apply filter_In. split; [apply in_seq; lia |].
      unfold boundary_at. apply negb_true_iff.
      destruct (Qeq_bool (nth (S j) fs 0) (nth j fs 0)) eqn:E; [| reflexivity].
      apply Qeq_bool_iff in E. exfalso.
      apply (Qlt_irrefl c). eapply Qle_lt_trans; [exact H2 |].
      rewrite E. exact H1. }
    assert (Hge : 0 <= gb).
    { apply In_nth_error in Hjk. destruct Hjk as (i & Hi).
      rewrite <- Hzero. apply (Hmax i).
      rewrite Egs, nth_error_map, Hi. reflexivity. }
    assert (Hle : gb <= 0).
    { pose proof (Hkept k Hk) as Hlt.
      destruct (Hparts k Hlt) as (D1 & D2 & M1 & M2).
      rewrite Egb, (Hcrit k Hlt).
      apply (Q_criterion_range _ _ D1 D2 M1 M2). }
    apply Qle_antisym; assumption.
Qed.

Lemma find_best_split_perfect_iff_witness :
  0 # 1296 == 0 <->
  exists c, In c [3; 1; 2; 2] /\ (exists a, In a [3; 1; 2; 2] /\ a < c) /\
            pure (labels_left [3; 1; 2; 2] [1; 0; 1; 1]%Z c) /\
            pure (labels_right [3; 1; 2; 2] [1; 0; 1; 1]%Z c).
Proof.
  apply (find_best_split_perfect_iff [3; 1; 2; 2] [1; 0; 1; 1]%Z
           [3 # 2; 5 # 2] [0 # 1296; -432 # 1296] (3 # 2)).
  - reflexivity.
  - reflexivity.
  - repeat constructor; unfold binary; lia.
Defined.

(** ** The order of the samples does not matter *)

Lemma count_le_perm (x : Q) (l l' : list Q) :
  Permutation l l' ->
  length (filter (fun y => Qle_bool y x) l) = length (filter (fun y => Qle_bool y x) l').
Proof. intros Hp. apply Permutation_length, Permutation_filter'. exact Hp. Qed.

Lemma sorted_head_min (a : Q) (l : list Q) (x : Q) :
  StronglySorted Qle (a :: l) -> In x (a :: l) -> a <= x.
Proof.
  intros Hs [<- | Hin]; [apply Qle_refl |].
  inversion Hs as [| ? ? _ Hall]; subst. rewrite Forall_forall in Hall. auto.
Qed.

Lemma filter_nonempty_In {A : Type} (p : A -> bool) (l : list A) :
  (0 < length (filter p l))%nat -> exists a, In a l /\ p a = true.
Proof.
  intros Hpos. destruct (filter p l) as [| a r] eqn:E; [simpl in Hpos; lia |].
  assert (Hin : In a (filter p l)) by (rewrite E; left; reflexivity).
  apply filter_In in Hin. exists a. exact Hin.
Qed.

(** Two sorted lists with the same counts below every bound are equal
    entry by entry. *)
Lemma sorted_same_counts (l1 : list Q) :
  forall l2,
    StronglySorted Qle l1 -> StronglySorted Qle l2 ->
    (forall x, length (filter (fun y => Qle_bool y x) l1)
               = length (filter (fun y => Qle_bool y x) l2)) ->
    Forall2 Qeq l1 l2.
Proof.
  induction l1 as [| a t1 IH]; intros l2 Hs1 Hs2 Hc.
  - destruct l2 as [| b t2]; [constructor |].
    specialize (Hc b). simpl in Hc.
    assert (Eb : Qle_bool b b = true) by (apply Qle_bool_iff, Qle_refl).
    rewrite Eb in Hc. discriminate.
  - destruct l2 as [| b t2].
    + specialize (Hc a). simpl in Hc.
      assert (Ea : Qle_bool a a = true) by (apply Qle_bool_iff, Qle_refl).
      rewrite Ea in Hc. discriminate.
    + assert (Hba : b <= a).
      { pose proof (Hc a) as Ha. simpl in Ha.
        assert (Ea : Qle_bool a a = true) by (apply Qle_bool_iff, Qle_refl).
        rewrite Ea in Ha.
        destruct (filter_nonempty_In (fun y => Qle_bool y a) (b :: t2))
          as (x & Hx & Hxa); [simpl in *; lia |].
        apply Qle_bool_iff in Hxa.
        eapply Qle_trans; [apply (sorted_head_min b t2 x Hs2 Hx) | exact Hxa]. }
      assert (Hab : a <= b).
      { pose proof (Hc b) as Hb. simpl in Hb.
        assert (Eb : Qle_bool b b = true) by (apply Qle_bool_iff, Qle_refl).
        rewrite Eb in Hb.
        destruct (filter_nonempty_In (fun y => Qle_bool y b) (a :: t1))
          as (x & Hx & Hxb); [simpl in *; lia |].
        apply Qle_bool_iff in Hxb.
        eapply Qle_trans; [apply (sorted_head_min a t1 x Hs1 Hx) | exact Hxb]. }
      assert (Eab : a == b) by (apply Qle_antisym; assumption).
      constructor; [exact Eab |].
      inversion Hs1; inversion Hs2; subst.
      apply IH; try assumption.
      intros x. specialize (Hc x). simpl in Hc.
      rewrite Eab in Hc. destruct (Qle_bool b x); simpl in Hc; lia.
Qed.

Lemma sorted_perm_Qeq (l1 l2 : list Q) :
  StronglySorted Qle l1 -> StronglySorted Qle l2 -> Permutation l1 l2 ->
  Forall2 Qeq l1 l2.
Proof.
  intros H1 H2 Hp. apply sorted_same_counts; try assumption.
  intros x. apply count_le_perm. exact Hp.
Qed.

Lemma midpoints_Qeq (fs fs' : list Q) :
  Forall2 Qeq fs fs' -> Forall2 Qeq (midpoints fs) (midpoints fs').
Proof.
  induction 1 as [| a a' l l' Ha Hl IH]; [constructor |].
  destruct Hl as [| b b' r r' Hb Hr]; [constructor |].
  rewrite !midpoints_cons2. rewrite <- Ha, <- Hb.
  destruct (Qeq_bool b a); [exact IH |].
  constructor; [rewrite Ha, Hb; reflexivity | exact IH].
Qed.

Lemma argmax_from_Qeq (v v' : list Q) :
  Forall2 Qeq v v' ->
  forall best best' ib i, best == best' ->
    np.argmax_from best ib i v = np.argmax_from best' ib i v'.
Proof.
  induction 1 as [| x x' v v' Hx _ IH]; intros best best' ib i Hb; simpl.
  - reflexivity.
  - rewrite <- Hb, <- Hx. destruct (Qlt_bool best x); apply IH; assumption.
Qed.

Lemma argmax_Qeq (v v' : list Q) :
  Forall2 Qeq v v' -> np.argmax v = np.argmax v'.
Proof.
  intros HF. destruct HF as [| x x' v v' Hx Hv]; [reflexivity |].
  simpl. f_equal. apply argmax_from_Qeq; assumption.
Qed.

Lemma labels_left_perm (fv fv' : list Q) (tv tv' : list Z) (t t' : Q) :
  length fv = length tv -> length fv' = length tv' ->
  Permutation (combine fv tv) (combine fv' tv') -> t == t' ->
  Permutation (labels_left fv tv t) (labels_left fv' tv' t') /\
  Permutation (labels_right fv tv t) (labels_right fv' tv' t').
Proof.
  intros Hl Hl' Hp Ht. unfold labels_left, labels_right. rewrite !map_map.
  rewrite <- (compress_filter_snd (fun v => Qlt_bool v t)) by exact Hl.
  rewrite <- (compress_filter_snd (fun v => Qlt_bool v t')) by exact Hl'.
  rewrite <- (compress_filter_snd (fun v => negb (Qlt_bool v t))) by exact Hl.
  rewrite <- (compress_filter_snd (fun v => negb (Qlt_bool v t'))) by exact Hl'.
  rewrite (filter_ext (fun s : Q * Z => Qlt_bool (fst s) t')
                      (fun s => Qlt_bool (fst s) t))
    by (intros s; rewrite Ht; reflexivity).
  rewrite (filter_ext (fun s : Q * Z => negb (Qlt_bool (fst s) t'))
                      (fun s => negb (Qlt_bool (fst s) t)))
    by (intros s; rewrite Ht; reflexivity).
  split; apply Permutation_map, Permutation_filter'; exact Hp.
Qed.

Lemma ginis_Qeq (fv fv' : list Q) (tv tv' : list Z) (ths ths' gs gs' : list Q) :
  length fv = length tv -> length fv' = length tv' ->
  Permutation (combine fv tv) (combine fv' tv') ->
  Forall2 Qeq ths ths' ->
  Forall2 (fun t g => g == Q_criterion (labels_left fv tv t) (labels_right fv tv t))
          ths gs ->
  Forall2 (fun t g => g == Q_criterion (labels_left fv' tv' t) (labels_right fv' tv' t))
          ths' gs' ->
  Forall2 Qeq gs gs'.
Proof.
  intros Hl Hl' Hp Hths. revert gs gs'.
  induction Hths as [| t t' ths ths' Ht _ IH]; intros gs gs' H1 H2.
  - inversion H1; inversion H2; subst. constructor.
  - inversion H1 as [| ? g ? gs0 Hg Hrest]; subst.
    inversion H2 as [| ? g' ? gs0' Hg' Hrest']; subst.
    constructor; [| apply IH; assumption].
    destruct (labels_left_perm fv fv' tv tv' t t' Hl Hl' Hp Ht) as [Pl Pr].
    rewrite Hg, Hg', (Q_criterion_perm _ _ _ _ Pl Pr). reflexivity.
Qed.

Lemma Forall2_Qeq_nth_error (u v : list Q) (k : nat) (a : Q) :
  Forall2 Qeq u v -> nth_error u k = Some a ->
  exists b, nth_error v k = Some b /\ a == b.
Proof.
  intros HF. revert k. induction HF as [| x y u v Hxy _ IH]; intros k Hk.
  - destruct k; discriminate.
  - destruct k as [| k]; simpl in Hk |- *.
    + injection Hk as <-. exists y. auto.
    + apply IH. exact Hk.
Qed.

Lemma first_max_Qeq_unique (w w' : list Q) (k k' : nat) (m m' : Q) :
  Forall2 Qeq w w' -> first_max w k m -> first_max w' k' m' -> k' = k.
Proof.
  intros HF (Hk & Hmax & Hlt) (Hk' & Hmax' & Hlt').
  destruct (Forall2_Qeq_nth_error _ _ _ _ HF Hk) as (x & Hx & Ex).
  assert (HF' : Forall2 Qeq w' w).
  { clear -HF. induction HF; constructor; [symmetry |]; assumption. }
  destruct (Forall2_Qeq_nth_error _ _ _ _ HF' Hk') as (x' & Hx' & Ex').
  destruct (Nat.lt_trichotomy k' k) as [Hc | [Hc | Hc]]; [| exact Hc |].
  - pose proof (Hlt _ _ Hc Hx') as H1. pose proof (Hmax' _ _ Hx) as H2. lra.
  - pose proof (Hlt' _ _ Hc Hx) as H1. pose proof (Hmax _ _ Hx') as H2. lra.
Qed.

(** X6: [find_best_split] does not depend on the order in which the
    samples are given.  If a second pair of vectors holds the same
    samples (feature value with label) in another order, and the search
    returns on the first, it returns on the second, with thresholds, gini
    values, best threshold and best gini equal entry by entry. *)
Theorem find_best_split_sample_order (fv fv' : list Q) (tv tv' : list Z)
    (ths gs : list Q) (tb gb : Q) :
  length fv = length tv -> length fv' = length tv' ->
  Permutation (combine fv tv) (combine fv' tv') ->
  Forall binary tv ->
  find_best_split fv tv = Ok (ths, gs, tb, gb) ->
  exists ths' gs' tb' gb',
    find_best_split fv' tv' = Ok (ths', gs', tb', gb') /\
    Forall2 Qeq ths ths' /\ Forall2 Qeq gs gs' /\ tb == tb' /\ gb == gb'.
Proof.
  intros Hl Hl' Hp Hb Hr.
  assert (Hpf : Permutation fv fv').
  { rewrite <- (map_fst_combine fv tv Hl), <- (map_fst_combine fv' tv' Hl').
    apply Permutation_map. exact Hp. }
  assert (Hpt : Permutation tv tv').
  { rewrite <- (map_snd_combine fv tv Hl), <- (map_snd_combine fv' tv' Hl').
    apply Permutation_map. exact Hp. }
  assert (Hb' : Forall binary tv') by (eapply Permutation_Forall; eassumption).
  destruct (find_best_split_Ok_inv _ _ _ _ _ _ Hr)
    as (_ & Hnc & Eths & Egs & k & Hfm & Ht).
  assert (Hnc' : non_constant fv') by (eapply non_constant_perm; eassumption).
  pose proof (argsort_sorts fv) as Hs. pose proof (argsort_sorts fv') as Hs'.
  destruct (find_best_split_from_ok_le _ fv' tv' Hs' ltac:(lia) Hnc')
    as (k' & tb' & gb' & Hf' & Hfm' & Ht').
  rewrite <- find_best_split_argsort in Hf'.
  set (ths' := midpoints (feat_sort (np.argsort fv') fv')) in *.
  set (gs' := map (gini_at (target_sort (np.argsort fv') tv'))
                  (kept (feat_sort (np.argsort fv') fv'))) in *.
  assert (Hths : Forall2 Qeq ths ths').
  { rewrite Eths. unfold ths'. apply midpoints_Qeq, sorted_perm_Qeq.
    - apply feat_sort_sorted. exact Hs.
    - apply feat_sort_sorted. exact Hs'.
    - eapply perm_trans; [apply feat_sort_perm; exact Hs |].
      eapply perm_trans; [exact Hpf |].
      apply Permutation_sym, feat_sort_perm. exact Hs'. }
  assert (Hgs : Forall2 Qeq gs gs').
  { apply (ginis_Qeq fv fv' tv tv' ths ths'); try assumption.
    - pose proof (ginis_of_masks fv tv Hl Hb) as HF.
      rewrite midpoints_kept, <- Eths, <- Egs in HF. exact HF.
    - pose proof (ginis_of_masks fv' tv' Hl' Hb') as HF.
      rewrite midpoints_kept in HF. exact HF. }
  assert (Ek : k' = k).
  { eapply first_max_Qeq_unique; [exact Hgs | | ]; eassumption. }
  subst k'.
  exists ths', gs', tb', gb'. split; [exact Hf' |].
  split; [exact Hths |]. split; [exact Hgs |].
  destruct (Forall2_Qeq_nth_error _ _ _ _ Hths Ht) as (t2 & Ht2 & Et).
  destruct (Forall2_Qeq_nth_error _ _ _ _ Hgs (proj1 Hfm)) as (g2 & Hg2 & Eg).
  rewrite Ht' in Ht2. rewrite (proj1 Hfm') in Hg2.
  injection Ht2 as <-. injection Hg2 as <-. auto.
Qed.

Lemma find_best_split_sample_order_witness :
  exists (ths' gs' : list Q) (tb' gb' : Q),
    find_best_split [3; 1; 2; 2] [1; 0; 1; 1]%Z = Ok (ths', gs', tb', gb') /\
    Forall2 Qeq [3 # 2; 5 # 2] ths' /\
    Forall2 Qeq [0 # 1296; -432 # 1296] gs' /\
    3 # 2 == tb' /\ 0 # 1296 == gb'.
Proof.
  apply (find_best_split_sample_order [1; 2; 2; 3] [3; 1; 2; 2]
           [0; 1; 1; 1]%Z [1; 0; 1; 1]%Z).
  - reflexivity.
  - reflexivity.
  - simpl. apply perm_trans with ((1, 0%Z) :: (3, 1%Z) :: (2, 1%Z) :: [(2, 1%Z)]).
    + apply perm_skip.
      apply perm_trans with ((2, 1%Z) :: (3, 1%Z) :: [(2, 1%Z)]).
      * apply perm_skip. apply perm_swap.
      * apply perm_swap.
    + apply perm_swap.
  - repeat constructor; unfold binary; lia.
  - reflexivity.
Defined.

(* ===================================================================== *)
(** ** Runs of [_fit_node] that return a node *)

Lemma fit_Ok_run (self fitted : DecisionTree) (X : ndarray2) (y : list Z) :
  fit self X y = Some (Ok fitted) ->
  exists nd st',
    _fit_node (S (length y)) self X y {| depth_counter := depth self; calls := [] |}
      = Some (Ok nd, st') /\
    fitted = set_fitted self nd (depth_counter st').
Proof.
  unfold fit, fit_traced. intros Hfit.
  destruct (_fit_node (S (length y)) self X y
              {| depth_counter := depth self; calls := [] |})
    as [[[nd | e] st'] |] eqn:Hrun; simpl in Hfit; try discriminate.
  injection Hfit as <-. exists nd, st'. split; reflexivity.
Qed.

Lemma item0_nonempty {A : Type} (v : list A) (a : A) :
  np.item v 0 = Ok a -> v <> [].
Proof. intros E Hv. subst v. discriminate. Qed.

Lemma scan_depth (self : DecisionTree) (sub_X : ndarray2) (sub_y : list Z)
    (st st' : fit_state) (r : result (option best)) :
  scan self sub_X sub_y (seq 0 (shape1 sub_X)) None st = Some (r, st') ->
  depth_counter st' = depth_counter st.
Proof.
  intros Hrun.
  destruct (scan_returns self sub_X sub_y (seq 0 (shape1 sub_X)) None st)
    as (r0 & st0 & Hrun0 & _ & Hd & _).
  - intros f Hf. apply in_seq in Hf. lia.
  - intros b Hb. discriminate.
  - rewrite Hrun in Hrun0. injection Hrun0 as <- <-. exact Hd.
Qed.

Section FitInduction.

Variable self : DecisionTree.
Variable P : ndarray2 -> list Z -> fit_state -> node -> fit_state -> Prop.

Hypothesis P_pure : forall X y st y0,
  np.item y 0 = Ok y0 -> forallb (fun v => Z.eqb v y0) y = true ->
  P X y st (Terminal y0) st.

Hypothesis P_size : forall X y st c,
  y <> [] -> (Z.of_nat (length y) <= min_samples_split self)%Z ->
  most_common1 Z.eqb y = Ok c ->
  P X y st (Terminal c) st.

Hypothesis P_none : forall X y st st1 c,
  y <> [] -> (min_samples_split self < Z.of_nat (length y))%Z ->
  scan self X y (seq 0 (shape1 X)) None st = Some (Ok None, st1) ->
  most_common1 Z.eqb y = Ok c ->
  P X y st (Terminal c) st1.

Hypothesis P_split : forall X y st b st1 L st2 R st3,
  y <> [] -> (min_samples_split self < Z.of_nat (length y))%Z ->
  scan self X y (seq 0 (shape1 X)) None st = Some (Ok (Some b), st1) ->
  length (rows X) = length (split b) -> length y = length (split b) ->
  P (rows_under X (split b)) (np.compress y (split b))
    {| depth_counter := depth_counter st1 + 1; calls := calls st1 |} L st2 ->
  P (rows_under X (map negb (split b))) (np.compress y (map negb (split b)))
    st2 R st3 ->
  P X y st (Nonterminal (feature_best b) (threshold_best b) L R) st3.

Lemma fit_node_Ok_ind (fuel : nat) :
  forall X y st nd st',
    _fit_node fuel self X y st = Some (Ok nd, st') -> P X y st nd st'.
Proof.
  induction fuel as [| fuel IH]; intros X y st nd st' Hrun; [discriminate |].
  rewrite _fit_node_S in Hrun.
  apply mbind_Ok_inv in Hrun. destruct Hrun as (y0 & s0 & Hy0 & Hrun).
  apply lift_Ok_inv in Hy0. destruct Hy0 as [Hy0 ->].
  pose proof (item0_nonempty _ _ Hy0) as Hne.
  destruct (forallb (fun v => Z.eqb v y0) y) eqn:Hall.
  { injection Hrun as <- <-. apply P_pure; assumption. }
  destruct (Z.of_nat (length y) <=? min_samples_split self)%Z eqn:Hsz.
  { apply mbind_Ok_inv in Hrun. destruct Hrun as (c & s1 & Hc & Hrun).
    apply lift_Ok_inv in Hc. destruct Hc as [Hc ->].
    injection Hrun as <- <-. apply P_size; try assumption. lia. }
  assert (Hgt : (min_samples_split self < Z.of_nat (length y))%Z) by lia.
  apply mbind_Ok_inv in Hrun. destruct Hrun as (found & st1 & Hscan & Hrun).
  destruct found as [b |].
  2: { apply mbind_Ok_inv in Hrun. destruct Hrun as (c & s1 & Hc & Hrun).
       apply lift_Ok_inv in Hc. destruct Hc as [Hc ->].
       injection Hrun as <- <-. eapply P_none; eassumption. }
  apply mbind_Ok_inv in Hrun. destruct Hrun as (ft & s1 & Hft & Hrun).
  apply lift_Ok_inv in Hft. destruct Hft as [Hft ->].
  apply mbind_Ok_inv in Hrun. destruct Hrun as (u & s1 & Hck & Hrun).
  apply lift_Ok_inv in Hck. destruct Hck as [Hck ->].
  apply mbind_Ok_inv in Hrun. destruct Hrun as (u' & s1 & Hinc & Hrun).
  injection Hinc as _ <-.
  apply mbind_Ok_inv in Hrun. destruct Hrun as (lX & s1 & HlX & Hrun).
  apply lift_Ok_inv in HlX. destruct HlX as [HlX ->].
  apply mbind_Ok_inv in Hrun. destruct Hrun as (ly & s1 & Hly & Hrun).
  apply lift_Ok_inv in Hly. destruct Hly as [Hly ->].
  apply mbind_Ok_inv in Hrun. destruct Hrun as (L & st2 & HL & Hrun).
  apply mbind_Ok_inv in Hrun. destruct Hrun as (rX & s1 & HrX & Hrun).
  apply lift_Ok_inv in HrX. destruct HrX as [HrX ->].
  apply mbind_Ok_inv in Hrun. destruct Hrun as (ry & s1 & Hry & Hrun).
  apply lift_Ok_inv in Hry. destruct Hry as [Hry ->].
  apply mbind_Ok_inv in Hrun. destruct Hrun as (R & st3 & HR & Hrun).
  injection Hrun as <- <-.
  unfold row_index in HlX, HrX.
  destruct (np.bool_index (rows X) (split b)) as [lrs | e] eqn:Elrs;
    [| discriminate].
  destruct (np.bool_index (rows X) (map negb (split b))) as [rrs | e] eqn:Errs;
    [| discriminate].
  rewrite bind_Ok in HlX, HrX. injection HlX as <-. injection HrX as <-.
  apply bool_index_Ok in Elrs, Errs, Hly, Hry.
  destruct Elrs as [Hlx ->]. destruct Errs as [_ ->].
  destruct Hly as [Hlyl ->]. destruct Hry as [_ ->].
  eapply P_split; try eassumption.
  - apply IH. exact HL.
  - apply IH. exact HR.
Qed.

End FitInduction.

(** ** The depth counter and the size of the tree *)

Lemma fit_node_depth (self : DecisionTree) (fuel : nat) :
  forall X y st nd st',
    _fit_node fuel self X y st = Some (Ok nd, st') ->
    depth_counter st' = (depth_counter st + Z.of_nat (splits nd))%Z.
Proof.
  apply (fit_node_Ok_ind self
           (fun _ _ st nd st' =>
              depth_counter st' = (depth_counter st + Z.of_nat (splits nd))%Z)).
  - intros. simpl. lia.
  - intros. simpl. lia.
  - intros X y st st1 c _ _ Hscan _. simpl.
    rewrite (scan_depth _ _ _ _ _ _ Hscan). lia.
  - intros X y st b st1 L st2 R st3 _ _ Hscan _ _ HL HR. simpl in *.
    rewrite HR, HL, (scan_depth _ _ _ _ _ _ Hscan). lia.
Qed.

(** X7: [self.depth] is not the depth of the tree.  After [fit] it is its
    value before the call plus the number of nonterminal nodes of the tree
    built: line 137 adds one per split, and nothing resets the counter. *)
Theorem fit_depth_counts_splits (self fitted : DecisionTree) (X : ndarray2)
    (y : list Z) :
  fit self X y = Some (Ok fitted) ->
  depth fitted = (depth self + Z.of_nat (splits (tree fitted)))%Z.
Proof.
  intros Hfit. destruct (fit_Ok_run _ _ _ _ Hfit) as (nd & st' & Hrun & ->).
  simpl. apply (fit_node_depth _ _ _ _ _ _ _ Hrun).
Qed.

Lemma fit_depth_counts_splits_witness :
  depth fitted4 = (depth (dt0 ["real"%string]) + Z.of_nat (splits (tree fitted4)))%Z.
Proof.
  apply (fit_depth_counts_splits (dt0 ["real"%string]) fitted4 X4 y4).
  reflexivity.
Defined.

Lemma compress_partition {A : Type} (v : list A) (mask : list bool) :
  length v = length mask ->
  (length (np.compress v mask) + length (np.compress v (map negb mask)))%nat
  = length v.
Proof.
  revert mask. induction v as [| a v IH]; intros [| m mask] Hl; simpl in *;
    try discriminate; [reflexivity |].
  injection Hl as Hl. specialize (IH mask Hl). destruct m; simpl; lia.
Qed.

Lemma fit_node_leaves (self : DecisionTree) (fuel : nat) :
  forall X y st nd st',
    _fit_node fuel self X y st = Some (Ok nd, st') ->
    length (leaf_classes nd) = S (splits nd) /\
    (length (leaf_classes nd) <= length y)%nat.
Proof.
  apply (fit_node_Ok_ind self
           (fun _ y _ nd _ =>
              length (leaf_classes nd) = S (splits nd) /\
              (length (leaf_classes nd) <= length y)%nat)).
  - intros X y st y0 Hy0 _. apply item0_nonempty in Hy0.
    destruct y; [congruence |]. simpl. split; lia.
  - intros X y st c Hne _ _. destruct y; [congruence |]. simpl. split; lia.
  - intros X y st st1 c Hne _ _ _. destruct y; [congruence |]. simpl. split; lia.
  - intros X y st b st1 L st2 R st3 _ _ _ _ Hly [HL1 HL2] [HR1 HR2]. simpl.
    rewrite length_app. pose proof (compress_partition y (split b) Hly).
    split; lia.
Qed.

(** X8: the tree [fit] builds has one leaf more than it has splits and at
    most as many leaves as there are training samples, so one call of
    [fit] raises [self.depth] by less than the number of samples. *)
Theorem fit_tree_size (self fitted : DecisionTree) (X : ndarray2) (y : list Z) :
  fit self X y = Some (Ok fitted) ->
  length (leaf_classes (tree fitted)) = S (splits (tree fitted)) /\
  (length (leaf_classes (tree fitted)) <= length y)%nat /\
  (depth self <= depth fitted < depth self + Z.of_nat (length y))%Z.
Proof.
  intros Hfit. destruct (fit_Ok_run _ _ _ _ Hfit) as (nd & st' & Hrun & ->).
  simpl. destruct (fit_node_leaves _ _ _ _ _ _ _ Hrun) as [H1 H2].
  pose proof (fit_node_depth _ _ _ _ _ _ _ Hrun) as Hd. simpl in Hd.
  repeat split; try assumption; lia.
Qed.

Lemma fit_tree_size_witness :
  length (leaf_classes (tree fitted4)) = S (splits (tree fitted4)) /\
  (length (leaf_classes (tree fitted4)) <= length y4)%nat /\
  (depth (dt0 ["real"%string]) <= depth fitted4
   < depth (dt0 ["real"%string]) + Z.of_nat (length y4))%Z.
Proof.
  apply (fit_tree_size (dt0 ["real"%string]) fitted4 X4 y4).
  reflexivity.
Defined.

(** ** The classes a tree can predict *)

Lemma in_compress_in {A : Type} (v : list A) (mask : list bool) (a : A) :
  In a (np.compress v mask) -> In a v.
Proof.
  intros Hin. apply in_compress in Hin. destruct Hin as (k & Hk & _).
  eapply nth_error_In. exact Hk.
Qed.

Lemma fit_node_leaf_classes (self : DecisionTree) (fuel : nat) :
  forall X y st nd st',
    _fit_node fuel self X y st = Some (Ok nd, st') ->
    Forall (fun c => In c y) (leaf_classes nd).
Proof.
  apply (fit_node_Ok_ind self
           (fun _ y _ nd _ => Forall (fun c => In c y) (leaf_classes nd))).
  - intros X y st y0 Hy0 _. constructor; [| constructor].
    unfold np.item in Hy0. destruct (nth_error y 0) as [a |] eqn:E;
      [| discriminate].
    injection Hy0 as <-. eapply nth_error_In. exact E.
  - intros X y st c _ _ Hc. constructor; [| constructor].
    apply most_common1_In. exact Hc.
  - intros X y st st1 c _ _ _ Hc. constructor; [| constructor].
    apply most_common1_In. exact Hc.
  - intros X y st b st1 L st2 R st3 _ _ _ _ _ HL HR. simpl.
    apply Forall_app. split.
    + eapply Forall_impl; [| exact HL]. intros c. apply in_compress_in.
    + eapply Forall_impl; [| exact HR]. intros c. apply in_compress_in.
Qed.

Lemma predict_node_leaf (self : DecisionTree) (x : list Q) (nd : node) (c : Z) :
  _predict_node self x nd = Ok c -> In c (leaf_classes nd).
Proof.
  induction nd as [| c0 | f pl l IHl r IHr]; intros Hp.
  - discriminate.
  - injection Hp as <-. left. reflexivity.
  - rewrite predict_node_goes_left in Hp.
    apply bind_Ok_inv in Hp. destruct Hp as (m & _ & Hp).
    simpl. apply in_or_app. destruct m; [left; apply IHl | right; apply IHr];
      exact Hp.
Qed.

(** X9: a fitted tree predicts training labels only.  Every class stored
    in a leaf is one of the labels [fit] was given, so whatever sample
    [predict] is asked about, each answer occurs in [y]. *)
Theorem predict_within_training_labels (self fitted : DecisionTree)
    (X X' : ndarray2) (y ps : list Z) :
  fit self X y = Some (Ok fitted) ->
  predict fitted X' = Ok ps ->
  Forall (fun p => In p y) ps.
Proof.
  intros Hfit Hp. destruct (fit_Ok_run _ _ _ _ Hfit) as (nd & st' & Hrun & ->).
  unfold predict in Hp. simpl tree in Hp.
  pose proof (fit_node_leaf_classes _ _ _ _ _ _ _ Hrun) as Hlc.
  rewrite Forall_forall in Hlc.
  apply mapM_Forall2 in Hp. induction Hp as [| x p xs ps Hx _ IH];
    constructor; [| exact IH].
  apply Hlc. eapply predict_node_leaf. exact Hx.
Qed.

Lemma predict_within_training_labels_witness :
  Forall (fun p => In p y4) [0; 1; 1]%Z.
Proof.
  apply (predict_within_training_labels (dt0 ["real"%string]) fitted4 X4
           (mk 1 [[0]; [5]; [3 # 2]]) y4).
  - reflexivity.
  - reflexivity.
Defined.

(** ** A fitted tree answers *)

Lemma payload_of_kind (ft : string) (cm : dict Q nat) (thr : Q)
    (pl : split_payload) :
  payload_of ft cm thr = Ok pl ->
  match pl with
  | Threshold _ => is_real ft = true
  | CategoriesSplit _ => is_real ft = false
  end.
Proof.
  unfold payload_of. destruct (is_real ft) eqn:Er.
  - intros E. injection E as <-. reflexivity.
  - destruct (is_categorical ft); [| discriminate].
    intros E. injection E as <-. reflexivity.
Qed.

Lemma fit_node_answers (self : DecisionTree) (fuel : nat) :
  forall X y st nd st',
    _fit_node fuel self X y st = Some (Ok nd, st') ->
    answers self (shape1 X) nd.
Proof.
  apply (fit_node_Ok_ind self (fun X _ _ nd _ => answers self (shape1 X) nd));
    try (intros; exact I).
  intros X y st b st1 L st2 R st3 _ _ Hscan _ _ HL HR.
  destruct (scan_good_best _ _ _ _ _ _ Hscan)
    as (_ & Hf & ft & cm & fv & thr & Hft & _ & _ & Hpl).
  simpl. repeat split; try assumption.
  exists ft. split; [exact Hft |]. eapply payload_of_kind. exact Hpl.
Qed.

Lemma answers_predict_node (self : DecisionTree) (n : nat) (x : list Q)
    (nd : node) :
  answers self n nd -> (n <= length x)%nat ->
  exists c, _predict_node self x nd = Ok c.
Proof.
  intros Ha Hn. induction nd as [| c | f pl l IHl r IHr].
  - destruct Ha.
  - exists c. reflexivity.
  - destruct Ha as (Hf & (ft & Hft & Hk) & Hl & Hr).
    specialize (IHl Hl). specialize (IHr Hr).
    simpl. rewrite Hft, bind_Ok.
    destruct (nth_error x f) as [v |] eqn:Ev.
    2: { apply nth_error_None in Ev. lia. }
    unfold np.item. rewrite Ev. simpl of_option. rewrite bind_Ok.
    destruct pl as [t | cs]; rewrite Hk.
    + destruct (Qlt_bool v t); assumption.
    + destruct (existsb (fun c => Qeq_bool v c) cs); assumption.
Qed.

Lemma answers_inert (self1 self2 : DecisionTree) (n : nat) (nd : node) :
  feature_types self1 = feature_types self2 ->
  answers self1 n nd -> answers self2 n nd.
Proof.
  intros E. induction nd as [| c | f pl l IHl r IHr]; simpl; try tauto.
  rewrite E. tauto.
Qed.

(** X10: once [fit] has returned, [predict] never raises on samples that
    have at least as many entries as the training data has columns: it
    gives one class per sample.  No node dictionary is left empty, and
    every nonterminal node holds the key ([threshold] or
    [categories_split]) that [_predict_node] reads for its feature type. *)
Theorem predict_after_fit (self fitted : DecisionTree) (X X' : ndarray2)
    (y : list Z) :
  fit self X y = Some (Ok fitted) ->
  Forall (fun x => (shape1 X <= length x)%nat) (rows X') ->
  exists ps, predict fitted X' = Ok ps /\ length ps = length (rows X').
Proof.
  intros Hfit Hw. destruct (fit_Ok_run _ _ _ _ Hfit) as (nd & st' & Hrun & ->).
  pose proof (fit_node_answers _ _ _ _ _ _ _ Hrun) as Ha.
  unfold predict. simpl tree.
  destruct (mapM_all_Ok
              (fun x => _predict_node (set_fitted self nd (depth_counter st')) x nd)
              (rows X')) as (ps & Hps).
  - intros x Hx. rewrite Forall_forall in Hw.
    apply (answers_predict_node _ (shape1 X)); [| apply Hw; exact Hx].
    eapply answers_inert; [| exact Ha]. reflexivity.
  - exists ps. split; [exact Hps |]. eapply mapM_Ok_length. exact Hps.
Qed.

Lemma predict_after_fit_witness :
  exists ps, predict fitted4 (mk 2 [[0; 7]; [5; 7]; [3 # 2; 7]]) = Ok ps /\
             length ps = length (rows (mk 2 [[0; 7]; [5; 7]; [3 # 2; 7]])).
Proof.
  apply (predict_after_fit (dt0 ["real"%string]) fitted4 X4
           (mk 2 [[0; 7]; [5; 7]; [3 # 2; 7]]) y4).
  - reflexivity.
  - repeat constructor.
Defined.

(** ** The choice of the feature *)

Lemma scan_feature_step (self : DecisionTree) (sub_X : ndarray2) (sub_y : list Z)
    (cur cur' : option best) (f : nat) (st st' : fit_state) :
  scan_feature self sub_X sub_y cur f st = Some (Ok cur', st') ->
  (feature_gini self sub_X sub_y f = Ok None /\ cur' = cur) \/
  exists g,
    feature_gini self sub_X sub_y f = Ok (Some g) /\
    ((improves cur g = true /\
      exists b, cur' = Some b /\ feature_best b = f /\ gini_best b = g) \/
     (improves cur g = false /\ cur' = cur)).
Proof.
  unfold scan_feature, feature_gini. intros Hrun.
  apply mbind_Ok_inv in Hrun. destruct Hrun as (ft & s & Hft & Hrun).
  apply lift_Ok_inv in Hft. destruct Hft as [Hft ->]. rewrite Hft, bind_Ok.
  apply mbind_Ok_inv in Hrun. destruct Hrun as ([cm fv] & s & Hfv & Hrun).
  apply lift_Ok_inv in Hfv. destruct Hfv as [Hfv ->]. rewrite Hfv, bind_Ok.
  apply mbind_Ok_inv in Hrun. destruct Hrun as (cst & s & Hc & Hrun).
  apply lift_Ok_inv in Hc. destruct Hc as [Hc ->]. rewrite Hc, bind_Ok.
  destruct cst.
  { injection Hrun as <- _. left. split; reflexivity. }
  apply mbind_Ok_inv in Hrun.
  destruct Hrun as ([[[ths gs] thr] g] & s & Hcall & Hrun).
  unfold call_find_best_split in Hcall. injection Hcall as Hcall _.
  rewrite Hcall, bind_Ok. right. exists g. split; [reflexivity |].
  destruct (improves cur g) eqn:Himp.
  - left. split; [reflexivity |].
    apply mbind_Ok_inv in Hrun. destruct Hrun as (pl & s' & Hpl & Hrun).
    injection Hrun as <- _. eexists. split; [reflexivity |]. split; reflexivity.
  - right. injection Hrun as <- _. split; reflexivity.
Qed.

Lemma first_best_step (self : DecisionTree) (sub_X : ndarray2) (sub_y : list Z)
    (cur cur' : option best) (k : nat) (st st' : fit_state) :
  scan_feature self sub_X sub_y cur k st = Some (Ok cur', st') ->
  first_best self sub_X sub_y k cur -> first_best self sub_X sub_y (S k) cur'.
Proof.
  intros Hrun Hinv.
  destruct (scan_feature_step _ _ _ _ _ _ _ _ Hrun)
    as [[Hg ->] | (g & Hg & [(Himp & b & -> & Hfb & Hgb) | (Himp & ->)])].
  - destruct cur as [b |]; simpl in *.
    + destruct Hinv as (Hlt & Hb & Hall). split; [lia |]. split; [exact Hb |].
      intros f g Hf Hfg.
      assert (Hc : f = k \/ (f < k)%nat) by lia. destruct Hc as [-> | Hc].
      * rewrite Hg in Hfg. discriminate.
      * apply Hall; assumption.
    + intros f Hf.
      assert (Hc : f = k \/ (f < k)%nat) by lia. destruct Hc as [-> | Hc];
        [exact Hg | apply Hinv; exact Hc].
  - simpl. rewrite Hfb, Hgb. split; [lia |]. split; [exact Hg |].
    intros f g' Hf Hfg.
    assert (Hc : f = k \/ (f < k)%nat) by lia. destruct Hc as [-> | Hc].
    + rewrite Hg in Hfg. injection Hfg as <-. split; [apply Qle_refl | lia].
    + destruct cur as [b0 |]; simpl in Hinv, Himp.
      * destruct Hinv as (_ & _ & Hall).
        destruct (Hall f g' Hc Hfg) as [Hle _].
        apply Qlt_bool_iff in Himp.
        assert (Hlt : g' < g) by (eapply Qle_lt_trans; eassumption).
        split; [apply Qlt_le_weak; exact Hlt | intros _; exact Hlt].
      * rewrite (Hinv f Hc) in Hfg. discriminate.
  - destruct cur as [b |]; simpl in Himp; [| discriminate].
    simpl in *. destruct Hinv as (Hlt & Hb & Hall).
    split; [lia |]. split; [exact Hb |].
    intros f g' Hf Hfg.
    assert (Hc : f = k \/ (f < k)%nat) by lia. destruct Hc as [-> | Hc].
    + rewrite Hg in Hfg. injection Hfg as <-.
      apply Qlt_bool_false_iff in Himp. split; [exact Himp | lia].
    + apply Hall; assumption.
Qed.

Lemma scan_first_best (self : DecisionTree) (sub_X : ndarray2) (sub_y : list Z)
    (m : nat) :
  forall k cur found st st',
    scan self sub_X sub_y (seq k m) cur st = Some (Ok found, st') ->
    first_best self sub_X sub_y k cur ->
    first_best self sub_X sub_y (k + m) found.
Proof.
  induction m as [| m IH]; intros k cur found st st' Hrun Hinv; simpl in Hrun.
  - injection Hrun as <- _. rewrite Nat.add_0_r. exact Hinv.
  - apply mbind_Ok_inv in Hrun. destruct Hrun as (cur' & st1 & Hstep & Hrun).
    replace (k + S m)%nat with (S k + m)%nat by lia.
    eapply IH; [exact Hrun |]. eapply first_best_step; eassumption.
Qed.

Lemma scan_from_None (self : DecisionTree) (sub_X : ndarray2) (sub_y : list Z)
    (found : option best) (st st' : fit_state) :
  scan self sub_X sub_y (seq 0 (shape1 sub_X)) None st = Some (Ok found, st') ->
  first_best self sub_X sub_y (shape1 sub_X) found.
Proof.
  intros Hrun.
  apply (scan_first_best _ _ _ _ 0%nat None found st st' Hrun).
  intros f Hf. lia.
Qed.

(** X11: the feature a node splits on is the first of those with the
    greatest gini.  When [_fit_node] makes a nonterminal node, the gini
    of the best split of its feature is at least that of every other
    non-constant feature of the node's samples, and greater than that of
    every feature before it: the comparison of line 110 is strict, so a
    later feature with an equal gini does not replace an earlier one. *)
Theorem fit_node_splits_on_first_best (self : DecisionTree) (fuel : nat)
    (sub_X : ndarray2) (sub_y : list Z) (st st' : fit_state)
    (feature : nat) (payload : split_payload) (left_child right_child : node) :
  _fit_node fuel self sub_X sub_y st
    = Some (Ok (Nonterminal feature payload left_child right_child), st') ->
  (feature < shape1 sub_X)%nat /\
  exists gini,
    feature_gini self sub_X sub_y feature = Ok (Some gini) /\
    forall f g, (f < shape1 sub_X)%nat ->
      feature_gini self sub_X sub_y f = Ok (Some g) ->
      g <= gini /\ ((f < feature)%nat -> g < gini).
Proof.
  revert sub_X sub_y st st' feature payload left_child right_child.
  assert (Hgen : forall X y s nd s',
            _fit_node fuel self X y s = Some (Ok nd, s') ->
            match nd with
            | Nonterminal feature _ _ _ =>
                (feature < shape1 X)%nat /\
                exists gini,
                  feature_gini self X y feature = Ok (Some gini) /\
                  forall f g, (f < shape1 X)%nat ->
                    feature_gini self X y f = Ok (Some g) ->
                    g <= gini /\ ((f < feature)%nat -> g < gini)
            | _ => True
            end).
  { apply (fit_node_Ok_ind self
             (fun X y _ nd _ =>
                match nd with
                | Nonterminal feature _ _ _ =>
                    (feature < shape1 X)%nat /\
                    exists gini,
                      feature_gini self X y feature = Ok (Some gini) /\
                      forall f g, (f < shape1 X)%nat ->
                        feature_gini self X y f = Ok (Some g) ->
                        g <= gini /\ ((f < feature)%nat -> g < gini)
                | _ => True
                end)); try (intros; exact I).
    intros X y s b s1 L s2 R s3 _ _ Hscan _ _ _ _.
    destruct (scan_from_None _ _ _ _ _ _ Hscan) as (Hlt & Hb & Hall).
    split; [exact Hlt |]. exists (gini_best b). split; assumption. }
  intros X y s s' f pl L R Hrun. exact (Hgen _ _ _ _ _ Hrun).
Qed.

Lemma fit_node_splits_on_first_best_witness :
  (0 < shape1 X3)%nat /\
  exists gini,
    feature_gini (dt0 ["real"; "real"]%string) X3 y3 0 = Ok (Some gini) /\
    forall f g, (f < shape1 X3)%nat ->
      feature_gini (dt0 ["real"; "real"]%string) X3 y3 f = Ok (Some g) ->
      g <= gini /\ ((f < 0)%nat -> g < gini).
Proof.
  eapply (fit_node_splits_on_first_best (dt0 ["real"; "real"]%string) 4 X3 y3
            {| depth_counter := 0; calls := [] |}).
  vm_compute. reflexivity.
Defined.

(** ** No error on the training data *)

Lemma all_equal_first_true (v : list Q) :
  all_equal_first v = Ok true -> forall a b, In a v -> In b v -> a == b.
Proof.
  unfold all_equal_first, np.item.
  destruct v as [| v0 r]; [intros He; simpl in He; discriminate |].
  simpl nth_error. simpl of_option. rewrite bind_Ok. intros He.
  injection He as He.
  change (forallb (fun x => Qeq_bool x v0) (v0 :: r) = true) in He.
  rewrite forallb_forall in He.
  intros a b Ha Hb. apply He in Ha, Hb. apply Qeq_bool_iff in Ha, Hb.
  rewrite Ha, Hb. reflexivity.
Qed.

Lemma rank_value_inj (r r' : nat) : rank_value r == rank_value r' -> r = r'.
Proof. unfold rank_value, Qeq. simpl. lia. Qed.

Lemma Forall2_In_l {A B : Type} (R : A -> B -> Prop) (u : list A) (v : list B)
    (a : A) :
  Forall2 R u v -> In a u -> exists b, In b v /\ R a b.
Proof.
  induction 1 as [| x y u v Hxy _ IH]; intros Hin; [destruct Hin |].
  destruct Hin as [<- | Hin].
  - exists y. split; [left; reflexivity | exact Hxy].
  - destruct (IH Hin) as (b & Hb & Hab). exists b. split; [right |]; assumption.
Qed.

(** A feature the loop skips is constant on the samples of the node,
    whatever its type. *)
Lemma feature_gini_None_constant (self : DecisionTree) (sub_X : ndarray2)
    (sub_y : list Z) (f : nat) :
  feature_gini self sub_X sub_y f = Ok None ->
  forall a b, In a (column sub_X f) -> In b (column sub_X f) -> a == b.
Proof.
  unfold feature_gini. intros Hg.
  apply bind_Ok_inv in Hg. destruct Hg as (ft & _ & Hg).
  apply bind_Ok_inv in Hg. destruct Hg as ([cm fv] & Hfv & Hg).
  apply bind_Ok_inv in Hg. destruct Hg as (cst & Hc & Hg).
  destruct cst.
  2: { destruct (find_best_split fv sub_y) as [[[[? ?] ?] ?] | e];
         simpl in Hg; discriminate. }
  pose proof (all_equal_first_true _ Hc) as Heq.
  unfold feature_vector_of in Hfv. destruct (is_real ft).
  { injection Hfv as _ <-. exact Heq. }
  destruct (is_categorical ft); [| discriminate].
  apply bind_Ok_inv in Hfv. destruct Hfv as ([[ratio cm'] fv'] & He & Hfv).
  injection Hfv as -> ->.
  destruct (encode_categorical_inv _ _ _ _ _ _ He) as (ranks & Hcm & Hm & ->).
  apply mapM_Forall2 in Hm.
  intros a b Ha Hb.
  destruct (Forall2_In_l _ _ _ _ Hm Ha) as (ra & Hra & Ea).
  destruct (Forall2_In_l _ _ _ _ Hm Hb) as (rb & Hrb & Eb).
  assert (Er : ra = rb).
  { apply rank_value_inj. apply Heq; apply in_map; assumption. }
  subst rb.
  destruct (dict_get Qeq_bool cm a) as [ra' |] eqn:Da; [| discriminate].
  destruct (dict_get Qeq_bool cm b) as [rb' |] eqn:Db; [| discriminate].
  injection Ea as ->. injection Eb as ->.
  rewrite Hcm in Da, Db.
  apply dict_get_combine_nth in Da, Db.
  destruct Da as (ka & ja & Eja & Hka & Eka).
  destruct Db as (kb & jb & Ejb & Hkb & Ekb).
  simpl in Eja, Ejb. subst ja. subst jb.
  rewrite Hka in Hkb. injection Hkb as <-.
  apply Qeq_bool_iff in Eka, Ekb. rewrite <- Eka, <- Ekb. reflexivity.
Qed.

Lemma Forall2_Qeq_nth (x x' : list Q) :
  length x = length x' ->
  (forall f, (f < length x)%nat -> nth f x 0 == nth f x' 0) ->
  Forall2 Qeq x x'.
Proof.
  revert x'. induction x as [| a x IH]; intros [| a' x'] Hl Hn; simpl in Hl;
    try discriminate; constructor.
  - apply (Hn 0%nat). simpl. lia.
  - apply IH; [lia |]. intros f Hf. apply (Hn (S f)). simpl. lia.
Qed.

Lemma constant_columns_rows (X : ndarray2) :
  rectangular X ->
  (forall f, (f < shape1 X)%nat ->
     forall a b, In a (column X f) -> In b (column X f) -> a == b) ->
  forall x x', In x (rows X) -> In x' (rows X) -> Forall2 Qeq x x'.
Proof.
  intros Hrect Hcols x x' Hx Hx'.
  unfold rectangular in Hrect. rewrite Forall_forall in Hrect.
  pose proof (Hrect _ Hx) as Lx. pose proof (Hrect _ Hx') as Lx'.
  apply Forall2_Qeq_nth; [congruence |].
  intros f Hf. apply (Hcols f); [lia | |]; unfold column;
    apply (in_map (fun r => nth f r 0)); assumption.
Qed.

Lemma nth_error_compress_in {A : Type} (v : list A) (mask : list bool) (k : nat)
    (a : A) :
  nth_error v k = Some a -> nth_error mask k = Some true ->
  In a (np.compress v mask).
Proof.
  revert mask k. induction v as [| x v IH]; intros [| m mask] [| k] Hv Hm;
    simpl in *; try discriminate.
  - injection Hv as <-. injection Hm as ->. left. reflexivity.
  - destruct m; [right |]; eapply IH; eassumption.
Qed.

Lemma labels_determined_compress (xs : list (list Q)) (ys : list Z)
    (mask : list bool) :
  length xs = length ys -> labels_determined xs ys ->
  labels_determined (np.compress xs mask) (np.compress ys mask).
Proof.
  intros Hl Hd s s' Hs Hs'.
  rewrite <- compress_combine in Hs, Hs' by exact Hl.
  apply in_compress_in in Hs, Hs'. apply Hd; assumption.
Qed.

Lemma leaf_path_node_inv (self : DecisionTree) (x : list Q) (f : nat)
    (pl : split_payload) (L R : node) (p : list bool) :
  leaf_path self x (Nonterminal f pl L R) = Ok p ->
  exists m p',
    p = m :: p' /\ goes_left self f pl x = Ok m /\
    leaf_path self x (if m then L else R) = Ok p'.
Proof.
  simpl. intros Hp.
  apply bind_Ok_inv in Hp. destruct Hp as (m & Hm & Hp).
  apply bind_Ok_inv in Hp. destruct Hp as (p' & Hp' & Hp).
  injection Hp as <-. exists m, p'. repeat split; assumption.
Qed.

(** The leaves of a node are pure when those of its children are, on the
    samples the split sends to each. *)
Lemma leaves_pure_node (self : DecisionTree) (f : nat) (pl : split_payload)
    (L R : node) (xs : list (list Q)) (ys : list Z) (mask : list bool) :
  Forall2 (fun x m => goes_left self f pl x = Ok m) xs mask ->
  length xs = length ys ->
  leaves_pure self L (combine (np.compress xs mask) (np.compress ys mask)) ->
  leaves_pure self R (combine (np.compress xs (map negb mask))
                              (np.compress ys (map negb mask))) ->
  leaves_pure self (Nonterminal f pl L R) (combine xs ys).
Proof.
  intros Hroute Hlen HL HR s s' p Hs Hs' Hp Hp'.
  destruct (leaf_path_node_inv _ _ _ _ _ _ _ Hp) as (m & q & -> & Hm & Hq).
  destruct (leaf_path_node_inv _ _ _ _ _ _ _ Hp') as (m' & q' & E & Hm' & Hq').
  injection E as <- <-.
  assert (Hside : forall t, In t (combine xs ys) ->
            goes_left self f pl (fst t) = Ok m ->
            In t (combine (np.compress xs (if m then mask else map negb mask))
                          (np.compress ys (if m then mask else map negb mask)))).
  { intros t Ht Hgo. apply In_nth_error in Ht. destruct Ht as (k & Hk).
    destruct (nth_error_combine _ _ _ _ Hk) as [Hx _].
    assert (Hmk : exists mk, nth_error mask k = Some mk).
    { destruct (nth_error mask k) as [mk |] eqn:E; [exists mk; reflexivity |].
      apply nth_error_None in E. apply Forall2_length in Hroute.
      assert (Hlt : (k < length xs)%nat)
        by (apply nth_error_Some; rewrite Hx; discriminate).
      lia. }
    destruct Hmk as (mk & Hmk).
    pose proof (Forall2_nth_error _ _ _ _ _ _ Hroute Hx Hmk) as Hgo'.
    simpl in Hgo'. rewrite Hgo in Hgo'. injection Hgo' as <-.
    rewrite <- compress_combine by exact Hlen.
    apply (nth_error_compress_in _ _ k); [exact Hk |].
    destruct m; [exact Hmk |]. rewrite nth_error_map, Hmk. reflexivity. }
  pose proof (Hside s Hs Hm) as Hin. pose proof (Hside s' Hs' Hm') as Hin'.
  destruct m; [eapply HL | eapply HR]; eassumption.
Qed.

Lemma fit_node_leaves_pure (self : DecisionTree) (fuel : nat) :
  (min_samples_split self <= 1)%Z ->
  forall X y st nd st',
    _fit_node fuel self X y st = Some (Ok nd, st') ->
    length (rows X) = length y -> rectangular X ->
    labels_determined (rows X) y ->
    leaves_pure self nd (combine (rows X) y).
Proof.
  intros Hmss.
  apply (fit_node_Ok_ind self
           (fun X y _ nd _ =>
              length (rows X) = length y -> rectangular X ->
              labels_determined (rows X) y ->
              leaves_pure self nd (combine (rows X) y))).
  - intros X y st y0 _ Hall _ _ _ s s' p Hs Hs' _ _.
    apply forallb_eqb_all in Hall. rewrite Forall_forall in Hall.
    destruct s as [x l]. destruct s' as [x' l'].
    apply in_combine_r in Hs, Hs'. simpl.
    rewrite (Hall _ Hs), (Hall _ Hs'). reflexivity.
  - intros X y st c Hne Hsz _ Hlen _ _ s s' p Hs Hs' _ _.
    destruct y as [| a [| a' y]]; [congruence | | simpl length in Hsz; lia].
    destruct (rows X) as [| x xs]; [destruct Hs |].
    simpl in Hs, Hs'. destruct xs; simpl in Hs, Hs';
      destruct Hs as [<- | []]; destruct Hs' as [<- | []]; reflexivity.
  - intros X y st st1 c _ _ Hscan _ Hlen Hrect Hdet s s' p Hs Hs' _ _.
    pose proof (scan_from_None _ _ _ _ _ _ Hscan) as Hnone. simpl in Hnone.
    apply Hdet; try assumption.
    apply (constant_columns_rows X Hrect).
    + intros f Hf. apply (feature_gini_None_constant self X y). apply Hnone.
      exact Hf.
    + destruct s as [x l]. apply in_combine_l in Hs. exact Hs.
    + destruct s' as [x l]. apply in_combine_l in Hs'. exact Hs'.
  - intros X y st b st1 L st2 R st3 _ _ Hscan Hlx Hly HL HR Hlen Hrect Hdet.
    destruct (scan_good_best _ _ _ _ _ _ Hscan) as (_ & Hfb & Hcons).
    pose proof (split_is_routing self X y b Hrect Hfb Hcons) as Hroute.
    assert (Hlneg : length (map negb (split b)) = length (split b))
      by apply length_map.
    apply (leaves_pure_node _ _ _ _ _ _ _ _ Hroute Hlen).
    + apply HL.
      * simpl. apply compress_length_eq; congruence.
      * apply Forall_compress. exact Hrect.
      * simpl. apply labels_determined_compress; assumption.
    + apply HR.
      * simpl. apply compress_length_eq; congruence.
      * apply Forall_compress. exact Hrect.
      * simpl. apply labels_determined_compress; assumption.
Qed.

(** X12: with [min_samples_split] at most 1, a fitted tree makes no error
    on its training data, as long as the labels are a function of the
    samples.  The recursion then stops at pure nodes only: a node with
    two different labels has more than one sample, and cannot find all
    its features constant, so it is split. *)
Theorem predict_training_data (self fitted : DecisionTree) (X : ndarray2)
    (y : list Z) :
  fit self X y = Some (Ok fitted) ->
  length (rows X) = length y -> rectangular X ->
  (min_samples_split self <= 1)%Z ->
  labels_determined (rows X) y ->
  predict fitted X = Ok y.
Proof.
  intros Hfit Hlen Hrect Hmss Hdet.
  destruct (fit_Ok_run _ _ _ _ Hfit) as (nd & st' & Hrun & ->).
  unfold predict. simpl tree.
  rewrite (mapM_ext _ (fun x => _predict_node self x nd))
    by (intros x; apply predict_node_inert; reflexivity).
  apply (fit_node_round_trip _ _ _ _ _ _ _ Hrun Hlen Hrect).
  eapply fit_node_leaves_pure; eassumption.
Qed.

Lemma predict_training_data_witness : predict fitted5 X5 = Ok y5.
Proof.
  apply (predict_training_data (dt1 ["real"%string]) fitted5 X5 y5).
  - reflexivity.
  - reflexivity.
  - repeat constructor.
  - simpl. lia.
  - intros s s' Hs Hs' He. simpl in Hs, Hs'.
    destruct Hs as [<- | [<- | [<- | []]]];
      destruct Hs' as [<- | [<- | [<- | []]]];
      try reflexivity; exfalso;
      inversion He as [| ? ? ? ? Hq _]; vm_compute in Hq; discriminate.
Defined.

(* ===================================================================== *)
(** ** The constructor, and the calls it allows *)

Lemma known_type_iff (t : string) :
  known_type t <-> negb (is_real t) && negb (is_categorical t) = false.
Proof.
  unfold known_type, is_real, is_categorical. split.
  - intros [-> | ->]; reflexivity.
  - intros Hk. destruct (String.eqb_spec t "real") as [E | _];
      [left; exact E |].
    destruct (String.eqb_spec t "categorical") as [E | _];
      [right; exact E | discriminate].
Qed.

Lemma existsb_false_Forall {A : Type} (p : A -> bool) (l : list A) :
  existsb p l = false <-> Forall (fun a => p a = false) l.
Proof.
  induction l as [| a l IH]; simpl.
  - split; [constructor | reflexivity].
  - rewrite orb_false_iff, IH. split.
    + intros [Ha Hl]. constructor; assumption.
    + intros Hf. inversion Hf; subst. split; assumption.
Qed.

Lemma init_Ok_known (ft : list string) (md : option Z) (mss : Z) (msl : option Z)
    (self : DecisionTree) :
  __init__ ft md mss msl = Ok self ->
  Forall known_type ft /\
  self = {| tree := Empty; feature_types := ft; max_depth := md;
            min_samples_split := mss; min_samples_leaf := msl; depth := 0 |}.
Proof.
  unfold __init__.
  destruct (existsb (fun x => negb (is_real x) && negb (is_categorical x)) ft)
    eqn:E; [discriminate |].
  intros Hi. injection Hi as <-. split; [| reflexivity].
  apply existsb_false_Forall in E.
  eapply Forall_impl; [| exact E]. intros t. apply known_type_iff.
Qed.

(** X13: the constructor accepts exactly the lists of feature types that
    hold ["real"] and ["categorical"] only, and raises [ValueError] on
    every other list.  The model it returns has an empty tree, a depth
    count of 0 and the four arguments as given. *)
Theorem init_validates_feature_types (ft : list string) (md : option Z) (mss : Z)
    (msl : option Z) :
  (Forall known_type ft ->
   __init__ ft md mss msl =
     Ok {| tree := Empty; feature_types := ft; max_depth := md;
           min_samples_split := mss; min_samples_leaf := msl; depth := 0 |}) /\
  (~ Forall known_type ft -> __init__ ft md mss msl = Raise ValueError).
Proof.
  unfold __init__.
  destruct (existsb (fun x => negb (is_real x) && negb (is_categorical x)) ft)
    eqn:E.
  - split; [| reflexivity]. intros Hk. exfalso.
    apply existsb_exists in E. destruct E as (t & Ht & Hbad).
    rewrite Forall_forall in Hk. apply Hk, known_type_iff in Ht. congruence.
  - split; [reflexivity |]. intros Hn. exfalso. apply Hn.
    apply existsb_false_Forall in E.
    eapply Forall_impl; [| exact E]. intros t. apply known_type_iff.
Qed.

(** X15: [predict] on a model that has not been fitted raises [KeyError]
    (the empty dictionary has no key ['type']) as soon as there is a
    sample to predict, and returns the empty list when there is none. *)
Theorem predict_before_fit (ft : list string) (md : option Z) (mss : Z)
    (msl : option Z) (self : DecisionTree) (X : ndarray2) :
  __init__ ft md mss msl = Ok self ->
  predict self X = match rows X with
                   | [] => Ok []
                   | _ :: _ => Raise KeyError
                   end.
Proof.
  intros Hinit. destruct (init_Ok_known _ _ _ _ _ Hinit) as [_ ->].
  unfold predict. simpl tree. destruct (rows X); reflexivity.
Qed.

Lemma predict_before_fit_witness :
  predict (dt0 ["real"%string]) X4 = match rows X4 with
                                     | [] => Ok []
                                     | _ :: _ => Raise KeyError
                                     end.
Proof.
  apply (predict_before_fit ["real"%string] None 2 None).
  reflexivity.
Defined.

(* ===================================================================== *)
(** ** The encoding of a categorical feature *)

Lemma StronglySorted_nth_error {A : Type} (R : A -> A -> Prop) (l : list A) :
  StronglySorted R l ->
  forall i j a b, (i < j)%nat ->
    nth_error l i = Some a -> nth_error l j = Some b -> R a b.
Proof.
  induction 1 as [| x l _ IH Hall]; intros i j a b Hij Hi Hj.
  - destruct i; discriminate.
  - destruct j as [| j]; [lia |]. simpl in Hj. destruct i as [| i]; simpl in Hi.
    + injection Hi as <-. rewrite Forall_forall in Hall.
      apply Hall. eapply nth_error_In. exact Hj.
    + apply (IH i j); [lia | assumption | assumption].
Qed.

Lemma dict_get_Qeq {V : Type} (d : dict Q V) (x x' : Q) :
  x == x' -> dict_get Qeq_bool d x = dict_get Qeq_bool d x'.
Proof.
  intros E. induction d as [| [k v] d IH]; simpl; [reflexivity |].
  rewrite E, IH. reflexivity.
Qed.

(** What the rank of a category is: its place in the categories sorted
    by their positive rate. *)
Lemma encode_categorical_rank (sub_X : ndarray2) (sub_y : list Z) (feature : nat)
    (ratio : dict Q Q) (cm : dict Q nat) (fv : list Q) (x : Q) (r : nat) :
  encode_categorical sub_X sub_y feature = Ok (ratio, cm, fv) ->
  dict_get Qeq_bool cm x = Some r ->
  exists k,
    Qeq_bool k x = true /\
    nth_error (np.sort_by snd ratio) r
      = Some (k, positive_rate (column sub_X feature) sub_y x).
Proof.
  intros He Hd.
  destruct (encode_categorical_inv _ _ _ _ _ _ He) as (ranks & Hcm & _ & _).
  pose proof (encode_categorical_ratio _ _ _ _ _ _ He) as Hr.
  rewrite Hcm in Hd. apply dict_get_combine_nth in Hd.
  destruct Hd as (k & j & Ej & Hk & Ek). simpl in Ej. subst j.
  rewrite nth_error_map in Hk.
  destruct (nth_error (np.sort_by snd ratio) r) as [[k' v] |] eqn:En;
    [| discriminate].
  simpl in Hk. injection Hk as ->.
  exists k. split; [exact Ek |]. f_equal. f_equal.
  assert (Hin : In (k, v) ratio).
  { eapply Permutation_in; [apply sort_by_perm |]. eapply nth_error_In. exact En. }
  rewrite Hr in Hin. apply in_map_iff in Hin. destruct Hin as (e & Ee & _).
  injection Ee as Ek' <-. rewrite Ek'. apply positive_rate_equiv. exact Ek.
Qed.

Lemma encode_categorical_rank_le (sub_X : ndarray2) (sub_y : list Z)
    (feature : nat) (ratio : dict Q Q) (cm : dict Q nat) (fv : list Q)
    (x x' : Q) (r r' : nat) :
  encode_categorical sub_X sub_y feature = Ok (ratio, cm, fv) ->
  dict_get Qeq_bool cm x = Some r -> dict_get Qeq_bool cm x' = Some r' ->
  (r <= r')%nat ->
  positive_rate (column sub_X feature) sub_y x
  <= positive_rate (column sub_X feature) sub_y x'.
Proof.
  intros He Hd Hd' Hle.
  destruct (encode_categorical_rank _ _ _ _ _ _ _ _ He Hd) as (k & _ & Hk).
  destruct (encode_categorical_rank _ _ _ _ _ _ _ _ He Hd') as (k' & _ & Hk').
  assert (Hc : r = r' \/ (r < r')%nat) by lia. destruct Hc as [<- | Hlt].
  - remember (positive_rate (column sub_X feature) sub_y x) as a.
    remember (positive_rate (column sub_X feature) sub_y x') as b.
    assert (E : a = b) by congruence. rewrite E. apply Qle_refl.
  - exact (StronglySorted_nth_error _ _ (sort_by_sorted snd ratio)
             _ _ _ _ Hlt Hk Hk').
Qed.

Lemma encode_categorical_rank_eq (sub_X : ndarray2) (sub_y : list Z)
    (feature : nat) (ratio : dict Q Q) (cm : dict Q nat) (fv : list Q)
    (x x' : Q) (r : nat) :
  encode_categorical sub_X sub_y feature = Ok (ratio, cm, fv) ->
  dict_get Qeq_bool cm x = Some r -> dict_get Qeq_bool cm x' = Some r ->
  x == x'.
Proof.
  intros He Hd Hd'.
  destruct (encode_categorical_rank _ _ _ _ _ _ _ _ He Hd) as (k & Ek & Hk).
  destruct (encode_categorical_rank _ _ _ _ _ _ _ _ He Hd') as (k' & Ek' & Hk').
  assert (E : k = k') by congruence. subst k'.
  apply Qeq_bool_iff in Ek, Ek'. rewrite <- Ek, <- Ek'. reflexivity.
Qed.

Lemma encode_categorical_code (sub_X : ndarray2) (sub_y : list Z) (feature : nat)
    (ratio : dict Q Q) (cm : dict Q nat) (fv : list Q) (i : nat) (x v : Q) :
  encode_categorical sub_X sub_y feature = Ok (ratio, cm, fv) ->
  nth_error (column sub_X feature) i = Some x -> nth_error fv i = Some v ->
  exists r, dict_get Qeq_bool cm x = Some r /\ v = rank_value r.
Proof.
  intros He Hx Hv.
  destruct (encode_categorical_inv _ _ _ _ _ _ He) as (ranks & _ & Hm & ->).
  apply mapM_Forall2 in Hm. rewrite nth_error_map in Hv.
  destruct (nth_error ranks i) as [r |] eqn:Er; [| discriminate].
  injection Hv as <-. exists r. split; [| reflexivity].
  pose proof (Forall2_nth_error _ _ _ _ _ _ Hm Hx Er) as Hd. simpl in Hd.
  destruct (dict_get Qeq_bool cm x) as [r0 |]; [| discriminate].
  injection Hd as ->. reflexivity.
Qed.

Lemma rank_value_lt (r r' : nat) : (r < r')%nat -> rank_value r < rank_value r'.
Proof. unfold rank_value, Qlt. simpl. lia. Qed.

(** X16: the code given to a categorical feature (lines 87-102) tells the
    categories apart and orders them by their share of positive labels.
    Two samples get the same code exactly when they are of the same
    category, and a sample of a category with a smaller share of label 1
    gets a smaller code. *)
Theorem encode_categorical_orders_by_rate (sub_X : ndarray2) (sub_y : list Z)
    (feature : nat) (ratio : dict Q Q) (cm : dict Q nat) (fv : list Q)
    (i j : nat) (xi xj vi vj : Q) :
  encode_categorical sub_X sub_y feature = Ok (ratio, cm, fv) ->
  nth_error (column sub_X feature) i = Some xi ->
  nth_error (column sub_X feature) j = Some xj ->
  nth_error fv i = Some vi -> nth_error fv j = Some vj ->
  (vi == vj <-> xi == xj) /\
  (positive_rate (column sub_X feature) sub_y xi
   < positive_rate (column sub_X feature) sub_y xj -> vi < vj).
Proof.
  intros He Hxi Hxj Hvi Hvj.
  destruct (encode_categorical_code _ _ _ _ _ _ _ _ _ He Hxi Hvi)
    as (ri & Hdi & ->).
  destruct (encode_categorical_code _ _ _ _ _ _ _ _ _ He Hxj Hvj)
    as (rj & Hdj & ->).
  split; [split |].
  - intros Ev. apply rank_value_inj in Ev. subst rj.
    eapply encode_categorical_rank_eq; eassumption.
  - intros Ex. rewrite (dict_get_Qeq cm xi xj Ex) in Hdi.
    rewrite Hdi in Hdj. injection Hdj as <-. reflexivity.
  - intros Hlt. apply rank_value_lt.
    destruct (Nat.lt_ge_cases ri rj) as [Hc | Hc]; [exact Hc |]. exfalso.
    pose proof (encode_categorical_rank_le _ _ _ _ _ _ _ _ _ _ He Hdj Hdi Hc)
      as Hle.
    apply Qle_not_lt in Hle. contradiction.
Qed.

Lemma encode_categorical_orders_by_rate_witness :
  (1 == 2 <-> 2 == 1) /\
  (positive_rate (column X6 0) y6 2 < positive_rate (column X6 0) y6 1 -> 1 < 2).
Proof.
  eapply (encode_categorical_orders_by_rate X6 y6 0 _ _ _ 4 2).
  - vm_compute. reflexivity.
  - reflexivity.
  - reflexivity.
  - reflexivity.
  - reflexivity.
Defined.

Lemma encode_categorical_retained (sub_X : ndarray2) (sub_y : list Z)
    (feature : nat) (ratio : dict Q Q) (cm : dict Q nat) (fv : list Q)
    (thr k : Q) :
  encode_categorical sub_X sub_y feature = Ok (ratio, cm, fv) ->
  In k (column sub_X feature) ->
  exists r,
    dict_get Qeq_bool cm k = Some r /\
    existsb (fun c => Qeq_bool k c) (categories_below cm thr)
    = Qlt_bool (rank_value r) thr.
Proof.
  intros He Hk.
  destruct (encode_categorical_inv _ _ _ _ _ _ He) as (ranks & Hcm & Hm & _).
  apply mapM_Forall2 in Hm.
  destruct (ranks_defined _ _ _ _ Hm Hk) as (r & Hr).
  exists r. split; [exact Hr |].
  rewrite Hcm in Hr |- *. apply rank_below_iff_retained. exact Hr.
Qed.

(** X17: whatever the threshold, the categories kept in
    [categories_split] (line 118) are those of the lowest positive rates:
    a category of the column that is kept has a positive rate no greater
    than any category of the column that is not.  Categories of equal
    rate may be parted. *)
Theorem categories_split_lower_rates (sub_X : ndarray2) (sub_y : list Z)
    (feature : nat) (ratio : dict Q Q) (cm : dict Q nat) (fv : list Q)
    (thr k k' : Q) :
  encode_categorical sub_X sub_y feature = Ok (ratio, cm, fv) ->
  In k (column sub_X feature) -> In k' (column sub_X feature) ->
  existsb (fun c => Qeq_bool k c) (categories_below cm thr) = true ->
  existsb (fun c => Qeq_bool k' c) (categories_below cm thr) = false ->
  positive_rate (column sub_X feature) sub_y k
  <= positive_rate (column sub_X feature) sub_y k'.
Proof.
  intros He Hk Hk' Hin Hout.
  destruct (encode_categorical_retained _ _ _ _ _ _ thr k He Hk)
    as (r & Hr & Er).
  destruct (encode_categorical_retained _ _ _ _ _ _ thr k' He Hk')
    as (r' & Hr' & Er').
  rewrite Er in Hin. rewrite Er' in Hout.
  apply (encode_categorical_rank_le _ _ _ _ _ _ _ _ _ _ He Hr Hr').
  destruct (Nat.le_gt_cases r r') as [Hc | Hc]; [exact Hc |]. exfalso.
  assert (Hle : (r' <= r)%nat) by lia.
  pose proof (rank_not_below_mono _ _ thr Hle Hout) as Hcontra. congruence.
Qed.

Lemma categories_split_lower_rates_witness :
  positive_rate (column X6 0) y6 2 <= positive_rate (column X6 0) y6 1.
Proof.
  eapply (categories_split_lower_rates X6 y6 0 _ _ _ (3 # 2) 2 1).
  - vm_compute. reflexivity.
  - simpl. auto 10.
  - simpl. auto 10.
  - reflexivity.
  - reflexivity.
Defined.

(* ===================================================================== *)
(** ** The split of a node, at fitting and at prediction *)

Lemma fit_node_Nonterminal_inv (self : DecisionTree) (fuel : nat) (X : ndarray2)
    (y : list Z) (st st' : fit_state) (f : nat) (pl : split_payload)
    (L R : node) :
  _fit_node (S fuel) self X y st = Some (Ok (Nonterminal f pl L R), st') ->
  exists b st1 st2,
    scan self X y (seq 0 (shape1 X)) None st = Some (Ok (Some b), st1) /\
    f = feature_best b /\ pl = threshold_best b /\
    _fit_node fuel self (rows_under X (split b)) (np.compress y (split b))
      {| depth_counter := depth_counter st1 + 1; calls := calls st1 |}
      = Some (Ok L, st2) /\
    _fit_node fuel self (rows_under X (map negb (split b)))
      (np.compress y (map negb (split b))) st2 = Some (Ok R, st').
Proof.
  intros Hrun. rewrite _fit_node_S in Hrun.
  apply mbind_Ok_inv in Hrun. destruct Hrun as (y0 & s0 & Hy0 & Hrun).
  apply lift_Ok_inv in Hy0. destruct Hy0 as [Hy0 ->].
  destruct (forallb (fun v => Z.eqb v y0) y); [discriminate |].
  destruct (Z.of_nat (length y) <=? min_samples_split self)%Z.
  { apply mbind_Ok_inv in Hrun. destruct Hrun as (c & s1 & _ & Hrun).
    discriminate. }
  apply mbind_Ok_inv in Hrun. destruct Hrun as (found & st1 & Hscan & Hrun).
  destruct found as [b |].
  2: { apply mbind_Ok_inv in Hrun. destruct Hrun as (c & s1 & _ & Hrun).
       discriminate. }
  apply mbind_Ok_inv in Hrun. destruct Hrun as (ft & s1 & Hft & Hrun).
  apply lift_Ok_inv in Hft. destruct Hft as [Hft ->].
  apply mbind_Ok_inv in Hrun. destruct Hrun as (u & s1 & Hck & Hrun).
  apply lift_Ok_inv in Hck. destruct Hck as [Hck ->].
  apply mbind_Ok_inv in Hrun. destruct Hrun as (u' & s1 & Hinc & Hrun).
  injection Hinc as _ <-.
  apply mbind_Ok_inv in Hrun. destruct Hrun as (lX & s1 & HlX & Hrun).
  apply lift_Ok_inv in HlX. destruct HlX as [HlX ->].
  apply mbind_Ok_inv in Hrun. destruct Hrun as (ly & s1 & Hly & Hrun).
  apply lift_Ok_inv in Hly. destruct Hly as [Hly ->].
  apply mbind_Ok_inv in Hrun. destruct Hrun as (L' & st2 & HL & Hrun).
  apply mbind_Ok_inv in Hrun. destruct Hrun as (rX & s1 & HrX & Hrun).
  apply lift_Ok_inv in HrX. destruct HrX as [HrX ->].
  apply mbind_Ok_inv in Hrun. destruct Hrun as (ry & s1 & Hry & Hrun).
  apply lift_Ok_inv in Hry. destruct Hry as [Hry ->].
  apply mbind_Ok_inv in Hrun. destruct Hrun as (R' & st3 & HR & Hrun).
  injection Hrun as <- <- <- <- <-.
  unfold row_index in HlX, HrX.
  destruct (np.bool_index (rows X) (split b)) as [lrs | e] eqn:Elrs;
    [| discriminate].
  destruct (np.bool_index (rows X) (map negb (split b))) as [rrs | e] eqn:Errs;
    [| discriminate].
  rewrite bind_Ok in HlX, HrX. injection HlX as <-. injection HrX as <-.
  apply bool_index_Ok in Elrs, Errs, Hly, Hry.
  destruct Elrs as [_ ->]. destruct Errs as [_ ->].
  destruct Hly as [_ ->]. destruct Hry as [_ ->].
  exists b, st1, st2. repeat split; assumption.
Qed.

(** X18: the two children of a nonterminal node are fitted on the two
    parts of the node's samples that [_predict_node] tells apart.  The
    key stored in the node ([threshold] or [categories_split]) sends a
    training sample to the left at prediction exactly when the mask of
    line 113 had it in the left part at fitting; both parts have a
    sample. *)
Theorem fit_children_get_routed_samples (self : DecisionTree) (fuel : nat)
    (X : ndarray2) (y : list Z) (st st' : fit_state) (f : nat)
    (pl : split_payload) (L R : node) :
  _fit_node fuel self X y st = Some (Ok (Nonterminal f pl L R), st') ->
  rectangular X ->
  exists mask fuel' s1 s2,
    Forall2 (fun x m => goes_left self f pl x = Ok m) (rows X) mask /\
    In true mask /\ In false mask /\
    _fit_node fuel' self (rows_under X mask) (np.compress y mask) s1
      = Some (Ok L, s2) /\
    _fit_node fuel' self (rows_under X (map negb mask))
      (np.compress y (map negb mask)) s2 = Some (Ok R, st').
Proof.
  intros Hrun Hrect. destruct fuel as [| fuel]; [discriminate |].
  destruct (fit_node_Nonterminal_inv _ _ _ _ _ _ _ _ _ _ Hrun)
    as (b & st1 & st2 & Hscan & -> & -> & HL & HR).
  destruct (scan_good_best _ _ _ _ _ _ Hscan) as ((_ & Ht & Hf) & Hfb & Hcons).
  exists (split b), fuel,
    {| depth_counter := depth_counter st1 + 1; calls := calls st1 |}, st2.
  split; [apply (split_is_routing self X y b Hrect Hfb Hcons) |].
  repeat split; assumption.
Qed.

Lemma fit_children_get_routed_samples_witness :
  exists mask fuel' s1 s2,
    Forall2 (fun x m => goes_left (dt1 ["real"%string]) 0 (Threshold (3 # 2)) x
                        = Ok m) (rows X5) mask /\
    In true mask /\ In false mask /\
    _fit_node fuel' (dt1 ["real"%string]) (rows_under X5 mask)
      (np.compress y5 mask) s1 = Some (Ok (Terminal 0), s2) /\
    _fit_node fuel' (dt1 ["real"%string]) (rows_under X5 (map negb mask))
      (np.compress y5 (map negb mask)) s2
    = Some (Ok (Nonterminal 0 (Threshold (5 # 2)) (Terminal 1) (Terminal 0)),
            {| depth_counter := 2;
               calls := [([1; 2; 3], [0; 1; 0]%Z); ([2; 3], [1; 0]%Z)] |}).
Proof.
  apply (fit_children_get_routed_samples (dt1 ["real"%string]) 4 X5 y5
           {| depth_counter := 0; calls := [] |}).
  - reflexivity.
  - repeat constructor.
Defined.

Lemma categories_below_keys (cm : dict Q nat) (thr : Q) (c : Q) :
  In c (categories_below cm thr) -> In c (map fst cm).
Proof.
  unfold categories_below. intros Hc. apply in_map_iff in Hc.
  destruct Hc as (e & <- & He). apply filter_In in He. destruct He as [He _].
  apply in_map. exact He.
Qed.

Lemma encode_categorical_keys (sub_X : ndarray2) (sub_y : list Z) (feature : nat)
    (ratio : dict Q Q) (cm : dict Q nat) (fv : list Q) (c : Q) :
  encode_categorical sub_X sub_y feature = Ok (ratio, cm, fv) ->
  In c (map fst cm) -> In c (column sub_X feature).
Proof.
  intros He Hc.
  destruct (encode_categorical_inv _ _ _ _ _ _ He) as (ranks & Hcm & _ & _).
  pose proof (encode_categorical_ratio _ _ _ _ _ _ He) as Hr.
  rewrite Hcm, map_fst_combine in Hc by (rewrite length_seq; reflexivity).
  apply (Permutation_in _ (Permutation_map fst (sort_by_perm snd ratio))) in Hc.
  rewrite Hr, map_map in Hc. simpl in Hc.
  apply in_map_iff in Hc. destruct Hc as ([k n] & <- & Hin).
  eapply Counter_keys_in. exact Hin.
Qed.

(** X19: a categorical node keeps categories of its own training samples
    only, so a sample whose category none of them had goes to the right
    child at prediction. *)
Theorem unseen_category_goes_right (self : DecisionTree) (fuel : nat)
    (X : ndarray2) (y : list Z) (st st' : fit_state) (f : nat)
    (cs : list Q) (L R : node) (x : list Q) (v : Q) :
  _fit_node fuel self X y st
    = Some (Ok (Nonterminal f (CategoriesSplit cs) L R), st') ->
  np.item x f = Ok v ->
  (forall k, In k (column X f) -> ~ v == k) ->
  incl cs (column X f) /\
  goes_left self f (CategoriesSplit cs) x = Ok false.
Proof.
  intros Hrun Hv Hnew. destruct fuel as [| fuel]; [discriminate |].
  destruct (fit_node_Nonterminal_inv _ _ _ _ _ _ _ _ _ _ Hrun)
    as (b & st1 & st2 & Hscan & -> & Hpl & _ & _).
  destruct (scan_good_best _ _ _ _ _ _ Hscan)
    as (_ & _ & ft & cm & fv & thr & Hft & Hfv & _ & Hpay).
  rewrite <- Hpl in Hpay.
  unfold payload_of in Hpay. destruct (is_real ft) eqn:Er; [discriminate |].
  destruct (is_categorical ft) eqn:Ec; [| discriminate].
  injection Hpay as Hcs.
  unfold feature_vector_of in Hfv. rewrite Er, Ec in Hfv.
  apply bind_Ok_inv in Hfv. destruct Hfv as ([[ratio cm'] fv'] & He & Hfv).
  injection Hfv as -> ->.
  assert (Hincl : incl cs (column X (feature_best b))).
  { intros c Hc. rewrite <- Hcs in Hc.
    eapply encode_categorical_keys; [exact He |].
    eapply categories_below_keys. exact Hc. }
  split; [exact Hincl |].
  unfold goes_left. rewrite Hft, bind_Ok, Hv, bind_Ok, Er.
  f_equal. destruct (existsb (fun c => Qeq_bool v c) cs) eqn:Eex;
    [| reflexivity].
  exfalso. apply existsb_exists in Eex. destruct Eex as (c & Hc & Evc).
  apply (Hnew c); [apply Hincl; exact Hc | apply Qeq_bool_iff; exact Evc].
Qed.

Lemma unseen_category_goes_right_witness :
  incl [0] (column X6 0) /\
  goes_left (dt0 ["categorical"%string]) 0 (CategoriesSplit [0]) [7] = Ok false.
Proof.
  eapply (unseen_category_goes_right (dt0 ["categorical"%string]) 7 X6 y6
            {| depth_counter := 0; calls := [] |} _ 0 [0] _ _ [7] 7).
  - vm_compute. reflexivity.
  - reflexivity.
  - intros k Hk Hq. simpl in Hk.
    repeat (destruct Hk as [<- | Hk]; [vm_compute in Hq; discriminate |]).
    destruct Hk.
Defined.

(* ===================================================================== *)
(** ** More columns than feature types *)

Lemma mbind_Raise {A B : Type} (m : M A) (k : A -> M B) (st st' : fit_state)
    (e : exn) :
  m st = Some (Raise e, st') -> mbind m k st = Some (Raise e, st').
Proof. intros E. unfold mbind. rewrite E. reflexivity. Qed.

Lemma mbind_Ok_run {A B : Type} (m : M A) (k : A -> M B) (st st' : fit_state)
    (a : A) :
  m st = Some (Ok a, st') -> mbind m k st = k a st'.
Proof. intros E. unfold mbind. rewrite E. reflexivity. Qed.

Lemma scan_app (self : DecisionTree) (sub_X : ndarray2) (sub_y : list Z)
    (l1 l2 : list nat) :
  forall cur st,
    scan self sub_X sub_y (l1 ++ l2) cur st =
    mbind (scan self sub_X sub_y l1 cur) (scan self sub_X sub_y l2) st.
Proof.
  induction l1 as [| f l1 IH]; intros cur st; simpl.
  - reflexivity.
  - unfold mbind.
    destruct (scan_feature self sub_X sub_y cur f st) as [[[cur' | e] st1] |];
      [| reflexivity | reflexivity].
    rewrite IH. reflexivity.
Qed.

(** The loop reads the rows of [sub_X] only, not its declared width. *)
Lemma encode_categorical_rows (X X' : ndarray2) (y : list Z) (f : nat) :
  rows X = rows X' -> encode_categorical X y f = encode_categorical X' y f.
Proof.
  intros Hr. unfold encode_categorical, row_index, column. rewrite Hr.
  destruct (np.bool_index (rows X') (map (fun y0 => Z.eqb y0 1) y));
    reflexivity.
Qed.

Lemma scan_feature_rows (self : DecisionTree) (X X' : ndarray2) (y : list Z)
    (cur : option best) (f : nat) (st : fit_state) :
  rows X = rows X' ->
  scan_feature self X y cur f st = scan_feature self X' y cur f st.
Proof.
  intros Hr. unfold scan_feature, feature_vector_of.
  apply mbind_ext; [reflexivity |]. intros ft st0.
  rewrite (encode_categorical_rows X X' y f Hr).
  unfold column. rewrite Hr. reflexivity.
Qed.

Lemma scan_rows (self : DecisionTree) (X X' : ndarray2) (y : list Z)
    (features : list nat) :
  rows X = rows X' ->
  forall cur st,
    scan self X y features cur st = scan self X' y features cur st.
Proof.
  intros Hr. induction features as [| f fs IH]; intros cur st; simpl.
  - reflexivity.
  - apply mbind_ext; [intros st0; apply scan_feature_rows; exact Hr |].
    intros a st'. apply IH.
Qed.

Lemma not_pure_forallb (y : list Z) (y0 : Z) :
  (exists a b, In a y /\ In b y /\ a <> b) ->
  forallb (fun v => Z.eqb v y0) y = false.
Proof.
  intros (a & b & Ha & Hb & Hab).
  destruct (forallb (fun v => Z.eqb v y0) y) eqn:E; [| reflexivity].
  exfalso. apply forallb_eqb_all in E. rewrite Forall_forall in E.
  apply Hab. rewrite (E a Ha), (E b Hb). reflexivity.
Qed.

(** X20: the feature types are not checked against the data before the
    loop runs.  When the data has more columns than the model has feature
    types, and the root is neither pure nor small enough to stop, [fit]
    raises [IndexError]: the loop over the columns reads
    [self.feature_types[feature]] past the end of the list. *)
Theorem fit_too_few_feature_types (ft : list string) (md : option Z) (mss : Z)
    (msl : option Z) (self : DecisionTree) (X : ndarray2) (y : list Z) :
  __init__ ft md mss msl = Ok self ->
  (length ft < shape1 X)%nat ->
  length (rows X) = length y ->
  (exists a b, In a y /\ In b y /\ a <> b) ->
  (mss < Z.of_nat (length y))%Z ->
  fit self X y = Some (Raise IndexError).
Proof.
  intros Hinit Hw Hlen Hnp Hsz.
  destruct (init_Ok_known _ _ _ _ _ Hinit) as [Hk ->].
  set (self := {| tree := Empty; feature_types := ft; max_depth := md;
                  min_samples_split := mss; min_samples_leaf := msl;
                  depth := 0 |}).
  assert (Hne : y <> []).
  { destruct Hnp as (a & _ & Ha & _). intros ->. destruct Ha. }
  set (X' := {| shape1 := length ft; rows := rows X |}).
  assert (Hwf : well_formed self X' y).
  { split; [exact Hlen |]. split; [exact Hne |].
    intros f Hf. simpl in Hf. simpl feature_types.
    destruct (nth_error ft f) as [t |] eqn:Et.
    2: { apply nth_error_None in Et. lia. }
    exists t. split; [reflexivity |].
    rewrite Forall_forall in Hk.
    destruct (Hk t (nth_error_In _ _ Et)) as [-> | ->];
      [left | right]; reflexivity. }
  assert (Hscan : forall st, exists st1,
            scan self X y (seq 0 (shape1 X)) None st
            = Some (Raise IndexError, st1)).
  { intros st.
    replace (shape1 X) with (length ft + S (shape1 X - S (length ft)))%nat
      by lia.
    rewrite seq_app, scan_app. simpl seq.
    destruct (scan_returns self X' y (seq 0 (length ft)) None st)
      as (r & st1 & Hrun & _ & _ & _ & Hok).
    - intros f Hf. apply in_seq in Hf. simpl. lia.
    - intros b Hb. discriminate.
    - destruct (Hok Hwf) as (cur' & ->).
      rewrite (scan_rows self X' X y _ eq_refl) in Hrun.
      rewrite (mbind_Ok_run _ _ _ _ _ Hrun).
      exists st1. simpl scan. apply mbind_Raise.
      unfold scan_feature. apply mbind_Raise.
      unfold lift, np.item. simpl feature_types.
      assert (En : nth_error ft (length ft) = None)
        by (apply nth_error_None; lia).
      rewrite En. reflexivity. }
  destruct y as [| y0 ys]; [congruence |].
  destruct (Hscan {| depth_counter := depth self; calls := [] |})
    as (st1 & Hrun).
  assert (Hrun' :
    _fit_node (S (length (y0 :: ys))) self X (y0 :: ys)
      {| depth_counter := depth self; calls := [] |}
    = Some (Raise IndexError, st1)).
  { rewrite _fit_node_S.
    rewrite (mbind_Ok_run _ _ _ {| depth_counter := depth self; calls := [] |} y0)
      by reflexivity.
    rewrite (not_pure_forallb _ y0 Hnp).
    replace (Z.of_nat (length (y0 :: ys)) <=? min_samples_split self)%Z
      with false by (symmetry; apply Z.leb_gt; exact Hsz).
    apply mbind_Raise. exact Hrun. }
  unfold fit, fit_traced. rewrite Hrun'. reflexivity.
Qed.

Lemma fit_too_few_feature_types_witness :
  fit (dt0 ["real"%string]) X3 y3 = Some (Raise IndexError).
Proof.
  apply (fit_too_few_feature_types ["real"%string] None 2 None).
  - reflexivity.
  - simpl. lia.
  - reflexivity.
  - exists 0%Z, 1%Z. simpl. repeat split; try tauto. discriminate.
  - simpl. lia.
Defined.

(* ===================================================================== *)
(** * The program in float64 and in exact arithmetic *)

Lemma find_best_split_from_exact (ind : list nat) (fv : list Q) (tv : list Z) :
  Over.find_best_split_from exact ind fv tv = find_best_split_from ind fv tv.
Proof. reflexivity. Qed.

Lemma find_best_split_exact (fv : list Q) (tv : list Z) :
  Over.find_best_split exact fv tv = find_best_split fv tv.
Proof. reflexivity. Qed.

Lemma split_sorted_exact (fs : list Q) (ts : list Z) :
  Over.split_sorted exact fs ts = split_sorted fs ts.
Proof. reflexivity. Qed.

Lemma take_Ok_gather {A : Type} (d : A) (v : list A) (ind : list nat) (w : list A) :
  np.take v ind = Ok w -> w = gather d v ind.
Proof.
  unfold np.take, gather. intros Ht. apply mapM_Forall2 in Ht.
  induction Ht as [| i a ind w Hi _ IH]; [reflexivity |].
  simpl. f_equal; [| exact IH].
  destruct (nth_error v i) as [x |] eqn:E; [| discriminate].
  injection Hi as <-. symmetry. apply nth_error_nth. exact E.
Qed.

Section OverFacts.

Variable ar : Num.arith.

Local Abbreviation num := (Num.num ar).
Local Abbreviation zero := (Num.of_int ar 0).

(** ** The vectors of the search, position by position *)

Lemma over_split_sorted_closed (fs : list num) (ts : list Z) :
  length fs = length ts -> ts <> [] ->
  Over.split_sorted ar fs ts =
  (ind_best <- Over.argmax ar (map (Over.gini_at ar ts) (Over.kept ar fs)) ;;
   threshold_best <-
     np.item (map (Over.midpoint_at ar fs) (Over.kept ar fs)) ind_best ;;
   gini_best <- np.item (map (Over.gini_at ar ts) (Over.kept ar fs)) ind_best ;;
   Ok (map (Over.midpoint_at ar fs) (Over.kept ar fs),
       map (Over.gini_at ar ts) (Over.kept ar fs),
       threshold_best, gini_best)).
Proof.
  intros Hlen Hne. unfold Over.split_sorted. cbv zeta.
  rewrite (zip_with_adjacent (fun a b => negb (Num.eq ar a b)) fs zero).
  rewrite (zip_with_adjacent
             (fun a b => Num.div ar (Num.add ar a b) (Num.of_int ar 2)) fs zero).
  rewrite bool_index_map, bind_Ok.
  unfold np.cumsum.
  rewrite last_item_cumsum_from by exact Hne.
  rewrite bind_Ok.
  rewrite removelast_cumsum_from, arange_1.
  rewrite <- Hlen.
  rewrite !map_map, !zip_with_map, !map_map, !zip_with_map.
  rewrite bool_index_map, bind_Ok.
  fold (Over.boundary_at ar fs). fold (Over.kept ar fs).
  fold (Over.midpoint_at ar fs).
  match goal with
  | |- context [Over.argmax ar (map ?F _)] =>
      assert (E : forall k, F k = Over.gini_at ar ts k)
  end.
  { intros k. unfold Over.gini_at. rewrite <- Hlen. cbv zeta.
    rewrite !Z.add_0_l. reflexivity. }
  rewrite (map_ext _ _ E). reflexivity.
Qed.

Lemma over_kept_lt (fs : list num) (k : nat) :
  In k (Over.kept ar fs) -> (S k < length fs)%nat.
Proof.
  unfold Over.kept. intros Hk. apply filter_In in Hk. destruct Hk as [Hk _].
  apply in_seq in Hk. lia.
Qed.

Lemma over_adjacent_pairs_seq (fs : list num) :
  Over.adjacent_pairs ar fs =
  map (fun k => (nth k fs zero, nth (S k) fs zero)) (seq 0 (length fs - 1)).
Proof.
  unfold Over.adjacent_pairs.
  induction fs as [| a fs IH]; [reflexivity |].
  destruct fs as [| b r]; [reflexivity |].
  change (combine (a :: b :: r) (tl (a :: b :: r)))
    with ((a, b) :: combine (b :: r) (tl (b :: r))).
  rewrite IH.
  replace (length (a :: b :: r) - 1)%nat with (S (length (b :: r) - 1))
    by (simpl; lia).
  rewrite <- cons_seq, <- seq_shift, map_cons, map_map. reflexivity.
Qed.

Lemma over_midpoints_kept (fs : list num) :
  map (Over.midpoint_at ar fs) (Over.kept ar fs) = Over.midpoints ar fs.
Proof.
  unfold Over.midpoints, Over.boundaries, Over.kept.
  rewrite over_adjacent_pairs_seq.
  rewrite filter_map_comm, map_map. reflexivity.
Qed.

Lemma over_boundaries_kept_length (fs : list num) :
  length (Over.boundaries ar fs) = length (Over.kept ar fs).
Proof.
  unfold Over.boundaries, Over.kept. rewrite over_adjacent_pairs_seq.
  rewrite filter_map_comm, length_map. reflexivity.
Qed.

Lemma over_split_positions_kept (fs : list num) :
  Over.split_positions ar fs = map S (Over.kept ar fs).
Proof.
  unfold Over.split_positions, Over.kept. rewrite <- seq_shift, filter_map_comm.
  f_equal. apply filter_ext. intros k. unfold Over.boundary_at.
  simpl. rewrite Nat.sub_0_r. reflexivity.
Qed.

(** The value at a position is the expression of the code on the labels
    below and above the position. *)
Lemma over_gini_at_criterion (ts : list Z) (k : nat) :
  (S k <= length ts)%nat ->
  Over.gini_at ar ts k = Over.criterion ar (firstn (S k) ts) (skipn (S k) ts).
Proof.
  intros Hk. unfold Over.gini_at, Over.criterion. cbv zeta.
  assert (E1 : Z.of_nat (length (firstn (S k) ts)) = Z.of_nat (S k))
    by (rewrite length_firstn; lia).
  assert (E2 : Z.of_nat (length (skipn (S k) ts))
               = (Z.of_nat (length ts) - Z.of_nat (S k))%Z)
    by (rewrite length_skipn; lia).
  assert (E3 : sumZ (skipn (S k) ts) = (sumZ ts - sumZ (firstn (S k) ts))%Z).
  { rewrite <- (firstn_skipn (S k) ts) at 2. rewrite sumZ_app. lia. }
  rewrite E1, E2, E3.
  replace (Z.of_nat (S k) + (Z.of_nat (length ts) - Z.of_nat (S k)))%Z
    with (Z.of_nat (length ts)) by lia.
  reflexivity.
Qed.

Lemma over_ginis_criterion (fs : list num) (ts : list Z) :
  length fs = length ts ->
  map (Over.gini_at ar ts) (Over.kept ar fs) =
  map (fun i => Over.criterion ar (firstn i ts) (skipn i ts))
      (Over.split_positions ar fs).
Proof.
  intros Hlen. rewrite over_split_positions_kept, map_map.
  apply map_ext_in. intros k Hk. apply over_gini_at_criterion.
  apply over_kept_lt in Hk. lia.
Qed.

(** ** np.argmax over an arithmetic *)

Lemma over_argmax_from_lt (v : list num) :
  forall best ib i, (ib < i)%nat ->
    (Over.argmax_from ar best ib i v < i + length v)%nat.
Proof.
  induction v as [| x v IH]; intros best ib i Hlt; simpl.
  - lia.
  - destruct (Num.lt ar best x).
    + specialize (IH x i (S i) ltac:(lia)). lia.
    + specialize (IH best ib (S i) ltac:(lia)). lia.
Qed.

Lemma over_argmax_lt (w : list num) (k : nat) :
  Over.argmax ar w = Ok k -> (k < length w)%nat.
Proof.
  destruct w as [| x v]; [discriminate |]. simpl. intros E. injection E as <-.
  pose proof (over_argmax_from_lt v x 0%nat 1%nat ltac:(lia)). lia.
Qed.

Lemma over_argmax_Ok (w : list num) :
  w <> [] -> exists k, Over.argmax ar w = Ok k.
Proof. destruct w; [congruence |]. intros _. eexists. reflexivity. Qed.

Section Order.

Variable w : list num.

Hypothesis asym : forall a b, In a w -> In b w ->
  Num.lt ar a b = true -> Num.lt ar b a = false.

Hypothesis cotrans : forall a b c, In a w -> In b w -> In c w ->
  Num.lt ar a c = true -> Num.lt ar a b = true \/ Num.lt ar b c = true.

Lemma order_trans (a b c : num) :
  In a w -> In b w -> In c w ->
  Num.lt ar a b = true -> Num.lt ar b c = true -> Num.lt ar a c = true.
Proof.
  intros Ha Hb Hc Hab Hbc.
  destruct (cotrans a c b Ha Hc Hb Hab) as [Hac | Hcb]; [exact Hac |].
  rewrite (asym c b Hc Hb Hcb) in Hbc. discriminate.
Qed.

Lemma order_irrefl (a : num) : In a w -> Num.lt ar a a = false.
Proof.
  intros Ha. destruct (Num.lt ar a a) eqn:E; [| reflexivity].
  rewrite (asym a a Ha Ha E) in E. discriminate.
Qed.

(** [m] at index [k] is the first greatest entry of [u]. *)
Let first_greatest (u : list num) (k : nat) (m : num) : Prop :=
  nth_error u k = Some m /\
  (forall j x, nth_error u j = Some x -> Num.lt ar m x = false) /\
  (forall j x, (j < k)%nat -> nth_error u j = Some x -> Num.lt ar x m = true).

Lemma over_argmax_from_first (v pre : list num) (best : num) (ib : nat) :
  (forall a, In a (pre ++ v) -> In a w) ->
  first_greatest pre ib best ->
  exists m, first_greatest (pre ++ v)
              (Over.argmax_from ar best ib (length pre) v) m.
Proof.
  revert pre best ib. induction v as [| x v IH]; intros pre best ib Hw Hfm.
  - exists best. rewrite app_nil_r. exact Hfm.
  - destruct Hfm as (Hk & Hmax & Hfirst).
    assert (Hib : (ib < length pre)%nat).
    { apply nth_error_Some. congruence. }
    assert (Hbest : In best w).
    { apply Hw, in_or_app. left. eapply nth_error_In. exact Hk. }
    assert (Hx : In x w) by (apply Hw, in_or_app; right; left; reflexivity).
    assert (Hpre : forall j y, nth_error pre j = Some y -> In y w).
    { intros j y Hj. apply Hw, in_or_app. left. eapply nth_error_In. exact Hj. }
    simpl. replace (pre ++ x :: v) with ((pre ++ [x]) ++ v) in *
      by (rewrite <- app_assoc; reflexivity).
    replace (S (length pre)) with (length (pre ++ [x]))
      by (rewrite length_app; simpl; lia).
    destruct (Num.lt ar best x) eqn:E.
    + apply IH; [exact Hw |]. repeat split.
      * rewrite nth_error_app2 by lia. rewrite Nat.sub_diag. reflexivity.
      * intros j y Hj. apply nth_error_snoc in Hj.
        destruct Hj as [[_ Hj] | [_ ->]]; [| apply order_irrefl; exact Hx].
        destruct (Num.lt ar x y) eqn:Exy; [| reflexivity].
        pose proof (Hmax j y Hj) as Hm.
        rewrite (order_trans best x y Hbest Hx (Hpre _ _ Hj) E Exy) in Hm.
        discriminate.
      * intros j y Hlt Hj. apply nth_error_snoc in Hj.
        destruct Hj as [[_ Hj] | [-> _]]; [| lia].
        destruct (cotrans best y x Hbest (Hpre _ _ Hj) Hx E) as [Hby | Hyx];
          [| exact Hyx].
        rewrite (Hmax j y Hj) in Hby. discriminate.
    + apply IH; [exact Hw |]. repeat split.
      * rewrite nth_error_app1 by exact Hib. exact Hk.
      * intros j y Hj. apply nth_error_snoc in Hj.
        destruct Hj as [[_ Hj] | [_ ->]]; [eapply Hmax; exact Hj | exact E].
      * intros j y Hlt Hj. apply nth_error_snoc in Hj.
        destruct Hj as [[_ Hj] | [-> _]]; [| lia].
        eapply Hfirst; eassumption.
Qed.

End Order.

Lemma over_argmax_first (w : list num) (k : nat) :
  (forall a b, In a w -> In b w ->
     Num.lt ar a b = true -> Num.lt ar b a = false) ->
  (forall a b c, In a w -> In b w -> In c w ->
     Num.lt ar a c = true -> Num.lt ar a b = true \/ Num.lt ar b c = true) ->
  Over.argmax ar w = Ok k ->
  exists m,
    nth_error w k = Some m /\
    (forall j x, nth_error w j = Some x -> Num.lt ar m x = false) /\
    (forall j x, (j < k)%nat -> nth_error w j = Some x -> Num.lt ar x m = true).
Proof.
  intros Hasym Hcot. destruct w as [| x v]; [discriminate |]. simpl. intros E.
  injection E as <-.
  destruct (over_argmax_from_first (x :: v) Hasym Hcot v [x] x 0) as [m Hm].
  - intros a Ha. exact Ha.
  - repeat split.
    + intros [| j] y Hj; simpl in Hj.
      * injection Hj as <-. apply (order_irrefl (x :: v) Hasym). left. reflexivity.
      * destruct j; discriminate.
    + intros j y Hlt. lia.
  - exists m. exact Hm.
Qed.

Lemma ordered_asym (w : list num) :
  Over.ordered ar w = true ->
  forall a b, In a w -> In b w -> Num.lt ar a b = true -> Num.lt ar b a = false.
Proof.
  unfold Over.ordered. intros Ho a b Ha Hb Hab.
  rewrite forallb_forall in Ho. specialize (Ho a Ha).
  rewrite forallb_forall in Ho. specialize (Ho b Hb).
  apply andb_prop in Ho. destruct Ho as [Ho _].
  rewrite Hab in Ho. simpl in Ho. apply negb_true_iff. exact Ho.
Qed.

Lemma ordered_cotrans (w : list num) :
  Over.ordered ar w = true ->
  forall a b c, In a w -> In b w -> In c w ->
    Num.lt ar a c = true -> Num.lt ar a b = true \/ Num.lt ar b c = true.
Proof.
  unfold Over.ordered. intros Ho a b c Ha Hb Hc Hac.
  rewrite forallb_forall in Ho. specialize (Ho a Ha).
  rewrite forallb_forall in Ho. specialize (Ho b Hb).
  apply andb_prop in Ho. destruct Ho as [_ Ho].
  rewrite forallb_forall in Ho. specialize (Ho c Hc).
  rewrite Hac in Ho. simpl in Ho. apply orb_prop in Ho. exact Ho.
Qed.

Lemma ascending_nth (w : list num) :
  Over.ascending ar w = true ->
  forall i j a b, (i <= j)%nat ->
    nth_error w i = Some a -> nth_error w j = Some b -> Num.lt ar b a = false.
Proof.
  induction w as [| x w IH]; intros Ha i j a b Hij Hi Hj.
  - destruct i; discriminate.
  - change (Over.ascending ar (x :: w))
      with (forallb (fun b => negb (Num.lt ar b x)) (x :: w)
            && Over.ascending ar w) in Ha.
    apply andb_prop in Ha. destruct Ha as [Hx Hw].
    destruct i as [| i].
    + simpl in Hi. injection Hi as <-.
      rewrite forallb_forall in Hx. apply negb_true_iff. apply Hx.
      eapply nth_error_In. exact Hj.
    + destruct j as [| j]; [lia |]. simpl in Hi, Hj.
      apply (IH Hw i j); [lia | assumption | assumption].
Qed.

(** ** What a returned search holds *)

Lemma over_find_best_split_from_inv (ind : list nat) (fv : list num)
    (tv : list Z) (ths gs : list num) (tb gb : num) :
  Over.find_best_split_from ar ind fv tv = Ok (ths, gs, tb, gb) ->
  length (gather zero fv ind) = length (gather 0%Z tv ind) /\
  ths = map (Over.midpoint_at ar (gather zero fv ind))
            (Over.kept ar (gather zero fv ind)) /\
  gs = map (Over.gini_at ar (gather 0%Z tv ind))
           (Over.kept ar (gather zero fv ind)) /\
  exists k,
    Over.argmax ar gs = Ok k /\
    nth_error ths k = Some tb /\ nth_error gs k = Some gb.
Proof.
  unfold Over.find_best_split_from. intros Hr.
  apply bind_Ok_inv in Hr. destruct Hr as (fs & Hfs & Hr).
  apply bind_Ok_inv in Hr. destruct Hr as (ts & Hts & Hr).
  pose proof (take_Ok_length _ _ _ Hfs) as Lfs.
  pose proof (take_Ok_length _ _ _ Hts) as Lts.
  apply (take_Ok_gather zero) in Hfs. apply (take_Ok_gather 0%Z) in Hts.
  subst fs ts.
  set (fs := gather zero fv ind) in *. set (ts := gather 0%Z tv ind) in *.
  assert (Hlen : length fs = length ts) by congruence.
  split; [exact Hlen |].
  assert (Hne : ts <> []).
  { intros E. rewrite E in Hlen, Hr. destruct fs; [| discriminate].
    discriminate. }
  rewrite (over_split_sorted_closed fs ts Hlen Hne) in Hr.
  apply bind_Ok_inv in Hr. destruct Hr as (k & Hk & Hr).
  apply bind_Ok_inv in Hr. destruct Hr as (t & Ht & Hr).
  apply bind_Ok_inv in Hr. destruct Hr as (g & Hg & Hr).
  injection Hr as <- <- <- <-.
  split; [reflexivity |]. split; [reflexivity |].
  exists k. split; [exact Hk |].
  unfold np.item in Ht, Hg.
  split.
  - destruct (nth_error (map (Over.midpoint_at ar fs) (Over.kept ar fs)) k)
      as [t0 |]; [| discriminate].
    simpl in Ht. injection Ht as ->. reflexivity.
  - destruct (nth_error (map (Over.gini_at ar ts) (Over.kept ar fs)) k)
      as [g0 |]; [| discriminate].
    simpl in Hg. injection Hg as ->. reflexivity.
Qed.

Lemma over_find_best_split_from_returns (ind : list nat) (fv : list num)
    (tv : list Z) :
  Permutation ind (seq 0 (length fv)) -> length fv = length tv ->
  Over.boundaries ar (gather zero fv ind) <> [] ->
  exists ths gs tb gb,
    Over.find_best_split_from ar ind fv tv = Ok (ths, gs, tb, gb).
Proof.
  intros Hp Hlen Hb.
  assert (Hlt : forall i, In i ind -> (i < length fv)%nat).
  { intros i Hi. apply (Permutation_in _ Hp) in Hi. apply in_seq in Hi. lia. }
  unfold Over.find_best_split_from.
  rewrite (take_gather zero fv ind) by exact Hlt.
  rewrite bind_Ok.
  rewrite (take_gather 0%Z tv ind)
    by (intros i Hi; specialize (Hlt i Hi); lia).
  rewrite bind_Ok.
  set (fs := gather zero fv ind) in *. set (ts := gather 0%Z tv ind).
  assert (Hl : length fs = length ts)
    by (unfold fs, ts, gather; rewrite !length_map; reflexivity).
  assert (Hk : Over.kept ar fs <> []).
  { intros E. apply Hb. apply length_zero_iff_nil.
    rewrite over_boundaries_kept_length, E. reflexivity. }
  assert (Hne : ts <> []).
  { intros E. rewrite E in Hl. destruct fs; [| discriminate].
    apply Hk. reflexivity. }
  rewrite (over_split_sorted_closed fs ts Hl Hne).
  destruct (over_argmax_Ok (map (Over.gini_at ar ts) (Over.kept ar fs)))
    as (k & Ek).
  { intros E. apply map_eq_nil in E. contradiction. }
  rewrite Ek, bind_Ok.
  pose proof (over_argmax_lt _ _ Ek) as Hklt. rewrite length_map in Hklt.
  unfold np.item.
  destruct (nth_error (map (Over.midpoint_at ar fs) (Over.kept ar fs)) k)
    as [t |] eqn:Et.
  2: { apply nth_error_None in Et. rewrite length_map in Et. lia. }
  destruct (nth_error (map (Over.gini_at ar ts) (Over.kept ar fs)) k)
    as [g |] eqn:Eg.
  2: { apply nth_error_None in Eg. rewrite length_map in Eg. lia. }
  simpl. eexists _, _, t, g. reflexivity.
Qed.

End OverFacts.

(* ===================================================================== *)
(** ** [find_best_split] in any arithmetic *)

Lemma criterion_exact (left right : list Z) :
  Forall binary left -> Forall binary right -> left <> [] -> right <> [] ->
  (Over.criterion exact left right : Q) == Q_criterion left right.
Proof.
  intros Hl Hr Hln Hrn.
  assert (Hk : (S (length left - 1) = length left)%nat).
  { destruct left; [congruence | simpl; lia]. }
  assert (Hrl : (0 < length right)%nat).
  { destruct right; [congruence | simpl; lia]. }
  pose proof (over_gini_at_criterion exact (left ++ right) (length left - 1)) as E.
  rewrite Hk in E.
  rewrite firstn_app, Nat.sub_diag, firstn_all, firstn_O, app_nil_r in E.
  rewrite skipn_app, Nat.sub_diag, skipn_all, skipn_O in E. simpl app in E.
  rewrite <- E by (rewrite length_app; lia).
  change (Over.gini_at exact (left ++ right) (length left - 1))
    with (gini_at (left ++ right) (length left - 1)).
  rewrite (gini_at_criterion (left ++ right) (length left - 1)).
  - rewrite Hk.
    rewrite firstn_app, Nat.sub_diag, firstn_all, firstn_O, app_nil_r.
    rewrite skipn_app, Nat.sub_diag, skipn_all, skipn_O. simpl app.
    reflexivity.
  - apply Forall_app. split; assumption.
  - rewrite length_app. lia.
Qed.

(** C1, amended: whatever the arithmetic, float64 included, and whatever
    index order sorts the samples, each gini value [find_best_split]
    returns is, for its candidate split position [i], the expression
    [(|left|/R) (p0^2 + p1^2 - 1) + (|right|/R) (q0^2 + q1^2 - 1)] of lines
    38-46 evaluated operation by operation on the labels of the first [i]
    sorted samples and of the rest.  In exact arithmetic, on binary labels,
    this expression is the criterion [Q] of the docstring; in float64 it
    is a rounded evaluation of it. *)
Theorem find_best_split_gini_criterion (ar : Num.arith) (ind : list nat)
    (fv : list (Num.num ar)) (tv : list Z) (ths gs : list (Num.num ar))
    (tb gb : Num.num ar) :
  Over.find_best_split_from ar ind fv tv = Ok (ths, gs, tb, gb) ->
  Over.find_best_split ar fv tv
    = Over.find_best_split_from ar (Over.argsort ar fv) fv tv /\
  gs = map (fun i => Over.criterion ar (firstn i (gather 0%Z tv ind))
                                       (skipn i (gather 0%Z tv ind)))
           (Over.split_positions ar (gather (Num.of_int ar 0) fv ind)) /\
  forall left right,
    Forall binary left -> Forall binary right -> left <> [] -> right <> [] ->
    (Over.criterion exact left right : Q) == Q_criterion left right.
Proof.
  intros Hr. split; [reflexivity |].
  destruct (over_find_best_split_from_inv ar _ _ _ _ _ _ _ Hr)
    as (Hlen & _ & Hgs & _).
  split; [| exact criterion_exact].
  rewrite Hgs. apply over_ginis_criterion. exact Hlen.
Qed.

Lemma find_best_split_gini_criterion_witness :
  exists ths gs tb gb,
    Over.find_best_split_from binary64 (Over.argsort binary64 fv8) fv8 tv8
      = Ok (ths, gs, tb, gb) /\
    Over.find_best_split binary64 fv8 tv8
      = Over.find_best_split_from binary64 (Over.argsort binary64 fv8) fv8 tv8 /\
    gs = map (fun i =>
                Over.criterion binary64
                  (firstn i (gather 0%Z tv8 (Over.argsort binary64 fv8)))
                  (skipn i (gather 0%Z tv8 (Over.argsort binary64 fv8))))
             (Over.split_positions binary64
                (gather (Num.of_int binary64 0) fv8 (Over.argsort binary64 fv8))) /\
    forall left right,
      Forall binary left -> Forall binary right -> left <> [] -> right <> [] ->
      (Over.criterion exact left right : Q) == Q_criterion left right.
Proof.
  eexists _, _, _, _. split.
  - vm_compute. reflexivity.
  - eapply (find_best_split_gini_criterion binary64 (Over.argsort binary64 fv8)
              fv8 tv8).
    vm_compute. reflexivity.
Defined.

(** In float64 the gini values are not the criterion itself.  On the
    feature values 1 to 8 with the labels [tv8], the splits after two and
    after six samples have the same criterion, yet the two gini values
    returned for them differ. *)
Lemma find_best_split_gini_rounded :
  exists ths gs tb gb g2 g6,
    Over.find_best_split binary64 fv8 tv8 = Ok (ths, gs, tb, gb) /\
    nth_error gs 1 = Some g2 /\ nth_error gs 5 = Some g6 /\
    Num.eq binary64 g2 g6 = false /\
    Q_criterion (firstn 2 tv8) (skipn 2 tv8)
    == Q_criterion (firstn 6 tv8) (skipn 6 tv8).
Proof.
  eexists _, _, _, _, _, _. split; [vm_compute; reflexivity |].
  split; [reflexivity |]. split; [reflexivity |].
  split; vm_compute; reflexivity.
Qed.

(** *** The order of the midpoints *)

Lemma chained_spec (ar : Num.arith) (w : list (Num.num ar)) :
  Over.chained ar w = true ->
  forall a, In a w ->
    Num.lt ar a a = false /\
    forall b, In b w ->
      (Num.le ar a b = true -> Num.lt ar b a = false) /\
      forall c, In c w ->
        Num.le ar a b = true -> Num.le ar b c = true -> Num.le ar a c = true.
Proof.
  unfold Over.chained. intros H a Ha.
  rewrite forallb_forall in H. specialize (H a Ha).
  apply andb_true_iff in H. destruct H as [Hirr H].
  split; [apply negb_true_iff; exact Hirr |].
  intros b Hb. rewrite forallb_forall in H. specialize (H b Hb).
  apply andb_true_iff in H. destruct H as [Hab H]. split.
  - intros Hle. rewrite Hle in Hab. simpl in Hab.
    apply negb_true_iff. exact Hab.
  - intros c Hc Hle1 Hle2. rewrite forallb_forall in H. specialize (H c Hc).
    rewrite Hle1, Hle2 in H. exact H.
Qed.

Lemma over_boundaries_cons2 (ar : Num.arith) (a b : Num.num ar)
    (r : list (Num.num ar)) :
  Over.boundaries ar (a :: b :: r)
  = (if negb (Num.eq ar b a) then [(a, b)] else [])
    ++ Over.boundaries ar (b :: r).
Proof.
  unfold Over.boundaries, Over.adjacent_pairs. simpl.
  destruct (negb (Num.eq ar b a)); reflexivity.
Qed.

Lemma over_boundaries_In (ar : Num.arith) (fs : list (Num.num ar))
    (p : Num.num ar * Num.num ar) :
  In p (Over.boundaries ar fs) -> In (fst p) fs.
Proof.
  unfold Over.boundaries, Over.adjacent_pairs. intros Hp.
  apply filter_In in Hp. destruct Hp as [Hp _]. destruct p as [c d].
  apply in_combine_l in Hp. exact Hp.
Qed.

(** Midpoints between their values, of a sorted list, do not descend. *)
Lemma over_midpoints_ascending (ar : Num.arith) (W fs : list (Num.num ar)) :
  Over.chained ar W = true ->
  incl fs W -> incl (Over.midpoints ar fs) W ->
  StronglySorted (fun a b => Num.le ar a b = true) fs ->
  Over.between ar fs = true ->
  Over.ascending ar (Over.midpoints ar fs) = true.
Proof.
  intros Hch. pose proof (chained_spec ar W Hch) as Hlaw.
  induction fs as [| a r IH]; intros HfW HmW Hs Hbt; [reflexivity |].
  destruct r as [| b r]; [reflexivity |].
  assert (Htail : Over.ascending ar (Over.midpoints ar (b :: r)) = true).
  { apply IH.
    - intros x Hx. apply HfW. right. exact Hx.
    - intros x Hx. apply HmW. unfold Over.midpoints in *.
      rewrite over_boundaries_cons2, map_app. apply in_or_app. right. exact Hx.
    - inversion Hs. assumption.
    - unfold Over.between in *. rewrite over_boundaries_cons2, forallb_app in Hbt.
      apply andb_true_iff in Hbt. apply Hbt. }
  clear IH.
  unfold Over.midpoints, Over.between in *. rewrite over_boundaries_cons2 in *.
  destruct (negb (Num.eq ar b a)); [| exact Htail].
  simpl app in *. rewrite map_cons in *. simpl fst in *. simpl snd in *.
  set (t := Num.div ar (Num.add ar b a) (Num.of_int ar 2)) in *.
  set (w := map (fun p => Num.div ar (Num.add ar (snd p) (fst p)) (Num.of_int ar 2))
                (Over.boundaries ar (b :: r))) in *.
  change (Over.ascending ar (t :: w))
    with (forallb (fun x => negb (Num.lt ar x t)) (t :: w) && Over.ascending ar w).
  rewrite Htail, andb_true_r.
  assert (HtW : In t W) by (apply HmW; left; reflexivity).
  assert (HbW : In b W) by (apply HfW; right; left; reflexivity).
  rewrite forallb_forall in Hbt.
  assert (Htb : Num.le ar t b = true).
  { specialize (Hbt (a, b) (or_introl eq_refl)). simpl in Hbt.
    apply andb_true_iff in Hbt. apply Hbt. }
  apply forallb_forall. intros x [<- | Hx].
  - apply negb_true_iff. exact (proj1 (Hlaw t HtW)).
  - apply negb_true_iff.
    assert (HxW : In x W) by (apply HmW; right; exact Hx).
    unfold w in Hx. apply in_map_iff in Hx. destruct Hx as ([c d] & <- & Hp).
    simpl fst in *. simpl snd in *.
    pose proof (over_boundaries_In ar _ _ Hp) as Hc. simpl in Hc.
    assert (Hcx : Num.le ar c (Num.div ar (Num.add ar d c) (Num.of_int ar 2)) = true).
    { specialize (Hbt (c, d) (or_intror Hp)). simpl in Hbt.
      apply andb_true_iff in Hbt. apply Hbt. }
    assert (Hbx : Num.le ar b (Num.div ar (Num.add ar d c) (Num.of_int ar 2)) = true).
    { destruct Hc as [<- | Hc]; [exact Hcx |].
      assert (Hbc : Num.le ar b c = true).
      { inversion Hs as [| ? ? Hs' _]. subst.
        inversion Hs' as [| ? ? _ Hall]. subst.
        rewrite Forall_forall in Hall. apply Hall. exact Hc. }
      assert (HcW : In c W) by (apply HfW; right; right; exact Hc).
      destruct (Hlaw b HbW) as [_ Hb2]. destruct (Hb2 c HcW) as [_ Hb3].
      apply (Hb3 _ HxW Hbc Hcx). }
    destruct (Hlaw t HtW) as [_ Ht2]. destruct (Ht2 b HbW) as [_ Ht3].
    pose proof (Ht3 _ HxW Htb Hbx) as Htx.
    destruct (Ht2 _ HxW) as [Hno _]. apply Hno. exact Htx.
Qed.

(** C2, amended: whatever the arithmetic, float64 included, for an index
    order [ind] that sorts the feature vector, and when two neighbours of
    the sorted vector differ, the search returns; its thresholds are, in
    the order of the sorted vector, the midpoints [(a + b) / 2] as the
    arithmetic computes them of the neighbours with different values, one
    for each such pair; and there are as many gini values as thresholds.
    The thresholds do not descend when every computed midpoint is at
    least the smaller and at most the larger of its two values (and [<=]
    is an order on the values at hand).  In exact arithmetic the
    thresholds are strictly ascending. *)
Theorem find_best_split_thresholds (ar : Num.arith) (ind : list nat)
    (fv : list (Num.num ar)) (tv : list Z) :
  Over.sorts ar ind fv -> length fv = length tv ->
  Over.boundaries ar (gather (Num.of_int ar 0) fv ind) <> [] ->
  Over.find_best_split ar fv tv
    = Over.find_best_split_from ar (Over.argsort ar fv) fv tv /\
  (exists ths gs tb gb,
     Over.find_best_split_from ar ind fv tv = Ok (ths, gs, tb, gb) /\
     ths = Over.midpoints ar (gather (Num.of_int ar 0) fv ind) /\
     length ths = length (Over.boundaries ar (gather (Num.of_int ar 0) fv ind)) /\
     length gs = length ths /\
     (Over.chained ar (gather (Num.of_int ar 0) fv ind ++ ths) = true ->
      Over.between ar (gather (Num.of_int ar 0) fv ind) = true ->
      Over.ascending ar ths = true)) /\
  forall fs : list Q,
    StronglySorted Qle fs -> StronglySorted Qlt (Over.midpoints exact fs).
Proof.
  intros [Hp Hs] Hlen Hb. split; [reflexivity |].
  split; [| exact midpoints_ascending].
  destruct (over_find_best_split_from_returns ar ind fv tv Hp Hlen Hb)
    as (ths & gs & tb & gb & Hr).
  exists ths, gs, tb, gb. split; [exact Hr |].
  destruct (over_find_best_split_from_inv ar _ _ _ _ _ _ _ Hr)
    as (_ & Hths & Hgs & _).
  rewrite over_midpoints_kept in Hths.
  split; [exact Hths |]. split; [| split].
  - rewrite Hths. unfold Over.midpoints. apply length_map.
  - rewrite Hgs, Hths, length_map. unfold Over.midpoints. rewrite length_map.
    symmetry. apply over_boundaries_kept_length.
  - intros Hch Hbt. rewrite Hths in *.
    apply (over_midpoints_ascending ar _ _ Hch).
    + apply incl_appl, incl_refl.
    + apply incl_appr, incl_refl.
    + exact Hs.
    + exact Hbt.
Qed.

Lemma find_best_split_thresholds_witness :
  (Over.find_best_split binary64 fv3 [0; 1; 0]%Z
     = Over.find_best_split_from binary64 (Over.argsort binary64 fv3) fv3
         [0; 1; 0]%Z /\
   (exists ths gs tb gb,
      Over.find_best_split_from binary64 [0; 1; 2]%nat fv3 [0; 1; 0]%Z
        = Ok (ths, gs, tb, gb) /\
      ths = Over.midpoints binary64
              (gather (Num.of_int binary64 0) fv3 [0; 1; 2]%nat) /\
      length ths
      = length (Over.boundaries binary64
                  (gather (Num.of_int binary64 0) fv3 [0; 1; 2]%nat)) /\
      length gs = length ths /\
      (Over.chained binary64
         (gather (Num.of_int binary64 0) fv3 [0; 1; 2]%nat ++ ths) = true ->
       Over.between binary64 (gather (Num.of_int binary64 0) fv3 [0; 1; 2]%nat)
         = true ->
       Over.ascending binary64 ths = true)) /\
   forall fs : list Q,
     StronglySorted Qle fs -> StronglySorted Qlt (Over.midpoints exact fs)) /\
  Over.argsort binary64 fv3 = [0; 1; 2]%nat /\
  Over.chained binary64 (fv3 ++ Over.midpoints binary64 fv3) = true /\
  Over.between binary64 fv3 = true.
Proof.
  split.
  - apply (find_best_split_thresholds binary64 [0; 1; 2]%nat fv3 [0; 1; 0]%Z).
    + split.
      * apply Permutation_refl.
      * repeat constructor.
    + reflexivity.
    + vm_compute. discriminate.
  - split; [vm_compute; reflexivity |].
    split; vm_compute; reflexivity.
Defined.

(** In float64 the thresholds need not be strictly ascending: three
    doubles in a row have two boundaries and one midpoint, returned
    twice. *)
Lemma find_best_split_thresholds_not_strict :
  exists gs tb gb,
    Over.find_best_split binary64 fv3 [0; 1; 0]%Z
      = Ok ([Doubles.above2; Doubles.above2], gs, tb, gb) /\
    length (Over.boundaries binary64 fv3) = 2%nat /\
    Num.lt binary64 Doubles.above2 Doubles.above2 = false.
Proof.
  eexists _, _, _. split; [vm_compute; reflexivity |].
  split; vm_compute; reflexivity.
Qed.

(** C3: whatever the arithmetic, float64 included, when [<] orders the
    gini values returned (in float64: when none is NaN), the thresholds
    returned are the midpoints of the neighbours with different values
    and the gini values those of the candidate positions; the best
    threshold and the best gini stand at one index [k] of the two lists;
    no gini value is greater than the best one, and every index whose
    gini value is not smaller than the best one is at or after [k];
    when the thresholds are ascending, none of these is below the best
    threshold. *)
Theorem find_best_split_first_argmax (ar : Num.arith) (ind : list nat)
    (fv : list (Num.num ar)) (tv : list Z) (ths gs : list (Num.num ar))
    (tb gb : Num.num ar) :
  Over.find_best_split_from ar ind fv tv = Ok (ths, gs, tb, gb) ->
  Over.ordered ar gs = true ->
  Over.ascending ar ths = true ->
  Over.find_best_split ar fv tv
    = Over.find_best_split_from ar (Over.argsort ar fv) fv tv /\
  ths = Over.midpoints ar (gather (Num.of_int ar 0) fv ind) /\
  gs = map (fun i => Over.criterion ar (firstn i (gather 0%Z tv ind))
                                       (skipn i (gather 0%Z tv ind)))
           (Over.split_positions ar (gather (Num.of_int ar 0) fv ind)) /\
  exists k,
    nth_error ths k = Some tb /\
    nth_error gs k = Some gb /\
    (forall j g, nth_error gs j = Some g -> Num.lt ar gb g = false) /\
    (forall j g t,
        nth_error gs j = Some g -> nth_error ths j = Some t ->
        Num.lt ar g gb = false ->
        (k <= j)%nat /\ Num.lt ar t tb = false).
Proof.
  intros Hr Hord Hasc. split; [reflexivity |].
  destruct (over_find_best_split_from_inv ar _ _ _ _ _ _ _ Hr)
    as (Hlen & Hths & Hgs & k & Hk & Ht & Hg).
  split; [rewrite Hths; apply over_midpoints_kept |].
  split; [rewrite Hgs; apply over_ginis_criterion; exact Hlen |].
  destruct (over_argmax_first ar gs k (ordered_asym ar gs Hord)
              (ordered_cotrans ar gs Hord) Hk) as (m & Hm & Hmax & Hfirst).
  rewrite Hg in Hm. injection Hm as <-.
  exists k. split; [exact Ht |]. split; [exact Hg |]. split; [exact Hmax |].
  intros j g t Hj Htj Hnot.
  assert (Hkj : (k <= j)%nat).
  { destruct (Nat.le_gt_cases k j) as [Hle | Hgt]; [exact Hle |].
    rewrite (Hfirst j g Hgt Hj) in Hnot. discriminate. }
  split; [exact Hkj |].
  exact (ascending_nth ar ths Hasc k j tb t Hkj Ht Htj).
Qed.

(** On the labels [tv8] float64 returns the threshold 6.5: the gini
    values of 2.5 and of 6.5, equal in exact arithmetic, are two doubles
    and that of 6.5 is the greater. *)
Lemma find_best_split_first_argmax_witness :
  exists ths gs tb gb,
    Over.find_best_split_from binary64 (Over.argsort binary64 fv8) fv8 tv8
      = Ok (ths, gs, tb, gb) /\
    tb = Num.div binary64 (Num.of_int binary64 13) (Num.of_int binary64 2) /\
    Over.find_best_split binary64 fv8 tv8
      = Over.find_best_split_from binary64 (Over.argsort binary64 fv8) fv8 tv8 /\
    ths = Over.midpoints binary64
            (gather (Num.of_int binary64 0) fv8 (Over.argsort binary64 fv8)) /\
    gs = map (fun i =>
                Over.criterion binary64
                  (firstn i (gather 0%Z tv8 (Over.argsort binary64 fv8)))
                  (skipn i (gather 0%Z tv8 (Over.argsort binary64 fv8))))
             (Over.split_positions binary64
                (gather (Num.of_int binary64 0) fv8 (Over.argsort binary64 fv8))) /\
    exists k,
      nth_error ths k = Some tb /\
      nth_error gs k = Some gb /\
      (forall j g, nth_error gs j = Some g -> Num.lt binary64 gb g = false) /\
      (forall j g t,
          nth_error gs j = Some g -> nth_error ths j = Some t ->
          Num.lt binary64 g gb = false ->
          (k <= j)%nat /\ Num.lt binary64 t tb = false).
Proof.
  eexists _, _, _, _. split; [vm_compute; reflexivity |].
  split; [vm_compute; reflexivity |].
  apply (find_best_split_first_argmax binary64 (Over.argsort binary64 fv8)
           fv8 tv8).
  - vm_compute. reflexivity.
  - vm_compute. reflexivity.
  - vm_compute. reflexivity.
Defined.

(* ===================================================================== *)
(** ** The candidates of [find_best_split], in any arithmetic *)

Lemma over_insert_by_length (ar : Num.arith) {A : Type} (key : A -> Num.num ar)
    (x : A) (l : list A) :
  length (Over.insert_by ar key x l) = S (length l).
Proof.
  induction l as [| y l IH]; simpl; [reflexivity |].
  destruct (Num.le ar (key x) (key y)); simpl; [reflexivity |].
  rewrite IH. reflexivity.
Qed.

Lemma over_sort_by_length (ar : Num.arith) {A : Type} (key : A -> Num.num ar)
    (l : list A) :
  length (Over.sort_by ar key l) = length l.
Proof.
  induction l as [| x l IH]; simpl; [reflexivity |].
  rewrite over_insert_by_length, IH. reflexivity.
Qed.

Lemma over_argsort_length (ar : Num.arith) (v : list (Num.num ar)) :
  length (Over.argsort ar v) = length v.
Proof.
  unfold Over.argsort.
  rewrite length_map, over_sort_by_length, length_combine, length_seq.
  apply Nat.min_id.
Qed.

Lemma over_kept_length (ar : Num.arith) (fs : list (Num.num ar)) :
  (length (Over.kept ar fs) <= length fs - 1)%nat.
Proof.
  unfold Over.kept.
  eapply Nat.le_trans; [apply filter_length_le |].
  rewrite length_seq. apply Nat.le_refl.
Qed.

(** X2: in any arithmetic, float64 included, a returned result has at
    least one candidate threshold and fewer candidates than samples, one
    gini per candidate, and its best threshold and best gini are taken
    from these two lists at one and the same position. *)
Theorem find_best_split_candidates (ar : Num.arith) (fv : list (Num.num ar))
    (tv : list Z) (ths gs : list (Num.num ar)) (tb gb : Num.num ar) :
  Over.find_best_split ar fv tv = Ok (ths, gs, tb, gb) ->
  (0 < length ths < length fv)%nat /\ length gs = length ths /\
  exists k, nth_error ths k = Some tb /\ nth_error gs k = Some gb.
Proof.
  unfold Over.find_best_split. intros Hr.
  destruct (over_find_best_split_from_inv ar _ _ _ _ _ _ _ Hr)
    as (_ & Hths & Hgs & k & _ & Ht & Hg).
  set (fs := gather (Num.of_int ar 0) fv (Over.argsort ar fv)) in *.
  assert (Lfs : length fs = length fv).
  { unfold fs, gather. rewrite length_map. apply over_argsort_length. }
  assert (Lths : length ths = length (Over.kept ar fs))
    by (rewrite Hths; apply length_map).
  assert (Lgs : length gs = length (Over.kept ar fs))
    by (rewrite Hgs; apply length_map).
  assert (Hk : (k < length ths)%nat) by (apply nth_error_Some; congruence).
  pose proof (over_kept_length ar fs) as Hle.
  split; [lia |]. split; [congruence |].
  exists k. split; assumption.
Qed.

Lemma find_best_split_candidates_witness :
  (0 < length [Doubles.above2; Doubles.above2] < length fv3)%nat /\
  length (map (Over.gini_at binary64 [0; 1; 0]%Z) [0; 1]%nat)
    = length [Doubles.above2; Doubles.above2] /\
  exists k,
    nth_error [Doubles.above2; Doubles.above2] k = Some Doubles.above2 /\
    nth_error (map (Over.gini_at binary64 [0; 1; 0]%Z) [0; 1]%nat) k
      = Some (Over.gini_at binary64 [0; 1; 0]%Z 0).
Proof.
  apply (find_best_split_candidates binary64 fv3 [0; 1; 0]%Z).
  vm_compute. reflexivity.
Defined.

(* ===================================================================== *)
(** ** Fitting in float64 *)

Lemma over_fit_node_S (ar : Num.arith) (fuel : nat) (self : Over.DecisionTree ar)
    (sub_X : Over.ndarray2 ar) (sub_y : list Z) :
  Over._fit_node ar (S fuel) self sub_X sub_y =
    (y0 <- Over.lift (np.item sub_y 0) ;;
     if forallb (fun y => Z.eqb y y0) sub_y then Over.ret (Over.Terminal ar y0)
     else if (Z.of_nat (length sub_y) <=? Over.min_samples_split ar self)%Z then
       c <- Over.lift (most_common1 Z.eqb sub_y) ;;
       Over.ret (Over.Terminal ar c)
     else
       found <- Over.scan ar self sub_X sub_y (seq 0 (Over.shape1 ar sub_X)) None ;;
       match found with
       | None =>
           c <- Over.lift (most_common1 Z.eqb sub_y) ;;
           Over.ret (Over.Terminal ar c)
       | Some b =>
           feature_type <-
             Over.lift (np.item (Over.feature_types ar self)
                                (Over.feature_best ar b)) ;;
           Over.lift (check_feature_type feature_type) ;;;
           Over.incr_depth ;;;
           left_X <- Over.lift (Over.row_index ar sub_X (Over.split ar b)) ;;
           left_y <- Over.lift (np.bool_index sub_y (Over.split ar b)) ;;
           left_child <- Over._fit_node ar fuel self left_X left_y ;;
           right_X <-
             Over.lift (Over.row_index ar sub_X (map negb (Over.split ar b))) ;;
           right_y <- Over.lift (np.bool_index sub_y (map negb (Over.split ar b))) ;;
           right_child <- Over._fit_node ar fuel self right_X right_y ;;
           Over.ret (Over.Nonterminal ar (Over.feature_best ar b)
                       (Over.threshold_best ar b) left_child right_child)
       end)%over.
Proof. reflexivity. Qed.

(** A node whose split leaves every sample on the left is fitted by
    fitting the same samples again. *)
Lemma over_fit_node_same_left (ar : Num.arith) (fuel : nat)
    (self : Over.DecisionTree ar) (X : Over.ndarray2 ar) (y : list Z) (y0 : Z)
    (b : Over.best ar) (ft : string) (d : Z) :
  np.item y 0 = Ok y0 ->
  forallb (fun v => Z.eqb v y0) y = false ->
  (Z.of_nat (length y) <=? Over.min_samples_split ar self)%Z = false ->
  Over.scan ar self X y (seq 0 (Over.shape1 ar X)) None d = Some (Ok (Some b), d) ->
  np.item (Over.feature_types ar self) (Over.feature_best ar b) = Ok ft ->
  check_feature_type ft = Ok tt ->
  Over.row_index ar X (Over.split ar b) = Ok X ->
  np.bool_index y (Over.split ar b) = Ok y ->
  Over._fit_node ar fuel self X y (d + 1)%Z = None ->
  Over._fit_node ar (S fuel) self X y d = None.
Proof.
  intros Hy0 Hnp Hsz Hscan Hft Hck HX Hy Hrec.
  rewrite over_fit_node_S. unfold Over.mbind at 1. unfold Over.lift at 1.
  rewrite Hy0, Hnp, Hsz.
  unfold Over.mbind at 1. rewrite Hscan.
  unfold Over.mbind at 1. unfold Over.lift at 1. rewrite Hft.
  unfold Over.mbind at 1. unfold Over.lift at 1. rewrite Hck.
  unfold Over.mbind at 1. unfold Over.incr_depth.
  unfold Over.mbind at 1. unfold Over.lift at 1. rewrite HX.
  unfold Over.mbind at 1. unfold Over.lift at 1. rewrite Hy.
  unfold Over.mbind at 1. rewrite Hrec. reflexivity.
Qed.

(** C10: the code does not keep the thresholds strictly between two
    feature values.  On [1.0] and the double that follows it, float64
    gives the midpoint [1.0]: the threshold returned is the smaller value,
    no sample is below it, the left child gets no sample and [fit] raises
    [IndexError] at [sub_y[0]].  On [2^1023] and one and a half times as
    much the midpoint is infinite, every sample is below it, and
    [_fit_node] fits the same samples again without end: no fuel makes it
    return. *)
Theorem fit_node_improper_split :
  (exists ths gs gb,
      Over.find_best_split binary64 (Over.column binary64 X_adjacent 0) [0; 1; 0]%Z
        = Ok (ths, gs, binary64_of_int 1, gb) /\
      map (fun v => Num.lt binary64 v (binary64_of_int 1))
          (Over.column binary64 X_adjacent 0) = [false; false; false]) /\
  Over.fit binary64 (Over.dt0 binary64 ["real"%string]) X_adjacent [0; 1; 0]%Z
    = Some (Raise IndexError) /\
  (exists ths gs gb,
      Over.find_best_split binary64 (Over.column binary64 X_huge 0) [0; 1; 0]%Z
        = Ok (ths, gs, PrimFloat.infinity, gb) /\
      map (fun v => Num.lt binary64 v PrimFloat.infinity)
          (Over.column binary64 X_huge 0) = [true; true; true]) /\
  forall fuel d,
    Over._fit_node binary64 fuel (Over.dt0 binary64 ["real"%string]) X_huge
      [0; 1; 0]%Z d = None.
Proof.
  split; [eexists _, _, _; split; vm_compute; reflexivity |].
  split; [vm_compute; reflexivity |].
  split; [eexists _, _, _; split; vm_compute; reflexivity |].
  induction fuel as [| fuel IH]; intros d; [reflexivity |].
  eapply (over_fit_node_same_left binary64 fuel _ X_huge [0; 1; 0]%Z 0%Z).
  - reflexivity.
  - reflexivity.
  - reflexivity.
  - vm_compute. reflexivity.
  - reflexivity.
  - reflexivity.
  - vm_compute. reflexivity.
  - reflexivity.
  - apply IH.
Qed.
